(** * Radiation-packet propagation core of ARTIS: a shallow embedding

    The development follows [rpkt.cc] (the packet stepper, the event-distance
    solver, the sorted-linelist search, the continuum opacity kernel and the
    event handlers) together with the older version of the same file, and
    proves the properties of the design document over that embedding.

    Conventions.
    - A C [double] is a rational number ([Q]): every finite double is one,
      comparisons are exact and the field operations are the ideal ones
      (rounding and NaN are outside the model; a value whose magnitude
      exceeds [DBL_MAX] stands for an infinity).  [emitt_rpkt] takes a
      square root, so it is written over an arithmetic dictionary and is
      also read over the real numbers.
    - A C [int] is an integer ([Z]); no index computed here comes near the
      32-bit range.
    - Reading or writing an array outside its bounds is undefined behaviour
      in C; the embedding answers [Undefined] (or [None]) there.
    - A [while (true)] loop runs on an iteration budget; [OutOfFuel] says the
      budget was used up, and is shown never to happen.
    - [abort()] and a failed [assert_always] are results of their own
      ([Fatal]).
    - [printout] and the [stats::increment] counters are diagnostics and are
      left out; calls into other components are recorded in a trace.

    Part I holds the embedding, Part II the lemmas and theorems. *)

From Stdlib Require Import ZArith QArith Qabs List Bool Lia Psatz Reals.
Import ListNotations.

Local Open Scope Z_scope.

(** * Part I: the embedding *)

(** ** Doubles as rationals *)

Definition Qltb (a b : Q) : bool := negb (Qle_bool b a).
Definition Qgtb (a b : Q) : bool := Qltb b a.
Definition Qgeb (a b : Q) : bool := Qle_bool b a.

(** [std::numeric_limits<double>::max()], the largest finite double. *)
Definition DBL_MAX : Q := inject_Z (2 ^ 1024 - 2 ^ 971).

(** [std::isfinite]. *)
Definition isfinite (x : Q) : bool := Qle_bool (Qabs x) DBL_MAX.

(** ** Results of fallible code *)

Inductive fatal : Type :=
| Assert_ldist                 (* get_event: assert_always(ldist >= -100.) *)
| Assert_kappa_bf_sum          (* rpkt_event_continuum: kappa_bf_sum[nbfcontinua - 1] == kappa_bf_inrest *)
| Assert_allcontindex          (* rpkt_event_continuum: allcontindex < nbfcontinua *)
| Abort_continuum_process      (* rpkt_event_continuum: "could not continuum process" *)
| Assert_unit_vector           (* emitt_rpkt: fabs(vec_len(dir) - 1.) < 1.e-8 *)
| Abort_large_sdist            (* do_rpkt_step: "Unreasonably large sdist" *)
| Abort_inappropriate_cell     (* do_rpkt_step: "Heading for inappropriate grid cell" *)
| Assert_tdist                 (* do_rpkt_step: assert_always(tdist >= 0) *)
| Assert_edist                 (* do_rpkt_step: assert_always(edist >= 0) *)
| Assert_eventtype             (* do_rpkt_step: assert_always(false) on an unknown event type *)
| Abort_event_unidentified     (* do_rpkt_step: "Failed to identify event" *)
| Assert_not_empty_cell        (* calculate_kappa_rpkt_cont: modelgridindex != get_npts_model() *)
| Assert_not_thick_cell        (* calculate_kappa_rpkt_cont: thick != 1 *)
| Assert_nu_positive           (* calculate_kappa_ff: nu > 0. *)
| Abort_kappa_ff_nonfinite     (* calculate_kappa_ff *)
| Abort_kappa_bf_contr_nonfinite (* calculate_kappa_bf_gammacontr *)
| Abort_kappa_nonfinite.       (* calculate_kappa_rpkt_cont: total and es both non-finite *)

Inductive result (A : Type) : Type :=
| Ok (a : A)
| Fatal (f : fatal)
| Undefined
| OutOfFuel.      (* a loop of the embedding used up its iteration budget *)

Arguments Ok {A} a.
Arguments Fatal {A} f.
Arguments Undefined {A}.
Arguments OutOfFuel {A}.

Definition bind {A B : Type} (r : result A) (k : A -> result B) : result B :=
  match r with
  | Ok a => k a
  | Fatal f => Fatal f
  | Undefined => Undefined
  | OutOfFuel => OutOfFuel
  end.

Notation "x <- e ;; k" := (bind e (fun x => k))
  (at level 61, e at next level, right associativity).
Notation "' p <- e ;; k" := (bind e (fun x => let 'p := x in k))
  (at level 61, p pattern, e at next level, right associativity).

(** [assert_always(e)] *)
Definition assert_always (e : bool) (f : fatal) : result unit :=
  if e then Ok tt else Fatal f.

Definition defined {A : Type} (o : option A) : result A :=
  match o with Some a => Ok a | None => Undefined end.

(** ** Arrays *)

(** [idx a i] is the C expression [a[i]]: defined only inside the array. *)
Definition idx {A : Type} (a : list A) (i : Z) : option A :=
  if i <? 0 then None else nth_error a (Z.to_nat i).

Definition len {A : Type} (a : list A) : Z := Z.of_nat (length a).

Fixpoint upd_nat {A : Type} (a : list A) (n : nat) (v : A) : list A :=
  match a, n with
  | [], _ => []
  | _ :: t, O => v :: t
  | h :: t, S n' => h :: upd_nat t n' v
  end.

(** [upd a i v] is the assignment [a[i] = v]. *)
Definition upd {A : Type} (a : list A) (i : Z) (v : A) : option (list A) :=
  if (0 <=? i) && (i <? len a) then Some (upd_nat a (Z.to_nat i) v) else None.

(** [std::lower_bound(first, last, val, comp)] on the array [a], with the
    iterators given as indices: the loop of the standard library's
    implementation, which halves the remaining length [n].  It returns the
    final [first].  The fuel is the number of loop iterations allowed; the
    remaining length shrinks at every iteration, so [Z.to_nat n] is always
    enough ([lower_bound_loop_fuel]). *)
Fixpoint lower_bound_loop {A : Type} (a : list A) (comp : A -> Q -> bool)
    (fuel : nat) (first n : Z) (val : Q) : option Z :=
  if n >? 0 then
    match fuel with
    | O => None
    | S fuel' =>
        let half := Z.shiftr n 1 in
        let middle := first + half in
        match idx a middle with
        | None => None
        | Some x =>
            if comp x val
            then lower_bound_loop a comp fuel' (middle + 1) (n - half - 1) val
            else lower_bound_loop a comp fuel' first half val
        end
    end
  else Some first.

Definition lower_bound {A : Type} (a : list A) (comp : A -> Q -> bool)
    (first last : Z) (val : Q) : option Z :=
  lower_bound_loop a comp (Z.to_nat (last - first)) first (last - first) val.

(** The range is partitioned with respect to [comp _ val]: the elements for
    which it holds come first. *)
Definition partitioned {A : Type} (a : list A) (comp : A -> Q -> bool) (val : Q) : Prop :=
  forall i j x y, i <= j -> idx a i = Some x -> idx a j = Some y ->
    comp y val = true -> comp x val = true.

(** ** The sorted line list *)

Record linelist_entry := mk_line {
  nu : Q;
  elementindex : Z;
  ionindex : Z;
  upperlevelindex : Z;
  lowerlevelindex : Z
}.

(** [operator<(const linelist_entry &line, const double &nu_cmf)] *)
Definition line_lt (line : linelist_entry) (nu_cmf : Q) : bool :=
  negb (Qle_bool (nu line) nu_cmf).

(** [globals::linelist] is ordered by descending frequency. *)
Definition sorted_desc (linelist : list linelist_entry) : Prop :=
  forall i j a b, i <= j -> idx linelist i = Some a -> idx linelist j = Some b ->
    (nu b <= nu a)%Q.

Definition strictly_sorted_desc (linelist : list linelist_entry) : Prop :=
  forall i j a b, i < j -> idx linelist i = Some a -> idx linelist j = Some b ->
    (nu b < nu a)%Q.

Fixpoint adjacentb (r : linelist_entry -> linelist_entry -> bool)
    (l : list linelist_entry) : bool :=
  match l with
  | a :: ((b :: _) as t) => r a b && adjacentb r t
  | _ => true
  end.

(** A decision procedure for [strictly_sorted_desc]. *)
Definition strictly_sorted_descb (l : list linelist_entry) : bool :=
  adjacentb (fun a b => Qltb (nu b) (nu a)) l.

Section LineSearch.

Variable linelist : list linelist_entry.

(** [globals::nlines] is the length of [globals::linelist]. *)
Definition nlines : Z := len linelist.

(** [closest_transition] of [rpkt.cc]. *)
Definition closest_transition (nu_cmf : Q) (next_trans : Z) : option Z :=
  let left := next_trans in
  let right := nlines - 1 in
  match idx linelist right with
  | None => None
  | Some reddest =>
      if Qltb nu_cmf (nu reddest) then Some (-1)
      else if left >? right then Some (-1)
      else if left >? 0 then Some left
      else
        match idx linelist 0 with
        | None => None
        | Some bluest =>
            if Qgeb nu_cmf (nu bluest) then Some 0
            else lower_bound linelist line_lt next_trans nlines nu_cmf
        end
  end.

(** [first_redder nu_cmf r]: [r] is the lowest index whose line is not bluer
    than [nu_cmf]. *)
Definition first_redder (nu_cmf : Q) (r : Z) : Prop :=
  (forall j x, 0 <= j < r -> idx linelist j = Some x -> (nu_cmf < nu x)%Q) /\
  (forall j x, r <= j < nlines -> idx linelist j = Some x -> (nu x <= nu_cmf)%Q).

End LineSearch.

(** The older version of the file searches with a hand-written loop. *)
Module Legacy.
Section LineSearch.

Variable linelist : list linelist_entry.

(** The [while (left <= right)] loop; [middle] is the loop's third variable,
    returned as the match when the loop ends. *)
Fixpoint search_loop (fuel : nat) (nu_cmf : Q) (left right middle : Z) : option Z :=
  if left <=? right then
    match fuel with
    | O => None
    | S fuel' =>
        let middle := left + Z.quot (right - left) 2 in
        match idx linelist middle with
        | None => None
        | Some lm =>
            if Qgeb nu_cmf (nu lm) then
              match idx linelist (middle - 1) with
              | None => None
              | Some lp =>
                  if Qltb nu_cmf (nu lp) then Some middle
                  else search_loop fuel' nu_cmf left (middle - 1) middle
              end
            else search_loop fuel' nu_cmf (middle + 1) right middle
        end
    end
  else Some middle.

Definition closest_transition (nu_cmf : Q) (next_trans : Z) : option Z :=
  let left := next_trans in
  let right := nlines linelist - 1 in
  let middle := 1 in
  match idx linelist right with
  | None => None
  | Some reddest =>
      if Qltb nu_cmf (nu reddest) then Some (-1)
      else if left >? right then Some (-1)
      else if left >? 0 then Some left
      else
        match idx linelist 0 with
        | None => None
        | Some bluest =>
            if Qgeb nu_cmf (nu bluest) then Some 0
            else search_loop (Z.to_nat (right - left + 1)) nu_cmf left right middle
        end
  end.

End LineSearch.
End Legacy.

(** ** Arithmetic, vectors and packets

    The packet record and the vector helpers are written once over a number
    type [num] with its operations, so that the same text is read over the
    rationals (everywhere) and over the reals (for [emitt_rpkt]). *)

Record arith (num : Type) : Type := mk_arith {
  a_lit : Q -> num;               (* a floating-point literal *)
  a_add : num -> num -> num;
  a_sub : num -> num -> num;
  a_mul : num -> num -> num;
  a_div : num -> num -> num;
  a_ltb : num -> num -> bool;     (* the comparison [<] *)
  a_fabs : num -> num;
  a_sqrt : num -> num
}.

Arguments a_lit {num} _ _.
Arguments a_add {num} _ _ _.
Arguments a_sub {num} _ _ _.
Arguments a_mul {num} _ _ _.
Arguments a_div {num} _ _ _.
Arguments a_ltb {num} _ _ _.
Arguments a_fabs {num} _ _.
Arguments a_sqrt {num} _ _.

Definition vec (num : Type) : Type := (num * num * num)%type.

(** [#define]s of the packet types and of the cell faces that the propagation
    code mentions; [TYPE_OTHER] stands for the remaining packet types. *)
Inductive packet_type : Type :=
| TYPE_ESCAPE | TYPE_GAMMA | TYPE_RPKT | TYPE_KPKT | TYPE_MA | TYPE_OTHER (code : Z).

Inductive cell_boundary : Type :=
| NEG_X | POS_X | NEG_Y | POS_Y | NEG_Z | POS_Z | NONE.

Definition packet_type_eqb (a b : packet_type) : bool :=
  match a, b with
  | TYPE_ESCAPE, TYPE_ESCAPE | TYPE_GAMMA, TYPE_GAMMA | TYPE_RPKT, TYPE_RPKT
  | TYPE_KPKT, TYPE_KPKT | TYPE_MA, TYPE_MA => true
  | TYPE_OTHER x, TYPE_OTHER y => x =? y
  | _, _ => false
  end.

(** [pkt_ptr->mastate] *)
Record mastate_t : Type := mk_mastate {
  element : Z;
  ion : Z;
  level : Z;
  activatingline : Z
}.

Section Packet.

Variable num : Type.

(** [struct packet], with the fields the propagation code reads or writes;
    [where_] is the field [where]. *)

Record packet : Type := mk_packet {
  pos : vec num;
  dir : vec num;
  nu_rf : num;
  nu_cmf : num;
  e_rf : num;
  e_cmf : num;
  prop_time : num;
  where_ : Z;
  last_cross : cell_boundary;
  next_trans : Z;
  type : packet_type;
  stokes : vec num;
  pol_dir : vec num;
  mastate : mastate_t;
  absorptiontype : Z;
  absorptionfreq : num;
  absorptiondir : vec num;
  interactions : Z;
  nscatterings : Z;
  scat_count : Z;
  last_event : Z;
  em_pos : vec num;
  em_time : num;
  escape_type : packet_type;
  escape_time : num
}.

Definition set_pos (v : vec num) (p : packet) : packet :=
  {| pos := v; dir := dir p; nu_rf := nu_rf p; nu_cmf := nu_cmf p; e_rf := e_rf p; e_cmf :=
     e_cmf p; prop_time := prop_time p; where_ := where_ p; last_cross := last_cross p;
     next_trans := next_trans p; type := type p; stokes := stokes p; pol_dir := pol_dir p;
     mastate := mastate p; absorptiontype := absorptiontype p; absorptionfreq := absorptionfreq
     p; absorptiondir := absorptiondir p; interactions := interactions p; nscatterings :=
     nscatterings p; scat_count := scat_count p; last_event := last_event p; em_pos := em_pos p;
     em_time := em_time p; escape_type := escape_type p; escape_time := escape_time p |}.

Definition set_dir (v : vec num) (p : packet) : packet :=
  {| pos := pos p; dir := v; nu_rf := nu_rf p; nu_cmf := nu_cmf p; e_rf := e_rf p; e_cmf :=
     e_cmf p; prop_time := prop_time p; where_ := where_ p; last_cross := last_cross p;
     next_trans := next_trans p; type := type p; stokes := stokes p; pol_dir := pol_dir p;
     mastate := mastate p; absorptiontype := absorptiontype p; absorptionfreq := absorptionfreq
     p; absorptiondir := absorptiondir p; interactions := interactions p; nscatterings :=
     nscatterings p; scat_count := scat_count p; last_event := last_event p; em_pos := em_pos p;
     em_time := em_time p; escape_type := escape_type p; escape_time := escape_time p |}.

Definition set_nu_rf (v : num) (p : packet) : packet :=
  {| pos := pos p; dir := dir p; nu_rf := v; nu_cmf := nu_cmf p; e_rf := e_rf p; e_cmf :=
     e_cmf p; prop_time := prop_time p; where_ := where_ p; last_cross := last_cross p;
     next_trans := next_trans p; type := type p; stokes := stokes p; pol_dir := pol_dir p;
     mastate := mastate p; absorptiontype := absorptiontype p; absorptionfreq := absorptionfreq
     p; absorptiondir := absorptiondir p; interactions := interactions p; nscatterings :=
     nscatterings p; scat_count := scat_count p; last_event := last_event p; em_pos := em_pos p;
     em_time := em_time p; escape_type := escape_type p; escape_time := escape_time p |}.

Definition set_nu_cmf (v : num) (p : packet) : packet :=
  {| pos := pos p; dir := dir p; nu_rf := nu_rf p; nu_cmf := v; e_rf := e_rf p; e_cmf := e_cmf
     p; prop_time := prop_time p; where_ := where_ p; last_cross := last_cross p; next_trans :=
     next_trans p; type := type p; stokes := stokes p; pol_dir := pol_dir p; mastate := mastate
     p; absorptiontype := absorptiontype p; absorptionfreq := absorptionfreq p; absorptiondir :=
     absorptiondir p; interactions := interactions p; nscatterings := nscatterings p; scat_count
     := scat_count p; last_event := last_event p; em_pos := em_pos p; em_time := em_time p;
     escape_type := escape_type p; escape_time := escape_time p |}.

Definition set_e_rf (v : num) (p : packet) : packet :=
  {| pos := pos p; dir := dir p; nu_rf := nu_rf p; nu_cmf := nu_cmf p; e_rf := v; e_cmf :=
     e_cmf p; prop_time := prop_time p; where_ := where_ p; last_cross := last_cross p;
     next_trans := next_trans p; type := type p; stokes := stokes p; pol_dir := pol_dir p;
     mastate := mastate p; absorptiontype := absorptiontype p; absorptionfreq := absorptionfreq
     p; absorptiondir := absorptiondir p; interactions := interactions p; nscatterings :=
     nscatterings p; scat_count := scat_count p; last_event := last_event p; em_pos := em_pos p;
     em_time := em_time p; escape_type := escape_type p; escape_time := escape_time p |}.

Definition set_e_cmf (v : num) (p : packet) : packet :=
  {| pos := pos p; dir := dir p; nu_rf := nu_rf p; nu_cmf := nu_cmf p; e_rf := e_rf p; e_cmf
     := v; prop_time := prop_time p; where_ := where_ p; last_cross := last_cross p; next_trans
     := next_trans p; type := type p; stokes := stokes p; pol_dir := pol_dir p; mastate :=
     mastate p; absorptiontype := absorptiontype p; absorptionfreq := absorptionfreq p;
     absorptiondir := absorptiondir p; interactions := interactions p; nscatterings :=
     nscatterings p; scat_count := scat_count p; last_event := last_event p; em_pos := em_pos p;
     em_time := em_time p; escape_type := escape_type p; escape_time := escape_time p |}.

Definition set_prop_time (v : num) (p : packet) : packet :=
  {| pos := pos p; dir := dir p; nu_rf := nu_rf p; nu_cmf := nu_cmf p; e_rf := e_rf p; e_cmf
     := e_cmf p; prop_time := v; where_ := where_ p; last_cross := last_cross p; next_trans :=
     next_trans p; type := type p; stokes := stokes p; pol_dir := pol_dir p; mastate := mastate
     p; absorptiontype := absorptiontype p; absorptionfreq := absorptionfreq p; absorptiondir :=
     absorptiondir p; interactions := interactions p; nscatterings := nscatterings p; scat_count
     := scat_count p; last_event := last_event p; em_pos := em_pos p; em_time := em_time p;
     escape_type := escape_type p; escape_time := escape_time p |}.

Definition set_where_ (v : Z) (p : packet) : packet :=
  {| pos := pos p; dir := dir p; nu_rf := nu_rf p; nu_cmf := nu_cmf p; e_rf := e_rf p; e_cmf
     := e_cmf p; prop_time := prop_time p; where_ := v; last_cross := last_cross p; next_trans :=
     next_trans p; type := type p; stokes := stokes p; pol_dir := pol_dir p; mastate := mastate
     p; absorptiontype := absorptiontype p; absorptionfreq := absorptionfreq p; absorptiondir :=
     absorptiondir p; interactions := interactions p; nscatterings := nscatterings p; scat_count
     := scat_count p; last_event := last_event p; em_pos := em_pos p; em_time := em_time p;
     escape_type := escape_type p; escape_time := escape_time p |}.

Definition set_last_cross (v : cell_boundary) (p : packet) : packet :=
  {| pos := pos p; dir := dir p; nu_rf := nu_rf p; nu_cmf := nu_cmf p; e_rf := e_rf p; e_cmf
     := e_cmf p; prop_time := prop_time p; where_ := where_ p; last_cross := v; next_trans :=
     next_trans p; type := type p; stokes := stokes p; pol_dir := pol_dir p; mastate := mastate
     p; absorptiontype := absorptiontype p; absorptionfreq := absorptionfreq p; absorptiondir :=
     absorptiondir p; interactions := interactions p; nscatterings := nscatterings p; scat_count
     := scat_count p; last_event := last_event p; em_pos := em_pos p; em_time := em_time p;
     escape_type := escape_type p; escape_time := escape_time p |}.

Definition set_next_trans (v : Z) (p : packet) : packet :=
  {| pos := pos p; dir := dir p; nu_rf := nu_rf p; nu_cmf := nu_cmf p; e_rf := e_rf p; e_cmf
     := e_cmf p; prop_time := prop_time p; where_ := where_ p; last_cross := last_cross p;
     next_trans := v; type := type p; stokes := stokes p; pol_dir := pol_dir p; mastate :=
     mastate p; absorptiontype := absorptiontype p; absorptionfreq := absorptionfreq p;
     absorptiondir := absorptiondir p; interactions := interactions p; nscatterings :=
     nscatterings p; scat_count := scat_count p; last_event := last_event p; em_pos := em_pos p;
     em_time := em_time p; escape_type := escape_type p; escape_time := escape_time p |}.

Definition set_type (v : packet_type) (p : packet) : packet :=
  {| pos := pos p; dir := dir p; nu_rf := nu_rf p; nu_cmf := nu_cmf p; e_rf := e_rf p; e_cmf
     := e_cmf p; prop_time := prop_time p; where_ := where_ p; last_cross := last_cross p;
     next_trans := next_trans p; type := v; stokes := stokes p; pol_dir := pol_dir p; mastate :=
     mastate p; absorptiontype := absorptiontype p; absorptionfreq := absorptionfreq p;
     absorptiondir := absorptiondir p; interactions := interactions p; nscatterings :=
     nscatterings p; scat_count := scat_count p; last_event := last_event p; em_pos := em_pos p;
     em_time := em_time p; escape_type := escape_type p; escape_time := escape_time p |}.

Definition set_stokes (v : vec num) (p : packet) : packet :=
  {| pos := pos p; dir := dir p; nu_rf := nu_rf p; nu_cmf := nu_cmf p; e_rf := e_rf p; e_cmf
     := e_cmf p; prop_time := prop_time p; where_ := where_ p; last_cross := last_cross p;
     next_trans := next_trans p; type := type p; stokes := v; pol_dir := pol_dir p; mastate :=
     mastate p; absorptiontype := absorptiontype p; absorptionfreq := absorptionfreq p;
     absorptiondir := absorptiondir p; interactions := interactions p; nscatterings :=
     nscatterings p; scat_count := scat_count p; last_event := last_event p; em_pos := em_pos p;
     em_time := em_time p; escape_type := escape_type p; escape_time := escape_time p |}.

Definition set_pol_dir (v : vec num) (p : packet) : packet :=
  {| pos := pos p; dir := dir p; nu_rf := nu_rf p; nu_cmf := nu_cmf p; e_rf := e_rf p; e_cmf
     := e_cmf p; prop_time := prop_time p; where_ := where_ p; last_cross := last_cross p;
     next_trans := next_trans p; type := type p; stokes := stokes p; pol_dir := v; mastate :=
     mastate p; absorptiontype := absorptiontype p; absorptionfreq := absorptionfreq p;
     absorptiondir := absorptiondir p; interactions := interactions p; nscatterings :=
     nscatterings p; scat_count := scat_count p; last_event := last_event p; em_pos := em_pos p;
     em_time := em_time p; escape_type := escape_type p; escape_time := escape_time p |}.

Definition set_mastate (v : mastate_t) (p : packet) : packet :=
  {| pos := pos p; dir := dir p; nu_rf := nu_rf p; nu_cmf := nu_cmf p; e_rf := e_rf p; e_cmf
     := e_cmf p; prop_time := prop_time p; where_ := where_ p; last_cross := last_cross p;
     next_trans := next_trans p; type := type p; stokes := stokes p; pol_dir := pol_dir p;
     mastate := v; absorptiontype := absorptiontype p; absorptionfreq := absorptionfreq p;
     absorptiondir := absorptiondir p; interactions := interactions p; nscatterings :=
     nscatterings p; scat_count := scat_count p; last_event := last_event p; em_pos := em_pos p;
     em_time := em_time p; escape_type := escape_type p; escape_time := escape_time p |}.

Definition set_absorptiontype (v : Z) (p : packet) : packet :=
  {| pos := pos p; dir := dir p; nu_rf := nu_rf p; nu_cmf := nu_cmf p; e_rf := e_rf p; e_cmf
     := e_cmf p; prop_time := prop_time p; where_ := where_ p; last_cross := last_cross p;
     next_trans := next_trans p; type := type p; stokes := stokes p; pol_dir := pol_dir p;
     mastate := mastate p; absorptiontype := v; absorptionfreq := absorptionfreq p; absorptiondir
     := absorptiondir p; interactions := interactions p; nscatterings := nscatterings p;
     scat_count := scat_count p; last_event := last_event p; em_pos := em_pos p; em_time :=
     em_time p; escape_type := escape_type p; escape_time := escape_time p |}.

Definition set_absorptionfreq (v : num) (p : packet) : packet :=
  {| pos := pos p; dir := dir p; nu_rf := nu_rf p; nu_cmf := nu_cmf p; e_rf := e_rf p; e_cmf
     := e_cmf p; prop_time := prop_time p; where_ := where_ p; last_cross := last_cross p;
     next_trans := next_trans p; type := type p; stokes := stokes p; pol_dir := pol_dir p;
     mastate := mastate p; absorptiontype := absorptiontype p; absorptionfreq := v; absorptiondir
     := absorptiondir p; interactions := interactions p; nscatterings := nscatterings p;
     scat_count := scat_count p; last_event := last_event p; em_pos := em_pos p; em_time :=
     em_time p; escape_type := escape_type p; escape_time := escape_time p |}.

Definition set_absorptiondir (v : vec num) (p : packet) : packet :=
  {| pos := pos p; dir := dir p; nu_rf := nu_rf p; nu_cmf := nu_cmf p; e_rf := e_rf p; e_cmf
     := e_cmf p; prop_time := prop_time p; where_ := where_ p; last_cross := last_cross p;
     next_trans := next_trans p; type := type p; stokes := stokes p; pol_dir := pol_dir p;
     mastate := mastate p; absorptiontype := absorptiontype p; absorptionfreq := absorptionfreq
     p; absorptiondir := v; interactions := interactions p; nscatterings := nscatterings p;
     scat_count := scat_count p; last_event := last_event p; em_pos := em_pos p; em_time :=
     em_time p; escape_type := escape_type p; escape_time := escape_time p |}.

Definition set_interactions (v : Z) (p : packet) : packet :=
  {| pos := pos p; dir := dir p; nu_rf := nu_rf p; nu_cmf := nu_cmf p; e_rf := e_rf p; e_cmf
     := e_cmf p; prop_time := prop_time p; where_ := where_ p; last_cross := last_cross p;
     next_trans := next_trans p; type := type p; stokes := stokes p; pol_dir := pol_dir p;
     mastate := mastate p; absorptiontype := absorptiontype p; absorptionfreq := absorptionfreq
     p; absorptiondir := absorptiondir p; interactions := v; nscatterings := nscatterings p;
     scat_count := scat_count p; last_event := last_event p; em_pos := em_pos p; em_time :=
     em_time p; escape_type := escape_type p; escape_time := escape_time p |}.

Definition set_nscatterings (v : Z) (p : packet) : packet :=
  {| pos := pos p; dir := dir p; nu_rf := nu_rf p; nu_cmf := nu_cmf p; e_rf := e_rf p; e_cmf
     := e_cmf p; prop_time := prop_time p; where_ := where_ p; last_cross := last_cross p;
     next_trans := next_trans p; type := type p; stokes := stokes p; pol_dir := pol_dir p;
     mastate := mastate p; absorptiontype := absorptiontype p; absorptionfreq := absorptionfreq
     p; absorptiondir := absorptiondir p; interactions := interactions p; nscatterings := v;
     scat_count := scat_count p; last_event := last_event p; em_pos := em_pos p; em_time :=
     em_time p; escape_type := escape_type p; escape_time := escape_time p |}.

Definition set_scat_count (v : Z) (p : packet) : packet :=
  {| pos := pos p; dir := dir p; nu_rf := nu_rf p; nu_cmf := nu_cmf p; e_rf := e_rf p; e_cmf
     := e_cmf p; prop_time := prop_time p; where_ := where_ p; last_cross := last_cross p;
     next_trans := next_trans p; type := type p; stokes := stokes p; pol_dir := pol_dir p;
     mastate := mastate p; absorptiontype := absorptiontype p; absorptionfreq := absorptionfreq
     p; absorptiondir := absorptiondir p; interactions := interactions p; nscatterings :=
     nscatterings p; scat_count := v; last_event := last_event p; em_pos := em_pos p; em_time :=
     em_time p; escape_type := escape_type p; escape_time := escape_time p |}.

Definition set_last_event (v : Z) (p : packet) : packet :=
  {| pos := pos p; dir := dir p; nu_rf := nu_rf p; nu_cmf := nu_cmf p; e_rf := e_rf p; e_cmf
     := e_cmf p; prop_time := prop_time p; where_ := where_ p; last_cross := last_cross p;
     next_trans := next_trans p; type := type p; stokes := stokes p; pol_dir := pol_dir p;
     mastate := mastate p; absorptiontype := absorptiontype p; absorptionfreq := absorptionfreq
     p; absorptiondir := absorptiondir p; interactions := interactions p; nscatterings :=
     nscatterings p; scat_count := scat_count p; last_event := v; em_pos := em_pos p; em_time :=
     em_time p; escape_type := escape_type p; escape_time := escape_time p |}.

Definition set_em_pos (v : vec num) (p : packet) : packet :=
  {| pos := pos p; dir := dir p; nu_rf := nu_rf p; nu_cmf := nu_cmf p; e_rf := e_rf p; e_cmf
     := e_cmf p; prop_time := prop_time p; where_ := where_ p; last_cross := last_cross p;
     next_trans := next_trans p; type := type p; stokes := stokes p; pol_dir := pol_dir p;
     mastate := mastate p; absorptiontype := absorptiontype p; absorptionfreq := absorptionfreq
     p; absorptiondir := absorptiondir p; interactions := interactions p; nscatterings :=
     nscatterings p; scat_count := scat_count p; last_event := last_event p; em_pos := v; em_time
     := em_time p; escape_type := escape_type p; escape_time := escape_time p |}.

Definition set_em_time (v : num) (p : packet) : packet :=
  {| pos := pos p; dir := dir p; nu_rf := nu_rf p; nu_cmf := nu_cmf p; e_rf := e_rf p; e_cmf
     := e_cmf p; prop_time := prop_time p; where_ := where_ p; last_cross := last_cross p;
     next_trans := next_trans p; type := type p; stokes := stokes p; pol_dir := pol_dir p;
     mastate := mastate p; absorptiontype := absorptiontype p; absorptionfreq := absorptionfreq
     p; absorptiondir := absorptiondir p; interactions := interactions p; nscatterings :=
     nscatterings p; scat_count := scat_count p; last_event := last_event p; em_pos := em_pos p;
     em_time := v; escape_type := escape_type p; escape_time := escape_time p |}.

Definition set_escape_type (v : packet_type) (p : packet) : packet :=
  {| pos := pos p; dir := dir p; nu_rf := nu_rf p; nu_cmf := nu_cmf p; e_rf := e_rf p; e_cmf
     := e_cmf p; prop_time := prop_time p; where_ := where_ p; last_cross := last_cross p;
     next_trans := next_trans p; type := type p; stokes := stokes p; pol_dir := pol_dir p;
     mastate := mastate p; absorptiontype := absorptiontype p; absorptionfreq := absorptionfreq
     p; absorptiondir := absorptiondir p; interactions := interactions p; nscatterings :=
     nscatterings p; scat_count := scat_count p; last_event := last_event p; em_pos := em_pos p;
     em_time := em_time p; escape_type := v; escape_time := escape_time p |}.

Definition set_escape_time (v : num) (p : packet) : packet :=
  {| pos := pos p; dir := dir p; nu_rf := nu_rf p; nu_cmf := nu_cmf p; e_rf := e_rf p; e_cmf
     := e_cmf p; prop_time := prop_time p; where_ := where_ p; last_cross := last_cross p;
     next_trans := next_trans p; type := type p; stokes := stokes p; pol_dir := pol_dir p;
     mastate := mastate p; absorptiontype := absorptiontype p; absorptionfreq := absorptionfreq
     p; absorptiondir := absorptiondir p; interactions := interactions p; nscatterings :=
     nscatterings p; scat_count := scat_count p; last_event := last_event p; em_pos := em_pos p;
     em_time := em_time p; escape_type := escape_type p; escape_time := v |}.

End Packet.

Arguments pos {num} _.
Arguments dir {num} _.
Arguments nu_rf {num} _.
Arguments nu_cmf {num} _.
Arguments e_rf {num} _.
Arguments e_cmf {num} _.
Arguments prop_time {num} _.
Arguments where_ {num} _.
Arguments last_cross {num} _.
Arguments next_trans {num} _.
Arguments type {num} _.
Arguments stokes {num} _.
Arguments pol_dir {num} _.
Arguments mastate {num} _.
Arguments absorptiontype {num} _.
Arguments absorptionfreq {num} _.
Arguments absorptiondir {num} _.
Arguments interactions {num} _.
Arguments nscatterings {num} _.
Arguments scat_count {num} _.
Arguments last_event {num} _.
Arguments em_pos {num} _.
Arguments em_time {num} _.
Arguments escape_type {num} _.
Arguments escape_time {num} _.
Arguments set_pos {num} _ _.
Arguments set_dir {num} _ _.
Arguments set_nu_rf {num} _ _.
Arguments set_nu_cmf {num} _ _.
Arguments set_e_rf {num} _ _.
Arguments set_e_cmf {num} _ _.
Arguments set_prop_time {num} _ _.
Arguments set_where_ {num} _ _.
Arguments set_last_cross {num} _ _.
Arguments set_next_trans {num} _ _.
Arguments set_type {num} _ _.
Arguments set_stokes {num} _ _.
Arguments set_pol_dir {num} _ _.
Arguments set_mastate {num} _ _.
Arguments set_absorptiontype {num} _ _.
Arguments set_absorptionfreq {num} _ _.
Arguments set_absorptiondir {num} _ _.
Arguments set_interactions {num} _ _.
Arguments set_nscatterings {num} _ _.
Arguments set_scat_count {num} _ _.
Arguments set_last_event {num} _ _.
Arguments set_em_pos {num} _ _.
Arguments set_em_time {num} _ _.
Arguments set_escape_type {num} _ _.
Arguments set_escape_time {num} _ _.

(** The frame transformations of [vectors.h], which is not among the sources:
    the Doppler factor nu_cmf / nu_rf at a position, direction and time, and
    the aberration of angles. *)
Record frame_ops (num : Type) : Type := mk_frame {
  doppler_nucmf_on_nurf : vec num -> vec num -> num -> num;
  angle_ab : vec num -> vec num -> vec num
}.

Arguments doppler_nucmf_on_nurf {num} _ _ _ _.
Arguments angle_ab {num} _ _ _.

Section Vectors.

Context {num : Type} (A : arith num) (F : frame_ops num).

Local Notation "x + y" := (a_add A x y).
Local Notation "x - y" := (a_sub A x y).
Local Notation "x * y" := (a_mul A x y).
Local Notation "x / y" := (a_div A x y).

(** Modelled from the spec: [dot], [vec_len], [vec_norm], [cross_prod] and
    [get_velocity] live in [vectors.h], which is not among the sources.  The
    design document names them as the scalar product, the Euclidean length,
    the normalisation ([pol_dir] is the normalised [dir x z]), the vector
    product, and the homologous velocity [v = pos / prop_time]. *)
Definition dot (x y : vec num) : num :=
  let '(x0, x1, x2) := x in
  let '(y0, y1, y2) := y in
  (x0 * y0) + (x1 * y1) + (x2 * y2).

Definition vec_len (x : vec num) : num := a_sqrt A (dot x x).

Definition vec_norm (x : vec num) : vec num :=
  let '(x0, x1, x2) := x in
  let n := vec_len x in
  (x0 / n, x1 / n, x2 / n).

Definition cross_prod (v1 v2 : vec num) : vec num :=
  let '(a0, a1, a2) := v1 in
  let '(b0, b1, b2) := v2 in
  (a1 * b2 - b1 * a2, a2 * b0 - b2 * a0, a0 * b1 - b0 * a1).

Definition get_velocity (x : vec num) (t : num) : vec num :=
  let '(x0, x1, x2) := x in
  (x0 / t, x1 / t, x2 / t).

(** Modelled from the spec: [doppler_packet_nucmf_on_nurf] is declared in
    [vectors.h]; the design document makes [D] a function of the packet's
    current position, direction and time. *)
Definition doppler_packet_nucmf_on_nurf (pkt : packet num) : num :=
  doppler_nucmf_on_nurf F (pos pkt) (dir pkt) (prop_time pkt).

(** [emitt_rpkt].  [dir_cmf] is the vector that [get_rand_isotropic_unitvec]
    returns. *)
Definition emitt_rpkt (dir_cmf : vec num) (pkt : packet num) : result (packet num) :=
  let pkt := set_type TYPE_RPKT pkt in
  let pkt := set_last_cross NONE pkt in
  let vel_vec := get_velocity (pos pkt) (a_lit A (-1) * prop_time pkt) in
  let pkt := set_dir (angle_ab F dir_cmf vel_vec) pkt in
  _ <- assert_always
         (a_ltb A (a_fabs A (vec_len (dir pkt) - a_lit A 1)) (a_lit A (1 # 100000000)))
         Assert_unit_vector ;;
  let dopplerfactor := doppler_packet_nucmf_on_nurf pkt in
  let pkt := set_nu_rf (nu_cmf pkt / dopplerfactor) pkt in
  let pkt := set_e_rf (e_cmf pkt / dopplerfactor) pkt in
  let pkt := set_stokes (a_lit A 1, a_lit A 0, a_lit A 0) pkt in
  let dummy_dir := (a_lit A 0, a_lit A 0, a_lit A 1) in
  let pkt := set_pol_dir (cross_prod (dir pkt) dummy_dir) pkt in
  let pkt :=
    if a_ltb A (dot (pol_dir pkt) (pol_dir pkt)) (a_lit A (1 # 100000000))
    then
      let dummy_dir := (a_lit A 0, a_lit A 1, a_lit A 0) in
      set_pol_dir (cross_prod (dir pkt) dummy_dir) pkt
    else pkt in
  Ok (set_pol_dir (vec_norm (pol_dir pkt)) pkt).

End Vectors.

(** The two readings of the arithmetic: rationals with a square root supplied
    from outside, and real numbers. *)
Definition Q_arith (sqrtQ : Q -> Q) : arith Q :=
  {| a_lit := fun q => q; a_add := Qplus; a_sub := Qminus; a_mul := Qmult; a_div := Qdiv;
     a_ltb := Qltb; a_fabs := Qabs; a_sqrt := sqrtQ |}.

Definition R_arith : arith R :=
  {| a_lit := Q2R; a_add := Rplus; a_sub := Rminus; a_mul := Rmult; a_div := Rdiv;
     a_ltb := fun a b => if Rlt_dec a b then true else false;
     a_fabs := Rabs; a_sqrt := sqrt |}.

(** ** Global tables, options and per-thread state *)

Module phixs.
(** [struct fullphixslist], an entry of [globals::allcont]. *)
Record fullphixslist : Type := mk {
  nu_edge : Q;
  element : Z;
  ion : Z;
  level : Z;
  phixstargetindex : Z;
  upperlevel : Z;
  probability : Q;
  photoion_xs : list Q;
  index_in_groundphixslist : Z
}.
End phixs.

Module kappa.
(** [struct rpkt_cont_opacity], the opacity cache [globals::kappa_rpkt_cont[tid]]. *)
Record rpkt_cont_opacity : Type := mk {
  nu : Q;
  modelgridindex : Z;
  recalculate_required : bool;
  total : Q;
  es : Q;
  ff : Q;
  bf : Q;
  ffheating : Q
}.
End kappa.

(** Calls into other components, in the order they are made (newest first). *)
Inductive call : Type :=
| Call_update_lineestimator (mgi lineindex : Z) (w : Q)
| Call_update_estimators (pkt : packet Q) (distance : Q)
| Call_rlc_emiss_rpkt (pkt : packet Q) (distance : Q)
| Call_vpkt_call_estimators (pkt : packet Q)
| Call_change_cell (snext : Z)
| Call_closest_transition_empty
| Call_rpkt_event_thickcell
| Call_rpkt_event_boundbound
| Call_rpkt_event_continuum.

(** The state owned by one thread: the opacity cache, the scratch arrays of
    [globals::phixslist[tid]], the departure ratios of
    [globals::cellhistory[tid]], the position in the random-number stream,
    and the trace. *)
Record thread_state : Type := mk_state {
  kappa_rpkt_cont : kappa.rpkt_cont_opacity;
  kappa_bf_sum : list Q;
  groundcont_gamma_contr : list Q;
  gamma_contr : list Q;
  ch_allcont_departureratios : list Q;
  rng : nat;
  trace : list call
}.

Definition set_kappa_rpkt_cont (v : kappa.rpkt_cont_opacity) (st : thread_state) : thread_state :=
  {| kappa_rpkt_cont := v; kappa_bf_sum := kappa_bf_sum st;
     groundcont_gamma_contr := groundcont_gamma_contr st; gamma_contr := gamma_contr st;
     ch_allcont_departureratios := ch_allcont_departureratios st; rng := rng st;
     trace := trace st |}.

Definition set_kappa_bf_sum (v : list Q) (st : thread_state) : thread_state :=
  {| kappa_rpkt_cont := kappa_rpkt_cont st; kappa_bf_sum := v;
     groundcont_gamma_contr := groundcont_gamma_contr st; gamma_contr := gamma_contr st;
     ch_allcont_departureratios := ch_allcont_departureratios st; rng := rng st;
     trace := trace st |}.

Definition set_groundcont_gamma_contr (v : list Q) (st : thread_state) : thread_state :=
  {| kappa_rpkt_cont := kappa_rpkt_cont st; kappa_bf_sum := kappa_bf_sum st;
     groundcont_gamma_contr := v; gamma_contr := gamma_contr st;
     ch_allcont_departureratios := ch_allcont_departureratios st; rng := rng st;
     trace := trace st |}.

Definition set_gamma_contr (v : list Q) (st : thread_state) : thread_state :=
  {| kappa_rpkt_cont := kappa_rpkt_cont st; kappa_bf_sum := kappa_bf_sum st;
     groundcont_gamma_contr := groundcont_gamma_contr st; gamma_contr := v;
     ch_allcont_departureratios := ch_allcont_departureratios st; rng := rng st;
     trace := trace st |}.

Definition set_ch_allcont_departureratios (v : list Q) (st : thread_state) : thread_state :=
  {| kappa_rpkt_cont := kappa_rpkt_cont st; kappa_bf_sum := kappa_bf_sum st;
     groundcont_gamma_contr := groundcont_gamma_contr st; gamma_contr := gamma_contr st;
     ch_allcont_departureratios := v; rng := rng st; trace := trace st |}.

Definition set_rng (v : nat) (st : thread_state) : thread_state :=
  {| kappa_rpkt_cont := kappa_rpkt_cont st; kappa_bf_sum := kappa_bf_sum st;
     groundcont_gamma_contr := groundcont_gamma_contr st; gamma_contr := gamma_contr st;
     ch_allcont_departureratios := ch_allcont_departureratios st; rng := v;
     trace := trace st |}.

(** Record a call in the trace. *)
Definition log (c : call) (st : thread_state) : thread_state :=
  {| kappa_rpkt_cont := kappa_rpkt_cont st; kappa_bf_sum := kappa_bf_sum st;
     groundcont_gamma_contr := groundcont_gamma_contr st; gamma_contr := gamma_contr st;
     ch_allcont_departureratios := ch_allcont_departureratios st; rng := rng st;
     trace := c :: trace st |}.

(** Everything the propagation code takes from elsewhere: the immutable
    tables, the accessors of the grid and of the atomic data, the build
    options and physical constants ([artisoptions.h], [constants.h]), the
    mathematical library, the frame transformations, [boundary_cross], and
    the stream of random numbers. *)
Record globals : Type := mk_globals {
  (* atomic data *)
  linelist : list linelist_entry;
  allcont : list phixs.fullphixslist;
  nbfcontinua_ground : Z;
  last_phixs_nuovernuedge : Q;
  einstein_spontaneous_emission : Z -> Q;
  stat_weight : Z -> Z -> Z -> Q;
  get_nelements : Z;
  get_nions : Z -> Z;
  get_ionstage : Z -> Z -> Z;
  get_phixsupperlevel : Z -> Z -> Z -> Z -> Z;
  photoionization_crosssection_fromtable : list Q -> Q -> Q -> Q;
  calculate_sahafact : Z -> Z -> Z -> Z -> Q -> Q -> Q;
  (* grid and model grid *)
  get_cell_modelgridindex : Z -> Z;
  get_npts_model : Z;
  ngrid : Z;
  thick : Z -> Z;
  get_kappagrey : Z -> Q;
  get_rho : Z -> Q;
  get_nne : Z -> Q;
  get_Te : Z -> Q;
  get_nnetot : Z -> Q;
  get_elem_abundance : Z -> Z -> Q;
  get_levelpop : Z -> Z -> Z -> Z -> Q;
  ionstagepop : Z -> Z -> Z -> Q;
  rmax : Q;
  tmin : Q;
  max_path_step : Q;
  boundary_cross : packet Q -> packet Q * Q * Z;
  (* options *)
  USE_RELATIVISTIC_DOPPLER_SHIFT : bool;
  DETAILED_LINE_ESTIMATORS_ON : bool;
  DETAILED_BF_ESTIMATORS_ON : bool;
  SEPARATE_STIMRECOMB : bool;
  NO_LUT_PHOTOION : bool;
  NO_LUT_BFHEATING : bool;
  VPKT_ON : bool;
  GRID_TYPE_IS_SPHERICAL1D : bool;
  do_r_lc : bool;
  opacity_case : Z;
  do_rlc_est : Z;
  (* constants *)
  CLIGHT : Q;
  CLIGHT_PROP : Q;
  CLIGHTSQUAREDOVERTWOH : Q;
  HCLIGHTOVERFOURPI : Q;
  SIGMA_T : Q;
  HOVERKB : Q;
  H : Q;
  (* mathematical library *)
  sqrtQ : Q -> Q;
  expQ : Q -> Q;
  logQ : Q -> Q;
  frame : frame_ops Q;
  (* random numbers, by position in the stream *)
  gsl_rng_uniform : nat -> Q;
  gsl_rng_uniform_pos : nat -> Q;
  get_rand_isotropic_unitvec : nat -> vec Q
}.

Definition RPKT_EVENTTYPE_BB : Z := 550.
Definition RPKT_EVENTTYPE_CONT : Z := 551.

(** [0, 1, ..., n - 1], the values of a [for] loop's counter. *)
Definition zrange (n : Z) : list Z := map Z.of_nat (seq 0 (Z.to_nat n)).

(** Results of one iteration of a [while (true)] loop. *)
Inductive loop_step (S R : Type) : Type :=
| Continue (s : S)
| Return (r : R).

Arguments Continue {S R} s.
Arguments Return {S R} r.

Section Propagation.

Variable G : globals.

Local Open Scope Q_scope.

Definition nbfcontinua : Z := len (allcont G).

Definition arithQ : arith Q := Q_arith (sqrtQ G).

(** *** Moving a packet *)

(** Modelled from the spec: [move_pkt] is declared in [vectors.h], which is
    not among the sources.  The design document: the packet advances along
    [dir], and after any propagation [nu_rf = nu_cmf / D] and
    [e_rf = e_cmf / D] hold for the Doppler factor [D] at the new position. *)
Definition move_pkt (pkt : packet Q) (distance : Q) : packet Q :=
  let '(x0, x1, x2) := pos pkt in
  let '(d0, d1, d2) := dir pkt in
  let pkt := set_pos (x0 + d0 * distance, x1 + d1 * distance, x2 + d2 * distance) pkt in
  let dopplerfactor := doppler_packet_nucmf_on_nurf (frame G) pkt in
  let pkt := set_nu_cmf (nu_rf pkt * dopplerfactor) pkt in
  set_e_cmf (e_rf pkt * dopplerfactor) pkt.

(** Modelled from the spec: [move_pkt_withtime] is declared in [vectors.h];
    it is [move_pkt] with the clock advanced by [distance / CLIGHT_PROP]. *)
Definition move_pkt_withtime (pkt : packet Q) (distance : Q) : packet Q :=
  let pkt := set_prop_time (prop_time pkt + distance / CLIGHT_PROP G) pkt in
  move_pkt pkt distance.

(** [change_cell] of [boundary.cc]. *)
Definition change_cell (pkt : packet Q) (snext : Z) : packet Q :=
  if (snext =? -99)%Z then
    let pkt := set_escape_type (type pkt) pkt in
    let pkt := set_escape_time (prop_time pkt) pkt in
    set_type TYPE_ESCAPE pkt
  else set_where_ snext pkt.

(** *** The continuum opacity kernel *)

(** [calculate_kappa_ff] *)
Definition calculate_kappa_ff (modelgridindex : Z) (nu : Q) : result Q :=
  _ <- assert_always (Qgtb nu 0) Assert_nu_positive ;;
  let g_ff := 1 in
  let nne := get_nne G modelgridindex in
  let T_e := get_Te G modelgridindex in
  let kappa_ff :=
    fold_left (fun kappa_ff element =>
      fold_left (fun kappa_ff ion =>
        let nnion := ionstagepop G modelgridindex element ion in
        let Z_ := (get_ionstage G element ion - 1)%Z in
        if (Z_ >? 0)%Z
        then kappa_ff + inject_Z Z_ * inject_Z Z_ * g_ff * nnion
        else kappa_ff)
        (zrange (get_nions G element)) kappa_ff)
      (zrange (get_nelements G)) 0 in
  let kappa_ff :=
    kappa_ff * (369255000 / sqrtQ G T_e * Qpower nu (-3) * nne
                * (1 - expQ G (- HOVERKB G * nu / T_e))) in
  if negb (isfinite kappa_ff) then Fatal Abort_kappa_ff_nonfinite
  else Ok kappa_ff.

(** The first loop of [calculate_kappa_bf_gammacontr]:
    [groundcont_gamma_contr[gphixsindex] = 0.] for [n] indices from [i]. *)
Fixpoint zero_groundcont (n : nat) (i : Z) (a : list Q) : result (list Q) :=
  match n with
  | O => Ok a
  | S n' => a' <- defined (upd a i 0) ;; zero_groundcont n' (i + 1)%Z a'
  end.

(** [kappa_bf_sum[i] = kappa_bf_sum], and [gamma_contr[i] = 0.] under
    [DETAILED_BF_ESTIMATORS_ON]: what the loops do for a continuum that does
    not contribute. *)
Definition store_kappa_bf_sum (i : Z) (kappa_bf_sum_ : Q) (st : thread_state)
    : result thread_state :=
  a <- defined (upd (kappa_bf_sum st) i kappa_bf_sum_) ;;
  let st := set_kappa_bf_sum a st in
  if DETAILED_BF_ESTIMATORS_ON G then
    g <- defined (upd (gamma_contr st) i 0) ;;
    Ok (set_gamma_contr g st)
  else Ok st.

(** The correction for stimulated recombination of continuum [i]. *)
Definition bf_corrfactor (modelgridindex : Z) (nu : Q) (i : Z) (c : phixs.fullphixslist)
    (nnlevel : Q) (st : thread_state) : result (Q * thread_state) :=
  if SEPARATE_STIMRECOMB G then Ok (1, st)
  else
    let T_e := get_Te G modelgridindex in
    let nne := get_nne G modelgridindex in
    departure_ratio <- defined (idx (ch_allcont_departureratios st) i) ;;
    '(departure_ratio, st) <-
      (if Qltb departure_ratio 0 then
         let upper := phixs.upperlevel c in
         let nnupperionlevel :=
           get_levelpop G modelgridindex (phixs.element c) (phixs.ion c + 1)%Z upper in
         let sf := calculate_sahafact G (phixs.element c) (phixs.ion c) (phixs.level c)
                     upper T_e (H G * phixs.nu_edge c) in
         let departure_ratio := nnupperionlevel / nnlevel * nne * sf in
         d <- defined (upd (ch_allcont_departureratios st) i departure_ratio) ;;
         Ok (departure_ratio, set_ch_allcont_departureratios d st)
       else Ok (departure_ratio, st)) ;;
    let stimfactor := departure_ratio * expQ G (- HOVERKB G * nu / T_e) in
    let corrfactor := 1 - stimfactor in
    Ok (if Qltb corrfactor 0 then 0 else corrfactor, st).

(** The main loop of [calculate_kappa_bf_gammacontr], over the continua from
    index [i] on ([rest] is [allcont[i..]]).  It returns the value of [i] at
    which the loop ended (because of the [break] or because the list is
    exhausted), the sum, and the state. *)
Fixpoint kappa_bf_loop (modelgridindex : Z) (nu : Q) (rest : list phixs.fullphixslist)
    (i : Z) (kappa_bf_sum_ : Q) (st : thread_state) : result (Z * Q * thread_state) :=
  match rest with
  | [] => Ok (i, kappa_bf_sum_, st)
  | c :: rest' =>
      let element := phixs.element c in
      let ion := phixs.ion c in
      let level := phixs.level c in
      if (DETAILED_BF_ESTIMATORS_ON G
          && Qgtb (get_elem_abundance G modelgridindex element) 0)
         || (negb (DETAILED_BF_ESTIMATORS_ON G)
             && (Qgtb (ionstagepop G modelgridindex element ion / get_nnetot G modelgridindex)
                      (1 # 1000000)
                 || (level =? 0)%Z))
      then
        let nu_edge := phixs.nu_edge c in
        let nnlevel := get_levelpop G modelgridindex element ion level in
        let nu_max_phixs := nu_edge * last_phixs_nuovernuedge G in
        if Qltb nu nu_edge then Ok (i, kappa_bf_sum_, st)
        else if Qle_bool nu nu_max_phixs && Qgtb nnlevel 0 then
          let sigma_bf :=
            photoionization_crosssection_fromtable G (phixs.photoion_xs c) nu_edge nu in
          let probability := phixs.probability c in
          '(corrfactor, st) <- bf_corrfactor modelgridindex nu i c nnlevel st ;;
          let kappa_bf_contr := nnlevel * sigma_bf * probability * corrfactor in
          st <- (if negb (NO_LUT_PHOTOION G) || negb (NO_LUT_BFHEATING G) then
                   if (level =? 0)%Z then
                     let gphixsindex := phixs.index_in_groundphixslist c in
                     old <- defined (idx (groundcont_gamma_contr st) gphixsindex) ;;
                     g <- defined (upd (groundcont_gamma_contr st) gphixsindex
                                       (old + sigma_bf * probability * corrfactor)) ;;
                     Ok (set_groundcont_gamma_contr g st)
                   else Ok st
                 else Ok st) ;;
          st <- (if DETAILED_BF_ESTIMATORS_ON G then
                   g <- defined (upd (gamma_contr st) i (sigma_bf * probability * corrfactor)) ;;
                   Ok (set_gamma_contr g st)
                 else Ok st) ;;
          if negb (isfinite kappa_bf_contr) then Fatal Abort_kappa_bf_contr_nonfinite
          else
            let kappa_bf_sum_ := kappa_bf_sum_ + kappa_bf_contr in
            a <- defined (upd (kappa_bf_sum st) i kappa_bf_sum_) ;;
            kappa_bf_loop modelgridindex nu rest' (i + 1)%Z kappa_bf_sum_
                          (set_kappa_bf_sum a st)
        else
          st <- store_kappa_bf_sum i kappa_bf_sum_ st ;;
          kappa_bf_loop modelgridindex nu rest' (i + 1)%Z kappa_bf_sum_ st
      else
        st <- store_kappa_bf_sum i kappa_bf_sum_ st ;;
        kappa_bf_loop modelgridindex nu rest' (i + 1)%Z kappa_bf_sum_ st
  end.

(** The closing loop [for (; i < nbfcontinua; i++)], for [n] indices from [i]. *)
Fixpoint kappa_bf_fill (n : nat) (i : Z) (kappa_bf_sum_ : Q) (st : thread_state)
    : result thread_state :=
  match n with
  | O => Ok st
  | S n' =>
      st <- store_kappa_bf_sum i kappa_bf_sum_ st ;;
      kappa_bf_fill n' (i + 1)%Z kappa_bf_sum_ st
  end.

(** [calculate_kappa_bf_gammacontr] *)
Definition calculate_kappa_bf_gammacontr (modelgridindex : Z) (nu : Q) (st : thread_state)
    : result (Q * thread_state) :=
  let kappa_bf_sum_ := 0 in
  st <- (if negb (NO_LUT_PHOTOION G) || negb (NO_LUT_BFHEATING G) then
           g <- zero_groundcont (Z.to_nat (nbfcontinua_ground G)) 0%Z
                  (groundcont_gamma_contr st) ;;
           Ok (set_groundcont_gamma_contr g st)
         else Ok st) ;;
  '(i, kappa_bf_sum_, st) <- kappa_bf_loop modelgridindex nu (allcont G) 0%Z kappa_bf_sum_ st ;;
  st <- kappa_bf_fill (Z.to_nat (nbfcontinua - i)) i kappa_bf_sum_ st ;;
  Ok (kappa_bf_sum_, st).

(** The test at the head of [calculate_kappa_rpkt_cont]: the cached values
    are a match already. *)
Definition kappa_cache_hit (modelgridindex : Z) (nu_cmf : Q) (c : kappa.rpkt_cont_opacity)
    : bool :=
  (modelgridindex =? kappa.modelgridindex c)%Z
  && negb (kappa.recalculate_required c)
  && Qltb (Qabs (kappa.nu c / nu_cmf - 1)) (1 # 10000).

(** The body of [calculate_kappa_rpkt_cont] after the early [return]: the
    opacities are computed afresh and stored in the cache. *)
Definition recalculate_kappa_rpkt_cont (modelgridindex : Z) (nu_cmf : Q) (st : thread_state)
    : result thread_state :=
  let nne := get_nne G modelgridindex in
  '(sigma, kappa_ff, kappa_bf, kappa_ffheating, st) <-
    (if do_r_lc G then
       if (opacity_case G =? 4)%Z then
         let sigma := SIGMA_T G * nne in
         kappa_ff <- calculate_kappa_ff modelgridindex nu_cmf ;;
         let kappa_ffheating := kappa_ff in
         '(kappa_bf, st) <- calculate_kappa_bf_gammacontr modelgridindex nu_cmf st ;;
         Ok (sigma, kappa_ff, kappa_bf, kappa_ffheating, st)
       else
         k <- calculate_kappa_ff modelgridindex nu_cmf ;;
         Ok (0, 100000 * k, 0, 0, st)
     else Ok (0, 0, 0, 0, st)) ;;
  let c := {| kappa.nu := nu_cmf; kappa.modelgridindex := modelgridindex;
              kappa.recalculate_required := false;
              kappa.total := sigma + kappa_bf + kappa_ff;
              kappa.es := sigma; kappa.ff := kappa_ff; kappa.bf := kappa_bf;
              kappa.ffheating := kappa_ffheating |} in
  if negb (isfinite (kappa.total c)) then
    if isfinite (kappa.es c) then
      Ok (set_kappa_rpkt_cont
            {| kappa.nu := kappa.nu c; kappa.modelgridindex := kappa.modelgridindex c;
               kappa.recalculate_required := kappa.recalculate_required c;
               kappa.total := kappa.es c; kappa.es := kappa.es c; kappa.ff := 0;
               kappa.bf := 0; kappa.ffheating := kappa.ffheating c |} st)
    else Fatal Abort_kappa_nonfinite
  else Ok (set_kappa_rpkt_cont c st).

(** [calculate_kappa_rpkt_cont(pkt_ptr, &globals::kappa_rpkt_cont[tid])] *)
Definition calculate_kappa_rpkt_cont (pkt : packet Q) (st : thread_state)
    : result thread_state :=
  let cellindex := where_ pkt in
  let modelgridindex := get_cell_modelgridindex G cellindex in
  _ <- assert_always (negb (modelgridindex =? get_npts_model G)%Z) Assert_not_empty_cell ;;
  _ <- assert_always (negb (thick G modelgridindex =? 1)%Z) Assert_not_thick_cell ;;
  let nu_cmf := nu_cmf pkt in
  if kappa_cache_hit modelgridindex nu_cmf (kappa_rpkt_cont st) then Ok st
  else recalculate_kappa_rpkt_cont modelgridindex nu_cmf st.

(** *** The event-distance solver *)

(** What [get_event] hands back: the returned distance, the caller's packet,
    the value left in [*rpkt_eventtype], the per-thread state, and (for the
    statements about it) the shadow packet as it is at the [return]. *)
Record event_result : Type := mk_event {
  ev_edist : Q;
  ev_pkt : packet Q;
  ev_eventtype : Z;
  ev_state : thread_state;
  ev_dummypkt : packet Q
}.

(** The variables that the [while (true)] loop of [get_event] carries from
    one iteration to the next. *)
Record event_loop : Type := mk_loop {
  dummypkt : packet Q;
  tau : Q;
  dist : Q;
  loop_state : thread_state
}.

(** The distance [ldist] from the shadow packet to the resonance with a line
    of frequency [nu_trans], before the test [ldist < 0.]. *)
Definition line_distance (dummypkt : packet Q) (nu_trans : Q) : Q :=
  if Qle_bool (nu_cmf dummypkt) nu_trans then 0
  else if negb (USE_RELATIVISTIC_DOPPLER_SHIFT G) then
    CLIGHT G * prop_time dummypkt * (nu_cmf dummypkt / nu_trans - 1)
  else
    let nu_r := nu_trans / nu_rf dummypkt in
    let ct := CLIGHT G * prop_time dummypkt in
    let r := vec_len arithQ (pos dummypkt) in
    let mu := dot arithQ (dir dummypkt) (pos dummypkt) / r in
    - mu * r
    + (ct - nu_r * nu_r
            * sqrtQ G (ct * ct - (1 + r * r * (1 - mu * mu) * (1 + Qpower nu_r (-2)))))
      / (1 + nu_r * nu_r).

(** The Sobolev optical depth of the line, clamped at zero. *)
Definition line_tau (modelgridindex : Z) (lineindex : Z) (line : linelist_entry)
    (dummypkt : packet Q) : Q :=
  let nu_trans := nu line in
  let element := elementindex line in
  let ion := ionindex line in
  let upper := upperlevelindex line in
  let lower := lowerlevelindex line in
  let A_ul := einstein_spontaneous_emission G lineindex in
  let B_ul := CLIGHTSQUAREDOVERTWOH G / Qpower nu_trans 3 * A_ul in
  let B_lu := stat_weight G element ion upper / stat_weight G element ion lower * B_ul in
  let n_u := get_levelpop G modelgridindex element ion upper in
  let n_l := get_levelpop G modelgridindex element ion lower in
  let tau_line := (B_lu * n_l - B_ul * n_u) * HCLIGHTOVERFOURPI G * prop_time dummypkt in
  if Qltb tau_line 0 then 0 else tau_line.

(** One iteration of the loop of [get_event]. *)
Definition get_event_body (modelgridindex : Z) (pkt : packet Q) (rpkt_eventtype : Z)
    (tau_rnd abort_dist nu_cmf_abort kap_cont : Q) (s : event_loop)
    : result (loop_step event_loop event_result) :=
  let dummypkt := dummypkt s in
  let tau := tau s in
  let dist := dist s in
  let st := loop_state s in
  lineindex <- defined (closest_transition (linelist G) (nu_cmf dummypkt)
                                           (next_trans dummypkt)) ;;
  if (lineindex >=? 0)%Z then
    line <- defined (idx (linelist G) lineindex) ;;
    let nu_trans := nu line in
    let dummypkt := set_next_trans (lineindex + 1)%Z dummypkt in
    let ldist := line_distance dummypkt nu_trans in
    ldist <- (if Qltb ldist 0
              then _ <- assert_always (Qgeb ldist (-100)) Assert_ldist ;; Ok 0
              else Ok ldist) ;;
    let tau_cont := kap_cont * ldist in
    if Qgtb (tau_rnd - tau) tau_cont then
      if Qltb nu_trans nu_cmf_abort then
        let dummypkt := set_next_trans (next_trans dummypkt - 1)%Z dummypkt in
        let pkt := set_next_trans (next_trans dummypkt) pkt in
        Ok (Return {| ev_edist := DBL_MAX; ev_pkt := pkt; ev_eventtype := rpkt_eventtype;
                      ev_state := st; ev_dummypkt := dummypkt |})
      else
        let tau_line := line_tau modelgridindex lineindex line dummypkt in
        if Qgtb (tau_rnd - tau) (tau_cont + tau_line) then
          let dist := dist + ldist in
          let tau := tau + (tau_cont + tau_line) in
          let dummypkt := move_pkt_withtime dummypkt ldist in
          let st := log (Call_update_lineestimator modelgridindex lineindex
                           (prop_time dummypkt * CLIGHT G * e_cmf dummypkt / nu_cmf dummypkt))
                        st in
          Ok (Continue {| dummypkt := dummypkt; tau := tau; dist := dist; loop_state := st |})
        else
          let pkt := set_mastate (mk_mastate (elementindex line) (ionindex line)
                                             (upperlevelindex line) lineindex) pkt in
          let edist := dist + ldist in
          let edist := if Qgeb edist abort_dist
                       then abort_dist * (1 - (2 # 100000000)) else edist in
          let '(dummypkt, st) :=
            if DETAILED_LINE_ESTIMATORS_ON G then
              let dummypkt := move_pkt_withtime dummypkt ldist in
              (dummypkt,
               log (Call_update_lineestimator modelgridindex lineindex
                      (prop_time dummypkt * CLIGHT G * e_cmf dummypkt / nu_cmf dummypkt)) st)
            else (dummypkt, st) in
          let pkt := set_next_trans (next_trans dummypkt) pkt in
          Ok (Return {| ev_edist := edist; ev_pkt := pkt; ev_eventtype := RPKT_EVENTTYPE_BB;
                        ev_state := st; ev_dummypkt := dummypkt |})
    else
      let edist := dist + (tau_rnd - tau) / kap_cont in
      let dummypkt := set_next_trans (next_trans dummypkt - 1)%Z dummypkt in
      let pkt := set_next_trans (next_trans dummypkt) pkt in
      Ok (Return {| ev_edist := edist; ev_pkt := pkt; ev_eventtype := RPKT_EVENTTYPE_CONT;
                    ev_state := st; ev_dummypkt := dummypkt |})
  else
    let dummypkt := set_next_trans (nlines (linelist G) + 1)%Z dummypkt in
    let tau_cont := kap_cont * (abort_dist - dist) in
    let '(edist, rpkt_eventtype) :=
      if Qgtb (tau_rnd - tau) tau_cont then (DBL_MAX, rpkt_eventtype)
      else (dist + (tau_rnd - tau) / kap_cont, RPKT_EVENTTYPE_CONT) in
    let pkt := set_next_trans (next_trans dummypkt) pkt in
    Ok (Return {| ev_edist := edist; ev_pkt := pkt; ev_eventtype := rpkt_eventtype;
                  ev_state := st; ev_dummypkt := dummypkt |}).

(** The loop itself, on an iteration budget. *)
Fixpoint get_event_loop (fuel : nat) (modelgridindex : Z) (pkt : packet Q)
    (rpkt_eventtype : Z) (tau_rnd abort_dist nu_cmf_abort kap_cont : Q) (s : event_loop)
    : result event_result :=
  match fuel with
  | O => OutOfFuel
  | S fuel' =>
      r <- get_event_body modelgridindex pkt rpkt_eventtype tau_rnd abort_dist
             nu_cmf_abort kap_cont s ;;
      match r with
      | Return res => Ok res
      | Continue s' =>
          get_event_loop fuel' modelgridindex pkt rpkt_eventtype tau_rnd abort_dist
            nu_cmf_abort kap_cont s'
      end
  end.

(** The comoving frequency at the abort distance: a shadow copy of the packet
    moved there in two half steps. *)
Definition nu_cmf_at_abort (pkt : packet Q) (abort_dist : Q) : Q :=
  let dummypkt_abort := pkt in
  let dummypkt_abort := move_pkt_withtime dummypkt_abort (abort_dist / 2) in
  let dummypkt_abort := move_pkt_withtime dummypkt_abort (abort_dist / 2) in
  nu_cmf dummypkt_abort.

(** The state of the loop on entry, after the opacities have been computed. *)
Definition get_event_init (pkt : packet Q) (st : thread_state) : event_loop :=
  {| dummypkt := pkt; tau := 0; dist := 0; loop_state := st |}.

Definition get_event_kap_cont (pkt : packet Q) (st : thread_state) : Q :=
  kappa.total (kappa_rpkt_cont st) * doppler_packet_nucmf_on_nurf (frame G) pkt.

(** Every iteration that goes round again moves [next_trans] one line on, so
    one iteration per line and one more are enough. *)
Definition get_event_fuel : nat := S (S (length (linelist G))).

(** [get_event] *)
Definition get_event (modelgridindex : Z) (pkt : packet Q) (rpkt_eventtype : Z)
    (tau_rnd abort_dist : Q) (st : thread_state) : result event_result :=
  let nu_cmf_abort := nu_cmf_at_abort pkt abort_dist in
  st <- calculate_kappa_rpkt_cont pkt st ;;
  let kap_cont := get_event_kap_cont pkt st in
  get_event_loop get_event_fuel modelgridindex pkt rpkt_eventtype tau_rnd abort_dist
    nu_cmf_abort kap_cont (get_event_init pkt st).

(** *** Event handlers *)

(** [emitt_rpkt] over the rationals, with the direction drawn from the
    random-number stream. *)
Definition emitt_rpkt_Q (pkt : packet Q) (st : thread_state)
    : result (packet Q * thread_state) :=
  let dir_cmf := get_rand_isotropic_unitvec G (rng st) in
  let st := set_rng (S (rng st)) st in
  pkt <- emitt_rpkt arithQ (frame G) dir_cmf pkt ;;
  Ok (pkt, st).

(** Modelled from the spec: [escat_rpkt] is declared in [polarization.h],
    which is not among the sources.  The design document makes the continuum
    electron scattering "coherent e-scatter (as in thick cell)": a new
    isotropic direction, [nu_rf] and [e_rf] recomputed from the unchanged
    comoving values, polarisation reset. *)
Definition escat_rpkt (pkt : packet Q) (st : thread_state)
    : result (packet Q * thread_state) :=
  emitt_rpkt_Q pkt st.

(** [gsl_rng_uniform(rng)] *)
Definition draw_uniform (st : thread_state) : Q * thread_state :=
  (gsl_rng_uniform G (rng st), set_rng (S (rng st)) st).

(** [operator<] on doubles, the default comparison of [std::lower_bound]. *)
Definition double_lt (x val : Q) : bool := Qltb x val.

(** [rpkt_event_continuum] *)
Definition rpkt_event_continuum (pkt : packet Q)
    (kappa_rpkt_cont_thisthread : kappa.rpkt_cont_opacity) (modelgridindex : Z)
    (st : thread_state) : result (packet Q * thread_state) :=
  let nu := nu_cmf pkt in
  let dopplerfactor := doppler_packet_nucmf_on_nurf (frame G) pkt in
  let kappa_cont := kappa.total kappa_rpkt_cont_thisthread * dopplerfactor in
  let sigma := kappa.es kappa_rpkt_cont_thisthread * dopplerfactor in
  let kappa_ff := kappa.ff kappa_rpkt_cont_thisthread * dopplerfactor in
  let kappa_bf := kappa.bf kappa_rpkt_cont_thisthread * dopplerfactor in
  let '(zrand, st) := draw_uniform st in
  if Qltb (zrand * kappa_cont) sigma then
    let pkt := set_interactions (interactions pkt + 1)%Z pkt in
    let pkt := set_nscatterings (nscatterings pkt + 1)%Z pkt in
    let pkt := set_last_event 12%Z pkt in
    let '(pkt, st) :=
      if VPKT_ON G then
        let pkt := set_last_cross NONE pkt in
        (pkt, log (Call_vpkt_call_estimators pkt) st)
      else (pkt, st) in
    '(pkt, st) <- escat_rpkt pkt st ;;
    let pkt := set_em_pos (pos pkt) pkt in
    let pkt := set_em_time (prop_time pkt) pkt in
    Ok (pkt, st)
  else if Qltb (zrand * kappa_cont) (sigma + kappa_ff) then
    let pkt := set_interactions (interactions pkt + 1)%Z pkt in
    let pkt := set_last_event 5%Z pkt in
    let pkt := set_type TYPE_KPKT pkt in
    let pkt := set_absorptiontype (-1)%Z pkt in
    Ok (pkt, st)
  else if Qltb (zrand * kappa_cont) (sigma + kappa_ff + kappa_bf) then
    let pkt := set_absorptiontype (-2)%Z pkt in
    let kappa_bf_inrest := kappa.bf kappa_rpkt_cont_thisthread in
    last <- defined (idx (kappa_bf_sum st) (nbfcontinua - 1)%Z) ;;
    _ <- assert_always (Qeq_bool last kappa_bf_inrest) Assert_kappa_bf_sum ;;
    let '(zrand2, st) := draw_uniform st in
    let kappa_bf_rand := zrand2 * kappa_bf_inrest in
    allcontindex <- defined (lower_bound (kappa_bf_sum st) double_lt 0%Z
                                         (nbfcontinua - 1)%Z kappa_bf_rand) ;;
    _ <- assert_always (allcontindex <? nbfcontinua)%Z Assert_allcontindex ;;
    c <- defined (idx (allcont G) allcontindex) ;;
    let nu_edge := phixs.nu_edge c in
    let element := phixs.element c in
    let ion := phixs.ion c in
    let level := phixs.level c in
    let phixstargetindex := phixs.phixstargetindex c in
    let '(zrand3, st) := draw_uniform st in
    if Qltb zrand3 (nu_edge / nu) then
      let pkt := set_interactions (interactions pkt + 1)%Z pkt in
      let pkt := set_last_event 3%Z pkt in
      let pkt := set_type TYPE_MA pkt in
      let upper := get_phixsupperlevel G element ion level phixstargetindex in
      let pkt := set_mastate (mk_mastate element (ion + 1)%Z upper (-99)%Z) pkt in
      Ok (pkt, st)
    else
      let pkt := set_interactions (interactions pkt + 1)%Z pkt in
      let pkt := set_last_event 4%Z pkt in
      let pkt := set_type TYPE_KPKT pkt in
      Ok (pkt, st)
  else Fatal Abort_continuum_process.

(** [rpkt_event_boundbound] *)
Definition rpkt_event_boundbound (pkt : packet Q) (mgi : Z) : packet Q :=
  let pkt := set_interactions (interactions pkt + 1)%Z pkt in
  let pkt := set_last_event 1%Z pkt in
  let pkt := set_absorptiontype (activatingline (mastate pkt)) pkt in
  let pkt := set_absorptionfreq (nu_rf pkt) pkt in
  let pkt := set_absorptiondir (dir pkt) pkt in
  set_type TYPE_MA pkt.

(** [rpkt_event_thickcell] *)
Definition rpkt_event_thickcell (pkt : packet Q) (st : thread_state)
    : result (packet Q * thread_state) :=
  let pkt := set_interactions (interactions pkt + 1)%Z pkt in
  let pkt := set_nscatterings (nscatterings pkt + 1)%Z pkt in
  let pkt := set_last_event 12%Z pkt in
  '(pkt, st) <- emitt_rpkt_Q pkt st ;;
  let pkt := set_em_pos (pos pkt) pkt in
  let pkt := set_em_time (prop_time pkt) pkt in
  Ok (pkt, st).

(** [closest_transition_empty] *)
Definition closest_transition_empty (pkt : packet Q) : result (packet Q) :=
  let left := next_trans pkt in
  let right := (nlines (linelist G) - 1)%Z in
  reddest <- defined (idx (linelist G) right) ;;
  let pkt := if Qltb (nu_cmf pkt) (nu reddest)
             then set_next_trans (nlines (linelist G) + 1)%Z pkt else pkt in
  let pkt := if (left >? right)%Z
             then set_next_trans (nlines (linelist G) + 1)%Z pkt else pkt in
  line_left <- defined (idx (linelist G) left) ;;
  matchindex <-
    (if Qgeb (nu_cmf pkt) (nu line_left) then Ok left
     else defined (lower_bound (linelist G) line_lt (next_trans pkt)
                               (nlines (linelist G)) (nu_cmf pkt))) ;;
  Ok (set_next_trans matchindex pkt).

(** *** The packet stepper *)

(** [update_estimators] and [rlc_emiss_rpkt] only add to the estimator
    arrays, which none of the functions here reads; the calls are recorded. *)
Definition update_estimators (pkt : packet Q) (distance : Q) (st : thread_state)
    : thread_state :=
  log (Call_update_estimators pkt distance) st.

Definition rlc_emiss_rpkt_if_enabled (pkt : packet Q) (distance : Q) (st : thread_state)
    : thread_state :=
  if negb (do_rlc_est G =? 0)%Z && negb (do_rlc_est G =? 3)%Z
  then log (Call_rlc_emiss_rpkt pkt distance) st
  else st.

(** The value [do_rpkt_step] returns on most paths. *)
Definition same_cell_same_type (pkt : packet Q) (mgi oldmgi : Z) : bool :=
  packet_type_eqb (type pkt) TYPE_RPKT
  && ((mgi =? get_npts_model G)%Z || (mgi =? oldmgi)%Z).

(** The three candidate distances of a sub-step and what else the branches of
    [do_rpkt_step] need. *)
Record step_distances : Type := mk_distances {
  sd_pkt : packet Q;
  sd_state : thread_state;
  sd_t2 : Q;
  sd_mgi : Z;
  sd_oldmgi : Z;
  sd_snext : Z;
  sd_sdist : Q;
  sd_tdist : Q;
  sd_edist : Q;
  sd_eventtype : Z;
  sd_find_nextline : bool
}.

(** What [do_rpkt_step] returns: its [bool], the packet, and the state. *)
Definition step_result : Type := (bool * packet Q * thread_state)%type.

(** The branch [(sdist < tdist) && (sdist < edist)]. *)
Definition step_boundary (d : step_distances) : result step_result :=
  let pkt := sd_pkt d in
  let st := sd_state d in
  let sdist := sd_sdist d in
  let snext := sd_snext d in
  let mgi := sd_mgi d in
  let pkt := move_pkt_withtime pkt (sdist / 2) in
  let st := update_estimators pkt sdist st in
  let st := rlc_emiss_rpkt_if_enabled pkt sdist st in
  let pkt := move_pkt_withtime pkt (sdist / 2) in
  let '(pkt, st, mgi) :=
    if negb (snext =? where_ pkt)%Z then
      let pkt := change_cell pkt snext in
      let cellindexnew := where_ pkt in
      (pkt, log (Call_change_cell snext) st, get_cell_modelgridindex G cellindexnew)
    else (pkt, st, mgi) in
  let pkt := set_scat_count 0%Z pkt in
  let pkt := set_last_event (last_event pkt + 100)%Z pkt in
  '(pkt, st) <-
    (if sd_find_nextline d then
       if negb (mgi =? get_npts_model G)%Z && negb (thick G mgi =? 1)%Z then
         let st := log Call_closest_transition_empty st in
         pkt <- closest_transition_empty pkt ;;
         Ok (pkt, st)
       else Ok (pkt, st)
     else Ok (pkt, st)) ;;
  Ok (same_cell_same_type pkt mgi (sd_oldmgi d), pkt, st).

(** The branch [(edist < sdist) && (edist < tdist)]. *)
Definition step_event (d : step_distances) : result step_result :=
  let pkt := sd_pkt d in
  let st := sd_state d in
  let edist := sd_edist d in
  let mgi := sd_mgi d in
  let pkt := move_pkt_withtime pkt (edist / 2) in
  let st := update_estimators pkt edist st in
  let st := rlc_emiss_rpkt_if_enabled pkt edist st in
  let pkt := move_pkt_withtime pkt (edist / 2) in
  '(pkt, st) <-
    (if (thick G mgi =? 1)%Z then
       rpkt_event_thickcell pkt (log Call_rpkt_event_thickcell st)
     else if (sd_eventtype d =? RPKT_EVENTTYPE_BB)%Z then
       Ok (rpkt_event_boundbound pkt mgi, log Call_rpkt_event_boundbound st)
     else if (sd_eventtype d =? RPKT_EVENTTYPE_CONT)%Z then
       rpkt_event_continuum pkt (kappa_rpkt_cont st) mgi (log Call_rpkt_event_continuum st)
     else Fatal Assert_eventtype) ;;
  Ok (same_cell_same_type pkt mgi (sd_oldmgi d), pkt, st).

(** The branch [(tdist < sdist) && (tdist < edist)]. *)
Definition step_time (d : step_distances) : result step_result :=
  let pkt := sd_pkt d in
  let st := sd_state d in
  let tdist := sd_tdist d in
  let pkt := move_pkt_withtime pkt (tdist / 2) in
  let st := update_estimators pkt tdist st in
  let st := rlc_emiss_rpkt_if_enabled pkt tdist st in
  let pkt := set_prop_time (sd_t2 d) pkt in
  let pkt := move_pkt pkt (tdist / 2) in
  let pkt := set_last_event (last_event pkt + 1000)%Z pkt in
  '(pkt, st) <-
    (if sd_find_nextline d then
       let st := log Call_closest_transition_empty st in
       pkt <- closest_transition_empty pkt ;;
       Ok (pkt, st)
     else Ok (pkt, st)) ;;
  Ok (false, pkt, st).

(** The chain of tests that picks the branch of a sub-step. *)
Definition step_dispatch (d : step_distances) : result step_result :=
  let sdist := sd_sdist d in
  let tdist := sd_tdist d in
  let edist := sd_edist d in
  if Qltb sdist tdist && Qltb sdist edist then step_boundary d
  else if Qltb edist sdist && Qltb edist tdist then step_event d
  else if Qltb tdist sdist && Qltb tdist edist then step_time d
  else Fatal Abort_event_unidentified.

(** The part of [do_rpkt_step] before that chain: either the packet sits on
    a boundary and crosses at once, or the three distances are found. *)
Inductive step_prefix : Type :=
| Crossed_at_once (r : step_result)
| Distances (d : step_distances).

Definition step_distances_of (pkt : packet Q) (t2 : Q) (st : thread_state)
    : result step_prefix :=
  let cellindex := where_ pkt in
  let mgi := get_cell_modelgridindex G cellindex in
  let oldmgi := mgi in
  let zrand := gsl_rng_uniform_pos G (rng st) in
  let st := set_rng (S (rng st)) st in
  let tau_next := -1 * logQ G zrand in
  let '(pkt, sdist, snext) := boundary_cross G pkt in
  if Qeq_bool sdist 0 then
    let pkt := change_cell pkt snext in
    let st := log (Call_change_cell snext) st in
    let cellindexnew := where_ pkt in
    let mgi := get_cell_modelgridindex G cellindexnew in
    Ok (Crossed_at_once (same_cell_same_type pkt mgi oldmgi, pkt, st))
  else
    let maxsdist :=
      if GRID_TYPE_IS_SPHERICAL1D G
      then 2 * rmax G * (prop_time pkt + sdist / CLIGHT_PROP G) / tmin G
      else rmax G * prop_time pkt / tmin G in
    if Qgtb sdist maxsdist then Fatal Abort_large_sdist
    else if (negb (snext =? -99)%Z && (snext <? 0)%Z) || (snext >=? ngrid G)%Z
    then Fatal Abort_inappropriate_cell
    else
      let '(sdist, snext) :=
        if Qgtb sdist (max_path_step G) then (max_path_step G, where_ pkt)
        else (sdist, snext) in
      let tdist := (t2 - prop_time pkt) * CLIGHT_PROP G in
      _ <- assert_always (Qgeb tdist 0) Assert_tdist ;;
      let rpkt_eventtype := (-1)%Z in
      '(edist, pkt, rpkt_eventtype, st, find_nextline) <-
        (if (mgi =? get_npts_model G)%Z then
           Ok (DBL_MAX, pkt, rpkt_eventtype, st, true)
         else if (thick G mgi =? 1)%Z then
           let kappa := get_kappagrey G mgi * get_rho G mgi
                        * doppler_packet_nucmf_on_nurf (frame G) pkt in
           let tau_current := 0 in
           Ok ((tau_next - tau_current) / kappa, pkt, rpkt_eventtype, st, true)
         else
           ev <- get_event mgi pkt rpkt_eventtype tau_next
                   (if Qle_bool tdist sdist then tdist else sdist) st ;;
           Ok (ev_edist ev, ev_pkt ev, ev_eventtype ev, ev_state ev, false)) ;;
      _ <- assert_always (Qgeb edist 0) Assert_edist ;;
      Ok (Distances {| sd_pkt := pkt; sd_state := st; sd_t2 := t2; sd_mgi := mgi;
                       sd_oldmgi := oldmgi; sd_snext := snext; sd_sdist := sdist;
                       sd_tdist := tdist; sd_edist := edist;
                       sd_eventtype := rpkt_eventtype;
                       sd_find_nextline := find_nextline |}).

(** [do_rpkt_step] *)
Definition do_rpkt_step (pkt : packet Q) (t2 : Q) (st : thread_state)
    : result step_result :=
  p <- step_distances_of pkt t2 st ;;
  match p with
  | Crossed_at_once r => Ok r
  | Distances d => step_dispatch d
  end.

End Propagation.

(** ** Predicates used in the statements *)

(** [cumulative mono a i s]: the first [i] entries of the scratch array [a]
    end in the running sum [s]; and with [mono] they are in non-decreasing
    order and none exceeds [s]. *)
Definition cumulative (mono : bool) (a : list Q) (i : Z) (s : Q) : Prop :=
  i <= len a /\
  (0 < i -> idx a (i - 1) = Some s) /\
  (mono = true ->
   (forall j k x y, 0 <= j <= k -> k < i -> idx a j = Some x -> idx a k = Some y ->
      (x <= y)%Q) /\
   (forall j x, 0 <= j < i -> idx a j = Some x -> (x <= s)%Q)).

(** The tabulated cross-sections and the branching probabilities are not
    negative. *)
Definition nonnegative_phixs (G : globals) (nu : Q) : Prop :=
  forall c, In c (allcont G) ->
    (0 <= photoionization_crosssection_fromtable G (phixs.photoion_xs c) (phixs.nu_edge c) nu)%Q
    /\ (0 <= phixs.probability c)%Q.

(** The opacity cache and the scratch array agree: if there are continua at
    all, either the cached bound-free opacity is zero or it is the last entry
    of [kappa_bf_sum]. *)
Definition bf_scratch_consistent (G : globals) (c : kappa.rpkt_cont_opacity)
    (scratch : list Q) : Prop :=
  0 < nbfcontinua G ->
  (kappa.bf c == 0)%Q \/ idx scratch (nbfcontinua G - 1) = Some (kappa.bf c).

(** Two states with the same opacity cache and the same scratch array. *)
Definition same_opacity (st st' : thread_state) : Prop :=
  kappa_rpkt_cont st' = kappa_rpkt_cont st /\ kappa_bf_sum st' = kappa_bf_sum st.

(** The fatal errors of the opacity kernel. *)
Definition kappa_fatals : list fatal :=
  [Assert_not_empty_cell; Assert_not_thick_cell; Assert_nu_positive;
   Abort_kappa_ff_nonfinite; Abort_kappa_bf_contr_nonfinite; Abort_kappa_nonfinite].

(** ** What [emitt_rpkt] computes *)

Section EmitSpec.

Context {num : Type} (A : arith num) (F : frame_ops num).

(** The direction in the rest frame: the aberration of the isotropic
    direction with the velocity at (pos, -prop_time). *)
Definition emitted_dir (dir_cmf : vec num) (pkt : packet num) : vec num :=
  angle_ab F dir_cmf
    (get_velocity A (pos pkt) (a_mul A (a_lit A (-1)) (prop_time pkt))).

(** The polarisation reference before normalisation: [dir x z], or [dir x y]
    when the former is shorter than 1e-4. *)
Definition emitted_pol_ref (d : vec num) : vec num :=
  let c := cross_prod A d (a_lit A 0, a_lit A 0, a_lit A 1) in
  if a_ltb A (dot A c c) (a_lit A (1 # 100000000))
  then cross_prod A d (a_lit A 0, a_lit A 1, a_lit A 0)
  else c.

End EmitSpec.

(** ** A small concrete instance

    Four lines, two continua, four grid cells in a ring (cells 0 and 1 are
    ordinary, cell 2 is thick, cell 3 is empty; the next boundary is always
    1/10 away), units with [c = 1], and rational stand-ins for the
    mathematical library.  It is used to run the embedding
    on concrete packets. *)

Definition demo_lines : list linelist_entry :=
  [ mk_line 10 0 0 1 0; mk_line 8 0 0 2 0; mk_line 5 0 1 1 0; mk_line 3 1 0 1 0 ].

Definition demo_allcont : list phixs.fullphixslist :=
  [ phixs.mk 2 0 0 0 0 0 1 [] 0; phixs.mk 6 0 0 1 0 0 (1 # 2) [] 0 ].

(** The square root of a rational whose numerator and denominator are
    squares. *)
Definition demo_sqrt (x : Q) : Q := Qmake (Z.sqrt (Qnum x)) (Pos.sqrt (Qden x)).

Definition demo_exp (x : Q) : Q := (if Qle_bool x 0 then 1 / (1 - x) else 1 + x)%Q.

Definition demo_log (x : Q) : Q := (x - 1)%Q.

Definition demo_frame : frame_ops Q :=
  {| doppler_nucmf_on_nurf := fun pos dir t => (1 - dot (Q_arith demo_sqrt) dir pos / t)%Q;
     angle_ab := fun dir_cmf vel => dir_cmf |}.

(** [u] is the stream of random numbers. *)
Definition demo_globals (u : nat -> Q) : globals :=
  {| linelist := demo_lines;
     allcont := demo_allcont;
     nbfcontinua_ground := 1;
     last_phixs_nuovernuedge := 10;
     einstein_spontaneous_emission := fun _ => 1%Q;
     stat_weight := fun _ _ _ => 1%Q;
     get_nelements := 1;
     get_nions := fun _ => 2;
     get_ionstage := fun _ ion => ion + 1;
     get_phixsupperlevel := fun _ _ _ _ => 0;
     photoionization_crosssection_fromtable := fun _ nu_edge nu => (nu_edge / nu)%Q;
     calculate_sahafact := fun _ _ _ _ _ _ => 1%Q;
     get_cell_modelgridindex := fun cellindex => cellindex;
     get_npts_model := 3;
     ngrid := 4;
     thick := fun mgi => if mgi =? 2 then 1 else 0;
     get_kappagrey := fun _ => 1%Q;
     get_rho := fun _ => 1%Q;
     get_nne := fun _ => (1 # 369255000)%Q;
     get_Te := fun _ => 1%Q;
     get_nnetot := fun _ => 1%Q;
     get_elem_abundance := fun _ _ => 1%Q;
     get_levelpop := fun _ _ _ level => if level =? 0 then 1%Q else 0%Q;
     ionstagepop := fun _ _ _ => 1%Q;
     rmax := 1000;
     tmin := 1;
     max_path_step := 1000;
     boundary_cross := fun pkt => (pkt, (1 # 10)%Q, if where_ pkt =? 3 then 0 else where_ pkt + 1);
     USE_RELATIVISTIC_DOPPLER_SHIFT := false;
     DETAILED_LINE_ESTIMATORS_ON := false;
     DETAILED_BF_ESTIMATORS_ON := false;
     SEPARATE_STIMRECOMB := false;
     NO_LUT_PHOTOION := false;
     NO_LUT_BFHEATING := false;
     VPKT_ON := false;
     GRID_TYPE_IS_SPHERICAL1D := false;
     do_r_lc := true;
     opacity_case := 4;
     do_rlc_est := 0;
     CLIGHT := 1;
     CLIGHT_PROP := 1;
     CLIGHTSQUAREDOVERTWOH := 1;
     HCLIGHTOVERFOURPI := 1;
     SIGMA_T := 369255000;
     HOVERKB := 1;
     H := 1;
     sqrtQ := demo_sqrt;
     expQ := demo_exp;
     logQ := demo_log;
     frame := demo_frame;
     gsl_rng_uniform := u;
     gsl_rng_uniform_pos := u;
     get_rand_isotropic_unitvec := fun _ => (0, 1, 0)%Q |}.

(** An r-packet in cell [cell] at position (1, 0, 0) and time 10, flying
    along x, with rest-frame frequency [nu_rf_]; its Doppler factor is 9/10. *)
Definition demo_packet (cell : Z) (nu_rf_ : Q) (next_trans_ : Z) : packet Q :=
  {| pos := (1, 0, 0)%Q; dir := (1, 0, 0)%Q; nu_rf := nu_rf_; nu_cmf := (nu_rf_ * (9 # 10))%Q;
     e_rf := 1%Q; e_cmf := (9 # 10)%Q; prop_time := 10%Q; where_ := cell; last_cross := NONE;
     next_trans := next_trans_; type := TYPE_RPKT; stokes := (1, 0, 0)%Q;
     pol_dir := (0, 1, 0)%Q; mastate := mk_mastate 0 0 0 0; absorptiontype := 0;
     absorptionfreq := 0%Q; absorptiondir := (0, 0, 0)%Q; interactions := 0;
     nscatterings := 0; scat_count := 0; last_event := 0; em_pos := (0, 0, 0)%Q;
     em_time := 0%Q; escape_type := TYPE_RPKT; escape_time := 0%Q |}.

(** The per-thread state as [input.cc] leaves it: scratch arrays zeroed,
    departure ratios unset (negative), and an opacity cache that asks to be
    recalculated. *)
Definition demo_state : thread_state :=
  {| kappa_rpkt_cont := kappa.mk 0 (-1) true 0 0 0 0 0;
     kappa_bf_sum := [0; 0]%Q;
     groundcont_gamma_contr := [0]%Q;
     gamma_contr := [];
     ch_allcont_departureratios := [-1; -1]%Q;
     rng := 0;
     trace := [] |}.

(** ** Predicates on the loop of [get_event] *)

(** The line index that the search at the head of an iteration hands back. *)
Definition examined_line (G : globals) (s : event_loop) : option Z :=
  closest_transition (linelist G) (nu_cmf (dummypkt s)) (next_trans (dummypkt s)).

(** [loops_to body s s']: the loop, started in state [s], comes round to the
    head of an iteration in state [s'] after one iteration or more. *)
Inductive loops_to (body : event_loop -> result (loop_step event_loop event_result))
    : event_loop -> event_loop -> Prop :=
| loops_once s s' : body s = Ok (Continue s') -> loops_to body s s'
| loops_more s s' s'' :
    body s = Ok (Continue s') -> loops_to body s' s'' -> loops_to body s s''.

(** The same packet over the real numbers, with a constant Doppler factor and
    no aberration. *)
Definition demo_frame_R : frame_ops R :=
  {| doppler_nucmf_on_nurf := fun _ _ _ => (9 / 10)%R;
     angle_ab := fun dir_cmf vel => dir_cmf |}.

Definition demo_packet_R : packet R :=
  {| pos := (1, 0, 0)%R; dir := (1, 0, 0)%R; nu_rf := 10%R; nu_cmf := 9%R;
     e_rf := 1%R; e_cmf := (9 / 10)%R; prop_time := 10%R; where_ := 0;
     last_cross := POS_X; next_trans := 0; type := TYPE_MA; stokes := (1, 0, 0)%R;
     pol_dir := (0, 1, 0)%R; mastate := mk_mastate 0 0 0 0; absorptiontype := 0;
     absorptionfreq := 0%R; absorptiondir := (0, 0, 0)%R; interactions := 0;
     nscatterings := 0; scat_count := 0; last_event := 0; em_pos := (0, 0, 0)%R;
     em_time := 0%R; escape_type := TYPE_RPKT; escape_time := 0%R |}.

(** ** Predicates on the trace and on the re-seated line index *)

Definition is_closest_transition_empty (c : call) : bool :=
  match c with Call_closest_transition_empty => true | _ => false end.

(** The number of calls in a trace that satisfy [p]. *)
Definition calls_of (p : call -> bool) (tr : list call) : nat := length (filter p tr).

(** [reseated linelist nu_cmf from r]: [r] is what a search of the lines from
    index [from] on finds for [nu_cmf]: the sentinel [nlines + 1] below the
    reddest line, and otherwise the first index from [from] on whose line is
    not bluer than [nu_cmf]. *)
Definition reseated (linelist : list linelist_entry) (nu_cmf : Q) (from r : Z) : Prop :=
  exists reddest,
    idx linelist (nlines linelist - 1) = Some reddest /\
    (((nu_cmf < nu reddest)%Q /\ r = nlines linelist + 1) \/
     ((nu reddest <= nu_cmf)%Q /\ from <= r <= nlines linelist - 1 /\
      (forall j x, from <= j < r -> idx linelist j = Some x -> (nu_cmf < nu x)%Q) /\
      (forall j x, r <= j < nlines linelist -> idx linelist j = Some x ->
         (nu x <= nu_cmf)%Q))).

(** No distance of a sub-step is strictly the smallest. *)
Definition no_winner (d : step_distances) : Prop :=
  ~ ((sd_sdist d < sd_tdist d)%Q /\ (sd_sdist d < sd_edist d)%Q) /\
  ~ ((sd_edist d < sd_sdist d)%Q /\ (sd_edist d < sd_tdist d)%Q) /\
  ~ ((sd_tdist d < sd_sdist d)%Q /\ (sd_tdist d < sd_edist d)%Q).

(** The fatal errors of the three branches of a sub-step. *)
Definition event_fatals : list fatal :=
  [Assert_unit_vector; Assert_kappa_bf_sum; Assert_allcontindex; Abort_continuum_process;
   Assert_eventtype].

(** The distances of a sub-step in which the boundary is nearest. *)
Definition demo_distances : step_distances :=
  {| sd_pkt := demo_packet 1 10 0; sd_state := demo_state; sd_t2 := 100; sd_mgi := 1;
     sd_oldmgi := 1; sd_snext := 2; sd_sdist := 1 # 10; sd_tdist := 90; sd_edist := 1 # 2;
     sd_eventtype := RPKT_EVENTTYPE_CONT; sd_find_nextline := false |}.


(** ** Further parts of the code *)

(** *** The older [closest_transition_empty] *)

Module LegacyRpkt.
Section LineSearch.

Variable linelist : list linelist_entry.

(** [closest_transition_empty] of the older version of the file.  It returns
    -1 as soon as no line can be reached, and otherwise searches with the
    hand-written loop and returns the frequency of the line it found. *)
Definition closest_transition_empty (pkt : packet Q) : result (Q * packet Q) :=
  let left := next_trans pkt in
  let right := nlines linelist - 1 in
  reddest <- defined (idx linelist right) ;;
  if Qltb (nu_cmf pkt) (nu reddest) then
    Ok (-1, set_next_trans (nlines linelist + 1) pkt)%Q
  else if left >? right then
    Ok (-1, set_next_trans (nlines linelist + 1) pkt)%Q
  else
    line_left <- defined (idx linelist left) ;;
    match_ <-
      (if Qgeb (nu_cmf pkt) (nu line_left) then Ok left
       else defined (Legacy.search_loop linelist (Z.to_nat (right - left + 1))
                       (nu_cmf pkt) left right 1)) ;;
    line <- defined (idx linelist match_) ;;
    let nu_trans := nu line in
    Ok (nu_trans, set_next_trans match_ pkt).

End LineSearch.
End LegacyRpkt.

(** *** The sizes of the scratch arrays *)

(** The lengths of the four per-thread scratch arrays of the bound-free
    kernel. *)
Definition scratch_sizes (st : thread_state) : Z * Z * Z * Z :=
  (len (kappa_bf_sum st), len (gamma_contr st), len (ch_allcont_departureratios st),
   len (groundcont_gamma_contr st)).

(** The scratch arrays are as long as the code that fills them takes them to
    be: one entry per continuum in [kappa_bf_sum], in [gamma_contr] (used
    under [DETAILED_BF_ESTIMATORS_ON]) and in the departure ratios (used
    unless [SEPARATE_STIMRECOMB]), and, when the ground-level estimators are
    in use, [nbfcontinua_ground] entries in [groundcont_gamma_contr], into
    which every ground-level continuum's [index_in_groundphixslist] points. *)
Definition scratch_sized (G : globals) (st : thread_state) : Prop :=
  len (kappa_bf_sum st) = nbfcontinua G /\
  (DETAILED_BF_ESTIMATORS_ON G = true -> len (gamma_contr st) = nbfcontinua G) /\
  (SEPARATE_STIMRECOMB G = false ->
   len (ch_allcont_departureratios st) = nbfcontinua G) /\
  (negb (NO_LUT_PHOTOION G) || negb (NO_LUT_BFHEATING G) = true ->
   nbfcontinua_ground G <= len (groundcont_gamma_contr st) /\
   forall c, In c (allcont G) -> phixs.level c = 0 ->
     0 <= phixs.index_in_groundphixslist c < len (groundcont_gamma_contr st)).

(** What the loops of the bound-free kernel ask of the sizes while the
    continua [rest] remain, the last of them at index [n - 1]. *)
Definition kappa_bf_fits (G : globals) (n : Z) (rest : list phixs.fullphixslist)
    (st : thread_state) : Prop :=
  n <= len (kappa_bf_sum st) /\
  (DETAILED_BF_ESTIMATORS_ON G = true -> n <= len (gamma_contr st)) /\
  (SEPARATE_STIMRECOMB G = false -> n <= len (ch_allcont_departureratios st)) /\
  (negb (NO_LUT_PHOTOION G) || negb (NO_LUT_BFHEATING G) = true ->
   forall c, In c rest -> phixs.level c = 0 ->
     0 <= phixs.index_in_groundphixslist c < len (groundcont_gamma_contr st)).

(** *** What the stepper takes from [boundary_cross] *)

(** Of the packet, [boundary_cross] writes [last_cross] and nothing else. *)
Definition boundary_cross_keeps_packet (G : globals) : Prop :=
  forall p, exists lc, fst (fst (boundary_cross G p)) = set_last_cross lc p.

(** The calls of [update_estimators] in a trace, newest first, each with the
    packet and the distance it was made with. *)
Fixpoint estimator_updates (tr : list call) : list (packet Q * Q) :=
  match tr with
  | [] => []
  | Call_update_estimators p d :: tr' => (p, d) :: estimator_updates tr'
  | _ :: tr' => estimator_updates tr'
  end.

Definition is_event_handler (c : call) : bool :=
  match c with
  | Call_rpkt_event_thickcell | Call_rpkt_event_boundbound | Call_rpkt_event_continuum => true
  | _ => false
  end.

Definition is_change_cell (c : call) : bool :=
  match c with Call_change_cell _ => true | _ => false end.

(** The same tables and options with another [boundary_cross]. *)
Definition set_boundary_cross (bc : packet Q -> packet Q * Q * Z) (G : globals) : globals :=
  {| linelist := linelist G;
     allcont := allcont G;
     nbfcontinua_ground := nbfcontinua_ground G;
     last_phixs_nuovernuedge := last_phixs_nuovernuedge G;
     einstein_spontaneous_emission := einstein_spontaneous_emission G;
     stat_weight := stat_weight G;
     get_nelements := get_nelements G;
     get_nions := get_nions G;
     get_ionstage := get_ionstage G;
     get_phixsupperlevel := get_phixsupperlevel G;
     photoionization_crosssection_fromtable := photoionization_crosssection_fromtable G;
     calculate_sahafact := calculate_sahafact G;
     get_cell_modelgridindex := get_cell_modelgridindex G;
     get_npts_model := get_npts_model G;
     ngrid := ngrid G;
     thick := thick G;
     get_kappagrey := get_kappagrey G;
     get_rho := get_rho G;
     get_nne := get_nne G;
     get_Te := get_Te G;
     get_nnetot := get_nnetot G;
     get_elem_abundance := get_elem_abundance G;
     get_levelpop := get_levelpop G;
     ionstagepop := ionstagepop G;
     rmax := rmax G;
     tmin := tmin G;
     max_path_step := max_path_step G;
     boundary_cross := bc;
     USE_RELATIVISTIC_DOPPLER_SHIFT := USE_RELATIVISTIC_DOPPLER_SHIFT G;
     DETAILED_LINE_ESTIMATORS_ON := DETAILED_LINE_ESTIMATORS_ON G;
     DETAILED_BF_ESTIMATORS_ON := DETAILED_BF_ESTIMATORS_ON G;
     SEPARATE_STIMRECOMB := SEPARATE_STIMRECOMB G;
     NO_LUT_PHOTOION := NO_LUT_PHOTOION G;
     NO_LUT_BFHEATING := NO_LUT_BFHEATING G;
     VPKT_ON := VPKT_ON G;
     GRID_TYPE_IS_SPHERICAL1D := GRID_TYPE_IS_SPHERICAL1D G;
     do_r_lc := do_r_lc G;
     opacity_case := opacity_case G;
     do_rlc_est := do_rlc_est G;
     CLIGHT := CLIGHT G;
     CLIGHT_PROP := CLIGHT_PROP G;
     CLIGHTSQUAREDOVERTWOH := CLIGHTSQUAREDOVERTWOH G;
     HCLIGHTOVERFOURPI := HCLIGHTOVERFOURPI G;
     SIGMA_T := SIGMA_T G;
     HOVERKB := HOVERKB G;
     H := H G;
     sqrtQ := sqrtQ G;
     expQ := expQ G;
     logQ := logQ G;
     frame := frame G;
     gsl_rng_uniform := gsl_rng_uniform G;
     gsl_rng_uniform_pos := gsl_rng_uniform_pos G;
     get_rand_isotropic_unitvec := get_rand_isotropic_unitvec G |}.

(** *** [do_rpkt] *)


(** *** The boundary solver ([boundary.cc]) *)

Module Boundary.

(** [GRID_TYPE], a build option. *)
Inductive grid_type : Type := GRID_UNIFORM | GRID_SPHERICAL1D | GRID_OTHER (code : Z).

(** The accessors of [grid::] that [boundary_cross] uses. *)
Record grid : Type := mk_grid {
  GRID_TYPE : grid_type;
  get_ngriddimensions : Z;
  get_cellcoordmax : Z -> Z -> Q;
  get_cellcoordmin : Z -> Z -> Q;
  get_coordcellindexincrement : Z -> Z;
  get_cellcoordpointnum : Z -> Z -> Z;
  ncoordgrid : Z -> Z
}.

(** The ways in which the boundary solver stops the program, and the
    undefined behaviour of a grid of more than three dimensions (the arrays
    have three entries and [ndim <= 3] is asserted in test mode only) or of
    a spherical grid of more than one (the times of the further coordinates
    are read in the last loop and never set). *)
Inductive failure : Type :=
| Assert_shellradius_positive   (* get_shellcrossdist: shellradius > 0 *)
| Assert_shell_inside           (* no intersection: shellradius < vec_len(pos) *)
| Assert_posfinal1              (* fabs(vec_len(posfinal1) / shellradiusfinal1 - 1.) < 1e-3 *)
| Assert_posfinal2              (* fabs(vec_len(posfinal2) / shellradiusfinal2 - 1.) < 1e-3 *)
| Assert_shell_touched          (* one intersection: shellradius <= vec_len(pos) *)
| Assert_grid_type              (* boundary_cross: assert_always(false) *)
| Undefined_behaviour.

Inductive outcome (A : Type) : Type :=
| Done (a : A)
| Failed (f : failure).

Arguments Done {A} a.
Arguments Failed {A} f.

Definition cell_boundary_eqb (a b : cell_boundary) : bool :=
  match a, b with
  | NEG_X, NEG_X | POS_X, POS_X | NEG_Y, NEG_Y | POS_Y, POS_Y
  | NEG_Z, NEG_Z | POS_Z, POS_Z | NONE, NONE => true
  | _, _ => false
  end.

(** [negdirections[d]] and [posdirections[d]], for [d] = 0, 1, 2. *)
Definition negdirections (d : Z) : cell_boundary :=
  if d =? 0 then NEG_X else if d =? 1 then NEG_Y else NEG_Z.

Definition posdirections (d : Z) : cell_boundary :=
  if d =? 0 then POS_X else if d =? 1 then POS_Y else POS_Z.

(** [v[d]], for [d] = 0, 1, 2. *)
Definition coord (v : vec Q) (d : Z) : Q :=
  let '(x, y, z) := v in if d =? 0 then x else if d =? 1 then y else z.

Section Solver.

Variable G : globals.
Variable g : grid.

Local Open Scope Q_scope.

(** [get_shellcrossdist]: the closest forward distance to the intersection
    of a ray with an expanding spherical shell, or -1. *)
Definition get_shellcrossdist (pos dir : vec Q) (shellradius : Q) (isinnerboundary : bool)
    (tstart : Q) : outcome Q :=
  if negb (Qgtb shellradius 0) then Failed Assert_shellradius_positive
  else
    let speed := vec_len (arithQ G) dir * CLIGHT_PROP G in
    let a := dot (arithQ G) dir dir - Qpower (shellradius / tstart / speed) 2 in
    let b := 2 * (dot (arithQ G) dir pos - Qpower shellradius 2 / tstart / speed) in
    let c := dot (arithQ G) pos pos - Qpower shellradius 2 in
    let discriminant := Qpower b 2 - 4 * a * c in
    if Qltb discriminant 0 then
      if Qltb shellradius (vec_len (arithQ G) pos) then Done (-1)
      else Failed Assert_shell_inside
    else if Qgtb discriminant 0 then
      let d1 := (- b + sqrtQ G discriminant) / 2 / a in
      let d2 := (- b - sqrtQ G discriminant) / 2 / a in
      let '(p0, p1, p2) := pos in
      let '(u0, u1, u2) := dir in
      let posfinal1 := (p0 + d1 * u0, p1 + d1 * u1, p2 + d1 * u2) in
      let posfinal2 := (p0 + d2 * u0, p1 + d2 * u1, p2 + d2 * u2) in
      let shellradiusfinal1 := shellradius / tstart * (tstart + d1 / speed) in
      let shellradiusfinal2 := shellradius / tstart * (tstart + d2 / speed) in
      if negb (Qltb (Qabs (vec_len (arithQ G) posfinal1 / shellradiusfinal1 - 1)) (1 # 1000))
      then Failed Assert_posfinal1
      else if negb (Qltb (Qabs (vec_len (arithQ G) posfinal2 / shellradiusfinal2 - 1))
                         (1 # 1000))
      then Failed Assert_posfinal2
      else
        let d1 := if isinnerboundary
                  then if Qgtb (dot (arithQ G) posfinal1 dir) 0 then -1 else d1
                  else if Qltb (dot (arithQ G) posfinal1 dir) 0 then -1 else d1 in
        let d2 := if isinnerboundary
                  then if Qgtb (dot (arithQ G) posfinal2 dir) 0 then -1 else d2
                  else if Qltb (dot (arithQ G) posfinal2 dir) 0 then -1 else d2 in
        if Qltb d1 0 && Qltb d2 0 then Done (-1)
        else if Qltb d2 0 then Done d1
        else if Qltb d1 0 then Done d2
        else Done (if Qltb d1 d2 then d1 else d2)
    else
      if Qle_bool shellradius (vec_len (arithQ G) pos) then Done (-1)
      else Failed Assert_shell_touched.

(** The first loop of [boundary_cross] looks on each side of each coordinate
    whether the packet is outside its cell.  It either returns at once, with
    distance 0, or goes on with the local [last_cross]. *)
Inductive outside_check : Type :=
| Crossing (r : Q * Z * packet Q)
| Inside (last_cross : cell_boundary).

Definition check_side (pkt : packet Q) (initpos cellcoordmax vel : Z -> Q) (d : Z)
    (flip : bool) (last_cross : cell_boundary) : outside_check :=
  let tstart := prop_time pkt in
  let cellindex := where_ pkt in
  let direction := if flip then posdirections d else negdirections d in
  let invdirection := if negb flip then posdirections d else negdirections d in
  let cellindexstride :=
    (if flip then - get_coordcellindexincrement g d else get_coordcellindexincrement g d)%Z in
  let isoutside_thisside :=
    if flip
    then Qltb (initpos d) (get_cellcoordmin g cellindex d / tmin G * tstart - 10)
    else Qgtb (initpos d) (cellcoordmax d / tmin G * tstart + 10) in
  if isoutside_thisside && negb (cell_boundary_eqb last_cross direction) then
    if Qgtb (vel d - initpos d / tstart) 0 then
      if ((get_cellcoordpointnum g cellindex d =? ncoordgrid g d - 1)%Z
          && (cellindexstride >? 0)%Z)
         || ((get_cellcoordpointnum g cellindex d =? 0)%Z && (cellindexstride <? 0)%Z)
      then Crossing (0, (-99)%Z, pkt)
      else Crossing (0, (where_ pkt + cellindexstride)%Z, set_last_cross invdirection pkt)
    else Inside direction
  else Inside last_cross.

(** The loop over [d] and, inside it, over [flip] = 0, 1. *)
Fixpoint check_sides (pkt : packet Q) (initpos cellcoordmax vel : Z -> Q) (ds : list Z)
    (last_cross : cell_boundary) : outside_check :=
  match ds with
  | [] => Inside last_cross
  | d :: ds' =>
      match check_side pkt initpos cellcoordmax vel d false last_cross with
      | Crossing r => Crossing r
      | Inside last_cross =>
          match check_side pkt initpos cellcoordmax vel d true last_cross with
          | Crossing r => Crossing r
          | Inside last_cross => check_sides pkt initpos cellcoordmax vel ds' last_cross
          end
      end
  end.

(** What the last loop of [boundary_cross] carries: [choice] (0 while nothing
    is found), [time], [*snext] and the packet. *)
Record selection : Type := mk_selection {
  choice : option cell_boundary;
  time : Q;
  sel_snext : Z;
  sel_pkt : packet Q
}.

Definition select_max (t_coordmaxboundary : Z -> Q) (last_cross : cell_boundary)
    (d : Z) (s : selection) : selection :=
  if Qgtb (t_coordmaxboundary d) 0 && Qltb (t_coordmaxboundary d) (time s)
     && negb (cell_boundary_eqb last_cross (negdirections d))
  then
    let escaping :=
      (get_cellcoordpointnum g (where_ (sel_pkt s)) d =? ncoordgrid g d - 1)%Z in
    {| choice := Some (posdirections d);
       time := t_coordmaxboundary d;
       sel_snext := if escaping then (-99)%Z
                    else (where_ (sel_pkt s) + get_coordcellindexincrement g d)%Z;
       sel_pkt := if escaping then sel_pkt s
                  else set_last_cross (posdirections d) (sel_pkt s) |}
  else s.

Definition select_min (t_coordminboundary : Z -> Q) (last_cross : cell_boundary)
    (d : Z) (s : selection) : selection :=
  if Qgtb (t_coordminboundary d) 0 && Qltb (t_coordminboundary d) (time s)
     && negb (cell_boundary_eqb last_cross (posdirections d))
  then
    let escaping := (get_cellcoordpointnum g (where_ (sel_pkt s)) d =? 0)%Z in
    {| choice := Some (negdirections d);
       time := t_coordminboundary d;
       sel_snext := if escaping then (-99)%Z
                    else (where_ (sel_pkt s) - get_coordcellindexincrement g d)%Z;
       sel_pkt := if escaping then sel_pkt s
                  else set_last_cross (negdirections d) (sel_pkt s) |}
  else s.

Definition select (t_coordmaxboundary t_coordminboundary : Z -> Q)
    (last_cross : cell_boundary) (ds : list Z) (s : selection) : selection :=
  fold_left (fun s d =>
               select_min t_coordminboundary last_cross d
                 (select_max t_coordmaxboundary last_cross d s))
            ds s.

(** The time at which the packet meets a face at [coordbound] (at [tmin]) of
    coordinate [d], on a uniform grid. *)
Definition t_coordboundary (initpos vel : Z -> Q) (tstart coordbound : Q) (d : Z) : Q :=
  let overshoot := 0 in
  (initpos d - vel d * tstart) / ((coordbound + overshoot) - vel d * tmin G) * tmin G
  - tstart.

(** The packet in the coordinates of a uniform grid: [initpos], [cellcoordmax]
    and [vel], three entries each, zero from [ndim] on; and the times at
    which it meets the upper and the lower face of coordinate [d]. *)
Definition uniform_initpos (pkt : packet Q) (d : Z) : Q :=
  if (d <? get_ngriddimensions g)%Z then coord (pos pkt) d else 0.

Definition uniform_cellcoordmax (pkt : packet Q) (d : Z) : Q :=
  if (d <? get_ngriddimensions g)%Z then get_cellcoordmax g (where_ pkt) d else 0.

Definition uniform_vel (pkt : packet Q) (d : Z) : Q :=
  if (d <? get_ngriddimensions g)%Z then coord (dir pkt) d * CLIGHT_PROP G else 0.

Definition uniform_t_coordmaxboundary (pkt : packet Q) (d : Z) : Q :=
  t_coordboundary (uniform_initpos pkt) (uniform_vel pkt) (prop_time pkt)
    (uniform_cellcoordmax pkt d) d.

Definition uniform_t_coordminboundary (pkt : packet Q) (d : Z) : Q :=
  t_coordboundary (uniform_initpos pkt) (uniform_vel pkt) (prop_time pkt)
    (get_cellcoordmin g (where_ pkt) d) d.

(** The same on a spherical grid, whose only coordinate is the radius; and
    the distances to the inner and to the outer shell of the cell. *)
Definition spherical_initpos (pkt : packet Q) (d : Z) : Q :=
  if (d =? 0)%Z then vec_len (arithQ G) (pos pkt) else 0.

Definition spherical_cellcoordmax (pkt : packet Q) (d : Z) : Q :=
  if (d =? 0)%Z then get_cellcoordmax g (where_ pkt) 0 else 0.

Definition spherical_vel (pkt : packet Q) (d : Z) : Q :=
  if (d =? 0)%Z
  then dot (arithQ G) (pos pkt) (dir pkt) / vec_len (arithQ G) (pos pkt) * CLIGHT_PROP G
  else 0.

Definition spherical_d_inner (pkt : packet Q) : outcome Q :=
  let r_inner := get_cellcoordmin g (where_ pkt) 0 * prop_time pkt / tmin G in
  if Qgtb r_inner 0
  then get_shellcrossdist (pos pkt) (dir pkt) r_inner true (prop_time pkt)
  else Done (-1).

Definition spherical_d_outer (pkt : packet Q) : outcome Q :=
  let r_outer := spherical_cellcoordmax pkt 0%Z * prop_time pkt / tmin G in
  get_shellcrossdist (pos pkt) (dir pkt) r_outer false (prop_time pkt).

(** [s] names the cell beyond a face of the packet's cell, or is -99 where
    that cell lies at the edge of the grid. *)
Definition beyond_a_face (pkt : packet Q) (s : Z) : Prop :=
  exists d, (0 <= d < get_ngriddimensions g)%Z /\
    ((s = (-99)%Z /\
      (get_cellcoordpointnum g (where_ pkt) d = (ncoordgrid g d - 1)%Z \/
       get_cellcoordpointnum g (where_ pkt) d = 0%Z)) \/
     s = (where_ pkt + get_coordcellindexincrement g d)%Z \/
     s = (where_ pkt - get_coordcellindexincrement g d)%Z).

(** [choice], [time], [*snext] and the packet before the last loop. *)
Definition nothing_found (pkt : packet Q) (snext : Z) : selection :=
  {| choice := None; time := inject_Z (10 ^ 99); sel_snext := snext; sel_pkt := pkt |}.

(** [boundary_cross]: the distance to the next cell boundary; [*snext] and
    [pkt_ptr->last_cross] are set on the way.  It returns the distance, the
    value left in [*snext] and the packet. *)
Definition boundary_cross (pkt : packet Q) (snext : Z) : outcome (Q * Z * packet Q) :=
  let ndim := get_ngriddimensions g in
  match GRID_TYPE g with
  | GRID_OTHER _ => Failed Assert_grid_type
  | GRID_UNIFORM =>
      if (ndim >? 3)%Z then Failed Undefined_behaviour
      else
        match check_sides pkt (uniform_initpos pkt) (uniform_cellcoordmax pkt)
                (uniform_vel pkt) (zrange ndim) (last_cross pkt) with
        | Crossing r => Done r
        | Inside last_cross =>
            let s := select (uniform_t_coordmaxboundary pkt) (uniform_t_coordminboundary pkt)
                       last_cross (zrange ndim) (nothing_found pkt snext) in
            Done (CLIGHT_PROP G * time s, sel_snext s, sel_pkt s)
        end
  | GRID_SPHERICAL1D =>
      if (ndim >? 3)%Z then Failed Undefined_behaviour
      else
        match check_sides pkt (spherical_initpos pkt) (spherical_cellcoordmax pkt)
                (spherical_vel pkt) (zrange ndim) (last_cross pkt) with
        | Crossing r => Done r
        | Inside _ =>
            let last_cross := NONE in
            match spherical_d_inner pkt with
            | Failed f => Failed f
            | Done d_inner =>
                match spherical_d_outer pkt with
                | Failed f => Failed f
                | Done d_outer =>
                    if (ndim >? 1)%Z then Failed Undefined_behaviour
                    else
                      let t_coordminboundary := fun _ : Z => d_inner / CLIGHT_PROP G in
                      let t_coordmaxboundary := fun _ : Z => d_outer / CLIGHT_PROP G in
                      let s := select t_coordmaxboundary t_coordminboundary last_cross
                                 (zrange ndim) (nothing_found pkt snext) in
                      Done (CLIGHT_PROP G * time s, sel_snext s, sel_pkt s)
                end
            end
        end
  end.

End Solver.

End Boundary.

(** A uniform grid of 3 x 3 x 3 cells of width 1/2 at [tmin]: cell 13, the
    middle one, is the box from 0 to 1/2 in each coordinate. *)
Definition demo_grid : Boundary.grid :=
  {| Boundary.GRID_TYPE := Boundary.GRID_UNIFORM;
     Boundary.get_ngriddimensions := 3;
     Boundary.get_cellcoordmax := fun ci d => (inject_Z ((ci / 3 ^ d) mod 3) / 2)%Q;
     Boundary.get_cellcoordmin := fun ci d => (inject_Z ((ci / 3 ^ d) mod 3 - 1) / 2)%Q;
     Boundary.get_coordcellindexincrement := fun d => 3 ^ d;
     Boundary.get_cellcoordpointnum := fun ci d => (ci / 3 ^ d) mod 3;
     Boundary.ncoordgrid := fun _ => 3 |}.

(** A spherical grid of three shells: shell [ci] lies between the radii
    [ci / 2] and [(ci + 1) / 2] at [tmin]. *)
Definition demo_shells : Boundary.grid :=
  {| Boundary.GRID_TYPE := Boundary.GRID_SPHERICAL1D;
     Boundary.get_ngriddimensions := 1;
     Boundary.get_cellcoordmax := fun ci _ => (inject_Z (ci + 1) / 2)%Q;
     Boundary.get_cellcoordmin := fun ci _ => (inject_Z ci / 2)%Q;
     Boundary.get_coordcellindexincrement := fun _ => 1;
     Boundary.get_cellcoordpointnum := fun ci _ => ci;
     Boundary.ncoordgrid := fun _ => 3 |}.

(** *** Sorting the line list ([input.cc]) *)

(** [compare_linelistentry], the comparison that [qsort] is given for the
    line list.  Two frequencies closer than [1e-10 * a1->nu] count as the
    same line frequency: the second entry is overwritten with the frequency
    of the first and the level indices decide.  It returns the value and the
    second entry as it leaves it. *)
Definition compare_linelistentry (a1 a2 : linelist_entry) : Z * linelist_entry :=
  if Qltb (Qabs (nu a2 - nu a1)) ((1 # 10000000000) * nu a1) then
    let a2 := mk_line (nu a1) (elementindex a2) (ionindex a2) (upperlevelindex a2)
                (lowerlevelindex a2) in
    if lowerlevelindex a1 >? lowerlevelindex a2 then (-1, a2)
    else if lowerlevelindex a1 <? lowerlevelindex a2 then (1, a2)
    else if upperlevelindex a1 >? upperlevelindex a2 then (-1, a2)
    else if upperlevelindex a1 <? upperlevelindex a2 then (1, a2)
    else (0, a2)
  else if Qltb (nu a1) (nu a2) || Qeq_bool (nu a1) (nu a2) then (1, a2)
  else if Qgtb (nu a1) (nu a2) then (-1, a2)
  else (0, a2).
(** * Part II: lemmas and theorems *)

(** ** Comparisons *)

Lemma Qltb_lt (a b : Q) : Qltb a b = true <-> (a < b)%Q.
Proof.
  unfold Qltb. rewrite negb_true_iff. split; intro H.
  - apply Qnot_le_lt. intro Hle. apply Qle_bool_iff in Hle. congruence.
  - destruct (Qle_bool b a) eqn:E; [|reflexivity].
    apply Qle_bool_iff in E. exfalso. apply (Qlt_not_le _ _ H E).
Qed.

Lemma Qltb_ge (a b : Q) : Qltb a b = false <-> (b <= a)%Q.
Proof.
  unfold Qltb. rewrite negb_false_iff. apply Qle_bool_iff.
Qed.

Lemma Qle_bool_gt (a b : Q) : Qle_bool a b = false <-> (b < a)%Q.
Proof.
  rewrite <- Qltb_lt. unfold Qltb. rewrite negb_true_iff. tauto.
Qed.

(** ** Arrays *)

Lemma idx_Some_range {A} (a : list A) i x : idx a i = Some x -> 0 <= i < len a.
Proof.
  unfold idx, len. destruct (Z.ltb_spec i 0) as [Hi|Hi]; [discriminate|].
  intro Hx. assert (Hn : nth_error a (Z.to_nat i) <> None) by congruence.
  apply nth_error_Some in Hn. lia.
Qed.

Lemma idx_in_range {A} (a : list A) i : 0 <= i < len a -> exists x, idx a i = Some x.
Proof.
  unfold idx, len. intros [H0 H1]. destruct (Z.ltb_spec i 0) as [Hi|Hi]; [lia|].
  destruct (nth_error a (Z.to_nat i)) eqn:E; [eauto|].
  apply nth_error_None in E. lia.
Qed.

Lemma idx_None_range {A} (a : list A) i : idx a i = None -> i < 0 \/ len a <= i.
Proof.
  intro H. destruct (Z_lt_dec i 0); [now left|]. right.
  destruct (Z_le_dec (len a) i); [assumption|].
  destruct (idx_in_range a i) as [x Hx]; [lia | congruence].
Qed.

Lemma strictly_sorted_desc_sorted linelist :
  strictly_sorted_desc linelist -> sorted_desc linelist.
Proof.
  intros H i j a b Hij Ha Hb.
  destruct (Z.eq_dec i j) as [->|Hne].
  - rewrite Ha in Hb. injection Hb as ->. apply Qle_refl.
  - apply Qlt_le_weak. apply (H i j); auto. lia.
Qed.

(** ** The searches are correct *)

Lemma idx_cons {A} (x : A) (l : list A) i :
  idx (x :: l) i = if i =? 0 then Some x else idx l (i - 1).
Proof.
  unfold idx. destruct (Z.ltb_spec i 0) as [Hi|Hi].
  - destruct (Z.eqb_spec i 0); [lia|]. destruct (Z.ltb_spec (i - 1) 0); [reflexivity|lia].
  - destruct (Z.eqb_spec i 0) as [->|Hne]; [reflexivity|].
    destruct (Z.ltb_spec (i - 1) 0); [lia|].
    replace (Z.to_nat i) with (S (Z.to_nat (i - 1))) by lia. reflexivity.
Qed.

Section LowerBound.

Context {A : Type} (a : list A) (comp : A -> Q -> bool) (val : Q).

(** More fuel than the remaining length changes nothing. *)
Lemma lower_bound_loop_fuel fuel : forall fuel' first n,
  (Z.to_nat n <= fuel)%nat -> (Z.to_nat n <= fuel')%nat ->
  lower_bound_loop a comp fuel first n val =
  lower_bound_loop a comp fuel' first n val.
Proof.
  induction fuel as [|fuel IH]; intros fuel' first n Hf Hf'.
  - destruct fuel'; simpl; destruct (Z.gtb_spec n 0); try lia; reflexivity.
  - destruct fuel' as [|fuel']; simpl; destruct (Z.gtb_spec n 0) as [Hn|Hn]; try lia; try reflexivity.
    assert (Hh : Z.shiftr n 1 = n / 2) by (rewrite Z.shiftr_div_pow2 by lia; reflexivity).
    assert (Hh0 : 0 <= n / 2 < n) by (split; [apply Z.div_pos; lia | apply Z.div_lt_upper_bound; lia]).
    destruct (idx a (first + Z.shiftr n 1)) as [x|]; [|reflexivity].
    rewrite Hh. destruct (comp x val); apply IH; lia.
Qed.

(** Whatever the contents, the result lies between [first] and [last]. *)
Lemma lower_bound_loop_range fuel : forall first n r,
  lower_bound_loop a comp fuel first n val = Some r ->
  first <= r /\ (0 <= n -> r <= first + n).
Proof.
  induction fuel as [|fuel IH]; intros first n r; simpl.
  - destruct (Z.gtb_spec n 0) as [Hn|Hn]; [discriminate|]. intro H. injection H as <-. lia.
  - destruct (Z.gtb_spec n 0) as [Hn|Hn].
    + assert (Hh : Z.shiftr n 1 = n / 2) by (rewrite Z.shiftr_div_pow2 by lia; reflexivity).
      assert (Hh0 : 0 <= n / 2 < n) by (split; [apply Z.div_pos; lia | apply Z.div_lt_upper_bound; lia]).
      rewrite Hh. destruct (idx a (first + n / 2)) as [x|]; [|discriminate].
      destruct (comp x val); intro H; apply IH in H; lia.
    + intro H. injection H as <-. lia.
Qed.

(** On a partitioned range inside the array the loop returns the partition
    point. *)
Lemma lower_bound_loop_spec (Hpart : partitioned a comp val) fuel : forall first n,
  0 <= first -> 0 <= n -> first + n <= len a -> (Z.to_nat n <= fuel)%nat ->
  exists r, lower_bound_loop a comp fuel first n val = Some r /\
    first <= r <= first + n /\
    (forall j x, first <= j < r -> idx a j = Some x -> comp x val = true) /\
    (forall j x, r <= j < first + n -> idx a j = Some x -> comp x val = false).
Proof.
  induction fuel as [|fuel IH]; intros first n H0 Hn Hlen Hf; simpl.
  - destruct (Z.gtb_spec n 0) as [Hpos|Hpos]; [lia|]. exists first. repeat split; try lia; intros; lia.
  - destruct (Z.gtb_spec n 0) as [Hpos|Hpos].
    2:{ exists first. repeat split; try lia; intros; lia. }
    assert (Hh : Z.shiftr n 1 = n / 2) by (rewrite Z.shiftr_div_pow2 by lia; reflexivity).
    assert (Hh0 : 0 <= n / 2 < n) by (split; [apply Z.div_pos; lia | apply Z.div_lt_upper_bound; lia]).
    rewrite Hh. destruct (idx_in_range a (first + n / 2)) as [x Hx]; [lia|].
    rewrite Hx. destruct (comp x val) eqn:Ec.
    + destruct (IH (first + n / 2 + 1) (n - n / 2 - 1)) as (r & Hr & Hrange & Hlo & Hhi); try lia.
      exists r. split; [exact Hr|]. split; [lia|]. split.
      * intros j y Hj Hy. destruct (Z_le_dec j (first + n / 2)) as [Hle|Hgt].
        -- apply (Hpart j (first + n / 2) y x); assumption.
        -- apply (Hlo j y); [lia|assumption].
      * intros j y Hj Hy. apply (Hhi j y); [lia|assumption].
    + destruct (IH first (n / 2)) as (r & Hr & Hrange & Hlo & Hhi); try lia.
      exists r. split; [exact Hr|]. split; [lia|]. split.
      * exact Hlo.
      * intros j y Hj Hy. destruct (Z_lt_dec j (first + n / 2)) as [Hlt|Hge].
        -- apply (Hhi j y); [lia|assumption].
        -- destruct (comp y val) eqn:Ey; [|reflexivity].
           rewrite (Hpart (first + n / 2) j x y) in Ec; [discriminate|lia|assumption..].
Qed.

End LowerBound.

(** A line list in descending order is partitioned by [line_lt]. *)
Lemma sorted_desc_partitioned linelist nu_cmf :
  sorted_desc linelist -> partitioned linelist line_lt nu_cmf.
Proof.
  intros Hs i j x y Hij Hx Hy. unfold line_lt. rewrite !negb_true_iff, !Qle_bool_gt.
  intro Hlt. eapply Qlt_le_trans; [exact Hlt|]. apply (Hs i j); assumption.
Qed.

Lemma lower_bound_linelist linelist nu_cmf :
  sorted_desc linelist ->
  exists r, lower_bound linelist line_lt 0 (nlines linelist) nu_cmf = Some r /\
    0 <= r <= nlines linelist /\ first_redder linelist nu_cmf r.
Proof.
  intro Hs. unfold lower_bound, nlines.
  destruct (lower_bound_loop_spec linelist line_lt nu_cmf
              (sorted_desc_partitioned _ _ Hs) (Z.to_nat (len linelist - 0)) 0 (len linelist - 0))
    as (r & Hr & Hrange & Hlo & Hhi); try (unfold len; lia).
  exists r. split; [exact Hr|]. split; [lia|]. split.
  - intros j x Hj Hx. apply Qle_bool_gt. apply negb_true_iff. apply (Hlo j x Hj Hx).
  - intros j x Hj Hx. apply Qle_bool_iff. apply negb_false_iff.
    apply (Hhi j x); [unfold nlines in Hj; lia|assumption].
Qed.

(** The hand-written loop of the older version finds the same index, as long
    as it lies in the current window. *)
Lemma legacy_search_loop_spec linelist nu_cmf r :
  first_redder linelist nu_cmf r -> 1 <= r ->
  forall fuel left right middle,
    0 <= left -> left <= r <= right -> right <= nlines linelist - 1 ->
    (Z.to_nat (right - left + 1) <= fuel)%nat ->
    Legacy.search_loop linelist fuel nu_cmf left right middle = Some r.
Proof.
  intros [Hlo Hhi] Hr1. induction fuel as [|fuel IH]; intros left right middle H0 Hlr Hright Hf.
  - lia.
  - simpl. destruct (Z.leb_spec left right) as [Hle|Hgt]; [|lia].
    set (m := left + (right - left) ÷ 2).
    assert (Hm : left <= m <= right).
    { unfold m. rewrite Z.quot_div_nonneg by lia.
      assert (0 <= (right - left) / 2 <= right - left)
        by (split; [apply Z.div_pos; lia | apply Z.div_le_upper_bound; lia]). lia. }
    destruct (idx_in_range linelist m) as [lm Hlm]; [unfold nlines in Hright; lia|].
    rewrite Hlm. unfold Qgeb. destruct (Qle_bool (nu lm) nu_cmf) eqn:Ege.
    + apply Qle_bool_iff in Ege.
      assert (Hmr : r <= m).
      { destruct (Z_le_dec r m); [assumption|]. exfalso.
        apply (Qlt_not_le _ _ (Hlo m lm ltac:(lia) Hlm) Ege). }
      destruct (idx_in_range linelist (m - 1)) as [lp Hlp]; [unfold nlines in Hright; lia|].
      rewrite Hlp. destruct (Qltb nu_cmf (nu lp)) eqn:Elt.
      * apply Qltb_lt in Elt. f_equal.
        destruct (Z.eq_dec m r); [assumption|]. exfalso.
        apply (Qlt_not_le _ _ Elt). apply (Hhi (m - 1) lp); [lia|assumption].
      * apply Qltb_ge in Elt. apply IH; try lia.
        destruct (Z_le_dec r (m - 1)); [lia|]. exfalso.
        apply (Qlt_not_le _ _ (Hlo (m - 1) lp ltac:(lia) Hlp) Elt).
    + apply Qle_bool_gt in Ege. apply IH; try lia.
      destruct (Z_lt_dec m r); [lia|]. exfalso.
      apply (Qlt_not_le _ _ Ege). apply (Hhi m lm); [lia|assumption].
Qed.

Lemma adjacentb_head r (R : linelist_entry -> linelist_entry -> Prop) :
  (forall a b, r a b = true -> R a b) ->
  (forall a b c, R a b -> R b c -> R a c) ->
  forall l a, adjacentb r (a :: l) = true ->
  forall k b, idx l k = Some b -> R a b.
Proof.
  intros Hr Htrans. induction l as [|b0 l IH]; intros a Hadj k b Hb.
  - apply idx_Some_range in Hb. unfold len in Hb. simpl in Hb. lia.
  - simpl in Hadj. apply andb_true_iff in Hadj as [Hab Hrest].
    rewrite idx_cons in Hb. destruct (Z.eqb_spec k 0) as [->|Hk].
    + injection Hb as <-. auto.
    + apply (Htrans a b0 b); [auto|]. apply (IH b0 Hrest (k - 1) b Hb).
Qed.

Lemma adjacentb_pairs r (R : linelist_entry -> linelist_entry -> Prop) :
  (forall a b, r a b = true -> R a b) ->
  (forall a b c, R a b -> R b c -> R a c) ->
  forall l, adjacentb r l = true ->
  forall i j a b, i < j -> idx l i = Some a -> idx l j = Some b -> R a b.
Proof.
  intros Hr Htrans. induction l as [|x l IH]; intros Hadj i j a b Hij Ha Hb.
  - apply idx_Some_range in Ha. unfold len in Ha. simpl in Ha. lia.
  - rewrite idx_cons in Ha, Hb.
    assert (Hi0 : 0 <= i) by (destruct (Z.eqb_spec i 0); [lia|]; apply idx_Some_range in Ha; lia).
    destruct (Z.eqb_spec j 0) as [->|Hj]; [lia|].
    destruct (Z.eqb_spec i 0) as [->|Hi].
    + injection Ha as <-. apply (adjacentb_head r R Hr Htrans l x Hadj (j - 1) b Hb).
    + apply (IH ltac:(destruct l; [reflexivity|simpl in Hadj; apply andb_true_iff in Hadj; tauto])
               (i - 1) (j - 1)); auto; lia.
Qed.

Lemma strictly_sorted_descb_sound l :
  strictly_sorted_descb l = true -> strictly_sorted_desc l.
Proof.
  intros H i j a b Hij Ha Hb.
  apply (adjacentb_pairs (fun a b => Qltb (nu b) (nu a)) (fun a b => (nu b < nu a)%Q))
    with (l := l) (i := i) (j := j); auto.
  - intros x y Hxy. apply Qltb_lt. exact Hxy.
  - intros x y z Hxy Hyz. eapply Qlt_trans; eassumption.
Qed.

Lemma demo_lines_strictly_sorted : strictly_sorted_desc demo_lines.
Proof. apply strictly_sorted_descb_sound. reflexivity. Qed.

Lemma demo_lines_sorted : sorted_desc demo_lines.
Proof. apply strictly_sorted_desc_sorted, demo_lines_strictly_sorted. Qed.

(** With [next_trans = 0] and a frequency strictly between the reddest and
    the bluest line, both versions return the partition point. *)
Lemma closest_transition_search linelist nu_cmf reddest bluest :
  sorted_desc linelist ->
  idx linelist (nlines linelist - 1) = Some reddest ->
  idx linelist 0 = Some bluest ->
  (nu reddest <= nu_cmf)%Q -> (nu_cmf < nu bluest)%Q ->
  exists r, closest_transition linelist nu_cmf 0 = Some r /\
            Legacy.closest_transition linelist nu_cmf 0 = Some r /\
            1 <= r <= nlines linelist - 1 /\ first_redder linelist nu_cmf r.
Proof.
  intros Hs Hred Hblue Hge Hlt.
  destruct (lower_bound_linelist linelist nu_cmf Hs) as (r & Hr & Hrange & Hfirst).
  assert (Hn : 0 < nlines linelist) by (apply idx_Some_range in Hblue; unfold nlines; lia).
  assert (Hr1 : 1 <= r).
  { destruct (Z_le_dec 1 r); [assumption|]. exfalso.
    apply (Qlt_not_le _ _ Hlt). apply (proj2 Hfirst 0 bluest); [lia|assumption]. }
  assert (Hr2 : r <= nlines linelist - 1).
  { destruct (Z_le_dec r (nlines linelist - 1)); [assumption|]. exfalso.
    apply (Qlt_not_le _ _ (proj1 Hfirst (nlines linelist - 1) reddest ltac:(lia) Hred) Hge). }
  exists r. unfold closest_transition, Legacy.closest_transition.
  rewrite Hred, Hblue.
  replace (Qltb nu_cmf (nu reddest)) with false by (symmetry; apply Qltb_ge; assumption).
  replace (Qgeb nu_cmf (nu bluest)) with false by (symmetry; apply Qle_bool_gt; assumption).
  destruct (Z.gtb_spec 0 (nlines linelist - 1)) as [Hg|Hg]; [lia|]. simpl.
  repeat split; try assumption; try lia; try apply Hfirst.
  apply legacy_search_loop_spec; auto; lia.
Qed.

(** ** The line-list search ([closest_transition]) *)

(** Nothing is searched when [next_trans] is positive. *)
Lemma closest_transition_positive linelist nu_cmf next_trans reddest :
  idx linelist (nlines linelist - 1) = Some reddest ->
  (nu reddest <= nu_cmf)%Q ->
  0 < next_trans <= nlines linelist - 1 ->
  closest_transition linelist nu_cmf next_trans = Some next_trans /\
  Legacy.closest_transition linelist nu_cmf next_trans = Some next_trans.
Proof.
  intros Hred Hge Hnt. unfold closest_transition, Legacy.closest_transition.
  rewrite Hred.
  replace (Qltb nu_cmf (nu reddest)) with false by (symmetry; apply Qltb_ge; assumption).
  destruct (Z.gtb_spec next_trans (nlines linelist - 1)) as [Hg|Hg]; [lia|].
  destruct (Z.gtb_spec next_trans 0) as [Hp|Hp]; [|lia].
  split; reflexivity.
Qed.

(** C3. On a line list in descending order of frequency,
    [closest_transition(nu_cmf, 0)] returns -1 when [nu_cmf] lies below the
    reddest (last) line, 0 when [nu_cmf] is at or above the bluest (first)
    line, and otherwise the smallest index [i] in [[0, nlines)] with
    [linelist[i].nu <= nu_cmf], which is the index of the largest line
    frequency not above [nu_cmf]; and for a positive [next_trans] not beyond
    [nlines - 1], with [nu_cmf] not below the reddest line, it returns
    [next_trans] unchanged, whatever the frequencies in between. *)
Theorem closest_transition_correct linelist nu_cmf reddest bluest :
  sorted_desc linelist ->
  idx linelist (nlines linelist - 1) = Some reddest ->
  idx linelist 0 = Some bluest ->
  ((nu_cmf < nu reddest)%Q -> closest_transition linelist nu_cmf 0 = Some (-1)) /\
  ((nu bluest <= nu_cmf)%Q -> closest_transition linelist nu_cmf 0 = Some 0) /\
  ((nu reddest <= nu_cmf)%Q -> (nu_cmf < nu bluest)%Q ->
     exists i line,
       closest_transition linelist nu_cmf 0 = Some i /\
       0 <= i < nlines linelist /\
       idx linelist i = Some line /\
       (nu line <= nu_cmf)%Q /\
       (forall j lj, 0 <= j < i -> idx linelist j = Some lj -> (nu_cmf < nu lj)%Q) /\
       (forall j lj, idx linelist j = Some lj -> (nu lj <= nu_cmf)%Q ->
          (nu lj <= nu line)%Q)) /\
  (forall next_trans, 0 < next_trans <= nlines linelist - 1 ->
     (nu reddest <= nu_cmf)%Q ->
     closest_transition linelist nu_cmf next_trans = Some next_trans).
Proof.
  intros Hs Hred Hblue.
  assert (Hn : 0 < nlines linelist) by (apply idx_Some_range in Hblue; unfold nlines; lia).
  repeat split.
  - intro Hlt. unfold closest_transition. rewrite Hred.
    replace (Qltb nu_cmf (nu reddest)) with true by (symmetry; apply Qltb_lt; assumption).
    reflexivity.
  - intro Hge. unfold closest_transition. rewrite Hred, Hblue.
    assert (Hrb : (nu reddest <= nu_cmf)%Q).
    { eapply Qle_trans; [|exact Hge]. apply (Hs 0 (nlines linelist - 1)); auto. lia. }
    replace (Qltb nu_cmf (nu reddest)) with false by (symmetry; apply Qltb_ge; assumption).
    destruct (Z.gtb_spec 0 (nlines linelist - 1)) as [Hg|Hg]; [lia|]. simpl.
    replace (Qgeb nu_cmf (nu bluest)) with true by (symmetry; apply Qle_bool_iff; assumption).
    reflexivity.
  - intros Hge Hlt.
    destruct (closest_transition_search linelist nu_cmf reddest bluest Hs Hred Hblue Hge Hlt)
      as (r & Hr & _ & Hrange & Hlo & Hhi).
    destruct (idx_in_range linelist r) as [line Hline]; [unfold nlines in *; lia|].
    exists r, line. split; [exact Hr|]. split; [lia|]. split; [exact Hline|].
    assert (Hle : (nu line <= nu_cmf)%Q) by (apply (Hhi r line); [lia|assumption]).
    split; [exact Hle|]. split.
    + intros j lj Hj Hlj. apply (Hlo j lj); assumption.
    + intros j lj Hlj Hljle.
      assert (Hjr : r <= j).
      { destruct (Z_le_dec r j); [assumption|]. exfalso.
        apply idx_Some_range in Hlj as Hjrange.
        apply (Qlt_not_le _ _ (Hlo j lj ltac:(lia) Hlj) Hljle). }
      apply (Hs r j); assumption.
  - intros next_trans Hnt Hge.
    apply (closest_transition_positive linelist nu_cmf next_trans reddest); assumption.
Qed.

Lemma closest_transition_correct_witness :
  exists i line,
    closest_transition demo_lines 4 0 = Some i /\
    0 <= i < nlines demo_lines /\
    idx demo_lines i = Some line /\
    (nu line <= 4)%Q /\
    (forall j lj, 0 <= j < i -> idx demo_lines j = Some lj -> (4 < nu lj)%Q) /\
    (forall j lj, idx demo_lines j = Some lj -> (nu lj <= 4)%Q -> (nu lj <= nu line)%Q).
Proof.
  destruct (closest_transition_correct demo_lines 4 (mk_line 3 1 0 1 0) (mk_line 10 0 0 1 0)
              demo_lines_sorted eq_refl eq_refl) as (_ & _ & Hsearch & _).
  apply Hsearch; vm_compute; congruence.
Defined.

(** C10. The two versions of [closest_transition], the one that calls
    [std::lower_bound] and the older one with the hand-written binary search,
    return the same index for every line list in strictly descending order of
    frequency and every [nu_cmf] and [next_trans >= 0]; on a line list that
    is not empty both do return an index. *)
Theorem closest_transition_versions_agree linelist nu_cmf next_trans :
  strictly_sorted_desc linelist ->
  0 <= next_trans ->
  Legacy.closest_transition linelist nu_cmf next_trans
  = closest_transition linelist nu_cmf next_trans /\
  (0 < nlines linelist ->
   exists i, closest_transition linelist nu_cmf next_trans = Some i).
Proof.
  intros Hstrict Hnt. pose proof (strictly_sorted_desc_sorted _ Hstrict) as Hs.
  destruct (idx linelist (nlines linelist - 1)) as [reddest|] eqn:Hred.
  2:{ split.
      - unfold closest_transition, Legacy.closest_transition. rewrite Hred. reflexivity.
      - intro Hn. apply idx_None_range in Hred. unfold nlines in *. lia. }
  assert (Hn : 0 < nlines linelist)
    by (apply idx_Some_range in Hred; unfold nlines in *; lia).
  destruct (idx_in_range linelist 0) as [bluest Hblue]; [unfold nlines in Hn; lia|].
  destruct (Qlt_le_dec nu_cmf (nu reddest)) as [Hlt|Hge].
  { unfold closest_transition, Legacy.closest_transition. rewrite Hred.
    replace (Qltb nu_cmf (nu reddest)) with true by (symmetry; apply Qltb_lt; assumption).
    split; [reflexivity|eauto]. }
  destruct (Z_lt_dec (nlines linelist - 1) next_trans) as [Hbig|Hsmall].
  { unfold closest_transition, Legacy.closest_transition. rewrite Hred.
    replace (Qltb nu_cmf (nu reddest)) with false by (symmetry; apply Qltb_ge; assumption).
    destruct (Z.gtb_spec next_trans (nlines linelist - 1)) as [Hg|Hg]; [|lia].
    split; [reflexivity|eauto]. }
  destruct (Z.eq_dec next_trans 0) as [->|Hpos].
  - destruct (Qlt_le_dec nu_cmf (nu bluest)) as [Hltb|Hgeb].
    + destruct (closest_transition_search linelist nu_cmf reddest bluest Hs Hred Hblue Hge Hltb)
        as (r & Hr & Hr' & _).
      rewrite Hr, Hr'. split; [reflexivity|eauto].
    + unfold closest_transition, Legacy.closest_transition. rewrite Hred, Hblue.
      replace (Qltb nu_cmf (nu reddest)) with false by (symmetry; apply Qltb_ge; assumption).
      destruct (Z.gtb_spec 0 (nlines linelist - 1)) as [Hg|Hg]; [lia|]. simpl.
      replace (Qgeb nu_cmf (nu bluest)) with true
        by (symmetry; apply Qle_bool_iff; assumption).
      split; [reflexivity|eauto].
  - destruct (closest_transition_positive linelist nu_cmf next_trans reddest Hred Hge
                ltac:(lia)) as [H1 H2].
    rewrite H1, H2. split; [reflexivity|eauto].
Qed.

Lemma closest_transition_versions_agree_witness :
  Legacy.closest_transition demo_lines 4 0 = closest_transition demo_lines 4 0 /\
  (0 < nlines demo_lines -> exists i, closest_transition demo_lines 4 0 = Some i).
Proof.
  apply (closest_transition_versions_agree demo_lines 4 0 demo_lines_strictly_sorted).
  lia.
Defined.

(** ** Array updates *)

Lemma upd_nat_length {A} (a : list A) n v : length (upd_nat a n v) = length a.
Proof.
  revert n. induction a as [|h t IH]; intros [|n]; simpl; auto.
Qed.

Lemma upd_nat_nth_same {A} (a : list A) n v :
  (n < length a)%nat -> nth_error (upd_nat a n v) n = Some v.
Proof.
  revert n. induction a as [|h t IH]; intros [|n] Hn; simpl in *; try lia; auto.
  apply IH. lia.
Qed.

Lemma upd_nat_nth_other {A} (a : list A) n m v :
  n <> m -> nth_error (upd_nat a n v) m = nth_error a m.
Proof.
  revert n m. induction a as [|h t IH]; intros [|n] [|m] Hnm; simpl; auto; try congruence.
Qed.

Lemma upd_len {A} (a a' : list A) i v : upd a i v = Some a' -> len a' = len a.
Proof.
  unfold upd, len. destruct ((0 <=? i) && (i <? Z.of_nat (length a))); [|discriminate].
  intro H. injection H as <-. rewrite upd_nat_length. reflexivity.
Qed.

Lemma upd_idx_same {A} (a a' : list A) i v : upd a i v = Some a' -> idx a' i = Some v.
Proof.
  unfold upd, idx, len.
  destruct (Z.leb_spec 0 i) as [H0|H0]; [|discriminate].
  destruct (Z.ltb_spec i (Z.of_nat (length a))) as [H1|H1]; [|discriminate].
  simpl. intro H. injection H as <-.
  destruct (Z.ltb_spec i 0) as [Hn|Hn]; [lia|]. apply upd_nat_nth_same. lia.
Qed.

Lemma upd_idx_other {A} (a a' : list A) i j v :
  upd a i v = Some a' -> j <> i -> idx a' j = idx a j.
Proof.
  unfold upd, idx, len.
  destruct (Z.leb_spec 0 i) as [H0|H0]; [|discriminate].
  destruct (Z.ltb_spec i (Z.of_nat (length a))) as [H1|H1]; [|discriminate].
  simpl. intros H Hne. injection H as <-.
  destruct (Z.ltb_spec j 0) as [Hn|Hn]; [reflexivity|].
  apply upd_nat_nth_other. lia.
Qed.

Lemma upd_in_range {A} (a : list A) i v : 0 <= i < len a -> exists a', upd a i v = Some a'.
Proof.
  intros [H0 H1]. unfold upd.
  destruct (Z.leb_spec 0 i); [|lia]. destruct (Z.ltb_spec i (len a)); [|lia]. simpl. eauto.
Qed.

(** ** Taking [bind] apart *)

Lemma bind_Ok {A B} (r : result A) (k : A -> result B) b :
  bind r k = Ok b -> exists a, r = Ok a /\ k a = Ok b.
Proof. destruct r; simpl; intro H; try discriminate. eauto. Qed.

Lemma defined_Ok {A} (o : option A) a : defined o = Ok a -> o = Some a.
Proof. destruct o; simpl; intro H; congruence. Qed.

Lemma assert_always_Ok e f u : assert_always e f = Ok u -> e = true.
Proof. unfold assert_always. destruct e; [reflexivity|discriminate]. Qed.

Ltac bind_inv H :=
  let a := fresh "a" in
  let Ha := fresh "Ha" in
  apply bind_Ok in H; destruct H as (a & Ha & H).

Tactic Notation "bind_inv_as" hyp(H) ident(a) ident(Ha) :=
  apply bind_Ok in H; destruct H as (a & Ha & H).

(** ** The bound-free opacity and its cumulative scratch array *)

Lemma cumulative_store mono a a' i s s' :
  0 <= i -> cumulative mono a i s -> (mono = true -> (s <= s')%Q) ->
  upd a i s' = Some a' ->
  cumulative mono a' (i + 1) s'.
Proof.
  intros Hi (Hlen & Hlast & Hmono) Hss Hupd.
  assert (Hrange : 0 <= i < len a).
  { unfold upd in Hupd. destruct (Z.leb_spec 0 i); [|discriminate].
    destruct (Z.ltb_spec i (len a)); [lia|discriminate]. }
  pose proof (upd_len _ _ _ _ Hupd) as Hl.
  pose proof (upd_idx_same _ _ _ _ Hupd) as Hsame.
  split; [lia|]. split.
  { intros _. replace (i + 1 - 1) with i by lia. exact Hsame. }
  intro Hm. destruct (Hmono Hm) as [Hsorted Hbound]. specialize (Hss Hm). split.
  - intros j k x y Hjk Hk Hx Hy.
    destruct (Z.eq_dec k i) as [->|Hki].
    + rewrite Hsame in Hy. injection Hy as <-.
      destruct (Z.eq_dec j i) as [->|Hji].
      * rewrite Hsame in Hx. injection Hx as <-. apply Qle_refl.
      * rewrite (upd_idx_other _ _ _ _ _ Hupd Hji) in Hx.
        eapply Qle_trans; [apply (Hbound j x); [lia|assumption]|assumption].
    + assert (Hji : j <> i) by lia.
      rewrite (upd_idx_other _ _ _ _ _ Hupd Hki) in Hy.
      rewrite (upd_idx_other _ _ _ _ _ Hupd Hji) in Hx.
      apply (Hsorted j k); auto; lia.
  - intros j x Hj Hx. destruct (Z.eq_dec j i) as [->|Hji].
    + rewrite Hsame in Hx. injection Hx as <-. apply Qle_refl.
    + rewrite (upd_idx_other _ _ _ _ _ Hupd Hji) in Hx.
      eapply Qle_trans; [apply (Hbound j x); [lia|assumption]|assumption].
Qed.

Section KappaBf.

Variable G : globals.

Lemma store_kappa_bf_sum_spec i s st st' :
  store_kappa_bf_sum G i s st = Ok st' ->
  upd (kappa_bf_sum st) i s = Some (kappa_bf_sum st') /\
  kappa_rpkt_cont st' = kappa_rpkt_cont st /\ rng st' = rng st /\ trace st' = trace st.
Proof.
  unfold store_kappa_bf_sum. intro H. bind_inv H. apply defined_Ok in Ha.
  destruct (DETAILED_BF_ESTIMATORS_ON G).
  - bind_inv H. injection H as <-. simpl. auto.
  - injection H as <-. simpl. auto.
Qed.

Lemma bf_corrfactor_spec mgi nu i c nnlevel st corrfactor st' :
  bf_corrfactor G mgi nu i c nnlevel st = Ok (corrfactor, st') ->
  (0 <= corrfactor)%Q /\ kappa_bf_sum st' = kappa_bf_sum st /\
  kappa_rpkt_cont st' = kappa_rpkt_cont st /\ rng st' = rng st /\ trace st' = trace st.
Proof.
  unfold bf_corrfactor. destruct (SEPARATE_STIMRECOMB G).
  - intro H. injection H as <- <-. split; [lra|auto].
  - intro H. bind_inv H. bind_inv H. destruct a0 as [dr st1].
    assert (Hst1 : kappa_bf_sum st1 = kappa_bf_sum st /\
                   kappa_rpkt_cont st1 = kappa_rpkt_cont st /\ rng st1 = rng st /\
                   trace st1 = trace st).
    { destruct (Qltb a 0).
      - bind_inv Ha0. injection Ha0 as _ <-. simpl. auto.
      - injection Ha0 as _ <-. auto. }
    injection H as <- <-. split; [|exact Hst1].
    match goal with |- (0 <= if Qltb ?x 0 then _ else _)%Q =>
      destruct (Qltb x 0) eqn:E; [lra | apply Qltb_ge in E; exact E] end.
Qed.

(** The main loop keeps the scratch array cumulative. *)
Lemma kappa_bf_loop_cumulative mono mgi nu rest : forall i s st i' s' st',
  (mono = true -> forall c, In c rest ->
     (0 <= photoionization_crosssection_fromtable G (phixs.photoion_xs c) (phixs.nu_edge c) nu)%Q
     /\ (0 <= phixs.probability c)%Q) ->
  0 <= i ->
  cumulative mono (kappa_bf_sum st) i s ->
  kappa_bf_loop G mgi nu rest i s st = Ok (i', s', st') ->
  cumulative mono (kappa_bf_sum st') i' s' /\ i <= i' <= i + len rest /\
  kappa_rpkt_cont st' = kappa_rpkt_cont st /\ rng st' = rng st /\ trace st' = trace st.
Proof.
  induction rest as [|c rest IH]; intros i s st i' s' st' Hnn Hi Hcum H.
  - simpl in H. injection H as <- <- <-. split; [exact Hcum|].
    split; [unfold len; simpl; lia|auto].
  - assert (Hlen : len (c :: rest) = len rest + 1) by (unfold len; simpl length; lia).
    assert (Hlr : 0 <= len rest) by (unfold len; lia).
    assert (Hskip : forall st1, store_kappa_bf_sum G i s st = Ok st1 ->
              kappa_bf_loop G mgi nu rest (i + 1) s st1 = Ok (i', s', st') ->
              cumulative mono (kappa_bf_sum st') i' s' /\ i <= i' <= i + len (c :: rest) /\
              kappa_rpkt_cont st' = kappa_rpkt_cont st /\ rng st' = rng st /\
              trace st' = trace st).
    { intros st1 Hstore Hloop.
      apply store_kappa_bf_sum_spec in Hstore as (Hupd & Hk & Hr & Ht).
      apply IH in Hloop as (Hc & Hrange & Hk' & Hr' & Ht').
      - split; [exact Hc|]. split; [lia|]. repeat split; congruence.
      - intros Hm c' Hc'. apply (Hnn Hm). now right.
      - lia.
      - eapply cumulative_store; eauto. intros _. apply Qle_refl. }
    simpl in H.
    match type of H with (if ?b then _ else _) = _ => destruct b end.
    2:{ bind_inv H. eapply Hskip; eauto. }
    destruct (Qltb nu (phixs.nu_edge c)).
    { injection H as <- <- <-. split; [exact Hcum|]. split; [lia|auto]. }
    match type of H with (if ?b then _ else _) = _ => destruct b eqn:Econtr end.
    2:{ bind_inv H. eapply Hskip; eauto. }
    apply andb_true_iff in Econtr as [_ Hnnlevel]. apply Qltb_lt in Hnnlevel.
    bind_inv H. destruct a as [corrfactor st1].
    apply bf_corrfactor_spec in Ha as (Hcorr & Hkbs1 & Hk1 & Hr1 & Ht1).
    bind_inv H.
    assert (Hst2 : kappa_bf_sum a = kappa_bf_sum st1 /\ kappa_rpkt_cont a = kappa_rpkt_cont st1
                   /\ rng a = rng st1 /\ trace a = trace st1).
    { destruct (negb (NO_LUT_PHOTOION G) || negb (NO_LUT_BFHEATING G)).
      - destruct (phixs.level c =? 0).
        + bind_inv Ha. bind_inv Ha. injection Ha as <-. simpl. auto.
        + injection Ha as <-. auto.
      - injection Ha as <-. auto. }
    destruct Hst2 as (Hkbs2 & Hk2 & Hr2 & Ht2).
    bind_inv H.
    assert (Hst3 : kappa_bf_sum a0 = kappa_bf_sum a /\ kappa_rpkt_cont a0 = kappa_rpkt_cont a
                   /\ rng a0 = rng a /\ trace a0 = trace a).
    { destruct (DETAILED_BF_ESTIMATORS_ON G).
      - bind_inv Ha0. injection Ha0 as <-. simpl. auto.
      - injection Ha0 as <-. auto. }
    destruct Hst3 as (Hkbs3 & Hk3 & Hr3 & Ht3).
    match type of H with (if ?b then _ else _) = _ => destruct b end; [discriminate|].
    bind_inv H. apply defined_Ok in Ha1.
    apply IH in H as (Hc & Hrange & Hk' & Hr' & Ht').
    + simpl in Hk', Hr', Ht'. split; [exact Hc|]. split; [lia|]. repeat split; congruence.
    + intros Hm c' Hc'. apply (Hnn Hm). now right.
    + lia.
    + simpl. rewrite Hkbs3, Hkbs2, Hkbs1 in Ha1.
      eapply (cumulative_store _ _ _ i s); [exact Hi|exact Hcum| |exact Ha1].
      intro Hm. destruct (Hnn Hm c (or_introl eq_refl)) as [Hsig Hprob].
      assert (0 <= get_levelpop G mgi (phixs.element c) (phixs.ion c) (phixs.level c)
                   * photoionization_crosssection_fromtable G (phixs.photoion_xs c)
                       (phixs.nu_edge c) nu
                   * phixs.probability c * corrfactor)%Q.
      { repeat apply Qmult_le_0_compat; auto. apply Qlt_le_weak. exact Hnnlevel. }
      lra.
Qed.

(** So does the closing loop. *)
Lemma kappa_bf_fill_cumulative mono n : forall i s st st',
  0 <= i ->
  cumulative mono (kappa_bf_sum st) i s ->
  kappa_bf_fill G n i s st = Ok st' ->
  cumulative mono (kappa_bf_sum st') (i + Z.of_nat n) s /\
  kappa_rpkt_cont st' = kappa_rpkt_cont st /\ rng st' = rng st /\ trace st' = trace st.
Proof.
  induction n as [|n IH]; intros i s st st' Hi Hcum H.
  - simpl in H. injection H as <-. replace (i + Z.of_nat 0) with i by lia. auto.
  - simpl in H. bind_inv H. apply store_kappa_bf_sum_spec in Ha as (Hupd & Hk & Hr & Ht).
    apply IH in H as (Hc & Hk' & Hr' & Ht').
    + replace (i + Z.of_nat (S n)) with (i + 1 + Z.of_nat n) by lia.
      split; [exact Hc|]. repeat split; congruence.
    + lia.
    + eapply cumulative_store; eauto. intros _. apply Qle_refl.
Qed.

(** After [calculate_kappa_bf_gammacontr] the whole scratch array is
    cumulative and ends in the returned value; the opacity cache, the random
    numbers and the trace are untouched. *)
Lemma calculate_kappa_bf_gammacontr_cumulative mono mgi nu st kappa_bf st' :
  (mono = true -> nonnegative_phixs G nu) ->
  calculate_kappa_bf_gammacontr G mgi nu st = Ok (kappa_bf, st') ->
  cumulative mono (kappa_bf_sum st') (nbfcontinua G) kappa_bf /\
  kappa_rpkt_cont st' = kappa_rpkt_cont st /\ rng st' = rng st /\ trace st' = trace st.
Proof.
  intros Hnn H. unfold calculate_kappa_bf_gammacontr in H.
  bind_inv H.
  assert (Hst0 : kappa_bf_sum a = kappa_bf_sum st /\ kappa_rpkt_cont a = kappa_rpkt_cont st
                 /\ rng a = rng st /\ trace a = trace st).
  { destruct (negb (NO_LUT_PHOTOION G) || negb (NO_LUT_BFHEATING G)).
    - bind_inv Ha. injection Ha as <-. simpl. auto.
    - injection Ha as <-. auto. }
  destruct Hst0 as (Hkbs0 & Hk0 & Hr0 & Ht0).
  bind_inv H. destruct a0 as [[i s] st1].
  apply (kappa_bf_loop_cumulative mono) in Ha0 as (Hc & Hrange & Hk1 & Hr1 & Ht1).
  - bind_inv H. injection H as <- <-.
    apply (kappa_bf_fill_cumulative mono) in Ha0 as (Hc' & Hk2 & Hr2 & Ht2).
    + replace (i + Z.of_nat (Z.to_nat (nbfcontinua G - i))) with (nbfcontinua G) in Hc'
        by (unfold nbfcontinua in *; lia).
      split; [exact Hc'|]. repeat split; congruence.
    + lia.
    + exact Hc.
  - intros Hm c Hc. apply (Hnn Hm c Hc).
  - lia.
  - split; [unfold len; lia|]. split; [lia|]. intros _. split; intros; lia.
Qed.

End KappaBf.

(** ** Which fatal errors a function can raise *)

Lemma bind_Fatal {A B} (r : result A) (k : A -> result B) f :
  bind r k = Fatal f -> r = Fatal f \/ exists a, r = Ok a /\ k a = Fatal f.
Proof.
  destruct r; simpl; intro H; try discriminate; [right; eauto | left; congruence].
Qed.

Lemma defined_not_Fatal {A} (o : option A) f : defined o <> Fatal f.
Proof. destruct o; discriminate. Qed.

Lemma assert_always_Fatal e f f' : assert_always e f = Fatal f' -> f' = f /\ e = false.
Proof. unfold assert_always. destruct e; intro H; [discriminate|]. injection H as <-. auto. Qed.

Ltac fatal_step H :=
  match type of H with
  | bind (defined _) _ = Fatal _ =>
      apply bind_Fatal in H; destruct H as [H | (? & _ & H)];
      [exfalso; exact (defined_not_Fatal _ _ H)|]
  | bind (assert_always _ _) _ = Fatal _ =>
      apply bind_Fatal in H; destruct H as [H | (? & _ & H)];
      [apply assert_always_Fatal in H; destruct H as [-> _]|]
  | Ok _ = Fatal _ => discriminate H
  | Fatal _ = Fatal _ => injection H as <-
  | (if ?b then _ else _) = Fatal _ => destruct b
  | (let '(_, _) := ?p in _) = Fatal _ => destruct p
  end.

Section Fatal.

Variable G : globals.

Lemma calculate_kappa_ff_fatal mgi nu f :
  calculate_kappa_ff G mgi nu = Fatal f ->
  In f [Assert_nu_positive; Abort_kappa_ff_nonfinite].
Proof.
  unfold calculate_kappa_ff. intro H. repeat fatal_step H; simpl; auto.
Qed.

Lemma store_kappa_bf_sum_not_fatal i s st f : store_kappa_bf_sum G i s st <> Fatal f.
Proof.
  unfold store_kappa_bf_sum. intro H. repeat fatal_step H.
Qed.

Lemma bf_corrfactor_not_fatal mgi nu i c n st f : bf_corrfactor G mgi nu i c n st <> Fatal f.
Proof.
  unfold bf_corrfactor. intro H. fatal_step H; [discriminate|]. fatal_step H.
  apply bind_Fatal in H. destruct H as [H | ([dr st1] & _ & H)]; [|discriminate].
  repeat fatal_step H.
Qed.

Lemma kappa_bf_loop_fatal mgi nu rest : forall i s st f,
  kappa_bf_loop G mgi nu rest i s st = Fatal f -> f = Abort_kappa_bf_contr_nonfinite.
Proof.
  induction rest as [|c rest IH]; intros i s st f H; simpl in H; [discriminate|].
  assert (Hskip : forall r : thread_state -> result (Z * Q * thread_state),
            bind (store_kappa_bf_sum G i s st) r = Fatal f ->
            (forall st1, r st1 = Fatal f -> f = Abort_kappa_bf_contr_nonfinite) ->
            f = Abort_kappa_bf_contr_nonfinite).
  { intros r Hr Hk. apply bind_Fatal in Hr. destruct Hr as [Hr | (st1 & _ & Hr)].
    - exfalso. exact (store_kappa_bf_sum_not_fatal _ _ _ _ Hr).
    - eapply Hk; eauto. }
  fatal_step H.
  2:{ eapply Hskip; [exact H|]. intros st1. apply IH. }
  fatal_step H; [discriminate|].
  fatal_step H.
  2:{ eapply Hskip; [exact H|]. intros st1. apply IH. }
  apply bind_Fatal in H. destruct H as [H | ([corr st1] & _ & H)].
  { exfalso. exact (bf_corrfactor_not_fatal _ _ _ _ _ _ _ H). }
  apply bind_Fatal in H. destruct H as [H | (st2 & _ & H)].
  { exfalso. repeat fatal_step H. }
  apply bind_Fatal in H. destruct H as [H | (st3 & _ & H)].
  { exfalso. repeat fatal_step H. }
  fatal_step H; [injection H as <-; reflexivity|].
  fatal_step H. eapply IH; eauto.
Qed.

Lemma kappa_bf_fill_not_fatal n : forall i s st f, kappa_bf_fill G n i s st <> Fatal f.
Proof.
  induction n as [|n IH]; intros i s st f H; simpl in H; [discriminate|].
  apply bind_Fatal in H. destruct H as [H | (st1 & _ & H)].
  - exact (store_kappa_bf_sum_not_fatal _ _ _ _ H).
  - exact (IH _ _ _ _ H).
Qed.

Lemma zero_groundcont_not_fatal n : forall i a f, zero_groundcont n i a <> Fatal f.
Proof.
  induction n as [|n IH]; intros i a f H; simpl in H; [discriminate|].
  fatal_step H. exact (IH _ _ _ H).
Qed.

Lemma calculate_kappa_bf_gammacontr_fatal mgi nu st f :
  calculate_kappa_bf_gammacontr G mgi nu st = Fatal f -> f = Abort_kappa_bf_contr_nonfinite.
Proof.
  unfold calculate_kappa_bf_gammacontr. intro H.
  apply bind_Fatal in H. destruct H as [H | (st1 & _ & H)].
  { exfalso. fatal_step H; [|discriminate].
    apply bind_Fatal in H. destruct H as [H | (? & _ & H)]; [|discriminate].
    exact (zero_groundcont_not_fatal _ _ _ _ H). }
  apply bind_Fatal in H. destruct H as [H | ([[i s] st2] & _ & H)].
  { eapply kappa_bf_loop_fatal; eauto. }
  apply bind_Fatal in H. destruct H as [H | (? & _ & H)]; [|discriminate].
  exfalso. exact (kappa_bf_fill_not_fatal _ _ _ _ _ H).
Qed.

Lemma recalculate_kappa_rpkt_cont_fatal mgi nu_cmf st f :
  recalculate_kappa_rpkt_cont G mgi nu_cmf st = Fatal f -> In f kappa_fatals.
Proof.
  unfold recalculate_kappa_rpkt_cont, kappa_fatals. intro H.
  apply bind_Fatal in H. destruct H as [H | ([[[[sigma kff] kbf] kffh] st1] & _ & H)].
  - fatal_step H; [|discriminate]. fatal_step H.
    + apply bind_Fatal in H. destruct H as [H | (kff & _ & H)].
      { apply calculate_kappa_ff_fatal in H. simpl in *. intuition. }
      apply bind_Fatal in H. destruct H as [H | ([kbf st1] & _ & H)]; [|discriminate].
      apply calculate_kappa_bf_gammacontr_fatal in H. subst. simpl. auto 10.
    + apply bind_Fatal in H. destruct H as [H | (kff & _ & H)]; [|discriminate].
      apply calculate_kappa_ff_fatal in H. simpl in *. intuition.
  - simpl in H. repeat fatal_step H. simpl. auto 10.
Qed.

Lemma calculate_kappa_rpkt_cont_fatal pkt st f :
  calculate_kappa_rpkt_cont G pkt st = Fatal f -> In f kappa_fatals.
Proof.
  unfold calculate_kappa_rpkt_cont. intro H.
  fatal_step H; [unfold kappa_fatals; simpl; auto|].
  fatal_step H; [unfold kappa_fatals; simpl; auto|].
  fatal_step H; [discriminate|].
  eapply recalculate_kappa_rpkt_cont_fatal; eauto.
Qed.

End Fatal.

(** ** No function of the opacity kernel runs on an iteration budget *)

Lemma bind_OutOfFuel {A B} (r : result A) (k : A -> result B) :
  bind r k = OutOfFuel -> r = OutOfFuel \/ exists a, r = Ok a /\ k a = OutOfFuel.
Proof.
  destruct r; simpl; intro H; try discriminate; [right; eauto | left; reflexivity].
Qed.

Lemma defined_not_OutOfFuel {A} (o : option A) : defined o <> OutOfFuel.
Proof. destruct o; discriminate. Qed.

Lemma assert_always_not_OutOfFuel e f : assert_always e f <> OutOfFuel.
Proof. unfold assert_always. destruct e; discriminate. Qed.

Ltac oof_step H :=
  match type of H with
  | bind (defined _) _ = OutOfFuel =>
      apply bind_OutOfFuel in H; destruct H as [H | (? & _ & H)];
      [exfalso; exact (defined_not_OutOfFuel _ H)|]
  | bind (assert_always _ _) _ = OutOfFuel =>
      apply bind_OutOfFuel in H; destruct H as [H | (? & _ & H)];
      [exfalso; exact (assert_always_not_OutOfFuel _ _ H)|]
  | Ok _ = OutOfFuel => discriminate H
  | Fatal _ = OutOfFuel => discriminate H
  | (if ?b then _ else _) = OutOfFuel => destruct b
  | (let '(_, _) := ?p in _) = OutOfFuel => destruct p
  end.

Section NoBudget.

Variable G : globals.

Lemma calculate_kappa_ff_not_OutOfFuel mgi nu : calculate_kappa_ff G mgi nu <> OutOfFuel.
Proof. unfold calculate_kappa_ff. intro H. repeat oof_step H. Qed.

Lemma store_kappa_bf_sum_not_OutOfFuel i s st : store_kappa_bf_sum G i s st <> OutOfFuel.
Proof. unfold store_kappa_bf_sum. intro H. repeat oof_step H. Qed.

Lemma bf_corrfactor_not_OutOfFuel mgi nu i c n st :
  bf_corrfactor G mgi nu i c n st <> OutOfFuel.
Proof.
  unfold bf_corrfactor. intro H. oof_step H; [discriminate|]. oof_step H.
  apply bind_OutOfFuel in H. destruct H as [H | ([dr st1] & _ & H)]; [|discriminate].
  repeat oof_step H.
Qed.

Lemma kappa_bf_loop_not_OutOfFuel mgi nu rest : forall i s st,
  kappa_bf_loop G mgi nu rest i s st <> OutOfFuel.
Proof.
  induction rest as [|c rest IH]; intros i s st H; simpl in H; [discriminate|].
  assert (Hskip : forall r : thread_state -> result (Z * Q * thread_state),
            bind (store_kappa_bf_sum G i s st) r = OutOfFuel ->
            (forall st1, r st1 <> OutOfFuel) -> False).
  { intros r Hr Hk. apply bind_OutOfFuel in Hr. destruct Hr as [Hr | (st1 & _ & Hr)].
    - exact (store_kappa_bf_sum_not_OutOfFuel _ _ _ Hr).
    - exact (Hk _ Hr). }
  oof_step H.
  2:{ eapply Hskip; [exact H|]. intros st1. apply IH. }
  oof_step H; [discriminate|].
  oof_step H.
  2:{ eapply Hskip; [exact H|]. intros st1. apply IH. }
  apply bind_OutOfFuel in H. destruct H as [H | ([corr st1] & _ & H)].
  { exact (bf_corrfactor_not_OutOfFuel _ _ _ _ _ _ H). }
  apply bind_OutOfFuel in H. destruct H as [H | (st2 & _ & H)].
  { repeat oof_step H. }
  apply bind_OutOfFuel in H. destruct H as [H | (st3 & _ & H)].
  { repeat oof_step H. }
  oof_step H; [discriminate|].
  oof_step H. eapply IH; eauto.
Qed.

Lemma kappa_bf_fill_not_OutOfFuel n : forall i s st, kappa_bf_fill G n i s st <> OutOfFuel.
Proof.
  induction n as [|n IH]; intros i s st H; simpl in H; [discriminate|].
  apply bind_OutOfFuel in H. destruct H as [H | (st1 & _ & H)].
  - exact (store_kappa_bf_sum_not_OutOfFuel _ _ _ H).
  - exact (IH _ _ _ H).
Qed.

Lemma zero_groundcont_not_OutOfFuel n : forall i a, zero_groundcont n i a <> OutOfFuel.
Proof.
  induction n as [|n IH]; intros i a H; simpl in H; [discriminate|].
  oof_step H. exact (IH _ _ H).
Qed.

Lemma calculate_kappa_bf_gammacontr_not_OutOfFuel mgi nu st :
  calculate_kappa_bf_gammacontr G mgi nu st <> OutOfFuel.
Proof.
  unfold calculate_kappa_bf_gammacontr. intro H.
  apply bind_OutOfFuel in H. destruct H as [H | (st1 & _ & H)].
  { oof_step H; [|discriminate].
    apply bind_OutOfFuel in H. destruct H as [H | (? & _ & H)]; [|discriminate].
    exact (zero_groundcont_not_OutOfFuel _ _ _ H). }
  apply bind_OutOfFuel in H. destruct H as [H | ([[i s] st2] & _ & H)].
  { exact (kappa_bf_loop_not_OutOfFuel _ _ _ _ _ _ H). }
  apply bind_OutOfFuel in H. destruct H as [H | (? & _ & H)]; [|discriminate].
  exact (kappa_bf_fill_not_OutOfFuel _ _ _ _ H).
Qed.

Lemma recalculate_kappa_rpkt_cont_not_OutOfFuel mgi nu_cmf st :
  recalculate_kappa_rpkt_cont G mgi nu_cmf st <> OutOfFuel.
Proof.
  unfold recalculate_kappa_rpkt_cont. intro H.
  apply bind_OutOfFuel in H. destruct H as [H | ([[[[sigma kff] kbf] kffh] st1] & _ & H)].
  - oof_step H; [|discriminate]. oof_step H.
    + apply bind_OutOfFuel in H. destruct H as [H | (kff & _ & H)].
      { exact (calculate_kappa_ff_not_OutOfFuel _ _ H). }
      apply bind_OutOfFuel in H. destruct H as [H | ([kbf st1] & _ & H)]; [|discriminate].
      exact (calculate_kappa_bf_gammacontr_not_OutOfFuel _ _ _ H).
    + apply bind_OutOfFuel in H. destruct H as [H | (kff & _ & H)]; [|discriminate].
      exact (calculate_kappa_ff_not_OutOfFuel _ _ H).
  - simpl in H. repeat oof_step H.
Qed.

Lemma calculate_kappa_rpkt_cont_not_OutOfFuel pkt st :
  calculate_kappa_rpkt_cont G pkt st <> OutOfFuel.
Proof.
  unfold calculate_kappa_rpkt_cont. intro H.
  oof_step H. oof_step H. oof_step H; [discriminate|].
  exact (recalculate_kappa_rpkt_cont_not_OutOfFuel _ _ _ H).
Qed.

End NoBudget.

(** ** The opacity cache ([calculate_kappa_rpkt_cont]) *)

Section KappaCache.

Variable G : globals.

Lemma same_opacity_refl st : same_opacity st st.
Proof. split; reflexivity. Qed.

Lemma same_opacity_trans st1 st2 st3 :
  same_opacity st1 st2 -> same_opacity st2 st3 -> same_opacity st1 st3.
Proof. intros [H1 H2] [H3 H4]. split; congruence. Qed.

Lemma same_opacity_log c st : same_opacity st (log c st).
Proof. split; reflexivity. Qed.

Lemma same_opacity_set_rng n st : same_opacity st (set_rng n st).
Proof. split; reflexivity. Qed.

(** A recalculation stores the new cell and frequency, clears the
    recalculation flag, and leaves cache and scratch array in agreement. *)
Lemma recalculate_kappa_rpkt_cont_spec mgi nu_cmf st st' :
  recalculate_kappa_rpkt_cont G mgi nu_cmf st = Ok st' ->
  kappa.modelgridindex (kappa_rpkt_cont st') = mgi /\
  kappa.nu (kappa_rpkt_cont st') = nu_cmf /\
  kappa.recalculate_required (kappa_rpkt_cont st') = false /\
  bf_scratch_consistent G (kappa_rpkt_cont st') (kappa_bf_sum st') /\
  rng st' = rng st /\ trace st' = trace st.
Proof.
  unfold recalculate_kappa_rpkt_cont. intro H. bind_inv H.
  destruct a as [[[[sigma kff] kbf] kffh] st1].
  assert (Hst1 : (0 < nbfcontinua G ->
                  (kbf == 0)%Q \/ idx (kappa_bf_sum st1) (nbfcontinua G - 1) = Some kbf) /\
                 rng st1 = rng st /\ trace st1 = trace st).
  { destruct (do_r_lc G).
    - destruct (opacity_case G =? 4).
      + bind_inv Ha. bind_inv Ha. destruct a0 as [kbf' st1'].
        injection Ha as <- <- <- <- <-.
        apply (calculate_kappa_bf_gammacontr_cumulative G false) in Ha1
          as ((_ & Hlast & _) & _ & Hr & Ht); [|discriminate].
        split; [|auto]. intro Hpos. right. apply Hlast. exact Hpos.
      + bind_inv Ha. injection Ha as <- <- <- <- <-.
        split; [|auto]. intros _. left. reflexivity.
    - injection Ha as <- <- <- <- <-. split; [|auto]. intros _. left. reflexivity. }
  destruct Hst1 as (Hcons & Hr & Ht).
  simpl in H.
  destruct (negb (isfinite (sigma + kbf + kff))).
  - destruct (isfinite sigma); [|discriminate]. injection H as <-. simpl.
    repeat split; auto. intros _. left. reflexivity.
  - injection H as <-. simpl. repeat split; auto.
Qed.

Lemma calculate_kappa_rpkt_cont_spec pkt st st' :
  calculate_kappa_rpkt_cont G pkt st = Ok st' ->
  kappa.modelgridindex (kappa_rpkt_cont st') = get_cell_modelgridindex G (where_ pkt) /\
  kappa.recalculate_required (kappa_rpkt_cont st') = false /\
  get_cell_modelgridindex G (where_ pkt) <> get_npts_model G /\
  thick G (get_cell_modelgridindex G (where_ pkt)) <> 1 /\
  (bf_scratch_consistent G (kappa_rpkt_cont st) (kappa_bf_sum st) ->
   bf_scratch_consistent G (kappa_rpkt_cont st') (kappa_bf_sum st')) /\
  rng st' = rng st /\ trace st' = trace st.
Proof.
  unfold calculate_kappa_rpkt_cont. intro H.
  bind_inv H. apply assert_always_Ok in Ha. apply negb_true_iff in Ha.
  bind_inv H. apply assert_always_Ok in Ha0. apply negb_true_iff in Ha0.
  apply Z.eqb_neq in Ha, Ha0.
  destruct (kappa_cache_hit _ _ _) eqn:Ehit.
  - injection H as <-. unfold kappa_cache_hit in Ehit.
    apply andb_true_iff in Ehit as [Ehit _]. apply andb_true_iff in Ehit as [Em Er].
    apply Z.eqb_eq in Em. apply negb_true_iff in Er. repeat split; auto.
  - apply recalculate_kappa_rpkt_cont_spec in H as (Hm & _ & Hr & Hc & Hrng & Ht).
    repeat split; auto.
Qed.

End KappaCache.

(** C8, as the code has it.  Two calls of [calculate_kappa_rpkt_cont] in
    succession, for packets in the same model-grid cell and with nothing in
    between: when the second packet's comoving frequency is within a
    relative 1e-4 of the frequency stored in the cache (and that is the first
    packet's frequency whenever the first call recalculated), the second call
    returns at once and leaves the whole state, so every cached value, as it
    was; and a call for a packet in a different model-grid cell recalculates
    the opacities and stores them under the new cell and frequency. *)
Theorem kappa_cache_idempotent G pkt1 pkt2 st0 st1 :
  calculate_kappa_rpkt_cont G pkt1 st0 = Ok st1 ->
  (kappa_cache_hit (get_cell_modelgridindex G (where_ pkt1)) (nu_cmf pkt1)
     (kappa_rpkt_cont st0) = false ->
   kappa.nu (kappa_rpkt_cont st1) = nu_cmf pkt1) /\
  (get_cell_modelgridindex G (where_ pkt2) = get_cell_modelgridindex G (where_ pkt1) ->
   (Qabs (kappa.nu (kappa_rpkt_cont st1) / nu_cmf pkt2 - 1) < 1 # 10000)%Q ->
   calculate_kappa_rpkt_cont G pkt2 st1 = Ok st1) /\
  (get_cell_modelgridindex G (where_ pkt2) <> get_cell_modelgridindex G (where_ pkt1) ->
   get_cell_modelgridindex G (where_ pkt2) <> get_npts_model G ->
   thick G (get_cell_modelgridindex G (where_ pkt2)) <> 1 ->
   calculate_kappa_rpkt_cont G pkt2 st1
   = recalculate_kappa_rpkt_cont G (get_cell_modelgridindex G (where_ pkt2))
       (nu_cmf pkt2) st1 /\
   forall st2, calculate_kappa_rpkt_cont G pkt2 st1 = Ok st2 ->
     kappa.modelgridindex (kappa_rpkt_cont st2) = get_cell_modelgridindex G (where_ pkt2) /\
     kappa.nu (kappa_rpkt_cont st2) = nu_cmf pkt2).
Proof.
  intro H1.
  pose proof (calculate_kappa_rpkt_cont_spec G pkt1 st0 st1 H1)
    as (Hm & Hr & Hne & Hnt & _).
  split; [|split].
  - intro Hmiss. unfold calculate_kappa_rpkt_cont in H1.
    bind_inv H1. bind_inv H1. rewrite Hmiss in H1.
    apply recalculate_kappa_rpkt_cont_spec in H1. tauto.
  - intros Hcell Hnu. unfold calculate_kappa_rpkt_cont.
    rewrite Hcell.
    replace (negb (get_cell_modelgridindex G (where_ pkt1) =? get_npts_model G)) with true
      by (symmetry; apply negb_true_iff, Z.eqb_neq; assumption).
    replace (negb (thick G (get_cell_modelgridindex G (where_ pkt1)) =? 1)) with true
      by (symmetry; apply negb_true_iff, Z.eqb_neq; assumption).
    simpl. unfold kappa_cache_hit. rewrite Hm, Hr, Z.eqb_refl. simpl.
    replace (Qltb _ _) with true by (symmetry; apply Qltb_lt; exact Hnu).
    reflexivity.
  - intros Hcell Hne2 Hnt2.
    assert (Heq : calculate_kappa_rpkt_cont G pkt2 st1
                  = recalculate_kappa_rpkt_cont G (get_cell_modelgridindex G (where_ pkt2))
                      (nu_cmf pkt2) st1).
    { unfold calculate_kappa_rpkt_cont.
      replace (negb (get_cell_modelgridindex G (where_ pkt2) =? get_npts_model G)) with true
        by (symmetry; apply negb_true_iff, Z.eqb_neq; assumption).
      replace (negb (thick G (get_cell_modelgridindex G (where_ pkt2)) =? 1)) with true
        by (symmetry; apply negb_true_iff, Z.eqb_neq; assumption).
      simpl. unfold kappa_cache_hit. rewrite Hm.
      replace (get_cell_modelgridindex G (where_ pkt2)
               =? get_cell_modelgridindex G (where_ pkt1)) with false
        by (symmetry; apply Z.eqb_neq; assumption).
      reflexivity. }
    split; [exact Heq|]. intros st2 H2. rewrite Heq in H2.
    apply recalculate_kappa_rpkt_cont_spec in H2. tauto.
Qed.

Lemma kappa_cache_idempotent_witness :
  exists st1,
    calculate_kappa_rpkt_cont (demo_globals (fun _ => 1 # 2)) (demo_packet 0 10 0) demo_state
    = Ok st1 /\
    calculate_kappa_rpkt_cont (demo_globals (fun _ => 1 # 2)) (demo_packet 0 (100009 # 10000) 0)
      st1 = Ok st1.
Proof.
  destruct (calculate_kappa_rpkt_cont (demo_globals (fun _ => 1 # 2)) (demo_packet 0 10 0)
              demo_state) as [st1| | |] eqn:E; try (vm_compute in E; discriminate).
  exists st1. split; [reflexivity|].
  destruct (kappa_cache_idempotent (demo_globals (fun _ => 1 # 2)) (demo_packet 0 10 0)
              (demo_packet 0 (100009 # 10000) 0) demo_state st1 E) as (Hnu & Hhit & _).
  apply Hhit; [reflexivity|].
  rewrite Hnu by reflexivity. reflexivity.
Defined.

(** C8 fails as it is worded: the test compares the new frequency with the
    frequency in the cache, not with the frequency of the previous call.
    After a calculation at nu_cmf = 9, a call at 9 * 1.00009 is a cache hit
    and a call at 9 * 1.00018 straight after it, though within 1e-4 of the
    previous call in either direction, recalculates and changes the total. *)
Lemma kappa_cache_drift_counterexample :
  let G := demo_globals (fun _ => 1 # 2) in
  let pkt1 := demo_packet 0 (100009 # 10000) 0 in
  let pkt2 := demo_packet 0 (100018 # 10000) 0 in
  exists st1 st2,
    calculate_kappa_rpkt_cont G (demo_packet 0 10 0) demo_state = Ok st1 /\
    calculate_kappa_rpkt_cont G pkt1 st1 = Ok st1 /\
    get_cell_modelgridindex G (where_ pkt2) = get_cell_modelgridindex G (where_ pkt1) /\
    (Qabs (nu_cmf pkt1 / nu_cmf pkt2 - 1) < 1 # 10000)%Q /\
    (Qabs (nu_cmf pkt2 / nu_cmf pkt1 - 1) < 1 # 10000)%Q /\
    calculate_kappa_rpkt_cont G pkt2 st1 = Ok st2 /\
    ~ (kappa.total (kappa_rpkt_cont st2) == kappa.total (kappa_rpkt_cont st1))%Q.
Proof.
  intros G pkt1 pkt2.
  destruct (calculate_kappa_rpkt_cont G (demo_packet 0 10 0) demo_state)
    as [st1| | |] eqn:E1; try (vm_compute in E1; discriminate).
  destruct (calculate_kappa_rpkt_cont G pkt2 st1)
    as [st2| | |] eqn:E2;
    try (vm_compute in E1; injection E1 as <-; vm_compute in E2; discriminate).
  exists st1, st2.
  vm_compute in E1. injection E1 as <-. vm_compute in E2. injection E2 as <-.
  repeat split; try reflexivity.
  vm_compute. discriminate.
Qed.

(** ** The event-distance solver ([get_event]) *)

Lemma lower_bound_ge_first {A} (a : list A) comp first last val r :
  lower_bound a comp first last val = Some r -> first <= r.
Proof.
  unfold lower_bound. intro H. apply lower_bound_loop_range in H. lia.
Qed.

(** A line index that [closest_transition] returns is never before
    [next_trans]. *)
Lemma closest_transition_ge linelist nu_cmf next_trans i :
  closest_transition linelist nu_cmf next_trans = Some i -> 0 <= i -> next_trans <= i.
Proof.
  unfold closest_transition. intros H Hi.
  destruct (idx linelist (nlines linelist - 1)) as [reddest|]; [|discriminate].
  destruct (Qltb nu_cmf (nu reddest)); [injection H as <-; lia|].
  destruct (Z.gtb_spec next_trans (nlines linelist - 1)) as [Hg|Hg]; [injection H as <-; lia|].
  destruct (Z.gtb_spec next_trans 0) as [Hp|Hp]; [injection H as <-; lia|].
  destruct (idx linelist 0) as [bluest|]; [|discriminate].
  destruct (Qgeb nu_cmf (nu bluest)); [injection H as <-; lia|].
  apply lower_bound_ge_first in H. exact H.
Qed.

Section GetEvent.

Variable G : globals.

Lemma move_pkt_next_trans (p : packet Q) d : next_trans (move_pkt G p d) = next_trans p.
Proof.
  unfold move_pkt. destruct (pos p) as [[x0 x1] x2]. destruct (dir p) as [[d0 d1] d2].
  reflexivity.
Qed.

Lemma move_pkt_withtime_next_trans (p : packet Q) d :
  next_trans (move_pkt_withtime G p d) = next_trans p.
Proof. unfold move_pkt_withtime. rewrite move_pkt_next_trans. reflexivity. Qed.

Variables (mgi : Z) (pkt : packet Q) (ety : Z).
Variables (tau_rnd abort_dist nu_cmf_abort kap_cont : Q).

Let body := get_event_body G mgi pkt ety tau_rnd abort_dist nu_cmf_abort kap_cont.
Let loop (fuel : nat) :=
  get_event_loop G fuel mgi pkt ety tau_rnd abort_dist nu_cmf_abort kap_cont.

Lemma get_event_body_not_OutOfFuel s : body s <> OutOfFuel.
Proof.
  unfold body, get_event_body. intro H.
  oof_step H. oof_step H.
  2:{ simpl in H. destruct (Qgtb _ _) in H; discriminate. }
  oof_step H.
  apply bind_OutOfFuel in H. destruct H as [H | (ldist & _ & H)].
  - oof_step H; [|discriminate]. oof_step H. discriminate.
  - oof_step H; [|discriminate]. oof_step H; [discriminate|].
    oof_step H; [discriminate|].
    destruct (DETAILED_LINE_ESTIMATORS_ON G); discriminate.
Qed.

(** What an iteration that goes round again has done. *)
Lemma get_event_body_Continue s s' :
  body s = Ok (Continue s') ->
  exists i line,
    examined_line G s = Some i /\ 0 <= i /\ idx (linelist G) i = Some line /\
    next_trans (dummypkt s') = i + 1 /\
    same_opacity (loop_state s) (loop_state s') /\
    rng (loop_state s') = rng (loop_state s).
Proof.
  unfold body, get_event_body, examined_line. intro H.
  bind_inv H. apply defined_Ok in Ha. rename a into i.
  destruct (Z.geb_spec i 0) as [Hi|Hi].
  2:{ simpl in H.
      destruct (Qgtb _ _) in H; discriminate. }
  bind_inv H. apply defined_Ok in Ha0. rename a into line.
  bind_inv H. rename a into ldist.
  exists i, line. split; [exact Ha|]. split; [lia|]. split; [exact Ha0|].
  destruct (Qgtb (tau_rnd - tau s) (kap_cont * ldist)); [|discriminate].
  destruct (Qltb (nu line) nu_cmf_abort); [discriminate|].
  destruct (Qgtb _ _) in H.
  - injection H as <-. simpl. rewrite move_pkt_withtime_next_trans. simpl.
    repeat split; reflexivity.
  - destruct (DETAILED_LINE_ESTIMATORS_ON G); discriminate.
Qed.

(** What a returning iteration has done. *)
Lemma get_event_body_Return s r :
  body s = Ok (Return r) ->
  exists i,
    examined_line G s = Some i /\
    next_trans (ev_pkt r) = next_trans (ev_dummypkt r) /\
    ((0 <= i /\ (next_trans (ev_dummypkt r) = i \/ next_trans (ev_dummypkt r) = i + 1))
     \/ (i < 0 /\ next_trans (ev_dummypkt r) = nlines (linelist G) + 1)) /\
    same_opacity (loop_state s) (ev_state r) /\
    rng (ev_state r) = rng (loop_state s).
Proof.
  unfold body, get_event_body, examined_line. intro H.
  bind_inv H. apply defined_Ok in Ha. rename a into i.
  exists i. split; [exact Ha|].
  destruct (Z.geb_spec i 0) as [Hi|Hi].
  2:{ simpl in H. destruct (Qgtb _ _) in H; injection H as <-; simpl;
      (split; [reflexivity|]); (split; [right; split; [lia|reflexivity]|]);
      (split; [apply same_opacity_refl|reflexivity]). }
  bind_inv H. apply defined_Ok in Ha0. rename a into line.
  bind_inv H. rename a into ldist.
  destruct (Qgtb (tau_rnd - tau s) (kap_cont * ldist)).
  - destruct (Qltb (nu line) nu_cmf_abort).
    + injection H as <-. simpl. split; [reflexivity|].
      split; [left; split; [lia|left; lia]|].
      split; [apply same_opacity_refl|reflexivity].
    + destruct (Qgtb _ _) in H; [discriminate|].
      destruct (DETAILED_LINE_ESTIMATORS_ON G); injection H as <-; simpl;
        rewrite ?move_pkt_withtime_next_trans; simpl;
        (split; [reflexivity|]); (split; [left; split; [lia|right; reflexivity]|]);
        (split; [split; reflexivity|reflexivity]).
  - injection H as <-. simpl. split; [reflexivity|].
    split; [left; split; [lia|left; lia]|].
    split; [apply same_opacity_refl|reflexivity].
Qed.

(** The only fatal error of an iteration is the assertion on [ldist]. *)
Lemma get_event_body_Fatal s f : body s = Fatal f -> f = Assert_ldist.
Proof.
  unfold body, get_event_body. intro H.
  fatal_step H. fatal_step H.
  2:{ simpl in H. destruct (Qgtb _ _) in H; discriminate. }
  fatal_step H.
  apply bind_Fatal in H. destruct H as [H | (ldist & _ & H)].
  - fatal_step H; [|discriminate]. fatal_step H; [reflexivity|discriminate].
  - fatal_step H; [|discriminate]. fatal_step H; [discriminate|].
    fatal_step H; [discriminate|].
    destruct (DETAILED_LINE_ESTIMATORS_ON G); discriminate.
Qed.

(** The loop returns what its last iteration returns. *)
Lemma get_event_loop_Ok fuel : forall s r,
  loop fuel s = Ok r ->
  exists s_last, (s_last = s \/ loops_to body s s_last) /\ body s_last = Ok (Return r).
Proof.
  unfold loop. induction fuel as [|fuel IH]; intros s r H; simpl in H; [discriminate|].
  bind_inv H. fold body in Ha. destruct a as [s'|r'].
  - apply IH in H as (s_last & Hreach & Hret).
    exists s_last. split; [|exact Hret]. right.
    destruct Hreach as [->|Hreach].
    + apply loops_once. exact Ha.
    + eapply loops_more; eauto.
  - injection H as <-. exists s. auto.
Qed.

Lemma get_event_loop_Fatal fuel : forall s f, loop fuel s = Fatal f -> f = Assert_ldist.
Proof.
  unfold loop. induction fuel as [|fuel IH]; intros s f H; simpl in H; [discriminate|].
  apply bind_Fatal in H. destruct H as [H | ([s'|r'] & _ & H)].
  - eapply get_event_body_Fatal; eauto.
  - eapply IH; eauto.
  - discriminate.
Qed.

(** Coming round the loop moves [next_trans] past the line examined first. *)
Lemma loops_to_next_trans s s' :
  loops_to body s s' ->
  exists i, examined_line G s = Some i /\ 0 <= i /\ i + 1 <= next_trans (dummypkt s') /\
            same_opacity (loop_state s) (loop_state s') /\
            rng (loop_state s') = rng (loop_state s).
Proof.
  induction 1 as [s s' Hstep | s s1 s' Hstep Hrest IH].
  - apply get_event_body_Continue in Hstep as (i & line & Hex & Hi & _ & Hnt & Hsame & Hr).
    exists i. repeat split; try apply Hsame; auto; lia.
  - apply get_event_body_Continue in Hstep as (i & line & Hex & Hi & _ & Hnt & Hsame & Hr).
    destruct IH as (i1 & Hex1 & Hi1 & Hnt1 & Hsame1 & Hr1).
    exists i. split; [exact Hex|]. split; [exact Hi|].
    unfold examined_line in Hex1. apply closest_transition_ge in Hex1; [|exact Hi1].
    split; [lia|]. split; [eapply same_opacity_trans; eauto|congruence].
Qed.

(** The budget is never used up. *)
Lemma get_event_loop_fuel fuel : forall s,
  (S (Z.to_nat (nlines (linelist G) - Z.max 0 (next_trans (dummypkt s)))) <= fuel)%nat ->
  loop fuel s <> OutOfFuel.
Proof.
  unfold loop. induction fuel as [|fuel IH]; intros s Hfuel H; [lia|].
  simpl in H. fold body in H. destruct (body s) as [[s'|r]| | |] eqn:Hb; simpl in H;
    try discriminate.
  2:{ exact (get_event_body_not_OutOfFuel _ Hb). }
  apply (IH s'); [|exact H].
  apply get_event_body_Continue in Hb as (i & line & Hex & Hi & Hline & Hnt & _).
  unfold examined_line in Hex. apply closest_transition_ge in Hex; [|exact Hi].
  apply idx_Some_range in Hline. unfold nlines in *. rewrite Hnt. lia.
Qed.

End GetEvent.

Section GetEventWhole.

Variable G : globals.

Lemma get_event_Ok mgi pkt ety tau_rnd abort_dist st r :
  get_event G mgi pkt ety tau_rnd abort_dist st = Ok r ->
  exists st1 s_last,
    calculate_kappa_rpkt_cont G pkt st = Ok st1 /\
    (s_last = get_event_init pkt st1 \/
     loops_to (get_event_body G mgi pkt ety tau_rnd abort_dist
                 (nu_cmf_at_abort G pkt abort_dist) (get_event_kap_cont G pkt st1))
       (get_event_init pkt st1) s_last) /\
    get_event_body G mgi pkt ety tau_rnd abort_dist (nu_cmf_at_abort G pkt abort_dist)
      (get_event_kap_cont G pkt st1) s_last = Ok (Return r).
Proof.
  unfold get_event. intro H. bind_inv H. rename a into st1.
  apply get_event_loop_Ok in H as (s_last & Hreach & Hret).
  exists st1, s_last. auto.
Qed.

Lemma get_event_terminates mgi pkt ety tau_rnd abort_dist st :
  get_event G mgi pkt ety tau_rnd abort_dist st <> OutOfFuel.
Proof.
  unfold get_event. intro H.
  apply bind_OutOfFuel in H. destruct H as [H | (st1 & _ & H)].
  - exact (calculate_kappa_rpkt_cont_not_OutOfFuel _ _ _ H).
  - revert H. apply get_event_loop_fuel.
    unfold get_event_fuel, get_event_init, nlines, len. simpl. lia.
Qed.

Lemma get_event_Fatal mgi pkt ety tau_rnd abort_dist st f :
  get_event G mgi pkt ety tau_rnd abort_dist st = Fatal f ->
  In f (Assert_ldist :: kappa_fatals).
Proof.
  unfold get_event. intro H.
  apply bind_Fatal in H. destruct H as [H | (st1 & _ & H)].
  - right. eapply calculate_kappa_rpkt_cont_fatal; eauto.
  - left. symmetry. eapply get_event_loop_Fatal; eauto.
Qed.

End GetEventWhole.

(** C1, as the code has it.  In an iteration of the loop of [get_event]
    whose candidate line lies past the abort boundary in frequency
    ([nu_trans < nu_cmf_abort], with [nu_cmf_abort] the comoving frequency of
    a shadow packet moved to [abort_dist]) and for which the remaining
    optical depth exceeds the continuum optical depth up to the line
    ([tau_rnd - tau > kap_cont * ldist]), [get_event] takes the shadow
    packet's [next_trans] back by one (to the index of that line), commits it
    into [pkt->next_trans], leaves the event type alone and returns
    [std::numeric_limits<double>::max()], the design document's "+infinity". *)
Theorem get_event_abort_exit G mgi pkt ety tau_rnd abort_dist kap_cont s i line fuel :
  examined_line G s = Some i ->
  0 <= i ->
  idx (linelist G) i = Some line ->
  (nu line < nu_cmf_at_abort G pkt abort_dist)%Q ->
  (-100 <= line_distance G (set_next_trans (i + 1) (dummypkt s)) (nu line))%Q ->
  (kap_cont * (if Qltb (line_distance G (set_next_trans (i + 1) (dummypkt s)) (nu line)) 0
               then 0
               else line_distance G (set_next_trans (i + 1) (dummypkt s)) (nu line))
   < tau_rnd - tau s)%Q ->
  exists r,
    get_event_loop G (S fuel) mgi pkt ety tau_rnd abort_dist
      (nu_cmf_at_abort G pkt abort_dist) kap_cont s = Ok r /\
    ev_edist r = DBL_MAX /\
    next_trans (ev_dummypkt r) = i /\
    ev_pkt r = set_next_trans i pkt /\
    ev_eventtype r = ety /\
    ev_state r = loop_state s.
Proof.
  intros Hex Hi Hline Hnu Hassert Htau.
  unfold examined_line in Hex. simpl. unfold get_event_body.
  rewrite Hex. simpl. destruct (Z.geb_spec i 0) as [_|Hneg]; [|lia].
  rewrite Hline. simpl.
  set (ldist0 := line_distance G (set_next_trans (i + 1) (dummypkt s)) (nu line)) in *.
  destruct (Qltb ldist0 0) eqn:Eneg.
  - unfold assert_always.
    replace (Qgeb ldist0 (-100)) with true by (symmetry; apply Qle_bool_iff; exact Hassert).
    simpl.
    replace (Qgtb (tau_rnd - tau s) (kap_cont * 0)) with true
      by (symmetry; apply Qltb_lt; exact Htau).
    replace (Qltb (nu line) (nu_cmf_at_abort G pkt abort_dist)) with true
      by (symmetry; apply Qltb_lt; exact Hnu).
    simpl. eexists. split; [reflexivity|]. simpl.
    replace (i + 1 - 1) with i by lia. repeat split; reflexivity.
  - simpl.
    replace (Qgtb (tau_rnd - tau s) (kap_cont * ldist0)) with true
      by (symmetry; apply Qltb_lt; exact Htau).
    replace (Qltb (nu line) (nu_cmf_at_abort G pkt abort_dist)) with true
      by (symmetry; apply Qltb_lt; exact Hnu).
    simpl. eexists. split; [reflexivity|]. simpl.
    replace (i + 1 - 1) with i by lia. repeat split; reflexivity.
Qed.

(** The packet of the concrete runs below: comoving frequency 9, between the
    lines at 10 and 8, one unit of length away from the abort boundary, where
    its comoving frequency will be 90/11 > 8. *)
Lemma get_event_abort_exit_witness :
  exists st1 r,
    calculate_kappa_rpkt_cont (demo_globals (fun _ => 1 # 2)) (demo_packet 0 10 0) demo_state
    = Ok st1 /\
    get_event_loop (demo_globals (fun _ => 1 # 2)) 1 0 (demo_packet 0 10 0) (-1) 2 1
      (nu_cmf_at_abort (demo_globals (fun _ => 1 # 2)) (demo_packet 0 10 0) 1)
      (get_event_kap_cont (demo_globals (fun _ => 1 # 2)) (demo_packet 0 10 0) st1)
      (get_event_init (demo_packet 0 10 0) st1) = Ok r /\
    ev_edist r = DBL_MAX /\
    next_trans (ev_dummypkt r) = 1 /\
    ev_pkt r = set_next_trans 1 (demo_packet 0 10 0) /\
    ev_eventtype r = -1 /\
    ev_state r = loop_state (get_event_init (demo_packet 0 10 0) st1).
Proof.
  destruct (calculate_kappa_rpkt_cont (demo_globals (fun _ => 1 # 2)) (demo_packet 0 10 0)
              demo_state) as [st1| | |] eqn:E; try (vm_compute in E; discriminate).
  exists st1.
  destruct (get_event_abort_exit (demo_globals (fun _ => 1 # 2)) 0 (demo_packet 0 10 0) (-1)
              2 1 (get_event_kap_cont (demo_globals (fun _ => 1 # 2)) (demo_packet 0 10 0) st1)
              (get_event_init (demo_packet 0 10 0) st1) 1 (mk_line 8 0 0 2 0) 0%nat)
    as (r & Hr); try (vm_compute in E; injection E as <-; vm_compute; congruence).
  exists r. split; [reflexivity|]. exact Hr.
Defined.

(** C1 fails as it is worded: the test [nu_trans < nu_cmf_abort] is made only
    after [tau_rnd - tau > tau_cont].  For the same packet with
    [tau_rnd = 1], the candidate line (index 1, nu = 8) lies past the abort
    boundary (90/11), yet the continuum optical depth to the line, about
    1.38, is not below [tau_rnd]: [get_event] returns a continuum event at a
    finite distance, not the largest double. *)
Lemma get_event_abort_counterexample :
  let G := demo_globals (fun _ => 1 # 2) in
  let pkt := demo_packet 0 10 0 in
  exists line r,
    closest_transition (linelist G) (nu_cmf pkt) (next_trans pkt) = Some 1 /\
    idx (linelist G) 1 = Some line /\
    (nu line < nu_cmf_at_abort G pkt 1)%Q /\
    get_event G 0 pkt (-1) 1 1 demo_state = Ok r /\
    ~ (ev_edist r == DBL_MAX)%Q /\
    (ev_edist r < 1)%Q /\
    ev_eventtype r = RPKT_EVENTTYPE_CONT.
Proof.
  intros G pkt.
  destruct (get_event G 0 pkt (-1) 1 1 demo_state) as [r| | |] eqn:E;
    try (vm_compute in E; discriminate).
  exists (mk_line 8 0 0 2 0), r.
  vm_compute in E. injection E as <-.
  repeat split; try reflexivity.
  vm_compute. discriminate.
Qed.

(** C2. Within one run of [get_event] every iteration that goes round again
    sets the shadow packet's [next_trans] to one more than the line index it
    examined, so the line indices examined by successive searches increase
    strictly and no line is met twice; every [return] commits the shadow
    packet's [next_trans] into [pkt->next_trans]; the committed value is not
    below the value at entry (an index up to the sentinel [nlines + 1], as
    the propagation code always leaves it); and the loop always ends. *)
Theorem get_event_next_trans_increases G mgi pkt ety tau_rnd abort_dist :
  (forall nu_cmf_abort kap_cont s s',
     get_event_body G mgi pkt ety tau_rnd abort_dist nu_cmf_abort kap_cont s
     = Ok (Continue s') ->
     exists i, examined_line G s = Some i /\ 0 <= i /\
               next_trans (dummypkt s') = i + 1) /\
  (forall nu_cmf_abort kap_cont s s' i j,
     loops_to (get_event_body G mgi pkt ety tau_rnd abort_dist nu_cmf_abort kap_cont) s s' ->
     examined_line G s = Some i -> examined_line G s' = Some j -> 0 <= j ->
     i < j) /\
  (forall nu_cmf_abort kap_cont s r,
     get_event_body G mgi pkt ety tau_rnd abort_dist nu_cmf_abort kap_cont s
     = Ok (Return r) ->
     next_trans (ev_pkt r) = next_trans (ev_dummypkt r)) /\
  (forall st r,
     get_event G mgi pkt ety tau_rnd abort_dist st = Ok r ->
     next_trans (ev_pkt r) = next_trans (ev_dummypkt r) /\
     (next_trans pkt <= nlines (linelist G) + 1 ->
      next_trans pkt <= next_trans (ev_pkt r))) /\
  (forall st, get_event G mgi pkt ety tau_rnd abort_dist st <> OutOfFuel).
Proof.
  split; [|split; [|split; [|split]]].
  - intros nu_cmf_abort kap_cont s s' H.
    apply get_event_body_Continue in H as (i & line & Hex & Hi & _ & Hnt & _).
    exists i. auto.
  - intros nu_cmf_abort kap_cont s s' i j Hloops Hi Hj Hj0.
    apply loops_to_next_trans in Hloops as (i' & Hi' & _ & Hnt & _).
    assert (i' = i) by congruence. subst i'.
    unfold examined_line in Hj. apply closest_transition_ge in Hj; [lia|exact Hj0].
  - intros nu_cmf_abort kap_cont s r H.
    apply get_event_body_Return in H as (i & _ & Hcommit & _). exact Hcommit.
  - intros st r H.
    apply get_event_Ok in H as (st1 & s_last & _ & Hreach & Hret).
    apply get_event_body_Return in Hret as (i & Hex & Hcommit & Hcases & _).
    split; [exact Hcommit|]. intro Hentry. rewrite Hcommit.
    assert (Hlast : next_trans pkt <= next_trans (dummypkt s_last)).
    { destruct Hreach as [->|Hloops]; [simpl; lia|].
      apply loops_to_next_trans in Hloops as (i0 & Hex0 & Hi0 & Hnt & _).
      unfold examined_line in Hex0. simpl in Hex0.
      apply closest_transition_ge in Hex0; [lia|exact Hi0]. }
    destruct Hcases as [[Hi Hnt] | [Hi Hnt]].
    + unfold examined_line in Hex. apply closest_transition_ge in Hex; [lia|exact Hi].
    + lia.
  - intro st. apply get_event_terminates.
Qed.

Lemma get_event_next_trans_increases_witness :
  exists r,
    get_event (demo_globals (fun _ => 1 # 2)) 0 (demo_packet 0 10 0) (-1) 3 100 demo_state
    = Ok r /\
    next_trans (ev_pkt r) = next_trans (ev_dummypkt r) /\
    next_trans (demo_packet 0 10 0) <= next_trans (ev_pkt r).
Proof.
  destruct (get_event (demo_globals (fun _ => 1 # 2)) 0 (demo_packet 0 10 0) (-1) 3 100
              demo_state) as [r| | |] eqn:E; try (vm_compute in E; discriminate).
  exists r. split; [reflexivity|].
  destruct (get_event_next_trans_increases (demo_globals (fun _ => 1 # 2)) 0
              (demo_packet 0 10 0) (-1) 3 100) as (_ & _ & _ & Hwhole & _).
  destruct (Hwhole demo_state r E) as [Hcommit Hmono].
  split; [exact Hcommit|]. apply Hmono. vm_compute. discriminate.
Defined.

(** ** Emission of an r-packet ([emitt_rpkt]) *)

Section Emit.

Context {num : Type} (A : arith num) (F : frame_ops num).

Lemma emitt_rpkt_spec dir_cmf pkt pkt' :
  emitt_rpkt A F dir_cmf pkt = Ok pkt' ->
  a_ltb A (a_fabs A (a_sub A (vec_len A (emitted_dir A F dir_cmf pkt)) (a_lit A 1)))
        (a_lit A (1 # 100000000)) = true /\
  pkt' = set_pol_dir (vec_norm A (emitted_pol_ref A (emitted_dir A F dir_cmf pkt)))
           (set_stokes (a_lit A 1, a_lit A 0, a_lit A 0)
              (set_e_rf (a_div A (e_cmf pkt)
                           (doppler_nucmf_on_nurf F (pos pkt) (emitted_dir A F dir_cmf pkt)
                              (prop_time pkt)))
                 (set_nu_rf (a_div A (nu_cmf pkt)
                               (doppler_nucmf_on_nurf F (pos pkt) (emitted_dir A F dir_cmf pkt)
                                  (prop_time pkt)))
                    (set_dir (emitted_dir A F dir_cmf pkt)
                       (set_last_cross NONE (set_type TYPE_RPKT pkt)))))).
Proof.
  unfold emitt_rpkt. intro H. bind_inv H. apply assert_always_Ok in Ha.
  simpl in Ha. fold (emitted_dir A F dir_cmf pkt) in Ha. split; [exact Ha|].
  injection H as <-. unfold emitted_pol_ref, doppler_packet_nucmf_on_nurf. simpl.
  fold (emitted_dir A F dir_cmf pkt).
  destruct (a_ltb A (dot A _ _) _); reflexivity.
Qed.

Lemma emitt_rpkt_Fatal dir_cmf pkt f :
  emitt_rpkt A F dir_cmf pkt = Fatal f -> f = Assert_unit_vector.
Proof.
  unfold emitt_rpkt. intro H. fatal_step H; [reflexivity|discriminate].
Qed.

Lemma emitt_rpkt_total dir_cmf pkt :
  emitt_rpkt A F dir_cmf pkt <> Undefined /\ emitt_rpkt A F dir_cmf pkt <> OutOfFuel.
Proof.
  unfold emitt_rpkt, assert_always. destruct (a_ltb A _ _); simpl; split; discriminate.
Qed.

End Emit.

(** *** Over the real numbers *)

Lemma Q2R_0 : Q2R 0 = 0%R.
Proof. unfold Q2R. simpl. lra. Qed.

Lemma Q2R_1 : Q2R 1 = 1%R.
Proof. unfold Q2R. simpl. lra. Qed.

Lemma Q2R_tiny : Q2R (1 # 100000000) = (1 / 100000000)%R.
Proof. unfold Q2R. simpl. lra. Qed.

Lemma R_ltb_true (a b : R) : a_ltb R_arith a b = true <-> (a < b)%R.
Proof. simpl. destruct (Rlt_dec a b); split; intro; auto; discriminate. Qed.

Lemma R_ltb_false (a b : R) : a_ltb R_arith a b = false <-> (b <= a)%R.
Proof. simpl. destruct (Rlt_dec a b); split; intro; auto; try discriminate; lra. Qed.

(** A vector whose length is within 1e-8 of 1 has a square above 0.9. *)
Lemma near_unit_square (s : R) :
  (0 <= s)%R -> (Rabs (sqrt s - 1) < 1 / 100000000)%R -> (9 / 10 < s)%R.
Proof.
  intros Hs Habs.
  assert (Hlow : (1 - 1 / 100000000 < sqrt s)%R).
  { destruct (Rabs_def2 _ _ Habs) as [_ Hl]. lra. }
  rewrite <- (sqrt_sqrt s Hs).
  assert (Hpos : (0 < sqrt s)%R) by lra.
  nra.
Qed.

(** The normalisation of a non-zero vector [r] orthogonal to [d] is a unit
    vector orthogonal to [d]. *)
Lemma vec_norm_unit_orthogonal (r d : vec R) :
  (0 < dot R_arith r r)%R -> dot R_arith r d = 0%R ->
  dot R_arith (vec_norm R_arith r) (vec_norm R_arith r) = 1%R /\
  dot R_arith (vec_norm R_arith r) d = 0%R.
Proof.
  destruct r as [[r0 r1] r2]. destruct d as [[d0 d1] d2].
  unfold vec_norm, vec_len, dot. simpl. intros Hpos Horth.
  assert (Hn : (0 < sqrt (r0 * r0 + r1 * r1 + r2 * r2))%R) by (apply sqrt_lt_R0; exact Hpos).
  assert (Hss : (sqrt (r0 * r0 + r1 * r1 + r2 * r2) * sqrt (r0 * r0 + r1 * r1 + r2 * r2)
                 = r0 * r0 + r1 * r1 + r2 * r2)%R) by (apply sqrt_sqrt; lra).
  set (n := sqrt (r0 * r0 + r1 * r1 + r2 * r2)) in *. clearbody n.
  assert (Hn0 : n <> 0%R) by lra.
  split.
  - replace (r0 / n * (r0 / n) + r1 / n * (r1 / n) + r2 / n * (r2 / n))%R
      with ((r0 * r0 + r1 * r1 + r2 * r2) / (n * n))%R by (field; exact Hn0).
    rewrite Hss. field. lra.
  - replace (r0 / n * d0 + r1 / n * d1 + r2 / n * d2)%R
      with ((r0 * d0 + r1 * d1 + r2 * d2) / n)%R by (field; exact Hn0).
    rewrite Horth. field. exact Hn0.
Qed.

(** C9. After [emitt_rpkt] returns: the packet is an r-packet; [last_cross]
    is [NONE]; the new direction has length within 1e-8 of 1; [nu_rf] and
    [e_rf] are [nu_cmf / D] and [e_cmf / D] for the Doppler factor [D] of the
    new direction at the unchanged position and time; [nu_cmf] and [e_cmf]
    are unchanged; [stokes] is (1, 0, 0); and [pol_dir] is the normalised
    vector product [dir x z], or [dir x y] when the former has squared length
    below 1e-8, hence a unit vector orthogonal to [dir]. *)
Theorem emitt_rpkt_postcondition (F : frame_ops R) (dir_cmf : vec R) (pkt pkt' : packet R) :
  emitt_rpkt R_arith F dir_cmf pkt = Ok pkt' ->
  type pkt' = TYPE_RPKT /\
  last_cross pkt' = NONE /\
  (Rabs (vec_len R_arith (dir pkt') - 1) < 1 / 100000000)%R /\
  nu_rf pkt' = (nu_cmf pkt' / doppler_packet_nucmf_on_nurf F pkt')%R /\
  e_rf pkt' = (e_cmf pkt' / doppler_packet_nucmf_on_nurf F pkt')%R /\
  nu_cmf pkt' = nu_cmf pkt /\
  e_cmf pkt' = e_cmf pkt /\
  pos pkt' = pos pkt /\
  prop_time pkt' = prop_time pkt /\
  stokes pkt' = (1, 0, 0)%R /\
  pol_dir pkt' =
    vec_norm R_arith
      (if Rlt_dec (dot R_arith (cross_prod R_arith (dir pkt') (0, 0, 1)%R)
                               (cross_prod R_arith (dir pkt') (0, 0, 1)%R))
                  (1 / 100000000)
       then cross_prod R_arith (dir pkt') (0, 1, 0)%R
       else cross_prod R_arith (dir pkt') (0, 0, 1)%R) /\
  dot R_arith (pol_dir pkt') (pol_dir pkt') = 1%R /\
  dot R_arith (pol_dir pkt') (dir pkt') = 0%R.
Proof.
  intro H. apply emitt_rpkt_spec in H as [Hassert ->].
  apply R_ltb_true in Hassert. cbn [a_fabs a_sub a_lit R_arith] in Hassert.
  rewrite Q2R_1, Q2R_tiny in Hassert.
  set (d := emitted_dir R_arith F dir_cmf pkt) in *.
  cbn [type last_cross dir nu_rf e_rf nu_cmf e_cmf pos prop_time stokes pol_dir
       set_pol_dir set_stokes set_e_rf set_nu_rf set_dir set_last_cross set_type
       doppler_packet_nucmf_on_nurf].
  unfold doppler_packet_nucmf_on_nurf.
  cbn [type last_cross dir nu_rf e_rf nu_cmf e_cmf pos prop_time stokes pol_dir
       set_pol_dir set_stokes set_e_rf set_nu_rf set_dir set_last_cross set_type].
  assert (Hpol : emitted_pol_ref R_arith d =
                 if Rlt_dec (dot R_arith (cross_prod R_arith d (0, 0, 1)%R)
                                         (cross_prod R_arith d (0, 0, 1)%R))
                            (1 / 100000000)
                 then cross_prod R_arith d (0, 1, 0)%R
                 else cross_prod R_arith d (0, 0, 1)%R).
  { unfold emitted_pol_ref. cbn [a_lit a_ltb R_arith].
    rewrite Q2R_0, Q2R_1, Q2R_tiny.
    destruct (Rlt_dec _ _); reflexivity. }
  rewrite Hpol.
  assert (Hunit :
    dot R_arith
      (vec_norm R_arith
         (if Rlt_dec (dot R_arith (cross_prod R_arith d (0, 0, 1)%R)
                                  (cross_prod R_arith d (0, 0, 1)%R)) (1 / 100000000)
          then cross_prod R_arith d (0, 1, 0)%R else cross_prod R_arith d (0, 0, 1)%R))
      (vec_norm R_arith
         (if Rlt_dec (dot R_arith (cross_prod R_arith d (0, 0, 1)%R)
                                  (cross_prod R_arith d (0, 0, 1)%R)) (1 / 100000000)
          then cross_prod R_arith d (0, 1, 0)%R else cross_prod R_arith d (0, 0, 1)%R)) = 1%R
    /\
    dot R_arith
      (vec_norm R_arith
         (if Rlt_dec (dot R_arith (cross_prod R_arith d (0, 0, 1)%R)
                                  (cross_prod R_arith d (0, 0, 1)%R)) (1 / 100000000)
          then cross_prod R_arith d (0, 1, 0)%R else cross_prod R_arith d (0, 0, 1)%R))
      d = 0%R).
  { apply vec_norm_unit_orthogonal.
    - destruct d as [[d0 d1] d2].
      assert (Hsq : (9 / 10 < d0 * d0 + d1 * d1 + d2 * d2)%R).
      { apply near_unit_square; [nra|]. exact Hassert. }
      destruct (Rlt_dec _ _) as [Hsmall|Hbig]; unfold dot, cross_prod in *;
        cbn [a_add a_mul a_sub R_arith] in *; nra.
    - destruct d as [[d0 d1] d2].
      destruct (Rlt_dec _ _); unfold dot, cross_prod; cbn [a_add a_mul a_sub R_arith]; ring. }
  cbn [a_div a_lit R_arith]. rewrite Q2R_0, Q2R_1.
  repeat split; try reflexivity; try exact Hassert; apply Hunit.
Qed.

Lemma demo_emitt_rpkt_returns :
  exists pkt', emitt_rpkt R_arith demo_frame_R (0, 1, 0)%R demo_packet_R = Ok pkt'.
Proof.
  unfold emitt_rpkt, assert_always.
  assert (Hunit : a_ltb R_arith
            (a_fabs R_arith
               (a_sub R_arith
                  (vec_len R_arith
                     (dir (set_dir (angle_ab demo_frame_R (0, 1, 0)%R
                                      (get_velocity R_arith
                                         (pos (set_last_cross NONE (set_type TYPE_RPKT demo_packet_R)))
                                         (a_mul R_arith (a_lit R_arith (-1))
                                            (prop_time (set_last_cross NONE
                                                          (set_type TYPE_RPKT demo_packet_R))))))
                             (set_last_cross NONE (set_type TYPE_RPKT demo_packet_R)))))
                  (a_lit R_arith 1)))
            (a_lit R_arith (1 # 100000000)) = true).
  { apply R_ltb_true. cbn. rewrite Q2R_1, Q2R_tiny.
    replace (0 * 0 + 1 * 1 + 0 * 0)%R with 1%R by ring.
    rewrite sqrt_1. replace (1 - 1)%R with 0%R by ring. rewrite Rabs_R0. lra. }
  rewrite Hunit. cbn [bind]. eexists. reflexivity.
Qed.

Lemma emitt_rpkt_postcondition_witness :
  exists pkt',
    emitt_rpkt R_arith demo_frame_R (0, 1, 0)%R demo_packet_R = Ok pkt' /\
    type pkt' = TYPE_RPKT /\
    last_cross pkt' = NONE /\
    dot R_arith (pol_dir pkt') (pol_dir pkt') = 1%R /\
    dot R_arith (pol_dir pkt') (dir pkt') = 0%R.
Proof.
  destruct demo_emitt_rpkt_returns as [pkt' H].
  exists pkt'. split; [exact H|].
  pose proof (emitt_rpkt_postcondition demo_frame_R (0, 1, 0)%R demo_packet_R pkt' H) as Hpost.
  tauto.
Defined.

(** ** The continuum event ([rpkt_event_continuum]) *)

(** [std::lower_bound] on a range inside the array always returns. *)
Lemma lower_bound_loop_defined {A} (a : list A) comp val fuel : forall first n,
  0 <= first -> first + n <= len a -> (Z.to_nat n <= fuel)%nat ->
  exists r, lower_bound_loop a comp fuel first n val = Some r.
Proof.
  induction fuel as [|fuel IH]; intros first n H0 Hlen Hf; simpl.
  - destruct (Z.gtb_spec n 0) as [Hn|Hn]; [lia|eauto].
  - destruct (Z.gtb_spec n 0) as [Hn|Hn]; [|eauto].
    assert (Hh : Z.shiftr n 1 = n / 2) by (rewrite Z.shiftr_div_pow2 by lia; reflexivity).
    assert (Hh0 : 0 <= n / 2 < n) by (split; [apply Z.div_pos; lia | apply Z.div_lt_upper_bound; lia]).
    rewrite Hh. destruct (idx_in_range a (first + n / 2)) as [x Hx]; [lia|].
    rewrite Hx. destruct (comp x val); apply IH; lia.
Qed.

Section Continuum.

Variable G : globals.

Lemma emitt_rpkt_Q_spec pkt st pkt' st' :
  emitt_rpkt_Q G pkt st = Ok (pkt', st') ->
  type pkt' = TYPE_RPKT /\ nu_cmf pkt' = nu_cmf pkt /\ e_cmf pkt' = e_cmf pkt /\
  pos pkt' = pos pkt /\ prop_time pkt' = prop_time pkt /\
  interactions pkt' = interactions pkt /\ nscatterings pkt' = nscatterings pkt /\
  last_event pkt' = last_event pkt /\ next_trans pkt' = next_trans pkt /\
  where_ pkt' = where_ pkt /\
  same_opacity st st' /\ trace st' = trace st.
Proof.
  unfold emitt_rpkt_Q. intro H. bind_inv H. injection H as <- <-.
  apply emitt_rpkt_spec in Ha as [_ ->]. simpl.
  repeat split; reflexivity.
Qed.

Lemma emitt_rpkt_Q_Fatal pkt st f :
  emitt_rpkt_Q G pkt st = Fatal f -> f = Assert_unit_vector.
Proof.
  unfold emitt_rpkt_Q. intro H. apply bind_Fatal in H.
  destruct H as [H | (p & _ & H)]; [|discriminate].
  eapply emitt_rpkt_Fatal; eauto.
Qed.

Lemma emitt_rpkt_Q_total pkt st :
  emitt_rpkt_Q G pkt st <> Undefined /\ emitt_rpkt_Q G pkt st <> OutOfFuel.
Proof.
  unfold emitt_rpkt_Q.
  destruct (emitt_rpkt_total (arithQ G) (frame G)
              (get_rand_isotropic_unitvec G (rng st)) pkt) as [Hu Ho].
  destruct (emitt_rpkt _ _ _ _); simpl; split; congruence.
Qed.

End Continuum.

(** C7. In [rpkt_event_continuum] the uniform draw [u], multiplied by the
    total opacity, is compared with the partial sums of the cached comoving
    opacities, each multiplied by the same Doppler factor.  Below [kappa_es]
    the packet is scattered coherently: it stays an r-packet with [nu_cmf]
    unchanged.  Else below [kappa_es + kappa_ff] it becomes a k-packet with
    [absorptiontype = -1].  Else below [kappa_es + kappa_ff + kappa_bf] a
    continuum is sampled from the cumulative array [kappa_bf_sum] with a
    second draw, and with a third draw [u3] the packet becomes a macro-atom
    in the upper ion (ion + 1, the upper level of the photoionisation target)
    when [u3 < nu_edge / nu] and a k-packet otherwise.  Else the program
    aborts. *)
Theorem rpkt_event_continuum_branches G pkt c mgi st :
  let D := doppler_packet_nucmf_on_nurf (frame G) pkt in
  let x := (gsl_rng_uniform G (rng st) * (kappa.total c * D))%Q in
  let kappa_es := (kappa.es c * D)%Q in
  let kappa_ff := (kappa.ff c * D)%Q in
  let kappa_bf := (kappa.bf c * D)%Q in
  let u2 := gsl_rng_uniform G (S (rng st)) in
  let u3 := gsl_rng_uniform G (S (S (rng st))) in
  let result := rpkt_event_continuum G pkt c mgi st in
  ((x < kappa_es)%Q ->
     (forall f, result = Fatal f -> f = Assert_unit_vector) /\
     result <> Undefined /\ result <> OutOfFuel /\
     forall pkt' st', result = Ok (pkt', st') ->
       type pkt' = TYPE_RPKT /\ nu_cmf pkt' = nu_cmf pkt /\
       nscatterings pkt' = nscatterings pkt + 1 /\ last_event pkt' = 12) /\
  (~ (x < kappa_es)%Q -> (x < kappa_es + kappa_ff)%Q ->
     exists pkt' st', result = Ok (pkt', st') /\
       type pkt' = TYPE_KPKT /\ absorptiontype pkt' = -1) /\
  (~ (x < kappa_es)%Q -> ~ (x < kappa_es + kappa_ff)%Q ->
   (x < kappa_es + kappa_ff + kappa_bf)%Q ->
     (forall pkt' st', result = Ok (pkt', st') ->
        exists allcontindex cont,
          lower_bound (kappa_bf_sum st) double_lt 0 (nbfcontinua G - 1) (u2 * kappa.bf c)
          = Some allcontindex /\
          idx (allcont G) allcontindex = Some cont /\
          absorptiontype pkt' = -2 /\
          ((u3 < phixs.nu_edge cont / nu_cmf pkt)%Q ->
             type pkt' = TYPE_MA /\
             mastate pkt' =
               mk_mastate (phixs.element cont) (phixs.ion cont + 1)
                 (get_phixsupperlevel G (phixs.element cont) (phixs.ion cont)
                    (phixs.level cont) (phixs.phixstargetindex cont)) (-99)) /\
          (~ (u3 < phixs.nu_edge cont / nu_cmf pkt)%Q -> type pkt' = TYPE_KPKT)) /\
     (len (kappa_bf_sum st) = nbfcontinua G ->
      idx (kappa_bf_sum st) (nbfcontinua G - 1) = Some (kappa.bf c) ->
      exists pkt' st', result = Ok (pkt', st'))) /\
  (~ (x < kappa_es)%Q -> ~ (x < kappa_es + kappa_ff)%Q ->
   ~ (x < kappa_es + kappa_ff + kappa_bf)%Q ->
     result = Fatal Abort_continuum_process).
Proof.
  intros D x kappa_es kappa_ff kappa_bf u2 u3 result.
  assert (Hb : forall a b, ~ (a < b)%Q -> Qltb a b = false).
  { intros a b Hn. destruct (Qltb a b) eqn:E; [|reflexivity].
    apply Qltb_lt in E. contradiction. }
  split; [|split; [|split]].
  - intro H1. apply Qltb_lt in H1.
    unfold result, rpkt_event_continuum, draw_uniform.
    fold D. fold x. fold kappa_es. rewrite H1.
    destruct (VPKT_ON G).
    + unfold escat_rpkt.
      match goal with |- context [emitt_rpkt_Q G ?p ?s] =>
        pose proof (emitt_rpkt_Q_total G p s) as [Hu Ho];
        pose proof (emitt_rpkt_Q_Fatal G p s) as Hf;
        pose proof (emitt_rpkt_Q_spec G p s) as Hs;
        destruct (emitt_rpkt_Q G p s) as [[p' s']| | |] end; simpl.
      * split; [intros f0 Hf0; discriminate|]. split; [discriminate|].
        split; [discriminate|].
        intros pkt' st' Hok. injection Hok as <- <-. simpl.
        destruct (Hs p' s' eq_refl) as (Ht & Hnu & _ & _ & _ & _ & Hns & Hle & _).
        rewrite Ht, Hnu, Hns, Hle. simpl. auto.
      * split; [intros f0 Hf0; injection Hf0 as <-; auto|]. split; [discriminate|].
        split; [discriminate|]. intros pkt' st' Hok. discriminate.
      * congruence.
      * congruence.
    + unfold escat_rpkt.
      match goal with |- context [emitt_rpkt_Q G ?p ?s] =>
        pose proof (emitt_rpkt_Q_total G p s) as [Hu Ho];
        pose proof (emitt_rpkt_Q_Fatal G p s) as Hf;
        pose proof (emitt_rpkt_Q_spec G p s) as Hs;
        destruct (emitt_rpkt_Q G p s) as [[p' s']| | |] end; simpl.
      * split; [intros f0 Hf0; discriminate|]. split; [discriminate|].
        split; [discriminate|].
        intros pkt' st' Hok. injection Hok as <- <-. simpl.
        destruct (Hs p' s' eq_refl) as (Ht & Hnu & _ & _ & _ & _ & Hns & Hle & _).
        rewrite Ht, Hnu, Hns, Hle. simpl. auto.
      * split; [intros f0 Hf0; injection Hf0 as <-; auto|]. split; [discriminate|].
        split; [discriminate|]. intros pkt' st' Hok. discriminate.
      * congruence.
      * congruence.
  - intros H1 H2. apply Hb in H1. apply Qltb_lt in H2.
    unfold result, rpkt_event_continuum, draw_uniform.
    fold D. fold x. fold kappa_es. fold kappa_ff. rewrite H1, H2.
    eexists. eexists. split; [reflexivity|]. simpl. auto.
  - intros H1 H2 H3. apply Hb in H1. apply Hb in H2. apply Qltb_lt in H3.
    unfold result, rpkt_event_continuum, draw_uniform.
    fold D. fold x. fold kappa_es. fold kappa_ff. fold kappa_bf. rewrite H1, H2, H3.
    cbn [rng set_rng kappa_bf_sum]. fold u2. fold u3. split.
    + intros pkt' st' H. bind_inv_as H last Hlast. apply defined_Ok in Hlast.
      bind_inv_as H u Hassert. bind_inv_as H allcontindex Hlb. apply defined_Ok in Hlb.
      bind_inv_as H u' Hassert'. bind_inv_as H cont Hcont. apply defined_Ok in Hcont.
      exists allcontindex, cont. split; [exact Hlb|]. split; [exact Hcont|].
      destruct (Qltb u3 (phixs.nu_edge cont / nu_cmf pkt)) eqn:E3;
        injection H as <- <-; simpl.
      * split; [reflexivity|]. split; [auto|].
        intro Hn. apply Qltb_lt in E3. contradiction.
      * split; [reflexivity|]. split; [|auto].
        intro Hy. apply Qltb_lt in Hy. congruence.
    + intros Hlen Hlast. rewrite Hlast. cbn [defined bind].
      rewrite Qeq_bool_refl. cbn [assert_always bind].
      assert (Hn : 0 < nbfcontinua G).
      { apply idx_Some_range in Hlast. lia. }
      destruct (lower_bound_loop_defined (kappa_bf_sum st) double_lt (u2 * kappa.bf c)
                  (Z.to_nat (nbfcontinua G - 1 - 0)) 0 (nbfcontinua G - 1 - 0))
        as [a Ha]; try lia.
      unfold lower_bound. rewrite Ha. cbn [defined bind].
      apply lower_bound_loop_range in Ha as [Ha0 Ha1].
      destruct (Z.ltb_spec a (nbfcontinua G)) as [Hlt|Hge]; [|lia].
      cbn [assert_always bind].
      destruct (idx_in_range (allcont G) a) as [cont Hcont];
        [unfold nbfcontinua in Hlt; lia|].
      rewrite Hcont. cbn [defined bind].
      destruct (Qltb u3 _); eauto.
  - intros H1 H2 H3. apply Hb in H1. apply Hb in H2. apply Hb in H3.
    unfold result, rpkt_event_continuum, draw_uniform.
    fold D. fold x. fold kappa_es. fold kappa_ff. fold kappa_bf. rewrite H1, H2, H3.
    reflexivity.
Qed.

(** With every draw equal to 9/10 the demo packet is absorbed in the first
    continuum and becomes a k-packet. *)
Lemma rpkt_event_continuum_branches_witness :
  exists st1 pkt' st',
    calculate_kappa_rpkt_cont (demo_globals (fun _ => 9 # 10)) (demo_packet 0 10 0) demo_state
    = Ok st1 /\
    rpkt_event_continuum (demo_globals (fun _ => 9 # 10)) (demo_packet 0 10 0)
      (kappa_rpkt_cont st1) 0 st1 = Ok (pkt', st') /\
    type pkt' = TYPE_KPKT /\
    absorptiontype pkt' = -2.
Proof.
  destruct (calculate_kappa_rpkt_cont (demo_globals (fun _ => 9 # 10)) (demo_packet 0 10 0)
              demo_state) as [st1| | |] eqn:E; try (vm_compute in E; discriminate).
  exists st1.
  destruct (rpkt_event_continuum_branches (demo_globals (fun _ => 9 # 10))
              (demo_packet 0 10 0) (kappa_rpkt_cont st1) 0 st1) as (_ & _ & Hbf & _).
  assert (Hst1 : st1 = ltac:(let v := eval vm_compute in
                   (match calculate_kappa_rpkt_cont (demo_globals (fun _ => 9 # 10))
                            (demo_packet 0 10 0) demo_state with
                    | Ok s => s | _ => demo_state end) in exact v)).
  { vm_compute in E. injection E as <-. reflexivity. }
  destruct Hbf as [Hshape Hok];
    try (rewrite Hst1; vm_compute; congruence).
  destruct Hok as (pkt' & st' & Hres);
    try (rewrite Hst1; vm_compute; congruence).
  exists pkt', st'. split; [reflexivity|]. split; [exact Hres|].
  destruct (Hshape pkt' st' Hres) as (a & cont & Hlb & Hcont & Habs & _ & Hk).
  split; [|exact Habs].
  apply Hk.
  rewrite Hst1 in Hlb. vm_compute in Hlb. injection Hlb as <-.
  vm_compute in Hcont. injection Hcont as <-.
  vm_compute. congruence.
Defined.

(** ** The packet stepper ([do_rpkt_step]) *)

Section Stepper.

Variable G : globals.

Let cte_calls (tr : list call) : nat := calls_of is_closest_transition_empty tr.

Lemma move_pkt_fields (p : packet Q) x :
  where_ (move_pkt G p x) = where_ p /\ type (move_pkt G p x) = type p /\
  next_trans (move_pkt G p x) = next_trans p.
Proof.
  unfold move_pkt. destruct (pos p) as [[x0 x1] x2]. destruct (dir p) as [[d0 d1] d2].
  repeat split; reflexivity.
Qed.

Lemma move_pkt_withtime_fields (p : packet Q) x :
  where_ (move_pkt_withtime G p x) = where_ p /\ type (move_pkt_withtime G p x) = type p /\
  next_trans (move_pkt_withtime G p x) = next_trans p.
Proof.
  unfold move_pkt_withtime.
  destruct (move_pkt_fields (set_prop_time (prop_time p + x / CLIGHT_PROP G)%Q p) x)
    as (H1 & H2 & H3).
  rewrite H1, H2, H3. repeat split; reflexivity.
Qed.

Lemma closest_transition_empty_Ok pkt pkt' :
  closest_transition_empty G pkt = Ok pkt' ->
  where_ pkt' = where_ pkt /\ type pkt' = type pkt /\ nu_cmf pkt' = nu_cmf pkt.
Proof.
  unfold closest_transition_empty. intro H.
  bind_inv_as H reddest Hred. bind_inv_as H line_left Hleft. bind_inv_as H m Hm.
  injection H as <-.
  destruct (Qltb _ _); destruct (_ >? _); repeat split; reflexivity.
Qed.

Lemma closest_transition_empty_not_Fatal pkt f : closest_transition_empty G pkt <> Fatal f.
Proof.
  unfold closest_transition_empty. intro H.
  fatal_step H. fatal_step H.
  apply bind_Fatal in H. destruct H as [H | (m & _ & H)]; [|discriminate].
  fatal_step H; [discriminate|]. exact (defined_not_Fatal _ _ H).
Qed.

Lemma closest_transition_empty_not_OutOfFuel pkt : closest_transition_empty G pkt <> OutOfFuel.
Proof.
  unfold closest_transition_empty. intro H.
  oof_step H. oof_step H.
  apply bind_OutOfFuel in H. destruct H as [H | (m & _ & H)]; [|discriminate].
  oof_step H; [discriminate|]. exact (defined_not_OutOfFuel _ H).
Qed.

Lemma rlc_emiss_rpkt_if_enabled_spec p x st :
  same_opacity st (rlc_emiss_rpkt_if_enabled G p x st) /\
  cte_calls (trace (rlc_emiss_rpkt_if_enabled G p x st)) = cte_calls (trace st).
Proof.
  unfold rlc_emiss_rpkt_if_enabled.
  destruct (negb _ && negb _); (split; [split; reflexivity|reflexivity]).
Qed.

(** *** The three branches *)

(** The boundary branch: the line index is re-seated exactly when the cell
    just crossed was empty or thick and the cell the packet is in now is
    neither. *)
Lemma step_boundary_Ok d b pkt' st' :
  step_boundary G d = Ok (b, pkt', st') ->
  let crossing := negb (sd_snext d =? where_ (sd_pkt d)) in
  let mgi := if crossing then get_cell_modelgridindex G (where_ pkt') else sd_mgi d in
  let called := sd_find_nextline d && negb (mgi =? get_npts_model G)
                && negb (thick G mgi =? 1) in
  where_ pkt' = where_ (change_cell (sd_pkt d)
                          (if crossing then sd_snext d else where_ (sd_pkt d))) /\
  (crossing = false -> where_ pkt' = where_ (sd_pkt d)) /\
  same_opacity (sd_state d) st' /\
  cte_calls (trace st') = (cte_calls (trace (sd_state d)) + (if called then 1 else 0))%nat /\
  (called = true ->
   exists p, closest_transition_empty G p = Ok pkt' /\
             next_trans p = next_trans (sd_pkt d) /\ nu_cmf p = nu_cmf pkt') /\
  (called = false -> next_trans pkt' = next_trans (sd_pkt d)).
Proof.
  intros H crossing mgi called. unfold step_boundary in H.
  set (p1 := move_pkt_withtime G (sd_pkt d) (sd_sdist d / 2)) in *.
  set (st1 := rlc_emiss_rpkt_if_enabled G p1 (sd_sdist d)
                (update_estimators p1 (sd_sdist d) (sd_state d))) in *.
  set (p2 := move_pkt_withtime G p1 (sd_sdist d / 2)) in *.
  assert (Hp2 : where_ p2 = where_ (sd_pkt d) /\ next_trans p2 = next_trans (sd_pkt d)).
  { unfold p2, p1.
    destruct (move_pkt_withtime_fields (move_pkt_withtime G (sd_pkt d) (sd_sdist d / 2))
                (sd_sdist d / 2)) as (H1 & _ & H3).
    destruct (move_pkt_withtime_fields (sd_pkt d) (sd_sdist d / 2)) as (H1' & _ & H3').
    split; congruence. }
  destruct Hp2 as [Hw2 Hn2].
  assert (Hst1 : same_opacity (sd_state d) st1 /\
                 cte_calls (trace st1) = cte_calls (trace (sd_state d))).
  { unfold st1.
    destruct (rlc_emiss_rpkt_if_enabled_spec p1 (sd_sdist d)
                (update_estimators p1 (sd_sdist d) (sd_state d))) as [Hs Hc].
    split; [|rewrite Hc; reflexivity].
    eapply same_opacity_trans; [|exact Hs]. split; reflexivity. }
  destruct Hst1 as [Hs1 Hc1].
  rewrite Hw2 in H. fold crossing in H.
  assert (Hcw : forall p s, where_ (change_cell p s) = if s =? -99 then where_ p else s).
  { intros p s. unfold change_cell. destruct (s =? -99); reflexivity. }
  destruct crossing eqn:Ecross; cbn [negb] in H.
  - (* the packet changes cell *)
    set (p3 := change_cell p2 (sd_snext d)) in *.
    set (p4 := set_last_event (last_event (set_scat_count 0 p3) + 100)
                 (set_scat_count 0 p3)) in *.
    assert (Hw4 : where_ p4 = where_ p3) by reflexivity.
    assert (Hn4 : next_trans p4 = next_trans (sd_pkt d)).
    { unfold p4, p3, change_cell. destruct (sd_snext d =? -99); simpl; exact Hn2. }
    assert (Hw3 : where_ p3 = where_ (change_cell (sd_pkt d) (sd_snext d))).
    { unfold p3. rewrite !Hcw. rewrite Hw2. reflexivity. }
    bind_inv_as H res Hres. destruct res as [p5 st5]. injection H as _ <- <-.
    destruct (sd_find_nextline d) eqn:Efn.
    + destruct (negb (get_cell_modelgridindex G (where_ p3) =? get_npts_model G)
                && negb (thick G (get_cell_modelgridindex G (where_ p3)) =? 1)) eqn:Ec.
      * bind_inv_as Hres p6 Hcte. injection Hres as <- <-.
        apply closest_transition_empty_Ok in Hcte as Hfields.
        destruct Hfields as (Hw6 & _ & Hnu6).
        assert (Hcalled : called = true).
        { unfold called, mgi. rewrite Hw6, Hw4. exact Ec. }
        rewrite Hcalled. split; [congruence|]. split; [discriminate|].
        split; [apply (same_opacity_trans _ st1); [exact Hs1|split; reflexivity]|].
        split; [unfold cte_calls, calls_of in *; simpl; lia|].
        split; [|discriminate].
        intros _. exists p4. auto.
      * injection Hres as <- <-.
        assert (Hcalled : called = false).
        { unfold called, mgi. rewrite Hw4. exact Ec. }
        rewrite Hcalled. split; [congruence|]. split; [discriminate|].
        split; [apply (same_opacity_trans _ st1); [exact Hs1|split; reflexivity]|].
        split; [unfold cte_calls, calls_of in *; simpl; lia|].
        split; [discriminate|]. intros _. exact Hn4.
    + injection Hres as <- <-.
      assert (Hcalled : called = false) by reflexivity.
      rewrite Hcalled. split; [congruence|]. split; [discriminate|].
      split; [apply (same_opacity_trans _ st1); [exact Hs1|split; reflexivity]|].
      split; [unfold cte_calls, calls_of in *; simpl; lia|].
      split; [discriminate|]. intros _. exact Hn4.
  - (* the step was cut short inside the cell *)
    set (p4 := set_last_event (last_event (set_scat_count 0 p2) + 100)
                 (set_scat_count 0 p2)) in *.
    assert (Hw4 : where_ p4 = where_ (sd_pkt d)) by exact Hw2.
    assert (Hn4 : next_trans p4 = next_trans (sd_pkt d)) by exact Hn2.
    assert (Hsame : sd_snext d = where_ (sd_pkt d)).
    { unfold crossing in Ecross. apply negb_false_iff, Z.eqb_eq in Ecross. exact Ecross. }
    bind_inv_as H res Hres. destruct res as [p5 st5]. injection H as _ <- <-.
    destruct (sd_find_nextline d) eqn:Efn.
    + destruct (negb (sd_mgi d =? get_npts_model G) && negb (thick G (sd_mgi d) =? 1)) eqn:Ec.
      * bind_inv_as Hres p6 Hcte. injection Hres as <- <-.
        apply closest_transition_empty_Ok in Hcte as Hfields.
        destruct Hfields as (Hw6 & _ & Hnu6).
        assert (Hcalled : called = true) by (unfold called, mgi; exact Ec).
        rewrite Hcalled. rewrite Hcw.
        split; [destruct (where_ (sd_pkt d) =? -99); congruence|].
        split; [intros _; congruence|].
        split; [exact Hs1|].
        split; [unfold cte_calls, calls_of in *; simpl; lia|].
        split; [|discriminate]. intros _. exists p4. auto.
      * injection Hres as <- <-.
        assert (Hcalled : called = false) by (unfold called, mgi; exact Ec).
        rewrite Hcalled. rewrite Hcw.
        split; [destruct (where_ (sd_pkt d) =? -99); congruence|].
        split; [intros _; congruence|].
        split; [exact Hs1|].
        split; [unfold cte_calls, calls_of in *; simpl; lia|].
        split; [discriminate|]. intros _. exact Hn4.
    + injection Hres as <- <-.
      assert (Hcalled : called = false) by reflexivity.
      rewrite Hcalled. rewrite Hcw.
      split; [destruct (where_ (sd_pkt d) =? -99); congruence|].
      split; [intros _; congruence|].
      split; [exact Hs1|].
      split; [unfold cte_calls, calls_of in *; simpl; lia|].
      split; [discriminate|]. intros _. exact Hn4.
Qed.

Lemma step_boundary_not_Fatal d f : step_boundary G d <> Fatal f.
Proof.
  unfold step_boundary. intro H.
  match type of H with (let '(_, _) := ?p in _) = _ => destruct p as [[p3 st3] mgi3] end.
  apply bind_Fatal in H. destruct H as [H | ([p5 st5] & _ & H)]; [|discriminate].
  fatal_step H; [|discriminate]. fatal_step H; [|discriminate].
  apply bind_Fatal in H. destruct H as [H | (p6 & _ & H)]; [|discriminate].
  exact (closest_transition_empty_not_Fatal _ _ H).
Qed.

(** The time branch: the line index is re-seated whenever the cell is empty
    or thick. *)
Lemma step_time_Ok d b pkt' st' :
  step_time G d = Ok (b, pkt', st') ->
  b = false /\ same_opacity (sd_state d) st' /\
  cte_calls (trace st')
  = (cte_calls (trace (sd_state d)) + (if sd_find_nextline d then 1 else 0))%nat.
Proof.
  unfold step_time. intro H.
  set (p1 := move_pkt_withtime G (sd_pkt d) (sd_tdist d / 2)) in *.
  destruct (rlc_emiss_rpkt_if_enabled_spec p1 (sd_tdist d)
              (update_estimators p1 (sd_tdist d) (sd_state d))) as [Hs Hc].
  set (st1 := rlc_emiss_rpkt_if_enabled G p1 (sd_tdist d)
                (update_estimators p1 (sd_tdist d) (sd_state d))) in *.
  assert (Hs1 : same_opacity (sd_state d) st1).
  { eapply same_opacity_trans; [|exact Hs]. split; reflexivity. }
  bind_inv_as H res Hres. destruct res as [p5 st5]. injection H as <- <- <-.
  split; [reflexivity|].
  destruct (sd_find_nextline d).
  - bind_inv_as Hres p6 Hcte. injection Hres as <- <-.
    split; [apply (same_opacity_trans _ st1); [exact Hs1|split; reflexivity]|].
    unfold cte_calls, calls_of in *. simpl in *. lia.
  - injection Hres as <- <-. split; [exact Hs1|].
    unfold cte_calls, calls_of in *. simpl in *. lia.
Qed.

Lemma step_time_not_Fatal d f : step_time G d <> Fatal f.
Proof.
  unfold step_time. intro H.
  apply bind_Fatal in H. destruct H as [H | ([p5 st5] & _ & H)]; [|discriminate].
  fatal_step H; [|discriminate].
  apply bind_Fatal in H. destruct H as [H | (p6 & _ & H)]; [|discriminate].
  exact (closest_transition_empty_not_Fatal _ _ H).
Qed.

Lemma rpkt_event_thickcell_Ok pkt st pkt' st' :
  rpkt_event_thickcell G pkt st = Ok (pkt', st') ->
  same_opacity st st' /\ trace st' = trace st.
Proof.
  unfold rpkt_event_thickcell. intro H. bind_inv_as H res Hres. destruct res as [p1 st1].
  injection H as _ <-. apply emitt_rpkt_Q_spec in Hres. tauto.
Qed.

Lemma rpkt_event_thickcell_Fatal pkt st f :
  rpkt_event_thickcell G pkt st = Fatal f -> f = Assert_unit_vector.
Proof.
  unfold rpkt_event_thickcell. intro H.
  apply bind_Fatal in H. destruct H as [H | ([p1 st1] & _ & H)]; [|discriminate].
  eapply emitt_rpkt_Q_Fatal; eauto.
Qed.

Lemma rpkt_event_continuum_Ok pkt c mgi st pkt' st' :
  rpkt_event_continuum G pkt c mgi st = Ok (pkt', st') ->
  same_opacity st st' /\ cte_calls (trace st') = cte_calls (trace st).
Proof.
  unfold rpkt_event_continuum, draw_uniform. intro H.
  destruct (Qltb _ _) in H.
  - destruct (VPKT_ON G).
    + bind_inv_as H res Hres. destruct res as [p1 st1]. injection H as _ <-.
      apply emitt_rpkt_Q_spec in Hres.
      destruct Hres as (_ & _ & _ & _ & _ & _ & _ & _ & _ & _ & Hs & Ht).
      split.
      * eapply same_opacity_trans; [|exact Hs]. split; reflexivity.
      * unfold cte_calls. rewrite Ht. reflexivity.
    + bind_inv_as H res Hres. destruct res as [p1 st1]. injection H as _ <-.
      apply emitt_rpkt_Q_spec in Hres.
      destruct Hres as (_ & _ & _ & _ & _ & _ & _ & _ & _ & _ & Hs & Ht).
      split.
      * eapply same_opacity_trans; [|exact Hs]. split; reflexivity.
      * unfold cte_calls. rewrite Ht. reflexivity.
  - destruct (Qltb _ _) in H.
    + injection H as _ <-. split; [split; reflexivity|reflexivity].
    + destruct (Qltb _ _) in H; [|discriminate].
      bind_inv_as H last Hlast. bind_inv_as H u Hassert. bind_inv_as H a Hlb.
      bind_inv_as H u' Hassert'. bind_inv_as H cont Hcont.
      destruct (Qltb _ _) in H; injection H as _ <-;
        (split; [split; reflexivity|reflexivity]).
Qed.

Lemma rpkt_event_continuum_Fatal pkt c mgi st f :
  rpkt_event_continuum G pkt c mgi st = Fatal f ->
  In f [Assert_unit_vector; Assert_kappa_bf_sum; Assert_allcontindex;
        Abort_continuum_process] /\
  (bf_scratch_consistent G c (kappa_bf_sum st) -> f <> Assert_kappa_bf_sum).
Proof.
  unfold rpkt_event_continuum, draw_uniform. intro H.
  destruct (Qltb _ _) eqn:E1 in H.
  - assert (Hf : f = Assert_unit_vector).
    { destruct (VPKT_ON G);
        (apply bind_Fatal in H; destruct H as [H | ([p1 st1] & _ & H)]; [|discriminate]);
        eapply emitt_rpkt_Q_Fatal; eauto. }
    subst f. split; [simpl; auto|discriminate].
  - destruct (Qltb _ _) eqn:E2 in H; [discriminate|].
    destruct (Qltb _ _) eqn:E3 in H.
    2:{ injection H as <-. split; [simpl; auto|discriminate]. }
    apply bind_Fatal in H. destruct H as [H | (last & Hlast & H)].
    { exfalso. exact (defined_not_Fatal _ _ H). }
    apply defined_Ok in Hlast. cbn [kappa_bf_sum set_rng] in Hlast.
    apply bind_Fatal in H. destruct H as [H | (u & _ & H)].
    { apply assert_always_Fatal in H as [-> Hneq]. split; [simpl; auto|].
      intros Hcons _.
      assert (Hn : 0 < nbfcontinua G) by (apply idx_Some_range in Hlast; lia).
      destruct (Hcons Hn) as [Hzero | Hsame].
      - apply Qltb_ge in E2. apply Qltb_lt in E3. rewrite Hzero in E3. lra.
      - rewrite Hsame in Hlast. injection Hlast as <-.
        rewrite Qeq_bool_refl in Hneq. discriminate. }
    fatal_step H.
    apply bind_Fatal in H. destruct H as [H | (u' & _ & H)].
    { apply assert_always_Fatal in H as [-> _]. split; [simpl; auto|discriminate]. }
    fatal_step H. destruct (Qltb _ _) in H; discriminate.
Qed.

(** The event branch. *)
Lemma step_event_Ok d b pkt' st' :
  step_event G d = Ok (b, pkt', st') ->
  same_opacity (sd_state d) st' /\ cte_calls (trace st') = cte_calls (trace (sd_state d)).
Proof.
  unfold step_event. intro H.
  set (p1 := move_pkt_withtime G (sd_pkt d) (sd_edist d / 2)) in *.
  destruct (rlc_emiss_rpkt_if_enabled_spec p1 (sd_edist d)
              (update_estimators p1 (sd_edist d) (sd_state d))) as [Hs Hc].
  set (st1 := rlc_emiss_rpkt_if_enabled G p1 (sd_edist d)
                (update_estimators p1 (sd_edist d) (sd_state d))) in *.
  assert (Hs1 : same_opacity (sd_state d) st1).
  { eapply same_opacity_trans; [|exact Hs]. split; reflexivity. }
  assert (Hc1 : cte_calls (trace st1) = cte_calls (trace (sd_state d))).
  { rewrite Hc. reflexivity. }
  bind_inv_as H res Hres. destruct res as [p5 st5]. injection H as _ <- <-.
  destruct (thick G (sd_mgi d) =? 1).
  - apply rpkt_event_thickcell_Ok in Hres as [Hs2 Ht2]. split.
    + eapply same_opacity_trans; [exact Hs1|].
      eapply same_opacity_trans; [|exact Hs2]. split; reflexivity.
    + unfold cte_calls in *. rewrite Ht2. simpl. exact Hc1.
  - destruct (sd_eventtype d =? RPKT_EVENTTYPE_BB).
    + injection Hres as _ <-. split.
      * eapply same_opacity_trans; [exact Hs1|]. split; reflexivity.
      * unfold cte_calls in *. simpl. exact Hc1.
    + destruct (sd_eventtype d =? RPKT_EVENTTYPE_CONT); [|discriminate].
      apply rpkt_event_continuum_Ok in Hres as [Hs2 Ht2]. split.
      * eapply same_opacity_trans; [exact Hs1|].
        eapply same_opacity_trans; [|exact Hs2]. split; reflexivity.
      * unfold cte_calls in *. rewrite Ht2. simpl. exact Hc1.
Qed.

Lemma step_event_Fatal d f :
  step_event G d = Fatal f ->
  In f event_fatals /\
  (bf_scratch_consistent G (kappa_rpkt_cont (sd_state d)) (kappa_bf_sum (sd_state d)) ->
   f <> Assert_kappa_bf_sum).
Proof.
  unfold step_event. intro H.
  set (p1 := move_pkt_withtime G (sd_pkt d) (sd_edist d / 2)) in *.
  destruct (rlc_emiss_rpkt_if_enabled_spec p1 (sd_edist d)
              (update_estimators p1 (sd_edist d) (sd_state d))) as [[Hk Hb] _].
  set (st1 := rlc_emiss_rpkt_if_enabled G p1 (sd_edist d)
                (update_estimators p1 (sd_edist d) (sd_state d))) in *.
  apply bind_Fatal in H. destruct H as [H | ([p5 st5] & _ & H)]; [|discriminate].
  destruct (thick G (sd_mgi d) =? 1).
  - apply rpkt_event_thickcell_Fatal in H. subst f.
    split; [unfold event_fatals; simpl; auto|discriminate].
  - destruct (sd_eventtype d =? RPKT_EVENTTYPE_BB); [discriminate|].
    destruct (sd_eventtype d =? RPKT_EVENTTYPE_CONT).
    + apply rpkt_event_continuum_Fatal in H as [Hin Hcons]. split.
      * unfold event_fatals. simpl in *. intuition.
      * intro Hc. apply Hcons. cbn [kappa_bf_sum log kappa_rpkt_cont].
        simpl in Hk, Hb. rewrite Hk, Hb. exact Hc.
    + injection H as <-. split; [unfold event_fatals; simpl; auto 10|discriminate].
Qed.

End Stepper.

Section StepperWhole.

Variable G : globals.

Let cte_calls (tr : list call) : nat := calls_of is_closest_transition_empty tr.

Lemma bf_scratch_consistent_same st st' :
  same_opacity st st' ->
  bf_scratch_consistent G (kappa_rpkt_cont st) (kappa_bf_sum st) ->
  bf_scratch_consistent G (kappa_rpkt_cont st') (kappa_bf_sum st').
Proof. intros [Hk Hb] H. rewrite Hk, Hb. exact H. Qed.

(** The loop of [get_event] records only line-estimator updates. *)
Lemma get_event_body_calls mgi pkt ety tau_rnd abort_dist nu_cmf_abort kap_cont s x :
  get_event_body G mgi pkt ety tau_rnd abort_dist nu_cmf_abort kap_cont s = Ok x ->
  match x with
  | Continue s' => cte_calls (trace (loop_state s')) = cte_calls (trace (loop_state s))
  | Return r => cte_calls (trace (ev_state r)) = cte_calls (trace (loop_state s))
  end.
Proof.
  unfold get_event_body. intro H.
  bind_inv_as H i Hi.
  destruct (i >=? 0).
  2:{ simpl in H. destruct (Qgtb _ _) in H; injection H as <-; reflexivity. }
  bind_inv_as H line Hline. bind_inv_as H ldist Hldist.
  destruct (Qgtb _ _) in H.
  - destruct (Qltb _ _) in H; [injection H as <-; reflexivity|].
    destruct (Qgtb _ _) in H; [injection H as <-; reflexivity|].
    destruct (DETAILED_LINE_ESTIMATORS_ON G); injection H as <-; reflexivity.
  - injection H as <-. reflexivity.
Qed.

Lemma get_event_loop_calls mgi pkt ety tau_rnd abort_dist nu_cmf_abort kap_cont fuel :
  forall s r,
  get_event_loop G fuel mgi pkt ety tau_rnd abort_dist nu_cmf_abort kap_cont s = Ok r ->
  cte_calls (trace (ev_state r)) = cte_calls (trace (loop_state s)) /\
  same_opacity (loop_state s) (ev_state r).
Proof.
  induction fuel as [|fuel IH]; intros s r H; simpl in H; [discriminate|].
  bind_inv_as H x Hx. pose proof (get_event_body_calls _ _ _ _ _ _ _ _ _ Hx) as Hc.
  destruct x as [s'|r'].
  - apply get_event_body_Continue in Hx as (_ & _ & _ & _ & _ & _ & Hs & _).
    apply IH in H as [Hc' Hs']. split; [congruence|].
    eapply same_opacity_trans; eauto.
  - injection H as <-.
    apply get_event_body_Return in Hx as (_ & _ & _ & _ & Hs & _). auto.
Qed.

Lemma get_event_state mgi pkt ety tau_rnd abort_dist st r :
  get_event G mgi pkt ety tau_rnd abort_dist st = Ok r ->
  cte_calls (trace (ev_state r)) = cte_calls (trace st) /\
  (bf_scratch_consistent G (kappa_rpkt_cont st) (kappa_bf_sum st) ->
   bf_scratch_consistent G (kappa_rpkt_cont (ev_state r)) (kappa_bf_sum (ev_state r))).
Proof.
  unfold get_event. intro H. bind_inv_as H st1 Hk.
  apply calculate_kappa_rpkt_cont_spec in Hk as (_ & _ & _ & _ & Hcons & _ & Ht).
  apply get_event_loop_calls in H as [Hc Hs]. simpl in Hc, Hs. split.
  - unfold cte_calls in *. rewrite Hc, Ht. reflexivity.
  - intro H0. eapply bf_scratch_consistent_same; [exact Hs|]. apply Hcons. exact H0.
Qed.

(** What the first part of a sub-step establishes. *)
Lemma step_distances_of_Ok pkt t2 st p :
  step_distances_of G pkt t2 st = Ok p ->
  match p with
  | Crossed_at_once (b, pkt', st') =>
      same_opacity st st' /\ cte_calls (trace st') = cte_calls (trace st)
  | Distances d =>
      sd_oldmgi d = get_cell_modelgridindex G (where_ pkt) /\
      sd_mgi d = sd_oldmgi d /\
      sd_find_nextline d
      = ((sd_oldmgi d =? get_npts_model G) || (thick G (sd_oldmgi d) =? 1)) /\
      cte_calls (trace (sd_state d)) = cte_calls (trace st) /\
      (bf_scratch_consistent G (kappa_rpkt_cont st) (kappa_bf_sum st) ->
       bf_scratch_consistent G (kappa_rpkt_cont (sd_state d)) (kappa_bf_sum (sd_state d)))
  end.
Proof.
  unfold step_distances_of. intro H.
  destruct (boundary_cross G pkt) as [[pkt1 sdist] snext].
  destruct (Qeq_bool sdist 0).
  { injection H as <-. split; [split; reflexivity|reflexivity]. }
  destruct (Qgtb sdist _); [discriminate|].
  destruct (_ || _) in H; [discriminate|].
  destruct (if Qgtb sdist (max_path_step G) then _ else _) as [sdist' snext'].
  bind_inv_as H u Htd. bind_inv_as H res Hres.
  destruct res as [[[[edist pkt2] ety] st2] fnl].
  bind_inv_as H u' Hed. injection H as <-. cbn [sd_oldmgi sd_mgi sd_find_nextline sd_state].
  split; [reflexivity|]. split; [reflexivity|].
  destruct (get_cell_modelgridindex G (where_ pkt) =? get_npts_model G) eqn:Eempty.
  - injection Hres as _ _ _ <- <-. simpl. repeat split; auto.
  - destruct (thick G (get_cell_modelgridindex G (where_ pkt)) =? 1) eqn:Ethick.
    + injection Hres as _ _ _ <- <-. simpl. repeat split; auto.
    + bind_inv_as Hres ev Hev. injection Hres as _ _ _ <- <-.
      apply get_event_state in Hev as [Hc Hcons]. simpl in Hc.
      split; [reflexivity|]. split; [exact Hc|].
      intro H0. apply Hcons. exact H0.
Qed.

Lemma step_distances_of_Fatal pkt t2 st f :
  step_distances_of G pkt t2 st = Fatal f ->
  In f ([Abort_large_sdist; Abort_inappropriate_cell; Assert_tdist; Assert_edist;
         Assert_ldist] ++ kappa_fatals).
Proof.
  unfold step_distances_of. intro H.
  destruct (boundary_cross G pkt) as [[pkt1 sdist] snext].
  destruct (Qeq_bool sdist 0); [discriminate|].
  destruct (Qgtb sdist _); [injection H as <-; simpl; auto|].
  destruct (_ || _) in H; [injection H as <-; simpl; auto|].
  destruct (if Qgtb sdist (max_path_step G) then _ else _) as [sdist' snext'].
  fatal_step H; [simpl; auto|].
  apply bind_Fatal in H. destruct H as [H | ([[[[edist pkt2] ety] st2] fnl] & _ & H)].
  - fatal_step H; [discriminate|]. fatal_step H; [discriminate|].
    apply bind_Fatal in H. destruct H as [H | (ev & _ & H)]; [|discriminate].
    apply get_event_Fatal in H. simpl in *. intuition.
  - fatal_step H; [simpl; auto 10|discriminate].
Qed.

End StepperWhole.

(** ** Which branch a sub-step takes *)

Lemma step_dispatch_boundary G d :
  (sd_sdist d < sd_tdist d)%Q -> (sd_sdist d < sd_edist d)%Q ->
  step_dispatch G d = step_boundary G d.
Proof.
  intros Ha Hc. unfold step_dispatch. apply Qltb_lt in Ha, Hc.
  rewrite Ha, Hc. reflexivity.
Qed.

(** C4. A sub-step is decided by the smallest of the three distances: the
    boundary branch runs when [sdist] is below both others, the event branch
    when [edist] is, the time branch when [tdist] is; and the step aborts
    with "Failed to identify event" exactly when no distance is below both
    others, which for [do_rpkt_step] as a whole means that the three
    distances were found and none of them won. *)
Theorem do_rpkt_step_dispatch G :
  (forall d,
     ((sd_sdist d < sd_tdist d)%Q /\ (sd_sdist d < sd_edist d)%Q ->
      step_dispatch G d = step_boundary G d) /\
     ((sd_edist d < sd_sdist d)%Q /\ (sd_edist d < sd_tdist d)%Q ->
      step_dispatch G d = step_event G d) /\
     ((sd_tdist d < sd_sdist d)%Q /\ (sd_tdist d < sd_edist d)%Q ->
      step_dispatch G d = step_time G d) /\
     (step_dispatch G d = Fatal Abort_event_unidentified <-> no_winner d)) /\
  (forall pkt t2 st,
     do_rpkt_step G pkt t2 st = Fatal Abort_event_unidentified <->
     exists d, step_distances_of G pkt t2 st = Ok (Distances d) /\ no_winner d).
Proof.
  assert (Hb : forall a b, ~ (a < b)%Q -> Qltb a b = false).
  { intros a b Hn. destruct (Qltb a b) eqn:E; [|reflexivity].
    apply Qltb_lt in E. contradiction. }
  assert (Hdispatch : forall d,
            step_dispatch G d = Fatal Abort_event_unidentified <-> no_winner d).
  { intro d. unfold step_dispatch, no_winner. split.
    - intro H.
      destruct (Qltb (sd_sdist d) (sd_tdist d) && Qltb (sd_sdist d) (sd_edist d)) eqn:E1.
      { exfalso. exact (step_boundary_not_Fatal G d _ H). }
      destruct (Qltb (sd_edist d) (sd_sdist d) && Qltb (sd_edist d) (sd_tdist d)) eqn:E2.
      { exfalso. apply step_event_Fatal in H as [Hin _].
        unfold event_fatals in Hin. simpl in Hin.
        repeat (destruct Hin as [Hin|Hin]; [discriminate|]). exact Hin. }
      destruct (Qltb (sd_tdist d) (sd_sdist d) && Qltb (sd_tdist d) (sd_edist d)) eqn:E3.
      { exfalso. exact (step_time_not_Fatal G d _ H). }
      repeat split; intros [Ha Hc]; apply Qltb_lt in Ha, Hc.
      + rewrite Ha, Hc in E1. discriminate.
      + rewrite Ha, Hc in E2. discriminate.
      + rewrite Ha, Hc in E3. discriminate.
    - intros (H1 & H2 & H3).
      replace (Qltb (sd_sdist d) (sd_tdist d) && Qltb (sd_sdist d) (sd_edist d)) with false.
      2:{ symmetry. apply andb_false_iff.
          destruct (Qltb (sd_sdist d) (sd_tdist d)) eqn:Ea; [|auto].
          destruct (Qltb (sd_sdist d) (sd_edist d)) eqn:Ec; [|auto].
          apply Qltb_lt in Ea, Ec. tauto. }
      replace (Qltb (sd_edist d) (sd_sdist d) && Qltb (sd_edist d) (sd_tdist d)) with false.
      2:{ symmetry. apply andb_false_iff.
          destruct (Qltb (sd_edist d) (sd_sdist d)) eqn:Ea; [|auto].
          destruct (Qltb (sd_edist d) (sd_tdist d)) eqn:Ec; [|auto].
          apply Qltb_lt in Ea, Ec. tauto. }
      replace (Qltb (sd_tdist d) (sd_sdist d) && Qltb (sd_tdist d) (sd_edist d)) with false.
      2:{ symmetry. apply andb_false_iff.
          destruct (Qltb (sd_tdist d) (sd_sdist d)) eqn:Ea; [|auto].
          destruct (Qltb (sd_tdist d) (sd_edist d)) eqn:Ec; [|auto].
          apply Qltb_lt in Ea, Ec. tauto. }
      reflexivity. }
  split.
  - intro d. split; [|split; [|split]].
    + intros [Ha Hc]. apply step_dispatch_boundary; assumption.
    + intros [Ha Hc]. unfold step_dispatch.
      replace (Qltb (sd_sdist d) (sd_tdist d) && Qltb (sd_sdist d) (sd_edist d)) with false.
      2:{ symmetry. apply andb_false_iff. right. apply Qltb_ge. lra. }
      apply Qltb_lt in Ha, Hc. rewrite Ha, Hc. reflexivity.
    + intros [Ha Hc]. unfold step_dispatch.
      replace (Qltb (sd_sdist d) (sd_tdist d) && Qltb (sd_sdist d) (sd_edist d)) with false.
      2:{ symmetry. apply andb_false_iff. left. apply Qltb_ge. lra. }
      replace (Qltb (sd_edist d) (sd_sdist d) && Qltb (sd_edist d) (sd_tdist d)) with false.
      2:{ symmetry. apply andb_false_iff. right. apply Qltb_ge. lra. }
      apply Qltb_lt in Ha, Hc. rewrite Ha, Hc. reflexivity.
    + apply Hdispatch.
  - intros pkt t2 st. unfold do_rpkt_step. split.
    + intro H. apply bind_Fatal in H. destruct H as [H | (p & Hp & H)].
      * exfalso. apply step_distances_of_Fatal in H. unfold kappa_fatals in H. simpl in H.
        repeat (destruct H as [H|H]; [discriminate|]). exact H.
      * destruct p as [r|d]; [discriminate|].
        exists d. split; [exact Hp|]. apply Hdispatch. exact H.
    + intros (d & Hp & Hno). rewrite Hp. simpl. apply Hdispatch. exact Hno.
Qed.

Lemma do_rpkt_step_dispatch_witness :
  step_dispatch (demo_globals (fun _ => 1 # 2)) demo_distances
  = step_boundary (demo_globals (fun _ => 1 # 2)) demo_distances.
Proof.
  destruct (do_rpkt_step_dispatch (demo_globals (fun _ => 1 # 2))) as [Hd _].
  destruct (Hd demo_distances) as (Hboundary & _).
  apply Hboundary. split; reflexivity.
Defined.

(** ** Re-seating the line index ([closest_transition_empty]) *)

Lemma closest_transition_empty_reseats G p p' :
  sorted_desc (linelist G) ->
  0 <= next_trans p <= nlines (linelist G) - 1 ->
  closest_transition_empty G p = Ok p' ->
  reseated (linelist G) (nu_cmf p) (next_trans p) (next_trans p').
Proof.
  intros Hs Hnt H. unfold closest_transition_empty in H.
  bind_inv_as H reddest Hred. apply defined_Ok in Hred.
  exists reddest. split; [exact Hred|].
  destruct (Z.gtb_spec (next_trans p) (nlines (linelist G) - 1)) as [Hg|Hg]; [lia|].
  destruct (Qltb (nu_cmf p) (nu reddest)) eqn:Ered.
  - apply Qltb_lt in Ered. left. split; [exact Ered|].
    cbn [next_trans set_next_trans nu_cmf] in H.
    bind_inv_as H line_left Hleft. apply defined_Ok in Hleft.
    assert (Hlt : (nu_cmf p < nu line_left)%Q).
    { eapply Qlt_le_trans; [exact Ered|].
      apply (Hs (next_trans p) (nlines (linelist G) - 1)); auto. }
    replace (Qgeb (nu_cmf p) (nu line_left)) with false in H
      by (symmetry; apply Qle_bool_gt; exact Hlt).
    bind_inv_as H m Hm. apply defined_Ok in Hm. injection H as <-. simpl.
    unfold lower_bound in Hm.
    replace (nlines (linelist G) - (nlines (linelist G) + 1)) with (-1) in Hm by lia.
    simpl in Hm. injection Hm as <-. reflexivity.
  - apply Qltb_ge in Ered. right. split; [exact Ered|].
    bind_inv_as H line_left Hleft. apply defined_Ok in Hleft.
    bind_inv_as H m Hm. injection H as <-. cbn [next_trans set_next_trans].
    destruct (Qgeb (nu_cmf p) (nu line_left)) eqn:Ege.
    + injection Hm as <-. apply Qle_bool_iff in Ege.
      split; [lia|]. split; [intros; lia|].
      intros j x Hj Hx. eapply Qle_trans; [|exact Ege].
      apply (Hs (next_trans p) j); auto. lia.
    + apply defined_Ok in Hm. unfold lower_bound in Hm.
      destruct (lower_bound_loop_spec (linelist G) line_lt (nu_cmf p)
                  (sorted_desc_partitioned _ _ Hs)
                  (Z.to_nat (nlines (linelist G) - next_trans p)) (next_trans p)
                  (nlines (linelist G) - next_trans p))
        as (r & Hr & Hrange & Hlo & Hhi); try (unfold nlines in *; lia).
      rewrite Hr in Hm. injection Hm as <-.
      assert (Hr1 : r <= nlines (linelist G) - 1).
      { destruct (Z_le_dec r (nlines (linelist G) - 1)); [assumption|]. exfalso.
        assert (Hc : line_lt reddest (nu_cmf p) = true)
          by (apply (Hlo (nlines (linelist G) - 1)); [lia|assumption]).
        unfold line_lt in Hc. apply negb_true_iff, Qle_bool_gt in Hc.
        apply (Qlt_not_le _ _ Hc Ered). }
      split; [lia|]. split.
      * intros j x Hj Hx. apply Qle_bool_gt. apply negb_true_iff. apply (Hlo j x Hj Hx).
      * intros j x Hj Hx. apply Qle_bool_iff. apply negb_false_iff.
        apply (Hhi j x); [lia|assumption].
Qed.

(** C5, as the code has it.  When the boundary distance wins a sub-step and
    the packet crosses into a neighbouring cell through [change_cell],
    [closest_transition_empty] is called (once) if and only if the cell the
    packet has just left is empty or thick and the cell it has entered is
    neither.  When it is called it re-seats [pkt->next_trans] by searching
    the lines from the old [next_trans] on, whether that index is positive or
    not; when it is not called, [next_trans] is left as it was. *)
Theorem boundary_crossing_reseats G pkt t2 st d b pkt' st' :
  step_distances_of G pkt t2 st = Ok (Distances d) ->
  (sd_sdist d < sd_tdist d)%Q ->
  (sd_sdist d < sd_edist d)%Q ->
  sd_snext d <> where_ (sd_pkt d) ->
  sd_snext d <> -99 ->
  do_rpkt_step G pkt t2 st = Ok (b, pkt', st') ->
  let old_mgi := get_cell_modelgridindex G (where_ pkt) in
  let new_mgi := get_cell_modelgridindex G (where_ pkt') in
  let called := ((old_mgi =? get_npts_model G) || (thick G old_mgi =? 1))
                && negb (new_mgi =? get_npts_model G) && negb (thick G new_mgi =? 1) in
  where_ pkt' = sd_snext d /\
  calls_of is_closest_transition_empty (trace st')
  = (calls_of is_closest_transition_empty (trace st) + (if called then 1 else 0))%nat /\
  (called = true ->
   sorted_desc (linelist G) ->
   0 <= next_trans (sd_pkt d) <= nlines (linelist G) - 1 ->
   reseated (linelist G) (nu_cmf pkt') (next_trans (sd_pkt d)) (next_trans pkt')) /\
  (called = false -> next_trans pkt' = next_trans (sd_pkt d)).
Proof.
  intros Hd Hst Hse Hcross Hesc Hstep old_mgi new_mgi called.
  pose proof (step_distances_of_Ok G pkt t2 st _ Hd) as (Hold & Hmgi & Hfn & Hcalls & _).
  unfold do_rpkt_step in Hstep. rewrite Hd in Hstep. cbn [bind] in Hstep.
  rewrite (step_dispatch_boundary G d Hst Hse) in Hstep.
  apply step_boundary_Ok in Hstep. cbn zeta in Hstep.
  replace (negb (sd_snext d =? where_ (sd_pkt d))) with true in Hstep
    by (symmetry; apply negb_true_iff, Z.eqb_neq; exact Hcross).
  destruct Hstep as (Hwhere & _ & _ & Hc & Hcalled & Hnot).
  assert (Hw : where_ pkt' = sd_snext d).
  { rewrite Hwhere. unfold change_cell.
    replace (sd_snext d =? -99) with false by (symmetry; apply Z.eqb_neq; exact Hesc).
    reflexivity. }
  assert (Hsame : sd_find_nextline d
                  && negb (get_cell_modelgridindex G (where_ pkt') =? get_npts_model G)
                  && negb (thick G (get_cell_modelgridindex G (where_ pkt')) =? 1)
                  = called).
  { unfold called, old_mgi, new_mgi. rewrite Hfn, Hold. reflexivity. }
  rewrite Hsame in Hc, Hcalled, Hnot.
  split; [exact Hw|]. split; [rewrite Hc, Hcalls; reflexivity|]. split.
  - intros Hyes Hs Hrange. destruct (Hcalled Hyes) as (p & Hcte & Hnt & Hnu).
    rewrite <- Hnt, <- Hnu. rewrite <- Hnt in Hrange.
    apply closest_transition_empty_reseats; assumption.
  - exact Hnot.
Qed.

(** A packet leaving the empty cell 3 for the ordinary cell 0: the line index
    is re-seated. *)
Lemma boundary_crossing_reseats_witness :
  exists b pkt' st',
    do_rpkt_step (demo_globals (fun _ => 1 # 2)) (demo_packet 3 10 0) 100 demo_state
    = Ok (b, pkt', st') /\
    where_ pkt' = 0 /\
    calls_of is_closest_transition_empty (trace st') = 1%nat.
Proof.
  destruct (step_distances_of (demo_globals (fun _ => 1 # 2)) (demo_packet 3 10 0) 100
              demo_state) as [[r|d]| | |] eqn:Ed; try (vm_compute in Ed; discriminate).
  destruct (do_rpkt_step (demo_globals (fun _ => 1 # 2)) (demo_packet 3 10 0) 100
              demo_state) as [[[b pkt'] st']| | |] eqn:Es; try (vm_compute in Es; discriminate).
  exists b, pkt', st'. split; [reflexivity|].
  assert (Hd : d = ltac:(let v := eval vm_compute in
                 (match step_distances_of (demo_globals (fun _ => 1 # 2))
                          (demo_packet 3 10 0) 100 demo_state with
                  | Ok (Distances x) => x | _ => demo_distances end) in exact v)).
  { vm_compute in Ed. injection Ed as <-. reflexivity. }
  destruct (boundary_crossing_reseats (demo_globals (fun _ => 1 # 2)) (demo_packet 3 10 0)
              100 demo_state d b pkt' st' Ed) as (Hw & Hc & _);
    try (rewrite Hd; vm_compute; congruence); try exact Es.
  split; [rewrite Hw, Hd; reflexivity|].
  rewrite Hc. vm_compute in Es. injection Es as _ <- _. reflexivity.
Defined.

(** C5 fails as it is worded, in both directions.  A packet that leaves the
    ordinary cell 1 for the thick cell 2 is not re-seated, although the cell
    it enters is thick; a packet that leaves the empty cell 3 for the
    ordinary cell 0 is re-seated, although the cell it enters is neither
    empty nor thick. *)
Lemma boundary_crossing_counterexample :
  let G := demo_globals (fun _ => 1 # 2) in
  (exists b pkt' st' earlier,
     do_rpkt_step G (demo_packet 1 10 0) 100 demo_state = Ok (b, pkt', st') /\
     where_ pkt' = 2 /\
     thick G (get_cell_modelgridindex G (where_ pkt')) = 1 /\
     trace st' = Call_change_cell 2 :: earlier /\
     calls_of is_closest_transition_empty (trace st') = 0%nat) /\
  (exists b pkt' st' earlier,
     do_rpkt_step G (demo_packet 3 10 0) 100 demo_state = Ok (b, pkt', st') /\
     where_ pkt' = 0 /\
     get_cell_modelgridindex G (where_ pkt') <> get_npts_model G /\
     thick G (get_cell_modelgridindex G (where_ pkt')) <> 1 /\
     trace st' = Call_closest_transition_empty :: Call_change_cell 0 :: earlier /\
     calls_of is_closest_transition_empty (trace st') = 1%nat).
Proof.
  intro G. split.
  - destruct (do_rpkt_step G (demo_packet 1 10 0) 100 demo_state)
      as [[[b pkt'] st']| | |] eqn:Es; try (vm_compute in Es; discriminate).
    vm_compute in Es. injection Es as <- <- <-.
    do 3 eexists. eexists. split; [reflexivity|].
    repeat split; reflexivity.
  - destruct (do_rpkt_step G (demo_packet 3 10 0) 100 demo_state)
      as [[[b pkt'] st']| | |] eqn:Es; try (vm_compute in Es; discriminate).
    vm_compute in Es. injection Es as <- <- <-.
    do 3 eexists. eexists. split; [reflexivity|].
    repeat split; try reflexivity; vm_compute; discriminate.
Qed.

(** ** The scratch array and the assertion of [rpkt_event_continuum] *)

Lemma do_rpkt_step_consistent G pkt t2 st :
  bf_scratch_consistent G (kappa_rpkt_cont st) (kappa_bf_sum st) ->
  do_rpkt_step G pkt t2 st <> Fatal Assert_kappa_bf_sum /\
  forall b pkt' st',
    do_rpkt_step G pkt t2 st = Ok (b, pkt', st') ->
    bf_scratch_consistent G (kappa_rpkt_cont st') (kappa_bf_sum st').
Proof.
  intro Hcons. unfold do_rpkt_step. split.
  - intro H. apply bind_Fatal in H. destruct H as [H | (p & Hp & H)].
    + apply step_distances_of_Fatal in H. unfold kappa_fatals in H. simpl in H.
      repeat (destruct H as [H|H]; [discriminate|]). exact H.
    + destruct p as [r|d]; [discriminate|].
      apply step_distances_of_Ok in Hp as (_ & _ & _ & _ & Hc).
      specialize (Hc Hcons). unfold step_dispatch in H.
      destruct (_ && _) in H; [exact (step_boundary_not_Fatal G d _ H)|].
      destruct (_ && _) in H.
      { apply step_event_Fatal in H as [_ Hne]. exact (Hne Hc eq_refl). }
      destruct (_ && _) in H; [exact (step_time_not_Fatal G d _ H)|discriminate].
  - intros b pkt' st' H. bind_inv_as H p Hp. apply step_distances_of_Ok in Hp.
    destruct p as [[[b0 p0] st0]|d].
    + injection H as _ _ <-. destruct Hp as [Hs _].
      eapply bf_scratch_consistent_same; eauto.
    + destruct Hp as (_ & _ & _ & _ & Hc). specialize (Hc Hcons).
      unfold step_dispatch in H.
      destruct (_ && _) in H.
      { apply step_boundary_Ok in H. cbn zeta in H. destruct H as (_ & _ & Hs & _).
        eapply bf_scratch_consistent_same; eauto. }
      destruct (_ && _) in H.
      { apply step_event_Ok in H as [Hs _]. eapply bf_scratch_consistent_same; eauto. }
      destruct (_ && _) in H; [|discriminate].
      apply step_time_Ok in H as (_ & Hs & _). eapply bf_scratch_consistent_same; eauto.
Qed.

(** C6. After [calculate_kappa_bf_gammacontr] has returned [kappa_bf], the
    scratch array [kappa_bf_sum] has an entry at every index below
    [nbfcontinua], its last entry is the returned [kappa_bf] itself, and
    (the tabulated cross-sections and probabilities being non-negative) its
    entries do not decrease and none exceeds [kappa_bf].  Hence the cache and
    the scratch array agree after every [calculate_kappa_rpkt_cont], and the
    assertion [kappa_bf_sum[nbfcontinua - 1] == kappa_bf_inrest] of
    [rpkt_event_continuum] never fails in a sub-step that starts from a state
    in which they agree; the sub-step leaves them in agreement. *)
Theorem kappa_bf_sum_cumulative G mgi nu st kappa_bf st' :
  calculate_kappa_bf_gammacontr G mgi nu st = Ok (kappa_bf, st') ->
  (forall i, 0 <= i < nbfcontinua G -> exists x, idx (kappa_bf_sum st') i = Some x) /\
  (0 < nbfcontinua G -> idx (kappa_bf_sum st') (nbfcontinua G - 1) = Some kappa_bf) /\
  (nonnegative_phixs G nu ->
   (forall i j x y, 0 <= i <= j -> j < nbfcontinua G ->
      idx (kappa_bf_sum st') i = Some x -> idx (kappa_bf_sum st') j = Some y ->
      (x <= y)%Q) /\
   (forall i x, 0 <= i < nbfcontinua G -> idx (kappa_bf_sum st') i = Some x ->
      (x <= kappa_bf)%Q)) /\
  (forall pkt st0 st1,
     calculate_kappa_rpkt_cont G pkt st0 = Ok st1 ->
     bf_scratch_consistent G (kappa_rpkt_cont st0) (kappa_bf_sum st0) ->
     bf_scratch_consistent G (kappa_rpkt_cont st1) (kappa_bf_sum st1)) /\
  (forall pkt t2 st0,
     bf_scratch_consistent G (kappa_rpkt_cont st0) (kappa_bf_sum st0) ->
     do_rpkt_step G pkt t2 st0 <> Fatal Assert_kappa_bf_sum /\
     forall b pkt' st1,
       do_rpkt_step G pkt t2 st0 = Ok (b, pkt', st1) ->
       bf_scratch_consistent G (kappa_rpkt_cont st1) (kappa_bf_sum st1)).
Proof.
  intro H.
  pose proof (calculate_kappa_bf_gammacontr_cumulative G false mgi nu st kappa_bf st'
                ltac:(discriminate) H) as ((Hlen & Hlast & _) & _).
  split; [|split; [|split; [|split]]].
  - intros i Hi. apply idx_in_range. lia.
  - exact Hlast.
  - intro Hnn.
    pose proof (calculate_kappa_bf_gammacontr_cumulative G true mgi nu st kappa_bf st'
                  (fun _ => Hnn) H) as ((_ & _ & Hmono) & _).
    destruct (Hmono eq_refl) as [Hsorted Hbound]. split.
    + intros i j x y Hij Hj Hx Hy. apply (Hsorted i j); auto.
    + intros i x Hi Hx. apply (Hbound i); auto.
  - intros pkt st0 st1 Hk Hc.
    apply calculate_kappa_rpkt_cont_spec in Hk as (_ & _ & _ & _ & Hcons & _).
    apply Hcons. exact Hc.
  - intros pkt t2 st0 Hc. apply do_rpkt_step_consistent. exact Hc.
Qed.

Lemma demo_nonnegative_phixs : nonnegative_phixs (demo_globals (fun _ => 1 # 2)) 9.
Proof.
  intros c Hc. simpl in Hc.
  destruct Hc as [<-|[<-|[]]]; split; vm_compute; discriminate.
Qed.

Lemma kappa_bf_sum_cumulative_witness :
  exists kappa_bf st',
    calculate_kappa_bf_gammacontr (demo_globals (fun _ => 1 # 2)) 0 9 demo_state
    = Ok (kappa_bf, st') /\
    idx (kappa_bf_sum st') 1 = Some kappa_bf /\
    (forall x y, idx (kappa_bf_sum st') 0 = Some x -> idx (kappa_bf_sum st') 1 = Some y ->
       (x <= y)%Q) /\
    do_rpkt_step (demo_globals (fun _ => 1 # 2)) (demo_packet 0 10 0) 100 demo_state
    <> Fatal Assert_kappa_bf_sum.
Proof.
  destruct (calculate_kappa_bf_gammacontr (demo_globals (fun _ => 1 # 2)) 0 9 demo_state)
    as [[kappa_bf st']| | |] eqn:E; try (vm_compute in E; discriminate).
  exists kappa_bf, st'. split; [reflexivity|].
  destruct (kappa_bf_sum_cumulative (demo_globals (fun _ => 1 # 2)) 0 9 demo_state
              kappa_bf st' E) as (_ & Hlast & Hmono & _ & Hstep).
  split; [apply Hlast; reflexivity|]. split.
  - intros x y Hx Hy. destruct (Hmono demo_nonnegative_phixs) as [Hsorted _].
    apply (Hsorted 0 1); auto; try lia. reflexivity.
  - apply (Hstep (demo_packet 0 10 0) 100%Q demo_state).
    vm_compute. auto.
Defined.

(** * Part III: further properties of the code *)

(** ** Reading results apart: undefined behaviour *)

Lemma bind_Undefined {A B} (r : result A) (k : A -> result B) :
  bind r k = Undefined -> r = Undefined \/ exists a, r = Ok a /\ k a = Undefined.
Proof. destruct r; simpl; intro H; try discriminate; [right; eauto | left; reflexivity]. Qed.

Lemma defined_Undefined {A} (o : option A) : defined o = Undefined -> o = None.
Proof. destruct o; simpl; intro H; [discriminate|reflexivity]. Qed.

Lemma assert_always_not_Undefined e f : assert_always e f <> Undefined.
Proof. unfold assert_always. destruct e; discriminate. Qed.

(** ** The line-list search, whatever the order of the list *)

(** The index that the halving loop returns is the start of the range or
    comes straight after an element for which the comparison holds. *)
Lemma lower_bound_loop_prev {A} (a : list A) comp val fuel : forall first n r,
  lower_bound_loop a comp fuel first n val = Some r ->
  r = first \/ exists x, idx a (r - 1) = Some x /\ comp x val = true.
Proof.
  induction fuel as [|fuel IH]; intros first n r H; simpl in H.
  - destruct (n >? 0); [discriminate|]. injection H as <-. auto.
  - destruct (n >? 0); [|injection H as <-; auto].
    destruct (idx a (first + Z.shiftr n 1)) as [x|] eqn:Hx; [|discriminate].
    destruct (comp x val) eqn:Hc.
    + apply IH in H. destruct H as [->|H]; [|auto].
      right. exists x. split; [|exact Hc].
      replace (first + Z.shiftr n 1 + 1 - 1) with (first + Z.shiftr n 1) by lia. exact Hx.
    + apply IH in H. exact H.
Qed.

Lemma closest_transition_range linelist nu_cmf next_trans :
  0 < nlines linelist -> 0 <= next_trans ->
  exists i, closest_transition linelist nu_cmf next_trans = Some i /\
            (i = -1 \/ next_trans <= i <= nlines linelist - 1).
Proof.
  intros Hn Hnt. unfold closest_transition.
  destruct (idx_in_range linelist (nlines linelist - 1)) as [reddest Hred];
    [unfold nlines in *; lia|].
  rewrite Hred.
  destruct (Qltb nu_cmf (nu reddest)) eqn:Elt; [eauto|].
  destruct (Z.gtb_spec next_trans (nlines linelist - 1)) as [Hg|Hg]; [eauto|].
  destruct (Z.gtb_spec next_trans 0) as [Hp|Hp]; [exists next_trans; split; [reflexivity|lia]|].
  assert (next_trans = 0) by lia. subst next_trans.
  destruct (idx_in_range linelist 0) as [bluest Hblue]; [unfold nlines in *; lia|].
  rewrite Hblue.
  destruct (Qgeb nu_cmf (nu bluest)); [exists 0; split; [reflexivity|lia]|].
  unfold lower_bound.
  destruct (lower_bound_loop_defined linelist line_lt nu_cmf
              (Z.to_nat (nlines linelist - 0)) 0 (nlines linelist - 0)) as [r Hr];
    try (unfold nlines; lia).
  exists r. split; [exact Hr|]. right.
  pose proof (lower_bound_loop_range _ _ _ _ _ _ _ Hr) as [Hr0 Hr1].
  apply lower_bound_loop_prev in Hr.
  split; [lia|].
  destruct (Z.eq_dec r (nlines linelist)) as [->|Hne]; [|lia].
  exfalso. destruct Hr as [Hr|(x & Hx & Hc)]; [lia|].
  rewrite Hred in Hx. injection Hx as <-.
  unfold line_lt in Hc. apply negb_true_iff in Hc.
  unfold Qltb in Elt. apply negb_false_iff in Elt. congruence.
Qed.

(** X1. On a line list that is not empty, in whatever order, and for
    [next_trans >= 0], [closest_transition] reads the list only inside its
    bounds and returns -1 or the index of a line, one that is not before
    [next_trans]: [get_event] may read [linelist[lineindex]] whenever
    [lineindex >= 0]. *)
Theorem closest_transition_in_bounds linelist nu_cmf next_trans :
  0 < nlines linelist -> 0 <= next_trans ->
  exists i, closest_transition linelist nu_cmf next_trans = Some i /\
    (i = -1 \/
     (next_trans <= i <= nlines linelist - 1 /\ exists line, idx linelist i = Some line)).
Proof.
  intros Hn Hnt.
  destruct (closest_transition_range linelist nu_cmf next_trans Hn Hnt) as (i & Hi & Hr).
  exists i. split; [exact Hi|].
  destruct Hr as [->|Hr]; [auto|]. right. split; [exact Hr|].
  apply idx_in_range. unfold nlines in *. lia.
Qed.

Lemma closest_transition_in_bounds_witness :
  exists i, closest_transition demo_lines 9 2 = Some i /\
    (i = -1 \/ (2 <= i <= nlines demo_lines - 1 /\ exists line, idx demo_lines i = Some line)).
Proof.
  apply (closest_transition_in_bounds demo_lines 9 2); [reflexivity|lia].
Defined.

(** ** [get_event] reads the line list inside its bounds *)

Ltac undef_step H :=
  match type of H with
  | bind (defined _) _ = Undefined =>
      apply bind_Undefined in H; destruct H as [H | (? & ? & H)]
  | bind (assert_always _ _) _ = Undefined =>
      apply bind_Undefined in H; destruct H as [H | (? & _ & H)];
      [exfalso; exact (assert_always_not_Undefined _ _ H)|]
  | Ok _ = Undefined => discriminate H
  | Fatal _ = Undefined => discriminate H
  | (if ?b then _ else _) = Undefined => destruct b
  | (let '(_, _) := ?p in _) = Undefined => destruct p
  end.

Section GetEventBounds.

Variable G : globals.
Variables (mgi : Z) (pkt : packet Q) (ety : Z).
Variables (tau_rnd abort_dist nu_cmf_abort kap_cont : Q).

Hypothesis Hlines : 0 < nlines (linelist G).

Lemma get_event_body_defined s :
  0 <= next_trans (dummypkt s) ->
  get_event_body G mgi pkt ety tau_rnd abort_dist nu_cmf_abort kap_cont s <> Undefined.
Proof.
  intros Hnt H. unfold get_event_body in H.
  destruct (closest_transition_range (linelist G) (nu_cmf (dummypkt s))
              (next_trans (dummypkt s)) Hlines Hnt) as (i & Hi & Hr).
  rewrite Hi in H. cbn [defined bind] in H.
  destruct (Z.geb_spec i 0) as [Hi0|Hi0].
  - destruct (idx_in_range (linelist G) i) as [line Hline];
      [unfold nlines in *; lia|].
    rewrite Hline in H. cbn [defined bind] in H.
    apply bind_Undefined in H. destruct H as [H | (ldist & _ & H)].
    + undef_step H; [|discriminate]. undef_step H. discriminate.
    + undef_step H; [|discriminate]. undef_step H; [discriminate|].
      undef_step H; [discriminate|].
      destruct (DETAILED_LINE_ESTIMATORS_ON G); discriminate.
  - destruct (Qgtb _ _) in H; discriminate.
Qed.

Lemma get_event_loop_defined fuel : forall s,
  0 <= next_trans (dummypkt s) ->
  get_event_loop G fuel mgi pkt ety tau_rnd abort_dist nu_cmf_abort kap_cont s <> Undefined.
Proof.
  induction fuel as [|fuel IH]; intros s Hnt H; simpl in H; [discriminate|].
  apply bind_Undefined in H. destruct H as [H | ([s'|r] & Hb & H)].
  - exact (get_event_body_defined s Hnt H).
  - apply get_event_body_Continue in Hb as (i & _ & _ & Hi & _ & Hs' & _).
    apply (IH s'); [lia|exact H].
  - discriminate.
Qed.

End GetEventBounds.

(** X2. On a line list that is not empty and for a packet with
    [next_trans >= 0], the loop of [get_event] reads [globals::linelist] only
    inside its bounds: whenever the opacity kernel that opens [get_event] is
    defined, so is [get_event], and it ends. *)
Theorem get_event_reads_in_bounds G mgi pkt ety tau_rnd abort_dist st :
  0 < nlines (linelist G) ->
  0 <= next_trans pkt ->
  calculate_kappa_rpkt_cont G pkt st <> Undefined ->
  get_event G mgi pkt ety tau_rnd abort_dist st <> Undefined /\
  get_event G mgi pkt ety tau_rnd abort_dist st <> OutOfFuel.
Proof.
  intros Hn Hnt Hk. split; [|apply get_event_terminates].
  intro H. unfold get_event in H.
  apply bind_Undefined in H. destruct H as [H | (st1 & _ & H)]; [contradiction|].
  revert H. apply get_event_loop_defined; [exact Hn|exact Hnt].
Qed.

Lemma get_event_reads_in_bounds_witness :
  get_event (demo_globals (fun _ => 1 # 2)) 0 (demo_packet 0 10 0) (-1) 3 100 demo_state
  <> Undefined.
Proof.
  apply (get_event_reads_in_bounds (demo_globals (fun _ => 1 # 2)) 0 (demo_packet 0 10 0)
           (-1) 3 100 demo_state); [reflexivity| vm_compute; discriminate |].
  vm_compute. discriminate.
Defined.

(** ** [closest_transition_empty]: its two versions and its bounds *)

Section ClosestTransitionEmpty.

Variable G : globals.

(** What the search of the current version finds when the packet is not
    below the reddest line and is redder than the line at [next_trans]. *)
Lemma closest_transition_empty_search_point nu_cmf left reddest line_left :
  sorted_desc (linelist G) ->
  0 <= left <= nlines (linelist G) - 1 ->
  idx (linelist G) (nlines (linelist G) - 1) = Some reddest ->
  idx (linelist G) left = Some line_left ->
  (nu reddest <= nu_cmf)%Q -> (nu_cmf < nu line_left)%Q ->
  exists r,
    lower_bound (linelist G) line_lt left (nlines (linelist G)) nu_cmf = Some r /\
    left + 1 <= r <= nlines (linelist G) - 1 /\
    first_redder (linelist G) nu_cmf r.
Proof.
  intros Hs Hl Hred Hleft Hge Hlt. unfold lower_bound.
  destruct (lower_bound_loop_spec (linelist G) line_lt nu_cmf
              (sorted_desc_partitioned _ _ Hs)
              (Z.to_nat (nlines (linelist G) - left)) left (nlines (linelist G) - left))
    as (r & Hr & Hrange & Hlo & Hhi); try (unfold nlines in *; lia).
  exists r. split; [exact Hr|].
  assert (Hr1 : r <= nlines (linelist G) - 1).
  { destruct (Z_le_dec r (nlines (linelist G) - 1)); [assumption|]. exfalso.
    assert (Hc : line_lt reddest nu_cmf = true)
      by (apply (Hlo (nlines (linelist G) - 1)); [lia|assumption]).
    unfold line_lt in Hc. apply negb_true_iff, Qle_bool_gt in Hc.
    apply (Qlt_not_le _ _ Hc Hge). }
  assert (Hr0 : left + 1 <= r).
  { destruct (Z_le_dec (left + 1) r); [assumption|]. exfalso.
    assert (r = left) by lia. subst r.
    assert (Hc : line_lt line_left nu_cmf = false)
      by (apply (Hhi left); [lia|assumption]).
    unfold line_lt in Hc. apply negb_false_iff, Qle_bool_iff in Hc.
    apply (Qlt_not_le _ _ Hlt Hc). }
  split; [lia|]. split.
  - intros j x Hj Hx.
    destruct (Z_lt_dec j left) as [Hjl|Hjl].
    + eapply Qlt_le_trans; [exact Hlt|]. apply (Hs j left); auto. lia.
    + apply Qle_bool_gt. apply negb_true_iff. apply (Hlo j x); [lia|assumption].
  - intros j x Hj Hx. apply Qle_bool_iff. apply negb_false_iff.
    apply (Hhi j x); [lia|assumption].
Qed.

End ClosestTransitionEmpty.

(** X3. The two versions of [closest_transition_empty], the current one with
    [std::lower_bound] and the older one with the hand-written search, leave
    the same packet behind for every line list in descending order of
    frequency and every [next_trans] that is the index of a line; the older
    one also returns -1 when it stored the sentinel [nlines + 1] and the
    frequency of the line at the new [next_trans] otherwise. *)
Theorem closest_transition_empty_versions_agree G pkt :
  sorted_desc (linelist G) ->
  0 <= next_trans pkt <= nlines (linelist G) - 1 ->
  exists pkt' x,
    closest_transition_empty G pkt = Ok pkt' /\
    LegacyRpkt.closest_transition_empty (linelist G) pkt = Ok (x, pkt') /\
    ((x = (-1)%Q /\ next_trans pkt' = nlines (linelist G) + 1) \/
     (exists line, idx (linelist G) (next_trans pkt') = Some line /\ x = nu line)).
Proof.
  intros Hs Hnt.
  destruct (idx_in_range (linelist G) (nlines (linelist G) - 1)) as [reddest Hred];
    [unfold nlines in *; lia|].
  destruct (idx_in_range (linelist G) (next_trans pkt)) as [line_left Hleft];
    [unfold nlines in *; lia|].
  unfold closest_transition_empty, LegacyRpkt.closest_transition_empty.
  rewrite Hred. cbn [defined bind].
  destruct (Z.gtb_spec (next_trans pkt) (nlines (linelist G) - 1)) as [Hg|Hg]; [lia|].
  destruct (Qltb (nu_cmf pkt) (nu reddest)) eqn:Ered.
  - apply Qltb_lt in Ered.
    cbn [next_trans set_next_trans nu_cmf].
    rewrite Hleft. cbn [defined bind].
    assert (Hlt : (nu_cmf pkt < nu line_left)%Q).
    { eapply Qlt_le_trans; [exact Ered|].
      apply (Hs (next_trans pkt) (nlines (linelist G) - 1)); auto. }
    replace (Qgeb (nu_cmf pkt) (nu line_left)) with false
      by (symmetry; apply Qle_bool_gt; exact Hlt).
    unfold lower_bound.
    replace (nlines (linelist G) - (nlines (linelist G) + 1)) with (-1) by lia.
    cbn [Z.to_nat lower_bound_loop Z.gtb Z.compare defined bind].
    eexists. eexists. split; [reflexivity|]. split; [reflexivity|].
    left. split; reflexivity.
  - apply Qltb_ge in Ered. rewrite Hleft. cbn [defined bind].
    destruct (Qgeb (nu_cmf pkt) (nu line_left)) eqn:Ege.
    + cbn [defined bind]. rewrite Hleft. cbn [defined bind].
      eexists. eexists. split; [reflexivity|]. split; [reflexivity|].
      right. exists line_left. split; [exact Hleft|reflexivity].
    + apply Qle_bool_gt in Ege.
      destruct (closest_transition_empty_search_point G (nu_cmf pkt) (next_trans pkt)
                  reddest line_left Hs Hnt Hred Hleft Ered Ege)
        as (r & Hr & Hrange & Hfirst).
      rewrite Hr.
      rewrite (legacy_search_loop_spec (linelist G) (nu_cmf pkt) r Hfirst ltac:(lia)
                 (Z.to_nat (nlines (linelist G) - 1 - next_trans pkt + 1))
                 (next_trans pkt) (nlines (linelist G) - 1) 1);
        try lia.
      cbn [defined bind].
      destruct (idx_in_range (linelist G) r) as [line Hline];
        [unfold nlines in *; lia|].
      rewrite Hline. cbn [defined bind].
      eexists. eexists. split; [reflexivity|]. split; [reflexivity|].
      right. exists line. split; [exact Hline|reflexivity].
Qed.

Lemma closest_transition_empty_versions_agree_witness :
  exists pkt' x,
    closest_transition_empty (demo_globals (fun _ => 1 # 2)) (demo_packet 0 5 1) = Ok pkt' /\
    LegacyRpkt.closest_transition_empty (linelist (demo_globals (fun _ => 1 # 2)))
      (demo_packet 0 5 1) = Ok (x, pkt') /\
    next_trans pkt' = 3.
Proof.
  destruct (closest_transition_empty_versions_agree (demo_globals (fun _ => 1 # 2))
              (demo_packet 0 5 1)) as (pkt' & x & Hnew & Hold & _).
  - exact demo_lines_sorted.
  - vm_compute. split; discriminate.
  - exists pkt', x. split; [exact Hnew|]. split; [exact Hold|].
    vm_compute in Hnew. injection Hnew as <-. reflexivity.
Defined.

(** X4. [closest_transition_empty] reads [linelist[next_trans]] without a
    test of the index: the current version stays inside the array exactly
    when [next_trans] is the index of a line.  For a [next_trans] beyond the
    last line (the sentinel [nlines + 1] that an earlier search leaves, for
    one) it stores the sentinel and then reads beyond the end of the array,
    where the older version has already returned -1 with the sentinel
    stored. *)
Theorem closest_transition_empty_bounds G pkt :
  (closest_transition_empty G pkt = Undefined <->
   ~ (0 <= next_trans pkt <= nlines (linelist G) - 1)) /\
  (0 < nlines (linelist G) -> nlines (linelist G) - 1 < next_trans pkt ->
   LegacyRpkt.closest_transition_empty (linelist G) pkt
   = Ok ((-1)%Q, set_next_trans (nlines (linelist G) + 1) pkt)).
Proof.
  split; [split|].
  - intros H Hnt.
    destruct (idx_in_range (linelist G) (nlines (linelist G) - 1)) as [reddest Hred];
      [unfold nlines in *; lia|].
    destruct (idx_in_range (linelist G) (next_trans pkt)) as [line_left Hleft];
      [unfold nlines in *; lia|].
    unfold closest_transition_empty in H. rewrite Hred in H. cbn [defined bind] in H.
    destruct (Z.gtb_spec (next_trans pkt) (nlines (linelist G) - 1)) as [Hg|Hg]; [lia|].
    assert (Hlb : forall first,
              (first = next_trans pkt \/ first = nlines (linelist G) + 1) ->
              exists r, lower_bound (linelist G) line_lt first (nlines (linelist G))
                          (nu_cmf pkt) = Some r).
    { intros first [->| ->]; unfold lower_bound.
      - apply lower_bound_loop_defined; unfold nlines in *; lia.
      - replace (nlines (linelist G) - (nlines (linelist G) + 1)) with (-1) by lia.
        simpl. eauto. }
    destruct (Qltb (nu_cmf pkt) (nu reddest));
      cbn [next_trans set_next_trans nu_cmf] in H;
      rewrite Hleft in H; cbn [defined bind] in H;
      destruct (Qgeb (nu_cmf pkt) (nu line_left)); try discriminate.
    + destruct (Hlb (nlines (linelist G) + 1)) as [r Hr]; [auto|].
      rewrite Hr in H. discriminate.
    + destruct (Hlb (next_trans pkt)) as [r Hr]; [auto|].
      rewrite Hr in H. discriminate.
  - intro Hout. unfold closest_transition_empty.
    destruct (idx (linelist G) (nlines (linelist G) - 1)) as [reddest|] eqn:Hred;
      [|reflexivity].
    cbn [defined bind].
    assert (Hleft : idx (linelist G) (next_trans pkt) = None).
    { destruct (idx (linelist G) (next_trans pkt)) as [x|] eqn:Hx; [|reflexivity].
      apply idx_Some_range in Hx. unfold nlines in *. lia. }
    destruct (Qltb (nu_cmf pkt) (nu reddest));
      destruct (next_trans pkt >? nlines (linelist G) - 1);
      cbn [next_trans set_next_trans nu_cmf]; rewrite Hleft; reflexivity.
  - intros Hn Hbig. unfold LegacyRpkt.closest_transition_empty.
    destruct (idx_in_range (linelist G) (nlines (linelist G) - 1)) as [reddest Hred];
      [unfold nlines in *; lia|].
    rewrite Hred. cbn [defined bind].
    destruct (Qltb (nu_cmf pkt) (nu reddest)); [reflexivity|].
    destruct (Z.gtb_spec (next_trans pkt) (nlines (linelist G) - 1)) as [Hg|Hg]; [|lia].
    reflexivity.
Qed.

Lemma closest_transition_empty_bounds_witness :
  LegacyRpkt.closest_transition_empty (linelist (demo_globals (fun _ => 1 # 2)))
    (demo_packet 0 10 5)
  = Ok ((-1)%Q, set_next_trans 5 (demo_packet 0 10 5)) /\
  closest_transition_empty (demo_globals (fun _ => 1 # 2)) (demo_packet 0 10 5) = Undefined.
Proof.
  destruct (closest_transition_empty_bounds (demo_globals (fun _ => 1 # 2))
              (demo_packet 0 10 5)) as [Hnew Hold].
  split.
  - apply Hold; reflexivity.
  - apply Hnew. vm_compute. intros [_ H]. apply H. reflexivity.
Defined.

(** ** The bound-free kernel stays inside its scratch arrays *)

Section KappaBfBounds.

Variable G : globals.

Lemma zero_groundcont_sized n : forall i a,
  0 <= i -> i + Z.of_nat n <= len a ->
  exists a', zero_groundcont n i a = Ok a' /\ len a' = len a.
Proof.
  induction n as [|n IH]; intros i a Hi Hn; simpl.
  - eauto.
  - destruct (upd_in_range a i 0%Q) as [a1 Ha1]; [lia|].
    rewrite Ha1. cbn [defined bind].
    pose proof (upd_len _ _ _ _ Ha1) as Hlen.
    destruct (IH (i + 1) a1) as (a' & Ha' & Hlen'); [lia|lia|].
    exists a'. split; [exact Ha'|lia].
Qed.

Lemma store_kappa_bf_sum_sized i s st :
  0 <= i < len (kappa_bf_sum st) ->
  (DETAILED_BF_ESTIMATORS_ON G = true -> i < len (gamma_contr st)) ->
  exists st', store_kappa_bf_sum G i s st = Ok st' /\ scratch_sizes st' = scratch_sizes st.
Proof.
  intros Hi Hg. unfold store_kappa_bf_sum.
  destruct (upd_in_range (kappa_bf_sum st) i s) as [a Ha]; [lia|].
  rewrite Ha. cbn [defined bind]. pose proof (upd_len _ _ _ _ Ha) as Hlen.
  destruct (DETAILED_BF_ESTIMATORS_ON G).
  - cbn [gamma_contr set_kappa_bf_sum].
    destruct (upd_in_range (gamma_contr st) i 0%Q) as [g Hgu]; [specialize (Hg eq_refl); lia|].
    rewrite Hgu. cbn [defined bind]. pose proof (upd_len _ _ _ _ Hgu) as Hlen'.
    eexists. split; [reflexivity|]. unfold scratch_sizes. simpl. congruence.
  - eexists. split; [reflexivity|]. unfold scratch_sizes. simpl. congruence.
Qed.

Lemma bf_corrfactor_sized mgi nu i c nnlevel st :
  (SEPARATE_STIMRECOMB G = false -> 0 <= i < len (ch_allcont_departureratios st)) ->
  exists corrfactor st',
    bf_corrfactor G mgi nu i c nnlevel st = Ok (corrfactor, st') /\
    scratch_sizes st' = scratch_sizes st.
Proof.
  intro Hi. unfold bf_corrfactor.
  destruct (SEPARATE_STIMRECOMB G); [eauto|].
  specialize (Hi eq_refl).
  destruct (idx_in_range (ch_allcont_departureratios st) i) as [d Hd]; [lia|].
  rewrite Hd. cbn [defined bind].
  destruct (Qltb d 0).
  - match goal with |- context [upd ?a ?j ?v] =>
      destruct (upd_in_range a j v) as [a' Ha']; [lia|] end.
    rewrite Ha'. cbn [defined bind]. pose proof (upd_len _ _ _ _ Ha') as Hlen.
    eexists. eexists. split; [reflexivity|]. unfold scratch_sizes. simpl. congruence.
  - cbn [bind]. eauto.
Qed.

Lemma fits_sizes n rest st st' :
  scratch_sizes st' = scratch_sizes st ->
  kappa_bf_fits G n rest st -> kappa_bf_fits G n rest st'.
Proof.
  unfold scratch_sizes, kappa_bf_fits. intros Hs (H1 & H2 & H3 & H4).
  injection Hs as E1 E2 E3 E4. rewrite E1, E2, E3, E4. auto.
Qed.

Lemma fits_tail n c rest st :
  kappa_bf_fits G n (c :: rest) st -> kappa_bf_fits G n rest st.
Proof.
  unfold kappa_bf_fits. intros (H1 & H2 & H3 & H4). repeat split; auto.
  all: intros; apply H4; auto; right; assumption.
Qed.

Lemma kappa_bf_loop_sized mgi nu rest : forall i s st,
  0 <= i -> kappa_bf_fits G (i + len rest) rest st ->
  kappa_bf_loop G mgi nu rest i s st <> Undefined /\
  forall i' s' st', kappa_bf_loop G mgi nu rest i s st = Ok (i', s', st') ->
    scratch_sizes st' = scratch_sizes st.
Proof.
  induction rest as [|c rest IH]; intros i s st Hi Hfits.
  - simpl. split; [discriminate|]. intros i' s' st' H. injection H as _ _ <-. reflexivity.
  - assert (Hlen : len (c :: rest) = len rest + 1)
      by (unfold len; simpl length; lia).
    assert (Hlen0 : 0 <= len rest) by (unfold len; lia).
    rewrite Hlen in Hfits.
    assert (Hskip : forall st1, scratch_sizes st1 = scratch_sizes st ->
              (st2 <- store_kappa_bf_sum G i s st1 ;;
               kappa_bf_loop G mgi nu rest (i + 1) s st2) <> Undefined /\
              forall i' s' st',
                (st2 <- store_kappa_bf_sum G i s st1 ;;
                 kappa_bf_loop G mgi nu rest (i + 1) s st2) = Ok (i', s', st') ->
                scratch_sizes st' = scratch_sizes st).
    { intros st1 Hs1.
      pose proof (fits_sizes _ _ _ _ Hs1 Hfits) as (F1 & F2 & _).
      destruct (store_kappa_bf_sum_sized i s st1) as (st2 & Hst2 & Hs2);
        [lia|intro Hd; specialize (F2 Hd); lia|].
      rewrite Hst2. cbn [bind].
      destruct (IH (i + 1) s st2) as [IH1 IH2]; [lia| |].
      { apply fits_tail with (c := c).
        replace (i + 1 + len rest) with (i + (len rest + 1)) by lia.
        apply fits_sizes with (st := st); [congruence|exact Hfits]. }
      split; [exact IH1|]. intros i' s' st' H. rewrite (IH2 _ _ _ H). congruence. }
    cbn [kappa_bf_loop].
    destruct (_ || _); [|apply Hskip; reflexivity].
    destruct (Qltb nu (phixs.nu_edge c)).
    { split; [discriminate|]. intros i' s' st' H. injection H as _ _ <-. reflexivity. }
    destruct (_ && _); [|apply Hskip; reflexivity].
    destruct Hfits as (F1 & F2 & F3 & F4).
    destruct (bf_corrfactor_sized mgi nu i c
                (get_levelpop G mgi (phixs.element c) (phixs.ion c) (phixs.level c)) st)
      as (corrfactor & st1 & Hcf & Hs1);
      [intro Hd; specialize (F3 Hd); lia|].
    rewrite Hcf. cbn [bind].
    injection Hs1 as E1 E2 E3 E4.
    (* the ground-level contribution *)
    match goal with |- context [bind ?e _] =>
      assert (Hground : exists st2, e = Ok st2 /\ scratch_sizes st2 = scratch_sizes st) end.
    { destruct (negb (NO_LUT_PHOTOION G) || negb (NO_LUT_BFHEATING G)) eqn:Elut.
      - destruct (phixs.level c =? 0) eqn:Elev.
        + apply Z.eqb_eq in Elev.
          specialize (F4 eq_refl c (or_introl eq_refl) Elev).
          destruct (idx_in_range (groundcont_gamma_contr st1)
                      (phixs.index_in_groundphixslist c)) as [old Hold]; [lia|].
          rewrite Hold. cbn [defined bind].
          match goal with |- context [upd ?a ?j ?v] =>
            destruct (upd_in_range a j v) as [a' Ha']; [lia|] end.
          rewrite Ha'. cbn [defined bind]. pose proof (upd_len _ _ _ _ Ha') as Hl.
          eexists. split; [reflexivity|]. unfold scratch_sizes. simpl. congruence.
        + exists st1. split; [reflexivity|]. unfold scratch_sizes. congruence.
      - exists st1. split; [reflexivity|]. unfold scratch_sizes. congruence. }
    destruct Hground as (st2 & Hst2 & Hs2). rewrite Hst2. cbn [bind].
    match goal with |- context [bind ?e _] =>
      assert (Hgamma : exists st3, e = Ok st3 /\ scratch_sizes st3 = scratch_sizes st) end.
    { destruct (DETAILED_BF_ESTIMATORS_ON G) eqn:Edet.
      - specialize (F2 eq_refl).
        assert (Hg2 : len (gamma_contr st2) = len (gamma_contr st))
          by (unfold scratch_sizes in Hs2; congruence).
        match goal with |- context [upd ?a ?j ?v] =>
          destruct (upd_in_range a j v) as [a' Ha']; [lia|] end.
        rewrite Ha'. cbn [defined bind]. pose proof (upd_len _ _ _ _ Ha') as Hl.
        eexists. split; [reflexivity|].
        unfold scratch_sizes in *. simpl. congruence.
      - exists st2. split; [reflexivity|exact Hs2]. }
    destruct Hgamma as (st3 & Hst3 & Hs3). rewrite Hst3. cbn [bind].
    destruct (negb (isfinite _)).
    { split; [discriminate|]. intros; discriminate. }
    assert (Hk3 : len (kappa_bf_sum st3) = len (kappa_bf_sum st))
      by (unfold scratch_sizes in Hs3; congruence).
    match goal with |- context [upd ?a ?j ?v] =>
      destruct (upd_in_range a j v) as [a' Ha']; [lia|] end.
    rewrite Ha'. cbn [defined bind]. pose proof (upd_len _ _ _ _ Ha') as Hl.
    assert (Hs4 : scratch_sizes (set_kappa_bf_sum a' st3) = scratch_sizes st).
    { unfold scratch_sizes in *. simpl. congruence. }
    destruct (IH (i + 1) (s + get_levelpop G mgi (phixs.element c) (phixs.ion c)
                                 (phixs.level c)
                             * photoionization_crosssection_fromtable G
                                 (phixs.photoion_xs c) (phixs.nu_edge c) nu
                             * phixs.probability c * corrfactor)%Q
                (set_kappa_bf_sum a' st3)) as [IH1 IH2]; [lia| |].
    { apply fits_tail with (c := c).
      replace (i + 1 + len rest) with (i + (len rest + 1)) by lia.
      apply fits_sizes with (st := st); [exact Hs4|].
      unfold kappa_bf_fits. auto. }
    split; [exact IH1|]. intros i' s' st' H. rewrite (IH2 _ _ _ H). exact Hs4.
Qed.

Lemma kappa_bf_fill_sized n : forall i s st,
  0 <= i -> i + Z.of_nat n <= len (kappa_bf_sum st) ->
  (DETAILED_BF_ESTIMATORS_ON G = true -> i + Z.of_nat n <= len (gamma_contr st)) ->
  exists st', kappa_bf_fill G n i s st = Ok st' /\ scratch_sizes st' = scratch_sizes st.
Proof.
  induction n as [|n IH]; intros i s st Hi Hk Hg; simpl.
  - eauto.
  - destruct (store_kappa_bf_sum_sized i s st) as (st1 & Hst1 & Hs1);
      [lia|intro Hd; specialize (Hg Hd); lia|].
    rewrite Hst1. cbn [bind].
    injection Hs1 as E1 E2 E3 E4.
    destruct (IH (i + 1) s st1) as (st' & Hst' & Hs'); [lia|lia| |].
    { intro Hd. specialize (Hg Hd). lia. }
    exists st'. split; [exact Hst'|]. rewrite Hs'. unfold scratch_sizes. congruence.
Qed.

Lemma calculate_kappa_bf_gammacontr_sized mgi nu st :
  scratch_sized G st ->
  calculate_kappa_bf_gammacontr G mgi nu st <> Undefined /\
  forall kappa_bf st', calculate_kappa_bf_gammacontr G mgi nu st = Ok (kappa_bf, st') ->
    scratch_sizes st' = scratch_sizes st.
Proof.
  intros (S1 & S2 & S3 & S4). unfold calculate_kappa_bf_gammacontr.
  match goal with |- context [bind ?e _] =>
    assert (Hzero : exists st1, e = Ok st1 /\ scratch_sizes st1 = scratch_sizes st) end.
  { destruct (negb (NO_LUT_PHOTOION G) || negb (NO_LUT_BFHEATING G)).
    - destruct (S4 eq_refl) as [Hn _].
      destruct (zero_groundcont_sized (Z.to_nat (nbfcontinua_ground G)) 0
                  (groundcont_gamma_contr st)) as (g & Hg & Hl); [lia|unfold len in *; lia|].
      rewrite Hg. cbn [bind]. eexists. split; [reflexivity|].
      unfold scratch_sizes. simpl. congruence.
    - eauto. }
  destruct Hzero as (st1 & Hst1 & Hs1). rewrite Hst1. cbn [bind].
  assert (Hfits : kappa_bf_fits G (0 + len (allcont G)) (allcont G) st1).
  { apply fits_sizes with (st := st); [exact Hs1|].
    unfold kappa_bf_fits, nbfcontinua in *. split; [lia|]. split; [|split].
    - intro Hd. rewrite (S2 Hd). lia.
    - intro Hd. rewrite (S3 Hd). lia.
    - intros Hlut c Hc Hlev. apply (S4 Hlut); assumption. }
  destruct (kappa_bf_loop_sized mgi nu (allcont G) 0 0%Q st1 ltac:(lia) Hfits) as [Hl1 Hl2].
  destruct (kappa_bf_loop G mgi nu (allcont G) 0 0%Q st1)
    as [[[i s] st2]| | |] eqn:Hloop; cbn [bind];
    try (split; [discriminate|intros; discriminate]).
  2:{ contradiction. }
  pose proof (Hl2 _ _ _ eq_refl) as Hs2.
  apply (kappa_bf_loop_cumulative G false) in Hloop as (_ & Hrange & _); [|discriminate|lia|].
  2:{ split; [unfold len; lia|]. split; [lia|discriminate]. }
  assert (Hk2 : len (kappa_bf_sum st2) = nbfcontinua G)
    by (unfold scratch_sizes in *; congruence).
  destruct (kappa_bf_fill_sized (Z.to_nat (nbfcontinua G - i)) i s st2) as (st3 & Hst3 & Hs3);
    [lia|unfold nbfcontinua in *; lia| |].
  { intro Hd. rewrite <- (S2 Hd). unfold scratch_sizes in *.
    replace (len (gamma_contr st2)) with (len (gamma_contr st)) by congruence.
    unfold nbfcontinua in *. rewrite (S2 Hd). lia. }
  rewrite Hst3. cbn [bind]. split; [discriminate|].
  intros kappa_bf st' H. injection H as _ <-. congruence.
Qed.

End KappaBfBounds.

Section KernelBounds.

Variable G : globals.

Lemma scratch_sized_sizes st st' :
  scratch_sizes st' = scratch_sizes st -> scratch_sized G st -> scratch_sized G st'.
Proof.
  unfold scratch_sizes, scratch_sized. intros Hs (S1 & S2 & S3 & S4).
  injection Hs as E1 E2 E3 E4. rewrite E1, E2, E3, E4. auto.
Qed.

Lemma calculate_kappa_ff_defined mgi nu : calculate_kappa_ff G mgi nu <> Undefined.
Proof.
  unfold calculate_kappa_ff. intro H. undef_step H. destruct (negb (isfinite _)) in H; discriminate.
Qed.

Lemma recalculate_kappa_rpkt_cont_sized mgi nu_cmf st :
  scratch_sized G st ->
  recalculate_kappa_rpkt_cont G mgi nu_cmf st <> Undefined /\
  forall st', recalculate_kappa_rpkt_cont G mgi nu_cmf st = Ok st' ->
    scratch_sizes st' = scratch_sizes st.
Proof.
  intro Hsz. unfold recalculate_kappa_rpkt_cont.
  match goal with |- context [bind ?e _] =>
    assert (He : e <> Undefined /\
                 forall sigma kappa_ff kappa_bf kappa_ffheating st1,
                   e = Ok (sigma, kappa_ff, kappa_bf, kappa_ffheating, st1) ->
                   scratch_sizes st1 = scratch_sizes st);
    [|destruct e as [[[[[sigma kappa_ff] kappa_bf] kappa_ffheating] st1]| | |]] end.
  { destruct (do_r_lc G); [|split; [discriminate|intros ? ? ? ? ? H; injection H as _ _ _ _ <-; reflexivity]].
    destruct (opacity_case G =? 4).
    - pose proof (calculate_kappa_ff_defined mgi nu_cmf) as Hff.
      destruct (calculate_kappa_ff G mgi nu_cmf) as [kff| | |]; cbn [bind];
        try (split; [discriminate|intros; discriminate]); [|contradiction].
      destruct (calculate_kappa_bf_gammacontr_sized G mgi nu_cmf st Hsz) as [Hbf Hbfs].
      destruct (calculate_kappa_bf_gammacontr G mgi nu_cmf st) as [[kbf st1]| | |];
        cbn [bind]; try (split; [discriminate|intros; discriminate]); [|contradiction].
      split; [discriminate|]. intros ? ? ? ? ? H. injection H as _ _ _ _ <-.
      apply (Hbfs kbf st1 eq_refl).
    - pose proof (calculate_kappa_ff_defined mgi nu_cmf) as Hff.
      destruct (calculate_kappa_ff G mgi nu_cmf) as [kff| | |]; cbn [bind];
        try (split; [discriminate|intros; discriminate]); [|contradiction].
      split; [discriminate|]. intros ? ? ? ? ? H. injection H as _ _ _ _ <-. reflexivity. }
  - destruct He as [_ Hs]. specialize (Hs _ _ _ _ _ eq_refl). cbn [bind].
    destruct (negb (isfinite _)); [destruct (isfinite _)|];
      (split; [discriminate|]); intros st' H; try discriminate;
      injection H as <-; unfold scratch_sizes in *; simpl; exact Hs.
  - cbn [bind]. split; [discriminate|intros; discriminate].
  - destruct He as [He _]. contradiction.
  - cbn [bind]. split; [discriminate|intros; discriminate].
Qed.

Lemma calculate_kappa_rpkt_cont_sized pkt st :
  scratch_sized G st ->
  calculate_kappa_rpkt_cont G pkt st <> Undefined /\
  forall st', calculate_kappa_rpkt_cont G pkt st = Ok st' -> scratch_sizes st' = scratch_sizes st.
Proof.
  intro Hsz. unfold calculate_kappa_rpkt_cont.
  destruct (negb (_ =? _)); cbn [assert_always bind];
    [|split; [discriminate|intros; discriminate]].
  destruct (negb (_ =? _)); cbn [assert_always bind];
    [|split; [discriminate|intros; discriminate]].
  destruct (kappa_cache_hit _ _ _).
  - split; [discriminate|]. intros st' H. injection H as <-. reflexivity.
  - apply recalculate_kappa_rpkt_cont_sized. exact Hsz.
Qed.

End KernelBounds.

Lemma demo_scratch_sized u : scratch_sized (demo_globals u) demo_state.
Proof.
  unfold scratch_sized. split; [reflexivity|]. split; [discriminate|].
  split; [reflexivity|]. intros _. split; [vm_compute; discriminate|].
  intros c [<-|[<-|[]]] _; vm_compute; split; congruence.
Qed.

(** X5. The opacity kernel stays inside its scratch arrays.  When the
    per-thread scratch arrays have the sizes that the code takes them to
    have, [calculate_kappa_bf_gammacontr] and with it
    [calculate_kappa_rpkt_cont] read and write them only inside their
    bounds, and they leave every array with the length it had, so the same
    holds for every later call. *)
Theorem opacity_kernel_in_bounds G mgi nu pkt st :
  scratch_sized G st ->
  calculate_kappa_bf_gammacontr G mgi nu st <> Undefined /\
  (forall kappa_bf st', calculate_kappa_bf_gammacontr G mgi nu st = Ok (kappa_bf, st') ->
     scratch_sizes st' = scratch_sizes st /\ scratch_sized G st') /\
  calculate_kappa_rpkt_cont G pkt st <> Undefined /\
  (forall st', calculate_kappa_rpkt_cont G pkt st = Ok st' ->
     scratch_sizes st' = scratch_sizes st /\ scratch_sized G st').
Proof.
  intro Hsz.
  destruct (calculate_kappa_bf_gammacontr_sized G mgi nu st Hsz) as [Hb1 Hb2].
  destruct (calculate_kappa_rpkt_cont_sized G pkt st Hsz) as [Hk1 Hk2].
  split; [exact Hb1|]. split; [|split; [exact Hk1|]].
  - intros kappa_bf st' H. pose proof (Hb2 _ _ H) as Hs.
    split; [exact Hs|]. apply (scratch_sized_sizes G st st' Hs Hsz).
  - intros st' H. pose proof (Hk2 _ H) as Hs.
    split; [exact Hs|]. apply (scratch_sized_sizes G st st' Hs Hsz).
Qed.

Lemma opacity_kernel_in_bounds_witness :
  calculate_kappa_rpkt_cont (demo_globals (fun _ => 1 # 2)) (demo_packet 0 10 0) demo_state
  <> Undefined.
Proof.
  destruct (opacity_kernel_in_bounds (demo_globals (fun _ => 1 # 2)) 0 9 (demo_packet 0 10 0)
              demo_state (demo_scratch_sized _)) as (_ & _ & H & _).
  exact H.
Defined.

(** ** Below every photoionisation edge *)

Section BelowEdges.

Variable G : globals.

Lemma store_kappa_bf_sum_prefix i s st st' :
  0 <= i ->
  (forall j, 0 <= j < i -> idx (kappa_bf_sum st) j = Some s) ->
  store_kappa_bf_sum G i s st = Ok st' ->
  forall j, 0 <= j < i + 1 -> idx (kappa_bf_sum st') j = Some s.
Proof.
  intros Hi Hpre H j Hj. apply store_kappa_bf_sum_spec in H as (Hupd & _).
  destruct (Z.eq_dec j i) as [->|Hne].
  - apply (upd_idx_same _ _ _ _ Hupd).
  - rewrite (upd_idx_other _ _ _ _ _ Hupd Hne). apply Hpre. lia.
Qed.

Lemma kappa_bf_loop_below_edges mgi nu rest : forall i s st i' s' st',
  (forall c, In c rest -> (nu < phixs.nu_edge c)%Q) ->
  0 <= i ->
  (forall j, 0 <= j < i -> idx (kappa_bf_sum st) j = Some s) ->
  kappa_bf_loop G mgi nu rest i s st = Ok (i', s', st') ->
  s' = s /\ i <= i' /\ forall j, 0 <= j < i' -> idx (kappa_bf_sum st') j = Some s.
Proof.
  induction rest as [|c rest IH]; intros i s st i' s' st' Hbelow Hi Hpre H.
  - simpl in H. injection H as <- <- <-. split; [reflexivity|]. split; [lia|exact Hpre].
  - assert (Hskip : forall r,
              (st2 <- store_kappa_bf_sum G i s st ;;
               kappa_bf_loop G mgi nu rest (i + 1) s st2) = Ok r ->
              r = (i', s', st') ->
              s' = s /\ i <= i' /\
              forall j, 0 <= j < i' -> idx (kappa_bf_sum st') j = Some s).
    { intros r Hr ->. bind_inv_as Hr st2 Hst2.
      apply IH in Hr as (Hs & Hi' & Hall); [|intros; apply Hbelow; right; assumption|lia|].
      - split; [exact Hs|]. split; [lia|exact Hall].
      - apply (store_kappa_bf_sum_prefix i s st st2 Hi Hpre Hst2). }
    cbn [kappa_bf_loop] in H.
    match type of H with (if ?b then _ else _) = _ => destruct b end;
      [|eapply Hskip; eauto].
    replace (Qltb nu (phixs.nu_edge c)) with true in H
      by (symmetry; apply Qltb_lt; apply Hbelow; left; reflexivity).
    injection H as <- <- <-. split; [reflexivity|]. split; [lia|exact Hpre].
Qed.

Lemma kappa_bf_fill_prefix n : forall i s st st',
  0 <= i ->
  (forall j, 0 <= j < i -> idx (kappa_bf_sum st) j = Some s) ->
  kappa_bf_fill G n i s st = Ok st' ->
  forall j, 0 <= j < i + Z.of_nat n -> idx (kappa_bf_sum st') j = Some s.
Proof.
  induction n as [|n IH]; intros i s st st' Hi Hpre H j Hj; simpl in H.
  - injection H as <-. apply Hpre. lia.
  - bind_inv_as H st1 Hst1.
    apply (IH (i + 1) s st1 st'); [lia| |exact H|lia].
    apply (store_kappa_bf_sum_prefix i s st st1 Hi Hpre Hst1).
Qed.

End BelowEdges.

(** X6. A photon below every photoionisation edge sees no bound-free
    opacity: [calculate_kappa_bf_gammacontr] returns exactly 0 and leaves 0
    in every entry of [kappa_bf_sum], whichever continua pass the selection
    test. *)
Theorem no_bound_free_below_edges G mgi nu st kappa_bf st' :
  (forall c, In c (allcont G) -> (nu < phixs.nu_edge c)%Q) ->
  calculate_kappa_bf_gammacontr G mgi nu st = Ok (kappa_bf, st') ->
  kappa_bf = 0%Q /\
  forall j, 0 <= j < nbfcontinua G -> idx (kappa_bf_sum st') j = Some 0%Q.
Proof.
  intros Hbelow H. unfold calculate_kappa_bf_gammacontr in H.
  bind_inv_as H st0 Hst0. bind_inv_as H r Hloop. destruct r as [[i s] st1].
  bind_inv_as H st2 Hfill. injection H as <- <-.
  apply kappa_bf_loop_below_edges in Hloop as (-> & Hi & Hpre);
    [|exact Hbelow|lia|intros; lia].
  split; [reflexivity|]. intros j Hj.
  apply (kappa_bf_fill_prefix G _ i 0%Q st1 st2 Hi Hpre Hfill). lia.
Qed.

Lemma no_bound_free_below_edges_witness :
  exists st',
    calculate_kappa_bf_gammacontr (demo_globals (fun _ => 1 # 2)) 0 1 demo_state
    = Ok (0%Q, st') /\
    idx (kappa_bf_sum st') 1 = Some 0%Q.
Proof.
  destruct (calculate_kappa_bf_gammacontr (demo_globals (fun _ => 1 # 2)) 0 1 demo_state)
    as [[kappa_bf st']| | |] eqn:E; try (vm_compute in E; discriminate).
  destruct (no_bound_free_below_edges (demo_globals (fun _ => 1 # 2)) 0 1 demo_state
              kappa_bf st') as [-> Hall].
  - intros c [<-|[<-|[]]]; reflexivity.
  - exact E.
  - exists st'. split; [reflexivity|]. apply Hall. split; [lia|reflexivity].
Defined.

(** ** The opacity cache after a calculation *)

(** X7. After [calculate_kappa_rpkt_cont] has recalculated, the cached total
    is finite and is the sum of the cached parts, also when the sum of the
    computed parts was not finite and the code fell back on electron
    scattering alone; the cache is stored under the packet's cell and
    frequency and no longer asks for a recalculation; and unless the opacity
    case is 4 (with [do_r_lc] on) there is no electron scattering and no
    bound-free part in it. *)
Theorem opacity_cache_after_recalculation G pkt st st' :
  calculate_kappa_rpkt_cont G pkt st = Ok st' ->
  kappa_cache_hit (get_cell_modelgridindex G (where_ pkt)) (nu_cmf pkt) (kappa_rpkt_cont st)
  = false ->
  let c := kappa_rpkt_cont st' in
  isfinite (kappa.total c) = true /\
  (kappa.total c == kappa.es c + kappa.bf c + kappa.ff c)%Q /\
  kappa.modelgridindex c = get_cell_modelgridindex G (where_ pkt) /\
  kappa.nu c = nu_cmf pkt /\
  kappa.recalculate_required c = false /\
  (do_r_lc G && (opacity_case G =? 4) = false -> kappa.es c = 0%Q /\ kappa.bf c = 0%Q).
Proof.
  intros H Hmiss c. subst c. unfold calculate_kappa_rpkt_cont in H.
  bind_inv H. bind_inv H. rewrite Hmiss in H.
  unfold recalculate_kappa_rpkt_cont in H.
  bind_inv_as H r Hr. destruct r as [[[[sigma kappa_ff] kappa_bf] kappa_ffheating] st1].
  assert (Hcase : do_r_lc G && (opacity_case G =? 4) = false ->
                  sigma = 0%Q /\ kappa_bf = 0%Q).
  { intro Hc. destruct (do_r_lc G); [|injection Hr as <- _ <- _ _; auto].
    destruct (opacity_case G =? 4); [discriminate|].
    bind_inv Hr. injection Hr as <- _ <- _ _. auto. }
  cbn [kappa.total kappa.es kappa.ff kappa.bf kappa.nu kappa.modelgridindex
       kappa.recalculate_required kappa.ffheating] in H.
  destruct (isfinite (sigma + kappa_bf + kappa_ff)) eqn:Efin; cbn [negb] in H.
  - injection H as <-. cbn. split; [exact Efin|]. split; [ring|].
    repeat split; try reflexivity; apply Hcase; assumption.
  - destruct (isfinite sigma) eqn:Ees; [|discriminate].
    injection H as <-. cbn. split; [exact Ees|]. split; [ring|].
    split; [reflexivity|]. split; [reflexivity|]. split; [reflexivity|].
    intro Hc. split; [apply Hcase; assumption|reflexivity].
Qed.

Lemma opacity_cache_after_recalculation_witness :
  exists st',
    calculate_kappa_rpkt_cont (demo_globals (fun _ => 1 # 2)) (demo_packet 0 10 0) demo_state
    = Ok st' /\
    isfinite (kappa.total (kappa_rpkt_cont st')) = true /\
    kappa.nu (kappa_rpkt_cont st') = nu_cmf (demo_packet 0 10 0).
Proof.
  destruct (calculate_kappa_rpkt_cont (demo_globals (fun _ => 1 # 2)) (demo_packet 0 10 0)
              demo_state) as [st'| | |] eqn:E; try (vm_compute in E; discriminate).
  exists st'. split; [reflexivity|].
  destruct (opacity_cache_after_recalculation (demo_globals (fun _ => 1 # 2))
              (demo_packet 0 10 0) demo_state st' E eq_refl) as (Hfin & _ & _ & Hnu & _).
  split; [exact Hfin|exact Hnu].
Defined.

(** X8. The errors of [calculate_kappa_rpkt_cont].  Its two assertions come
    before the test of the cache, so a packet in an empty cell, or else in a
    thick cell, stops the program even when the cached values would match;
    and in an ordinary cell a recalculation for a packet whose comoving
    frequency is not positive stops in [calculate_kappa_ff], whatever the
    opacity case, as long as [do_r_lc] is on. *)
Theorem opacity_kernel_errors G pkt st :
  let mgi := get_cell_modelgridindex G (where_ pkt) in
  (mgi = get_npts_model G ->
   calculate_kappa_rpkt_cont G pkt st = Fatal Assert_not_empty_cell) /\
  (mgi <> get_npts_model G -> thick G mgi = 1 ->
   calculate_kappa_rpkt_cont G pkt st = Fatal Assert_not_thick_cell) /\
  (mgi <> get_npts_model G -> thick G mgi <> 1 ->
   kappa_cache_hit mgi (nu_cmf pkt) (kappa_rpkt_cont st) = false ->
   do_r_lc G = true -> (nu_cmf pkt <= 0)%Q ->
   calculate_kappa_rpkt_cont G pkt st = Fatal Assert_nu_positive).
Proof.
  intro mgi. subst mgi. unfold calculate_kappa_rpkt_cont. split; [|split].
  - intros ->. rewrite Z.eqb_refl. reflexivity.
  - intros Hne Hthick.
    replace (get_cell_modelgridindex G (where_ pkt) =? get_npts_model G) with false
      by (symmetry; apply Z.eqb_neq; exact Hne).
    rewrite Hthick. reflexivity.
  - intros Hne Hthick Hmiss Hlc Hnu.
    replace (get_cell_modelgridindex G (where_ pkt) =? get_npts_model G) with false
      by (symmetry; apply Z.eqb_neq; exact Hne).
    replace (thick G (get_cell_modelgridindex G (where_ pkt)) =? 1) with false
      by (symmetry; apply Z.eqb_neq; exact Hthick).
    cbn [negb assert_always bind]. rewrite Hmiss.
    unfold recalculate_kappa_rpkt_cont. rewrite Hlc.
    assert (Hff : calculate_kappa_ff G (get_cell_modelgridindex G (where_ pkt)) (nu_cmf pkt)
                  = Fatal Assert_nu_positive).
    { unfold calculate_kappa_ff.
      replace (Qgtb (nu_cmf pkt) 0) with false
        by (symmetry; apply Qltb_ge; exact Hnu).
      reflexivity. }
    rewrite Hff. destruct (opacity_case G =? 4); reflexivity.
Qed.

Lemma opacity_kernel_errors_witness :
  calculate_kappa_rpkt_cont (demo_globals (fun _ => 1 # 2)) (demo_packet 3 10 0) demo_state
  = Fatal Assert_not_empty_cell /\
  calculate_kappa_rpkt_cont (demo_globals (fun _ => 1 # 2)) (demo_packet 2 10 0) demo_state
  = Fatal Assert_not_thick_cell /\
  calculate_kappa_rpkt_cont (demo_globals (fun _ => 1 # 2)) (demo_packet 0 (-1) 0) demo_state
  = Fatal Assert_nu_positive.
Proof.
  split; [|split].
  - apply (opacity_kernel_errors (demo_globals (fun _ => 1 # 2)) (demo_packet 3 10 0)
             demo_state). reflexivity.
  - apply (opacity_kernel_errors (demo_globals (fun _ => 1 # 2)) (demo_packet 2 10 0)
             demo_state); [vm_compute; discriminate|reflexivity].
  - apply (opacity_kernel_errors (demo_globals (fun _ => 1 # 2)) (demo_packet 0 (-1) 0)
             demo_state); try reflexivity; vm_compute; discriminate.
Defined.

(** ** What [get_event] hands back *)

Lemma set_mastate_same (p : packet Q) : set_mastate (mastate p) p = p.
Proof. destruct p. reflexivity. Qed.

Section GetEventReturn.

Variable G : globals.
Variables (mgi : Z) (pkt : packet Q) (ety : Z).
Variables (tau_rnd abort_dist nu_cmf_abort kap_cont : Q).

Let body := get_event_body G mgi pkt ety tau_rnd abort_dist nu_cmf_abort kap_cont.

(** The distance to the line, after the test [ldist < 0.], is not negative. *)
Lemma clamped_ldist_nonneg ld ldist :
  (if Qltb ld 0 then _ <- assert_always (Qgeb ld (-100)) Assert_ldist ;; Ok 0%Q
   else Ok ld) = Ok ldist ->
  (0 <= ldist)%Q.
Proof.
  destruct (Qltb ld 0) eqn:E; intro H.
  - bind_inv H. injection H as <-. apply Qle_refl.
  - injection H as <-. apply Qltb_ge in E. exact E.
Qed.

(** The four ways in which an iteration returns. *)
Lemma get_event_body_Return_cases s r :
  body s = Ok (Return r) ->
  exists i,
    examined_line G s = Some i /\
    ((i < 0 /\
      ev_pkt r = set_next_trans (nlines (linelist G) + 1) pkt /\
      ((ev_edist r = DBL_MAX /\ ev_eventtype r = ety) \/
       (ev_edist r = (dist s + (tau_rnd - tau s) / kap_cont)%Q /\
        ev_eventtype r = RPKT_EVENTTYPE_CONT /\
        (tau_rnd - tau s <= kap_cont * (abort_dist - dist s))%Q))) \/
     (0 <= i /\
      exists line ldist,
        idx (linelist G) i = Some line /\ (0 <= ldist)%Q /\
        ((ev_edist r = DBL_MAX /\ ev_eventtype r = ety /\ ev_pkt r = set_next_trans i pkt) \/
         (ev_eventtype r = RPKT_EVENTTYPE_BB /\
          ev_pkt r = set_next_trans (i + 1)
                       (set_mastate (mk_mastate (elementindex line) (ionindex line)
                                       (upperlevelindex line) i) pkt) /\
          ((ev_edist r = (dist s + ldist)%Q /\ (dist s + ldist < abort_dist)%Q) \/
           (ev_edist r = (abort_dist * (1 - (2 # 100000000)))%Q /\
            (abort_dist <= dist s + ldist)%Q))) \/
         (ev_eventtype r = RPKT_EVENTTYPE_CONT /\ ev_pkt r = set_next_trans i pkt /\
          ev_edist r = (dist s + (tau_rnd - tau s) / kap_cont)%Q /\
          (tau_rnd - tau s <= kap_cont * ldist)%Q)))).
Proof.
  unfold body, get_event_body, examined_line. intro H.
  bind_inv H. apply defined_Ok in Ha. rename a into i.
  exists i. split; [exact Ha|].
  destruct (Z.geb_spec i 0) as [Hi|Hi].
  2:{ left. split; [lia|]. cbn [next_trans set_next_trans] in H.
      destruct (Qgtb (tau_rnd - tau s) (kap_cont * (abort_dist - dist s))) eqn:E;
        injection H as <-; cbn.
      - split; [reflexivity|]. left. split; reflexivity.
      - split; [reflexivity|]. right. split; [reflexivity|]. split; [reflexivity|].
        apply Qltb_ge in E. exact E. }
  right. split; [lia|].
  bind_inv H. apply defined_Ok in Ha0. rename a into line.
  bind_inv H. rename a into ldist. apply clamped_ldist_nonneg in Ha1.
  exists line, ldist. split; [exact Ha0|]. split; [exact Ha1|].
  destruct (Qgtb (tau_rnd - tau s) (kap_cont * ldist)) eqn:Etau.
  - destruct (Qltb (nu line) nu_cmf_abort).
    + injection H as <-. cbn. left. split; [reflexivity|]. split; [reflexivity|].
      replace (i + 1 - 1) with i by lia. reflexivity.
    + destruct (Qgtb _ _) in H; [discriminate|].
      right. left.
      destruct (Qgeb (dist s + ldist) abort_dist) eqn:Eab;
        destruct (DETAILED_LINE_ESTIMATORS_ON G); injection H as <-; cbn;
        rewrite ?move_pkt_withtime_next_trans; cbn;
        (split; [reflexivity|]); (split; [reflexivity|]).
      * right. split; [reflexivity|]. apply Qle_bool_iff in Eab. exact Eab.
      * right. split; [reflexivity|]. apply Qle_bool_iff in Eab. exact Eab.
      * left. split; [reflexivity|]. apply Qle_bool_gt in Eab. exact Eab.
      * left. split; [reflexivity|]. apply Qle_bool_gt in Eab. exact Eab.
  - injection H as <-. cbn. right. right. split; [reflexivity|].
    replace (i + 1 - 1) with i by lia. split; [reflexivity|]. split; [reflexivity|].
    apply Qltb_ge in Etau. exact Etau.
Qed.

(** An iteration that goes round again has moved on by a distance that is
    not negative and has stayed below the optical depth drawn. *)
Lemma get_event_body_Continue_progress s s' :
  body s = Ok (Continue s') ->
  (dist s <= dist s')%Q /\ (tau s' < tau_rnd)%Q.
Proof.
  unfold body, get_event_body. intro H.
  bind_inv H. rename a into i.
  destruct (i >=? 0).
  2:{ cbn [next_trans set_next_trans] in H. destruct (Qgtb _ _) in H; discriminate. }
  bind_inv H. rename a into line.
  bind_inv H. rename a into ldist. apply clamped_ldist_nonneg in Ha1.
  destruct (Qgtb (tau_rnd - tau s) (kap_cont * ldist)); [|discriminate].
  destruct (Qltb (nu line) nu_cmf_abort); [discriminate|].
  destruct (Qgtb _ _) eqn:E in H.
  - injection H as <-. cbn. apply Qltb_lt in E. split; lra.
  - destruct (DETAILED_LINE_ESTIMATORS_ON G); discriminate.
Qed.

Lemma loops_to_progress s s' :
  loops_to body s s' -> (dist s <= dist s')%Q /\ (tau s' < tau_rnd)%Q.
Proof.
  induction 1 as [s s' H|s s' s'' H _ IH].
  - apply get_event_body_Continue_progress. exact H.
  - apply get_event_body_Continue_progress in H. destruct H, IH. split; [lra|assumption].
Qed.

End GetEventReturn.

(** X9. [get_event] works on a shadow copy: of the caller's packet it
    changes [next_trans] and, for a bound-bound event only, [mastate].  When
    it reports a bound-bound event, [next_trans - 1] is the index of a line,
    [mastate] holds that line's element, ion and upper level with the line
    itself as activating line, and the distance returned is below the abort
    distance (taken to be positive). *)
Theorem get_event_packet_frame G mgi pkt ety tau_rnd abort_dist st r :
  get_event G mgi pkt ety tau_rnd abort_dist st = Ok r ->
  ev_pkt r = set_next_trans (next_trans (ev_pkt r)) (set_mastate (mastate (ev_pkt r)) pkt) /\
  (ev_eventtype r <> RPKT_EVENTTYPE_BB -> mastate (ev_pkt r) = mastate pkt) /\
  (ety <> RPKT_EVENTTYPE_BB -> ev_eventtype r = RPKT_EVENTTYPE_BB ->
   exists line,
     idx (linelist G) (next_trans (ev_pkt r) - 1) = Some line /\
     mastate (ev_pkt r) = mk_mastate (elementindex line) (ionindex line)
                            (upperlevelindex line) (next_trans (ev_pkt r) - 1) /\
     ((0 < abort_dist)%Q -> (ev_edist r < abort_dist)%Q)).
Proof.
  intro H. apply get_event_Ok in H as (st1 & s_last & _ & _ & Hret).
  apply get_event_body_Return_cases in Hret as (i & _ & Hcases).
  assert (Hplain : forall x, ev_pkt r = set_next_trans x pkt ->
            ev_pkt r = set_next_trans (next_trans (ev_pkt r))
                         (set_mastate (mastate (ev_pkt r)) pkt) /\
            mastate (ev_pkt r) = mastate pkt).
  { intros x ->. cbn [next_trans mastate set_next_trans].
    rewrite set_mastate_same. split; reflexivity. }
  destruct Hcases as [(Hi & Hp & Hcase) | (Hi & line & ldist & Hline & Hld & Hcase)].
  - destruct (Hplain _ Hp) as [Hf Hm]. split; [exact Hf|]. split; [intros _; exact Hm|].
    intros Hety Hbb. exfalso.
    destruct Hcase as [[_ He]|(_ & He & _)]; [congruence|].
    rewrite He in Hbb. discriminate.
  - destruct Hcase as [(_ & He & Hp) | [(He & Hp & Hd) | (He & Hp & _)]].
    + destruct (Hplain _ Hp) as [Hf Hm]. split; [exact Hf|]. split; [intros _; exact Hm|].
      intros Hety Hbb. congruence.
    + split; [rewrite Hp; reflexivity|]. split; [intro Hn; contradiction|].
      intros _ _. exists line. rewrite Hp. cbn [next_trans mastate set_next_trans set_mastate].
      replace (i + 1 - 1) with i by lia.
      split; [exact Hline|]. split; [reflexivity|]. intro Hpos.
      destruct Hd as [[-> Hlt]|[-> _]]; [exact Hlt|].
      assert (1 - (2 # 100000000) < 1)%Q by reflexivity. nra.
    + destruct (Hplain _ Hp) as [Hf Hm]. split; [exact Hf|]. split; [intros _; exact Hm|].
      intros _ Hbb. rewrite He in Hbb. discriminate.
Qed.

Lemma get_event_packet_frame_witness :
  exists r,
    get_event (demo_globals (fun _ => 1 # 2)) 0 (demo_packet 0 10 0) (-1) 3 100 demo_state
    = Ok r /\
    ev_pkt r = set_next_trans (next_trans (ev_pkt r))
                 (set_mastate (mastate (ev_pkt r)) (demo_packet 0 10 0)).
Proof.
  destruct (get_event (demo_globals (fun _ => 1 # 2)) 0 (demo_packet 0 10 0) (-1) 3 100
              demo_state) as [r| | |] eqn:E; try (vm_compute in E; discriminate).
  exists r. split; [reflexivity|].
  apply (get_event_packet_frame (demo_globals (fun _ => 1 # 2)) 0 (demo_packet 0 10 0)
           (-1) 3 100 demo_state r E).
Defined.

(** X10. The distance that [get_event] returns is not negative, so the
    assertion [edist >= 0] of [do_rpkt_step] holds after it: for an optical
    depth [tau_rnd >= 0], an abort distance [>= 0] and a positive continuum
    opacity [kap_cont].  And whenever [get_event] returns without having
    set the event type to bound-bound or continuum, the distance it returns
    is the largest double: a finite distance always comes with its event
    type. *)
Theorem get_event_distance_nonnegative G mgi pkt ety tau_rnd abort_dist st r :
  get_event G mgi pkt ety tau_rnd abort_dist st = Ok r ->
  (ev_eventtype r <> RPKT_EVENTTYPE_BB -> ev_eventtype r <> RPKT_EVENTTYPE_CONT ->
   ev_edist r = DBL_MAX) /\
  ((0 <= tau_rnd)%Q -> (0 <= abort_dist)%Q ->
   (forall st1, calculate_kappa_rpkt_cont G pkt st = Ok st1 ->
      (0 < get_event_kap_cont G pkt st1)%Q) ->
   (0 <= ev_edist r)%Q).
Proof.
  intro H.
  apply get_event_Ok in H as (st1 & s_last & Hk & Hreach & Hret).
  apply get_event_body_Return_cases in Hret as (i & Hex & Hcases).
  split.
  - intros Hbb Hcont.
    destruct Hcases as [(_ & _ & [[He _]|(_ & He & _)])
                       | (_ & line & ldist & _ & _ &
                          [(He & _) | [(He & _) | (He & _)]])];
      congruence.
  - intros Htau Habort Hkap. specialize (Hkap st1 Hk).
    set (kap := get_event_kap_cont G pkt st1) in *.
    assert (Hinv : (0 <= dist s_last)%Q /\ (tau s_last <= tau_rnd)%Q).
    { destruct Hreach as [->|Hloops].
      - cbn. split; [apply Qle_refl|exact Htau].
      - apply loops_to_progress in Hloops. cbn in Hloops. destruct Hloops. split; lra. }
    destruct Hinv as [Hdist Htaus].
    assert (Hdiv : (0 <= (tau_rnd - tau s_last) / kap)%Q).
    { apply Qle_shift_div_l; [exact Hkap|]. lra. }
    assert (Hmax : (0 <= DBL_MAX)%Q) by (vm_compute; discriminate).
    destruct Hcases as [(Hi & Hp & Hcase) | (Hi & line & ldist & Hline & Hld & Hcase)].
    + destruct Hcase as [[-> _]|(-> & _ & _)]; [exact Hmax|lra].
    + destruct Hcase as [(-> & _) | [(_ & _ & [[-> _]|[-> _]]) | (_ & _ & -> & _)]];
        [exact Hmax|lra| |lra].
      assert (0 <= 1 - (2 # 100000000))%Q by (vm_compute; discriminate). nra.
Qed.

Lemma get_event_distance_nonnegative_witness :
  exists r,
    get_event (demo_globals (fun _ => 1 # 2)) 0 (demo_packet 0 10 0) (-1) 3 100 demo_state
    = Ok r /\
    (0 <= ev_edist r)%Q.
Proof.
  destruct (get_event (demo_globals (fun _ => 1 # 2)) 0 (demo_packet 0 10 0) (-1) 3 100
              demo_state) as [r| | |] eqn:E; try (vm_compute in E; discriminate).
  exists r. split; [reflexivity|].
  destruct (get_event_distance_nonnegative (demo_globals (fun _ => 1 # 2)) 0
              (demo_packet 0 10 0) (-1) 3 100 demo_state r E) as [_ Hnn].
  apply Hnn.
  - vm_compute. discriminate.
  - vm_compute. discriminate.
  - intros st1 Hst1. vm_compute in Hst1. injection Hst1 as <-. vm_compute. reflexivity.
Defined.

(** ** The assertion on [ldist] *)

Section LineDistance.

Variable G : globals.
Variables (mgi : Z) (pkt : packet Q) (ety : Z).
Variables (tau_rnd abort_dist nu_cmf_abort kap_cont : Q).

Hypothesis Hnonrel : USE_RELATIVISTIC_DOPPLER_SHIFT G = false.
Hypothesis Hclight : (0 <= CLIGHT G)%Q.
Hypothesis Hprop : (0 < CLIGHT_PROP G)%Q.
Hypothesis Hlines : forall line, In line (linelist G) -> (0 < nu line)%Q.

Lemma idx_In {A} (a : list A) i x : idx a i = Some x -> In x a.
Proof.
  unfold idx. destruct (i <? 0); [discriminate|]. apply nth_error_In.
Qed.

Lemma line_distance_nonneg (p : packet Q) line :
  In line (linelist G) -> (0 <= prop_time p)%Q ->
  (0 <= line_distance G p (nu line))%Q.
Proof.
  intros Hin Ht. unfold line_distance. rewrite Hnonrel. cbn [negb].
  destruct (Qle_bool (nu_cmf p) (nu line)) eqn:E; [apply Qle_refl|].
  apply Qle_bool_gt in E. pose proof (Hlines line Hin) as Hnu.
  assert (Hq : (1 <= nu_cmf p / nu line)%Q).
  { apply Qle_shift_div_l; [exact Hnu|]. lra. }
  apply Qmult_le_0_compat; [apply Qmult_le_0_compat; assumption|lra].
Qed.

Lemma move_pkt_prop_time (p : packet Q) d : prop_time (move_pkt G p d) = prop_time p.
Proof.
  unfold move_pkt. destruct (pos p) as [[x0 x1] x2]. destruct (dir p) as [[d0 d1] d2].
  reflexivity.
Qed.

Lemma move_pkt_withtime_prop_time (p : packet Q) d :
  prop_time (move_pkt_withtime G p d) = (prop_time p + d / CLIGHT_PROP G)%Q.
Proof. unfold move_pkt_withtime. rewrite move_pkt_prop_time. reflexivity. Qed.

Let body := get_event_body G mgi pkt ety tau_rnd abort_dist nu_cmf_abort kap_cont.

Lemma get_event_body_ldist s :
  (0 <= prop_time (dummypkt s))%Q ->
  (forall f, body s <> Fatal f) /\
  (forall s', body s = Ok (Continue s') -> (0 <= prop_time (dummypkt s'))%Q).
Proof.
  intro Ht. unfold body, get_event_body.
  destruct (closest_transition _ _ _) as [i|]; cbn [defined bind];
    [|split; [discriminate|intros; discriminate]].
  destruct (i >=? 0).
  2:{ cbn [next_trans set_next_trans].
      destruct (Qgtb _ _); split; try discriminate; intros; discriminate. }
  destruct (idx (linelist G) i) as [line|] eqn:Hline; cbn [defined bind];
    [|split; [discriminate|intros; discriminate]].
  pose proof (line_distance_nonneg (set_next_trans (i + 1) (dummypkt s)) line
                (idx_In _ _ _ Hline) Ht) as Hld.
  replace (Qltb (line_distance G (set_next_trans (i + 1) (dummypkt s)) (nu line)) 0)
    with false by (symmetry; apply Qltb_ge; exact Hld).
  cbn [bind].
  destruct (Qgtb _ _); [|split; [discriminate|intros; discriminate]].
  destruct (Qltb (nu line) nu_cmf_abort); [split; [discriminate|intros; discriminate]|].
  destruct (Qgtb _ _).
  - split; [discriminate|]. intros s' H. injection H as <-. cbn [dummypkt].
    rewrite move_pkt_withtime_prop_time. cbn [prop_time set_next_trans].
    assert (0 <= line_distance G (set_next_trans (i + 1) (dummypkt s)) (nu line)
                 / CLIGHT_PROP G)%Q.
    { apply Qle_shift_div_l; [exact Hprop|]. lra. }
    lra.
  - destruct (DETAILED_LINE_ESTIMATORS_ON G); split; try discriminate; intros; discriminate.
Qed.

Lemma get_event_loop_ldist fuel : forall s f,
  (0 <= prop_time (dummypkt s))%Q ->
  get_event_loop G fuel mgi pkt ety tau_rnd abort_dist nu_cmf_abort kap_cont s <> Fatal f.
Proof.
  induction fuel as [|fuel IH]; intros s f Ht H; simpl in H; [discriminate|].
  destruct (get_event_body_ldist s Ht) as [Hnf Hcont]. fold body in H.
  destruct (body s) as [[s'|r]| | |] eqn:Hb; cbn [bind] in H; try discriminate.
  - apply (IH s' f); [apply Hcont; reflexivity|exact H].
  - apply (Hnf f0). reflexivity.
Qed.

End LineDistance.

(** X11. With the non-relativistic Doppler formula the distance to a line is
    never negative, so the assertion [ldist >= -100.] of [get_event] cannot
    fail and [get_event] stops the program only from inside the opacity
    kernel: for line frequencies that are positive, a clock that is not
    negative, and the speed of light positive. *)
Theorem get_event_ldist_assertion_holds G mgi pkt ety tau_rnd abort_dist st f :
  USE_RELATIVISTIC_DOPPLER_SHIFT G = false ->
  (0 <= CLIGHT G)%Q -> (0 < CLIGHT_PROP G)%Q ->
  (forall line, In line (linelist G) -> (0 < nu line)%Q) ->
  (0 <= prop_time pkt)%Q ->
  get_event G mgi pkt ety tau_rnd abort_dist st = Fatal f ->
  calculate_kappa_rpkt_cont G pkt st = Fatal f /\ In f kappa_fatals.
Proof.
  intros Hnonrel Hc Hcp Hlines Ht H. unfold get_event in H.
  apply bind_Fatal in H. destruct H as [H | (st1 & _ & H)].
  - split; [exact H|]. apply (calculate_kappa_rpkt_cont_fatal G pkt st f H).
  - exfalso. revert H. apply get_event_loop_ldist; assumption.
Qed.

Lemma get_event_ldist_assertion_holds_witness :
  get_event (demo_globals (fun _ => 1 # 2)) 0 (demo_packet 0 (-1) 0) (-1) 3 100 demo_state
  = Fatal Assert_nu_positive /\
  In Assert_nu_positive kappa_fatals.
Proof.
  split.
  - reflexivity.
  - apply (get_event_ldist_assertion_holds (demo_globals (fun _ => 1 # 2)) 0
             (demo_packet 0 (-1) 0) (-1) 3 100 demo_state Assert_nu_positive);
      try reflexivity; try (vm_compute; discriminate).
    intros line [<-|[<-|[<-|[<-|[]]]]]; reflexivity.
Defined.

(** ** The first part of a sub-step *)

(** A property that every iteration going round again keeps is kept along
    the loop. *)
Lemma loops_to_invariant body (P : event_loop -> Prop) :
  (forall s s', body s = Ok (Continue s') -> P s -> P s') ->
  forall s s', loops_to body s s' -> P s -> P s'.
Proof.
  intros Hstep s s' Hloops. induction Hloops as [s s' Hb|s s' s'' Hb _ IH]; intro HP.
  - exact (Hstep _ _ Hb HP).
  - apply IH. exact (Hstep _ _ Hb HP).
Qed.

Section StepPrefix.

Variable G : globals.

(** The calls that [get_event] records are those of [update_lineestimator]:
    the calls of [update_estimators] and of the event handlers in the trace
    are as they were. *)
Lemma get_event_body_trace mgi pkt ety tau_rnd abort_dist nu_cmf_abort kap_cont s x :
  get_event_body G mgi pkt ety tau_rnd abort_dist nu_cmf_abort kap_cont s = Ok x ->
  let st' := match x with Continue s' => loop_state s' | Return r => ev_state r end in
  estimator_updates (trace st') = estimator_updates (trace (loop_state s)) /\
  filter is_event_handler (trace st') = filter is_event_handler (trace (loop_state s)) /\
  filter is_change_cell (trace st') = filter is_change_cell (trace (loop_state s)).
Proof.
  intro Hb. unfold get_event_body in Hb.
  bind_inv Hb. destruct (a >=? 0).
  2:{ cbn [next_trans set_next_trans] in Hb.
      destruct (Qgtb _ _) in Hb; injection Hb as <-; cbn; repeat split; reflexivity. }
  bind_inv Hb. bind_inv Hb.
  destruct (Qgtb _ _) in Hb; [|injection Hb as <-; cbn; repeat split; reflexivity].
  destruct (Qltb _ _) in Hb; [injection Hb as <-; cbn; repeat split; reflexivity|].
  destruct (Qgtb _ _) in Hb.
  - injection Hb as <-. cbn. repeat split; reflexivity.
  - destruct (DETAILED_LINE_ESTIMATORS_ON G); injection Hb as <-; cbn; repeat split; reflexivity.
Qed.

Lemma get_event_shape mgi pkt ety tau_rnd abort_dist st r :
  get_event G mgi pkt ety tau_rnd abort_dist st = Ok r ->
  ev_pkt r = set_next_trans (next_trans (ev_pkt r)) (set_mastate (mastate (ev_pkt r)) pkt) /\
  (ev_eventtype r = RPKT_EVENTTYPE_BB \/ ev_eventtype r = RPKT_EVENTTYPE_CONT \/
   (ev_eventtype r = ety /\ ev_edist r = DBL_MAX)) /\
  estimator_updates (trace (ev_state r)) = estimator_updates (trace st) /\
  filter is_event_handler (trace (ev_state r)) = filter is_event_handler (trace st) /\
  filter is_change_cell (trace (ev_state r)) = filter is_change_cell (trace st).
Proof.
  intro H.
  apply get_event_Ok in H as (st1 & s_last & Hk & Hreach & Hret).
  apply calculate_kappa_rpkt_cont_spec in Hk as (_ & _ & _ & _ & _ & _ & Ht).
  set (body := get_event_body G mgi pkt ety tau_rnd abort_dist
                 (nu_cmf_at_abort G pkt abort_dist) (get_event_kap_cont G pkt st1)) in *.
  set (P := fun s : event_loop =>
              estimator_updates (trace (loop_state s)) = estimator_updates (trace st) /\
              filter is_event_handler (trace (loop_state s))
              = filter is_event_handler (trace st) /\
              filter is_change_cell (trace (loop_state s))
              = filter is_change_cell (trace st)).
  assert (Hlast : P s_last).
  { assert (Hinit : P (get_event_init pkt st1)) by (unfold P; cbn; rewrite Ht; auto).
    destruct Hreach as [->|Hloops]; [exact Hinit|].
    revert Hinit. apply (loops_to_invariant body P); [|exact Hloops].
    intros s s' Hb (HP1 & HP2 & HP3). apply get_event_body_trace in Hb. cbn in Hb.
    destruct Hb as (Hb1 & Hb2 & Hb3). unfold P. repeat split; congruence. }
  pose proof (get_event_body_trace _ _ _ _ _ _ _ _ _ Hret) as (Ht1 & Ht2 & Ht3).
  cbn in Ht1, Ht2, Ht3.
  destruct Hlast as (HP1 & HP2 & HP3).
  apply get_event_body_Return_cases in Hret as (i & _ & Hcases).
  assert (Hplain : forall x, ev_pkt r = set_next_trans x pkt ->
            ev_pkt r = set_next_trans (next_trans (ev_pkt r))
                         (set_mastate (mastate (ev_pkt r)) pkt)).
  { intros x ->. cbn [next_trans mastate set_next_trans].
    rewrite set_mastate_same. reflexivity. }
  split; [|split; [|repeat split; congruence]].
  - destruct Hcases as [(_ & Hp & _) | (_ & line & ldist & _ & _ &
                          [(_ & _ & Hp) | [(_ & Hp & _) | (_ & Hp & _)]])];
      try (apply (Hplain _ Hp)).
    rewrite Hp. reflexivity.
  - destruct Hcases as [(_ & _ & [[He Ht']|(_ & He & _)])
                       | (_ & line & ldist & _ & _ &
                          [(He & Ht' & _) | [(He & _) | (He & _)]])]; auto.
Qed.

(** What [step_distances_of] has established when it hands the three
    distances on. *)
Lemma step_distances_of_fields pkt t2 st d pkt_b sdist0 snext0 :
  boundary_cross G pkt = (pkt_b, sdist0, snext0) ->
  step_distances_of G pkt t2 st = Ok (Distances d) ->
  sd_t2 d = t2 /\
  ~ (sdist0 == 0)%Q /\
  (sd_sdist d, sd_snext d)
  = (if Qgtb sdist0 (max_path_step G) then (max_path_step G, where_ pkt_b)
     else (sdist0, snext0)) /\
  (snext0 = -99 \/ 0 <= snext0) /\ snext0 < ngrid G /\
  sd_tdist d = ((t2 - prop_time pkt_b) * CLIGHT_PROP G)%Q /\
  (0 <= sd_tdist d)%Q /\ (0 <= sd_edist d)%Q /\
  sd_pkt d = set_next_trans (next_trans (sd_pkt d))
               (set_mastate (mastate (sd_pkt d)) pkt_b) /\
  (sd_eventtype d = RPKT_EVENTTYPE_BB \/ sd_eventtype d = RPKT_EVENTTYPE_CONT \/
   (sd_eventtype d = -1 /\
    (thick G (sd_mgi d) = 1 \/ sd_edist d = DBL_MAX))) /\
  (sd_mgi d = get_npts_model G -> sd_edist d = DBL_MAX) /\
  estimator_updates (trace (sd_state d)) = estimator_updates (trace st) /\
  filter is_event_handler (trace (sd_state d)) = filter is_event_handler (trace st) /\
  filter is_change_cell (trace (sd_state d)) = filter is_change_cell (trace st).
Proof.
  intros Hbc H. unfold step_distances_of in H. rewrite Hbc in H.
  destruct (Qeq_bool sdist0 0) eqn:Ezero; [discriminate|].
  destruct (Qgtb sdist0 _); [discriminate|].
  destruct (_ || _) eqn:Ecell in H; [discriminate|].
  apply orb_false_iff in Ecell as [Ec1 Ec2].
  destruct (if Qgtb sdist0 (max_path_step G) then _ else _) as [sdist' snext'] eqn:Eclamp.
  bind_inv_as H u Htd. apply assert_always_Ok in Htd.
  bind_inv_as H res Hres. destruct res as [[[[edist pkt2] ety] st2] fnl].
  bind_inv_as H u' Hed. apply assert_always_Ok in Hed.
  injection H as <-. cbn.
  split; [reflexivity|].
  split; [intro Hq; apply Qeq_bool_iff in Hq; congruence|].
  split; [reflexivity|].
  split.
  { destruct (Z.eqb_spec snext0 (-99)) as [He|He]; [auto|]. right.
    cbn in Ec1. apply Z.ltb_ge in Ec1. exact Ec1. }
  split.
  { destruct (Z.geb_spec snext0 (ngrid G)); [discriminate|lia]. }
  split; [reflexivity|].
  split; [apply Qle_bool_iff in Htd; exact Htd|].
  split; [apply Qle_bool_iff in Hed; exact Hed|].
  destruct (get_cell_modelgridindex G (where_ pkt) =? get_npts_model G) eqn:Eempty.
  { injection Hres as <- <- <- <- _. cbn.
    split; [rewrite set_mastate_same; destruct pkt_b; reflexivity|].
    split; [right; right; auto|]. split; [reflexivity|]. repeat split; reflexivity. }
  apply Z.eqb_neq in Eempty.
  destruct (thick G (get_cell_modelgridindex G (where_ pkt)) =? 1) eqn:Ethick.
  { injection Hres as <- <- <- <- _. cbn. apply Z.eqb_eq in Ethick.
    split; [rewrite set_mastate_same; destruct pkt_b; reflexivity|].
    split; [right; right; auto|]. split; [intro; contradiction|]. repeat split; reflexivity. }
  bind_inv_as Hres ev Hev. injection Hres as <- <- <- <- _.
  apply get_event_shape in Hev as (Hshape & Htype & Htr1 & Htr2 & Htr3).
  cbn in Htr1, Htr2, Htr3.
  split; [exact Hshape|].
  split; [destruct Htype as [Ht|[Ht|[Ht Hm]]]; auto|].
  split; [intro; contradiction|]. repeat split; assumption.
Qed.

End StepPrefix.

(** ** The three branches of a sub-step, field by field *)

Section StepBranches.

Variable G : globals.

Lemma move_pkt_shape (p : packet Q) x :
  exists q n e, move_pkt G p x = set_e_cmf e (set_nu_cmf n (set_pos q p)).
Proof.
  unfold move_pkt. destruct (pos p) as [[x0 x1] x2]. destruct (dir p) as [[d0 d1] d2].
  eexists. eexists. eexists. reflexivity.
Qed.

Lemma move_pkt_withtime_shape (p : packet Q) x :
  exists q n e,
    move_pkt_withtime G p x
    = set_e_cmf e (set_nu_cmf n (set_pos q
        (set_prop_time (prop_time p + x / CLIGHT_PROP G)%Q p))).
Proof. unfold move_pkt_withtime. apply move_pkt_shape. Qed.

Lemma closest_transition_empty_shape p p' :
  closest_transition_empty G p = Ok p' -> exists m, p' = set_next_trans m p.
Proof.
  unfold closest_transition_empty. intro H.
  bind_inv_as H reddest Hred. bind_inv_as H line_left Hleft. bind_inv_as H m Hm.
  injection H as <-. exists m.
  destruct (Qltb _ _); destruct (_ >? _); reflexivity.
Qed.

Lemma step_dispatch_event d :
  (sd_edist d < sd_sdist d)%Q -> (sd_edist d < sd_tdist d)%Q ->
  step_dispatch G d = step_event G d.
Proof.
  intros Ha Hc. unfold step_dispatch.
  replace (Qltb (sd_sdist d) (sd_tdist d) && Qltb (sd_sdist d) (sd_edist d)) with false.
  2:{ symmetry. apply andb_false_iff. right. apply Qltb_ge. lra. }
  apply Qltb_lt in Ha, Hc. rewrite Ha, Hc. reflexivity.
Qed.

Lemma step_dispatch_time d :
  (sd_tdist d < sd_sdist d)%Q -> (sd_tdist d < sd_edist d)%Q ->
  step_dispatch G d = step_time G d.
Proof.
  intros Ha Hc. unfold step_dispatch.
  replace (Qltb (sd_sdist d) (sd_tdist d) && Qltb (sd_sdist d) (sd_edist d)) with false.
  2:{ symmetry. apply andb_false_iff. left. apply Qltb_ge. lra. }
  replace (Qltb (sd_edist d) (sd_sdist d) && Qltb (sd_edist d) (sd_tdist d)) with false.
  2:{ symmetry. apply andb_false_iff. right. apply Qltb_ge. lra. }
  apply Qltb_lt in Ha, Hc. rewrite Ha, Hc. reflexivity.
Qed.

(** Whichever branch runs, its distance is strictly the smallest. *)
Lemma step_dispatch_cases d r :
  step_dispatch G d = Ok r ->
  ((sd_sdist d < sd_tdist d)%Q /\ (sd_sdist d < sd_edist d)%Q /\ step_boundary G d = Ok r) \/
  ((sd_edist d < sd_sdist d)%Q /\ (sd_edist d < sd_tdist d)%Q /\ step_event G d = Ok r) \/
  ((sd_tdist d < sd_sdist d)%Q /\ (sd_tdist d < sd_edist d)%Q /\ step_time G d = Ok r).
Proof.
  unfold step_dispatch. intro H.
  destruct (Qltb (sd_sdist d) (sd_tdist d)) eqn:E1;
    destruct (Qltb (sd_sdist d) (sd_edist d)) eqn:E2; cbn [andb] in H;
    try (left; apply Qltb_lt in E1, E2; auto; fail);
    destruct (Qltb (sd_edist d) (sd_sdist d)) eqn:E3;
    destruct (Qltb (sd_edist d) (sd_tdist d)) eqn:E4; cbn [andb] in H;
    try (right; left; apply Qltb_lt in E3, E4; auto; fail);
    destruct (Qltb (sd_tdist d) (sd_sdist d)) eqn:E5;
    destruct (Qltb (sd_tdist d) (sd_edist d)) eqn:E6; cbn [andb] in H;
    try discriminate;
    right; right; apply Qltb_lt in E5, E6; auto.
Qed.

(** The state after the two calls in the middle of a branch. *)
Lemma midpoint_state p x st :
  let st1 := rlc_emiss_rpkt_if_enabled G p x (update_estimators p x st) in
  estimator_updates (trace st1) = (p, x) :: estimator_updates (trace st) /\
  filter is_event_handler (trace st1) = filter is_event_handler (trace st) /\
  filter is_change_cell (trace st1) = filter is_change_cell (trace st).
Proof.
  unfold rlc_emiss_rpkt_if_enabled, update_estimators.
  destruct (negb _ && negb _); cbn; auto.
Qed.

Lemma step_time_fields d b pkt' st' :
  step_time G d = Ok (b, pkt', st') ->
  b = false /\
  prop_time pkt' = sd_t2 d /\
  where_ pkt' = where_ (sd_pkt d) /\ type pkt' = type (sd_pkt d) /\
  last_event pkt' = last_event (sd_pkt d) + 1000 /\
  nu_rf pkt' = nu_rf (sd_pkt d) /\ e_rf pkt' = e_rf (sd_pkt d) /\
  dir pkt' = dir (sd_pkt d) /\ last_cross pkt' = last_cross (sd_pkt d) /\
  estimator_updates (trace st')
  = (move_pkt_withtime G (sd_pkt d) (sd_tdist d / 2), sd_tdist d)
    :: estimator_updates (trace (sd_state d)) /\
  filter is_event_handler (trace st') = filter is_event_handler (trace (sd_state d)) /\
  filter is_change_cell (trace st') = filter is_change_cell (trace (sd_state d)).
Proof.
  unfold step_time. intro H.
  destruct (midpoint_state (move_pkt_withtime G (sd_pkt d) (sd_tdist d / 2)) (sd_tdist d)
              (sd_state d)) as (Hu & He & Hc).
  set (p1 := move_pkt_withtime G (sd_pkt d) (sd_tdist d / 2)) in *.
  set (st1 := rlc_emiss_rpkt_if_enabled G p1 (sd_tdist d)
                (update_estimators p1 (sd_tdist d) (sd_state d))) in *.
  destruct (move_pkt_withtime_shape (sd_pkt d) (sd_tdist d / 2)) as (q1 & n1 & e1 & Hp1).
  fold p1 in Hp1.
  destruct (move_pkt_shape (set_prop_time (sd_t2 d) p1) (sd_tdist d / 2))
    as (q2 & n2 & e2 & Hp2).
  rewrite Hp2 in H. rewrite Hp1 in H.
  bind_inv_as H res Hres. destruct res as [p5 st5]. injection H as <- <- <-.
  split; [reflexivity|].
  destruct (sd_find_nextline d).
  - bind_inv_as Hres p6 Hcte. injection Hres as <- <-.
    apply closest_transition_empty_shape in Hcte as [m ->]. cbn.
    repeat split; auto.
  - injection Hres as <- <-. cbn. repeat split; auto.
Qed.

End StepBranches.

Section EventHandlers.

Variable G : globals.

Lemma emitt_rpkt_Q_trace pkt st pkt' st' :
  emitt_rpkt_Q G pkt st = Ok (pkt', st') -> trace st' = trace st.
Proof. intro H. apply emitt_rpkt_Q_spec in H. tauto. Qed.

(** What every branch of [rpkt_event_continuum] leaves as it was. *)
Lemma rpkt_event_continuum_fields pkt c mgi st pkt' st' :
  rpkt_event_continuum G pkt c mgi st = Ok (pkt', st') ->
  where_ pkt' = where_ pkt /\ prop_time pkt' = prop_time pkt /\ pos pkt' = pos pkt /\
  nu_cmf pkt' = nu_cmf pkt /\ e_cmf pkt' = e_cmf pkt /\
  next_trans pkt' = next_trans pkt /\
  interactions pkt' = interactions pkt + 1 /\
  (type pkt' = TYPE_RPKT \/ type pkt' = TYPE_KPKT \/ type pkt' = TYPE_MA) /\
  estimator_updates (trace st') = estimator_updates (trace st) /\
  filter is_event_handler (trace st') = filter is_event_handler (trace st) /\
  filter is_change_cell (trace st') = filter is_change_cell (trace st).
Proof.
  unfold rpkt_event_continuum, draw_uniform, escat_rpkt. intro H.
  destruct (Qltb _ _) in H.
  - destruct (VPKT_ON G);
      (bind_inv_as H res Hres; destruct res as [p1 st1]; injection H as <- <-;
       pose proof (emitt_rpkt_Q_trace _ _ _ _ Hres) as Ht;
       apply emitt_rpkt_Q_spec in Hres;
       destruct Hres as (Hty & Hnu & He & Hpos & Hpt & Hi & _ & _ & Hnt & Hw & _ & _);
       cbn in *; rewrite Ht; cbn; repeat split; auto).
  - destruct (Qltb _ _) in H.
    + injection H as <- <-. cbn. repeat split; auto.
    + destruct (Qltb _ _) in H; [|discriminate].
      bind_inv_as H last Hlast. bind_inv_as H u Hassert. bind_inv_as H a Hlb.
      bind_inv_as H u' Hassert'. bind_inv_as H cont Hcont.
      destruct (Qltb _ _) in H; injection H as <- <-; cbn; repeat split; auto.
Qed.

Lemma rpkt_event_thickcell_fields pkt st pkt' st' :
  rpkt_event_thickcell G pkt st = Ok (pkt', st') ->
  where_ pkt' = where_ pkt /\ prop_time pkt' = prop_time pkt /\ pos pkt' = pos pkt /\
  nu_cmf pkt' = nu_cmf pkt /\ e_cmf pkt' = e_cmf pkt /\
  next_trans pkt' = next_trans pkt /\
  interactions pkt' = interactions pkt + 1 /\
  type pkt' = TYPE_RPKT /\
  em_pos pkt' = pos pkt /\ em_time pkt' = prop_time pkt /\
  trace st' = trace st.
Proof.
  unfold rpkt_event_thickcell. intro H.
  bind_inv_as H res Hres. destruct res as [p1 st1]. injection H as <- <-.
  apply emitt_rpkt_Q_spec in Hres.
  destruct Hres as (Hty & Hnu & He & Hpos & Hpt & Hi & _ & _ & Hnt & Hw & _ & Ht).
  cbn in *. repeat split; auto.
Qed.

End EventHandlers.

(** X12. The event handlers keep the packet where and when it is and conserve
    its comoving energy: after [rpkt_event_continuum], [rpkt_event_boundbound]
    or [rpkt_event_thickcell] the cell, the position, the clock, the comoving
    frequency and the comoving energy [e_cmf] are what they were, whichever
    process was drawn and whatever the packet has become, and [interactions]
    has gone up by one. *)
Theorem event_handlers_conserve_energy G pkt c mgi st :
  let unchanged (p : packet Q) :=
    where_ p = where_ pkt /\ pos p = pos pkt /\ prop_time p = prop_time pkt /\
    nu_cmf p = nu_cmf pkt /\ e_cmf p = e_cmf pkt /\
    interactions p = interactions pkt + 1 in
  (forall pkt' st', rpkt_event_continuum G pkt c mgi st = Ok (pkt', st') ->
     unchanged pkt' /\
     (type pkt' = TYPE_RPKT \/ type pkt' = TYPE_KPKT \/ type pkt' = TYPE_MA)) /\
  (unchanged (rpkt_event_boundbound pkt mgi) /\
   type (rpkt_event_boundbound pkt mgi) = TYPE_MA /\
   absorptiontype (rpkt_event_boundbound pkt mgi) = activatingline (mastate pkt) /\
   absorptionfreq (rpkt_event_boundbound pkt mgi) = nu_rf pkt) /\
  (forall pkt' st', rpkt_event_thickcell G pkt st = Ok (pkt', st') ->
     unchanged pkt' /\ type pkt' = TYPE_RPKT /\
     em_pos pkt' = pos pkt /\ em_time pkt' = prop_time pkt).
Proof.
  intro unchanged. subst unchanged. cbn beta. split; [|split].
  - intros pkt' st' H. apply rpkt_event_continuum_fields in H. tauto.
  - cbn. repeat split; reflexivity.
  - intros pkt' st' H. apply rpkt_event_thickcell_fields in H. tauto.
Qed.

Lemma event_handlers_conserve_energy_witness :
  exists pkt' st',
    rpkt_event_thickcell (demo_globals (fun _ => 1 # 2)) (demo_packet 2 10 0) demo_state
    = Ok (pkt', st') /\
    e_cmf pkt' = e_cmf (demo_packet 2 10 0) /\ type pkt' = TYPE_RPKT.
Proof.
  destruct (rpkt_event_thickcell (demo_globals (fun _ => 1 # 2)) (demo_packet 2 10 0)
              demo_state) as [[pkt' st']| | |] eqn:E; try (vm_compute in E; discriminate).
  exists pkt', st'. split; [reflexivity|].
  destruct (event_handlers_conserve_energy (demo_globals (fun _ => 1 # 2))
              (demo_packet 2 10 0) (kappa_rpkt_cont demo_state) 2 demo_state)
    as (_ & _ & Hthick).
  destruct (Hthick pkt' st' E) as ((_ & _ & _ & _ & He & _) & Hty & _).
  split; assumption.
Defined.

Section StepBranchFields.

Variable G : globals.

Lemma step_event_fields d b pkt' st' :
  step_event G d = Ok (b, pkt', st') ->
  b = same_cell_same_type G pkt' (sd_mgi d) (sd_oldmgi d) /\
  where_ pkt' = where_ (sd_pkt d) /\
  prop_time pkt'
  = (prop_time (sd_pkt d) + sd_edist d / 2 / CLIGHT_PROP G
     + sd_edist d / 2 / CLIGHT_PROP G)%Q /\
  (type pkt' = TYPE_RPKT \/ type pkt' = TYPE_KPKT \/ type pkt' = TYPE_MA) /\
  estimator_updates (trace st')
  = (move_pkt_withtime G (sd_pkt d) (sd_edist d / 2), sd_edist d)
    :: estimator_updates (trace (sd_state d)) /\
  filter is_change_cell (trace st') = filter is_change_cell (trace (sd_state d)) /\
  (exists h, filter is_event_handler (trace st')
             = h :: filter is_event_handler (trace (sd_state d)) /\
             h = (if thick G (sd_mgi d) =? 1 then Call_rpkt_event_thickcell
                  else if sd_eventtype d =? RPKT_EVENTTYPE_BB then Call_rpkt_event_boundbound
                  else Call_rpkt_event_continuum)).
Proof.
  unfold step_event. intro H.
  destruct (midpoint_state G (move_pkt_withtime G (sd_pkt d) (sd_edist d / 2)) (sd_edist d)
              (sd_state d)) as (Hu & He & Hc).
  set (p1 := move_pkt_withtime G (sd_pkt d) (sd_edist d / 2)) in *.
  set (st1 := rlc_emiss_rpkt_if_enabled G p1 (sd_edist d)
                (update_estimators p1 (sd_edist d) (sd_state d))) in *.
  destruct (move_pkt_withtime_shape G (sd_pkt d) (sd_edist d / 2)) as (q1 & n1 & e1 & Hp1).
  fold p1 in Hp1.
  destruct (move_pkt_withtime_shape G p1 (sd_edist d / 2)) as (q2 & n2 & e2 & Hp2).
  rewrite Hp2 in H.
  assert (Hpt : prop_time p1 = (prop_time (sd_pkt d) + sd_edist d / 2 / CLIGHT_PROP G)%Q)
    by (rewrite Hp1; reflexivity).
  assert (Hw1 : where_ p1 = where_ (sd_pkt d)) by (rewrite Hp1; reflexivity).
  assert (Hty1 : type p1 = type (sd_pkt d)) by (rewrite Hp1; reflexivity).
  bind_inv_as H res Hres. destruct res as [p5 st5]. injection H as <- <- <-.
  split; [reflexivity|].
  destruct (thick G (sd_mgi d) =? 1).
  - apply rpkt_event_thickcell_fields in Hres
      as (Hw & Hpt' & _ & _ & _ & _ & _ & Hty & _ & _ & Ht).
    cbn in Hw, Hpt'. rewrite Hw, Hpt', Ht, Hw1, Hpt. cbn.
    rewrite Hu, Hc, He. repeat split; auto. eexists. split; reflexivity.
  - destruct (sd_eventtype d =? RPKT_EVENTTYPE_BB).
    + injection Hres as <- <-. cbn. rewrite Hw1, Hpt, Hu, Hc, He.
      repeat split; auto. eexists. split; reflexivity.
    + destruct (sd_eventtype d =? RPKT_EVENTTYPE_CONT); [|discriminate].
      apply rpkt_event_continuum_fields in Hres
        as (Hw & Hpt' & _ & _ & _ & _ & _ & Hty & Ht1 & Ht2 & Ht3).
      cbn in Hw, Hpt', Ht1, Ht2, Ht3. rewrite Hw, Hpt', Ht1, Ht2, Ht3, Hw1, Hpt.
      rewrite Hu, Hc, He. repeat split; auto. eexists. split; reflexivity.
Qed.

Lemma step_boundary_fields d b pkt' st' :
  step_boundary G d = Ok (b, pkt', st') ->
  let crossing := negb (sd_snext d =? where_ (sd_pkt d)) in
  b = same_cell_same_type G pkt'
        (if crossing then get_cell_modelgridindex G (where_ pkt') else sd_mgi d)
        (sd_oldmgi d) /\
  prop_time pkt'
  = (prop_time (sd_pkt d) + sd_sdist d / 2 / CLIGHT_PROP G
     + sd_sdist d / 2 / CLIGHT_PROP G)%Q /\
  scat_count pkt' = 0 /\ last_event pkt' = last_event (sd_pkt d) + 100 /\
  (if crossing && (sd_snext d =? -99)
   then type pkt' = TYPE_ESCAPE /\ escape_type pkt' = type (sd_pkt d) /\
        escape_time pkt' = prop_time pkt' /\ where_ pkt' = where_ (sd_pkt d)
   else type pkt' = type (sd_pkt d) /\ where_ pkt' = sd_snext d /\
        escape_type pkt' = escape_type (sd_pkt d)) /\
  estimator_updates (trace st')
  = (move_pkt_withtime G (sd_pkt d) (sd_sdist d / 2), sd_sdist d)
    :: estimator_updates (trace (sd_state d)) /\
  filter is_event_handler (trace st') = filter is_event_handler (trace (sd_state d)) /\
  filter is_change_cell (trace st')
  = (if crossing then [Call_change_cell (sd_snext d)] else [])
    ++ filter is_change_cell (trace (sd_state d)).
Proof.
  intros H crossing. unfold step_boundary in H.
  destruct (midpoint_state G (move_pkt_withtime G (sd_pkt d) (sd_sdist d / 2)) (sd_sdist d)
              (sd_state d)) as (Hu & He & Hc).
  set (p1 := move_pkt_withtime G (sd_pkt d) (sd_sdist d / 2)) in *.
  set (st1 := rlc_emiss_rpkt_if_enabled G p1 (sd_sdist d)
                (update_estimators p1 (sd_sdist d) (sd_state d))) in *.
  destruct (move_pkt_withtime_shape G (sd_pkt d) (sd_sdist d / 2)) as (q1 & n1 & e1 & Hp1).
  fold p1 in Hp1.
  destruct (move_pkt_withtime_shape G p1 (sd_sdist d / 2)) as (q2 & n2 & e2 & Hp2).
  rewrite Hp2 in H. rewrite Hp1 in H. cbn [where_ set_e_cmf set_nu_cmf set_pos set_prop_time] in H.
  fold crossing in H.
  assert (Hsnext : crossing = false -> sd_snext d = where_ (sd_pkt d)).
  { unfold crossing. intro Hc0. apply negb_false_iff, Z.eqb_eq in Hc0. exact Hc0. }
  destruct crossing eqn:Ecross; cbn [negb andb] in *.
  - unfold change_cell in H.
    destruct (sd_snext d =? -99) eqn:Eesc;
      bind_inv_as H res Hres; destruct res as [p5 st5]; injection H as <- <- <-;
      (destruct (sd_find_nextline d);
       [destruct (negb _ && negb _);
        [bind_inv_as Hres p6 Hcte; injection Hres as <- <-;
         apply closest_transition_empty_shape in Hcte as [m ->]
        |injection Hres as <- <-]
       |injection Hres as <- <-]);
      cbn; rewrite ?Hu, ?He, ?Hc; repeat split; auto.
  - bind_inv_as H res Hres; destruct res as [p5 st5]; injection H as <- <- <-.
    specialize (Hsnext eq_refl).
    destruct (sd_find_nextline d);
       [destruct (negb _ && negb _);
        [bind_inv_as Hres p6 Hcte; injection Hres as <- <-;
         apply closest_transition_empty_shape in Hcte as [m ->]
        |injection Hres as <- <-]
       |injection Hres as <- <-];
      cbn; rewrite ?Hu, ?He, ?Hc; repeat split; auto.
Qed.

End StepBranchFields.

(** ** What a sub-step does to the packet *)

Lemma set_last_cross_same (p : packet Q) : set_last_cross (last_cross p) p = p.
Proof. destruct p. reflexivity. Qed.

Lemma demo_boundary_cross_keeps u : boundary_cross_keeps_packet (demo_globals u).
Proof.
  intro p. exists (last_cross p). cbn. rewrite set_last_cross_same. reflexivity.
Qed.

Section SubStep.

Variable G : globals.

Hypothesis Hkeeps : boundary_cross_keeps_packet G.

(** The packet that the branches start from is the caller's packet with
    [last_cross], [next_trans] and [mastate] possibly changed. *)
Lemma step_packet_before pkt t2 st d :
  step_distances_of G pkt t2 st = Ok (Distances d) ->
  exists lc nt ms, sd_pkt d = set_next_trans nt (set_mastate ms (set_last_cross lc pkt)).
Proof.
  intro Hd. destruct (boundary_cross G pkt) as [[pkt_b sdist0] snext0] eqn:Hbc.
  destruct (step_distances_of_fields G pkt t2 st d pkt_b sdist0 snext0 Hbc Hd)
    as (_ & _ & _ & _ & _ & _ & _ & _ & Hshape & _).
  destruct (Hkeeps pkt) as [lc Hlc]. rewrite Hbc in Hlc. cbn in Hlc. subst pkt_b.
  eexists. eexists. eexists. exact Hshape.
Qed.

End SubStep.

(** X13. When the time limit is the nearest of the three distances, the
    sub-step ends the loop: [do_rpkt_step] returns false with the packet's
    clock set to [t2] exactly, the packet in the cell it was in and of the
    type it had, [last_event] raised by 1000, the rest-frame frequency,
    energy and direction untouched, and neither [change_cell] nor an event
    handler called. *)
Theorem step_to_time_limit G pkt t2 st d b pkt' st' :
  boundary_cross_keeps_packet G ->
  step_distances_of G pkt t2 st = Ok (Distances d) ->
  (sd_tdist d < sd_sdist d)%Q -> (sd_tdist d < sd_edist d)%Q ->
  do_rpkt_step G pkt t2 st = Ok (b, pkt', st') ->
  b = false /\ prop_time pkt' = t2 /\
  where_ pkt' = where_ pkt /\ type pkt' = type pkt /\
  last_event pkt' = last_event pkt + 1000 /\
  nu_rf pkt' = nu_rf pkt /\ e_rf pkt' = e_rf pkt /\ dir pkt' = dir pkt /\
  filter is_change_cell (trace st') = filter is_change_cell (trace st) /\
  filter is_event_handler (trace st') = filter is_event_handler (trace st).
Proof.
  intros Hkeeps Hd Hts Hte H.
  unfold do_rpkt_step in H. rewrite Hd in H. cbn [bind] in H.
  rewrite (step_dispatch_time G d Hts Hte) in H.
  apply step_time_fields in H
    as (Hb & Hpt & Hw & Hty & Hle & Hnu & He & Hdir & _ & _ & Hh & Hc).
  destruct (step_packet_before G Hkeeps pkt t2 st d Hd) as (lc & nt & ms & Hshape).
  destruct (boundary_cross G pkt) as [[pkt_b sdist0] snext0] eqn:Hbc.
  destruct (step_distances_of_fields G pkt t2 st d pkt_b sdist0 snext0 Hbc Hd)
    as (Ht2 & _ & _ & _ & _ & _ & _ & _ & _ & _ & _ & _ & Hh0 & Hc0).
  rewrite Hshape in Hw, Hty, Hle, Hnu, He, Hdir. cbn in Hw, Hty, Hle, Hnu, He, Hdir.
  repeat split; congruence.
Qed.

Lemma step_to_time_limit_witness :
  exists pkt' st',
    do_rpkt_step (demo_globals (fun _ => 1 # 2)) (demo_packet 0 10 0) (1001 # 100) demo_state
    = Ok (false, pkt', st') /\
    prop_time pkt' = (1001 # 100)%Q /\ where_ pkt' = 0 /\ last_event pkt' = 1000.
Proof.
  destruct (step_distances_of (demo_globals (fun _ => 1 # 2)) (demo_packet 0 10 0)
              (1001 # 100) demo_state) as [[r|d]| | |] eqn:Ed;
    try (vm_compute in Ed; discriminate).
  destruct (do_rpkt_step (demo_globals (fun _ => 1 # 2)) (demo_packet 0 10 0) (1001 # 100)
              demo_state) as [[[b pkt'] st']| | |] eqn:Es;
    try (vm_compute in Es; discriminate).
  assert (Hd : d = ltac:(let v := eval vm_compute in
                 (match step_distances_of (demo_globals (fun _ => 1 # 2))
                          (demo_packet 0 10 0) (1001 # 100) demo_state with
                  | Ok (Distances x) => x | _ => demo_distances end) in exact v)).
  { vm_compute in Ed. injection Ed as <-. reflexivity. }
  destruct (step_to_time_limit (demo_globals (fun _ => 1 # 2)) (demo_packet 0 10 0)
              (1001 # 100) demo_state d b pkt' st' (demo_boundary_cross_keeps _) Ed)
    as (Hb & Hpt & Hw & _ & Hle & _);
    try (rewrite Hd; vm_compute; reflexivity); try exact Es.
  exists pkt', st'. rewrite Hb. repeat split; assumption.
Defined.

Lemma packet_type_eqb_RPKT t : packet_type_eqb t TYPE_RPKT = true <-> t = TYPE_RPKT.
Proof. destruct t; cbn; split; intro H; try discriminate; reflexivity. Qed.

Lemma same_cell_same_type_spec G p mgi oldmgi :
  same_cell_same_type G p mgi oldmgi = true <->
  type p = TYPE_RPKT /\ (mgi = get_npts_model G \/ mgi = oldmgi).
Proof.
  unfold same_cell_same_type. rewrite andb_true_iff, orb_true_iff.
  rewrite packet_type_eqb_RPKT, !Z.eqb_eq. tauto.
Qed.

(** X14. A packet that reaches the edge of the grid escapes.  When
    [boundary_cross] reports no next cell ([snext = -99]) and either the
    packet sits on the boundary ([sdist == 0]) or the boundary distance wins
    the sub-step without being cut to [max_path_step], [change_cell] is
    called once, with -99: the packet becomes [TYPE_ESCAPE], its former type
    and its clock at that moment are recorded in [escape_type] and
    [escape_time], its cell index stays, and [do_rpkt_step] returns false. *)
Theorem step_escape G pkt t2 st pkt_b sdist0 b pkt' st' :
  boundary_cross G pkt = (pkt_b, sdist0, -99) ->
  0 <= where_ pkt_b ->
  do_rpkt_step G pkt t2 st = Ok (b, pkt', st') ->
  let escaped :=
    b = false /\ type pkt' = TYPE_ESCAPE /\ escape_type pkt' = type pkt_b /\
    escape_time pkt' = prop_time pkt' /\ where_ pkt' = where_ pkt_b /\
    filter is_change_cell (trace st')
    = Call_change_cell (-99) :: filter is_change_cell (trace st) in
  ((sdist0 == 0)%Q -> escaped) /\
  (forall d, step_distances_of G pkt t2 st = Ok (Distances d) ->
     (sdist0 <= max_path_step G)%Q ->
     (sd_sdist d < sd_tdist d)%Q -> (sd_sdist d < sd_edist d)%Q -> escaped).
Proof.
  intros Hbc Hw H escaped. subst escaped. split.
  - intro Hzero. unfold do_rpkt_step, step_distances_of in H. rewrite Hbc in H.
    replace (Qeq_bool sdist0 0) with true in H by (symmetry; apply Qeq_bool_iff; exact Hzero).
    cbn [bind] in H. injection H as <- <- <-. cbn. repeat split; reflexivity.
  - intros d Hd Hmax Hst Hse.
    unfold do_rpkt_step in H. rewrite Hd in H. cbn [bind] in H.
    rewrite (step_dispatch_boundary G d Hst Hse) in H.
    destruct (step_distances_of_fields G pkt t2 st d pkt_b sdist0 (-99) Hbc Hd)
      as (_ & _ & Hclamp & _ & _ & _ & _ & _ & Hshape & _ & _ & _ & _ & Hc0).
    replace (Qgtb sdist0 (max_path_step G)) with false in Hclamp
      by (symmetry; apply Qltb_ge; exact Hmax).
    injection Hclamp as Hs Hn.
    assert (Hwd : where_ (sd_pkt d) = where_ pkt_b) by (rewrite Hshape; reflexivity).
    assert (Htd : type (sd_pkt d) = type pkt_b) by (rewrite Hshape; reflexivity).
    apply step_boundary_fields in H. cbn zeta in H.
    rewrite Hn, Hwd in H.
    replace (-99 =? where_ pkt_b) with false in H by (symmetry; apply Z.eqb_neq; lia).
    cbn [negb andb Z.eqb] in H.
    destruct H as (Hb & _ & _ & _ & (Hty & Het & Hetime & Hwh) & _ & _ & Hc).
    rewrite Hb. unfold same_cell_same_type. rewrite Hty. cbn.
    repeat split; try congruence.
    rewrite Hc, Hc0. reflexivity.
Qed.

Lemma step_escape_witness :
  let G := set_boundary_cross (fun p => (p, (1 # 10)%Q, -99)) (demo_globals (fun _ => 1 # 2)) in
  exists pkt' st',
    do_rpkt_step G (demo_packet 3 10 0) 100 demo_state = Ok (false, pkt', st') /\
    type pkt' = TYPE_ESCAPE /\ escape_type pkt' = TYPE_RPKT /\
    escape_time pkt' = prop_time pkt'.
Proof.
  intro G.
  destruct (step_distances_of G (demo_packet 3 10 0) 100 demo_state)
    as [[r|d]| | |] eqn:Ed; try (vm_compute in Ed; discriminate).
  destruct (do_rpkt_step G (demo_packet 3 10 0) 100 demo_state)
    as [[[b pkt'] st']| | |] eqn:Es; try (vm_compute in Es; discriminate).
  assert (Hd : d = ltac:(let v := eval vm_compute in
                 (match step_distances_of
                          (set_boundary_cross (fun p => (p, (1 # 10)%Q, -99))
                             (demo_globals (fun _ => 1 # 2)))
                          (demo_packet 3 10 0) 100 demo_state with
                  | Ok (Distances x) => x | _ => demo_distances end) in exact v)).
  { vm_compute in Ed. injection Ed as <-. reflexivity. }
  destruct (step_escape G (demo_packet 3 10 0) 100 demo_state (demo_packet 3 10 0) (1 # 10)
              b pkt' st' eq_refl) as [_ Hesc];
    [vm_compute; discriminate|exact Es|].
  destruct (Hesc d Ed) as (Hb & Hty & Het & Hetime & _);
    try (rewrite Hd; vm_compute; reflexivity); try (vm_compute; discriminate).
  exists pkt', st'. rewrite Hb. repeat split; assumption.
Defined.

(** The flag that a sub-step returns: false from the time branch, and on
    every other path whether the packet is still an r-packet in an empty
    cell or in a cell of the model-grid cell it started in. *)
Lemma do_rpkt_step_flag G pkt t2 st b pkt' st' :
  boundary_cross_keeps_packet G ->
  do_rpkt_step G pkt t2 st = Ok (b, pkt', st') ->
  (b = false /\ prop_time pkt' = t2) \/
  b = same_cell_same_type G pkt' (get_cell_modelgridindex G (where_ pkt'))
        (get_cell_modelgridindex G (where_ pkt)).
Proof.
  intros Hkeeps H.
  unfold do_rpkt_step in H. bind_inv_as H p Hp.
  destruct p as [r|d].
  - injection H as ->. unfold step_distances_of in Hp.
    destruct (boundary_cross G pkt) as [[pkt_b sdist0] snext0].
    destruct (Qeq_bool sdist0 0); [|destruct (Qgtb _ _) in Hp; [discriminate|];
      destruct (_ || _) in Hp; [discriminate|];
      destruct (if Qgtb sdist0 (max_path_step G) then _ else _);
      bind_inv Hp; bind_inv Hp; destruct a0 as [[[[? ?] ?] ?] ?]; bind_inv Hp; discriminate].
    injection Hp as Hb <- <-. right. congruence.
  - pose proof (step_distances_of_Ok G pkt t2 st _ Hp) as (Hold & Hmgi & _).
    destruct (step_packet_before G Hkeeps pkt t2 st d Hp) as (lc & nt & ms & Hshape).
    assert (Hwd : where_ (sd_pkt d) = where_ pkt) by (rewrite Hshape; reflexivity).
    destruct (boundary_cross G pkt) as [[pkt_b sdist0] snext0] eqn:Hbc.
    destruct (step_distances_of_fields G pkt t2 st d pkt_b sdist0 snext0 Hbc Hp)
      as (Ht2 & _).
    apply step_dispatch_cases in H as [(_ & _ & H) | [(_ & _ & H) | (_ & _ & H)]].
    + apply step_boundary_fields in H. cbn zeta in H.
      destruct H as (Hb & _ & _ & _ & Hcase & _).
      destruct (negb (sd_snext d =? where_ (sd_pkt d))) eqn:Ecross.
      * right. congruence.
      * cbn [andb] in Hcase. destruct Hcase as (_ & Hwh & _).
        apply negb_false_iff, Z.eqb_eq in Ecross.
        right. rewrite Hb, Hwh, Ecross, Hwd. congruence.
    + apply step_event_fields in H as (Hb & Hwh & _).
      right. rewrite Hb, Hwh, Hwd. congruence.
    + apply step_time_fields in H as (Hb & Hpt & _). left. split; congruence.
Qed.

(** X15. The value that [do_rpkt_step] returns.  It is true only if the
    packet is still an r-packet and is in an empty cell or in a cell of the
    model-grid cell it started the sub-step in; and when it is false, the
    packet has changed type, or has entered a cell of another model-grid cell
    that is not empty, or its clock has reached [t2]. *)
Theorem do_rpkt_step_return_value G pkt t2 st b pkt' st' :
  boundary_cross_keeps_packet G ->
  do_rpkt_step G pkt t2 st = Ok (b, pkt', st') ->
  let mgi' := get_cell_modelgridindex G (where_ pkt') in
  let mgi0 := get_cell_modelgridindex G (where_ pkt) in
  (b = true ->
   type pkt' = TYPE_RPKT /\ (mgi' = get_npts_model G \/ mgi' = mgi0)) /\
  (b = false ->
   type pkt' <> TYPE_RPKT \/ (mgi' <> get_npts_model G /\ mgi' <> mgi0) \/
   prop_time pkt' = t2).
Proof.
  intros Hkeeps H mgi' mgi0.
  destruct (do_rpkt_step_flag G pkt t2 st b pkt' st' Hkeeps H) as [[Hb Hpt]|Hb].
  - split; [intro Ht; congruence|]. intros _. right. right. exact Hpt.
  - fold mgi' mgi0 in Hb. split.
    + intro Ht. apply same_cell_same_type_spec. congruence.
    + intro Hf.
      destruct (Z.eq_dec mgi' (get_npts_model G)) as [He|He];
        destruct (Z.eq_dec mgi' mgi0) as [Ho|Ho];
        try (right; left; split; assumption; fail);
        left; intro Hty;
        assert (same_cell_same_type G pkt' mgi' mgi0 = true)
          by (apply same_cell_same_type_spec; split; auto);
        congruence.
Qed.

Lemma do_rpkt_step_return_value_witness :
  exists pkt' st',
    do_rpkt_step (demo_globals (fun _ => 999 # 1000)) (demo_packet 2 10 0) 100 demo_state
    = Ok (true, pkt', st') /\
    type pkt' = TYPE_RPKT /\ where_ pkt' = 2.
Proof.
  destruct (do_rpkt_step (demo_globals (fun _ => 999 # 1000)) (demo_packet 2 10 0) 100
              demo_state) as [[[b pkt'] st']| | |] eqn:Es;
    try (vm_compute in Es; discriminate).
  assert (Hb : b = true) by (vm_compute in Es; injection Es as <- _ _; reflexivity).
  destruct (do_rpkt_step_return_value (demo_globals (fun _ => 999 # 1000))
              (demo_packet 2 10 0) 100 demo_state b pkt' st' (demo_boundary_cross_keeps _) Es)
    as [Htrue _].
  exists pkt', st'. subst b. split; [reflexivity|].
  destruct (Htrue eq_refl) as [Hty _]. split; [exact Hty|].
  vm_compute in Es. injection Es as <- _. reflexivity.
Defined.

(** X16. Every sub-step that moves the packet updates the estimators once,
    at the midpoint of the path and with the length of the whole path: the
    one call of [update_estimators] is made with the packet moved by half
    the winning distance and with the winning distance, which is strictly
    the smallest of the three and is not above [max_path_step]; the packet
    ends a further half away.  A packet that crosses at once ([sdist == 0])
    updates nothing. *)
Theorem estimators_updated_at_midpoint G pkt t2 st b pkt' st' :
  do_rpkt_step G pkt t2 st = Ok (b, pkt', st') ->
  (forall d, step_distances_of G pkt t2 st = Ok (Distances d) ->
     exists w,
       (w = sd_sdist d \/ w = sd_edist d \/ w = sd_tdist d) /\
       (w <= sd_sdist d)%Q /\ (w <= sd_edist d)%Q /\ (w <= sd_tdist d)%Q /\
       (w <= max_path_step G)%Q /\
       estimator_updates (trace st')
       = (move_pkt_withtime G (sd_pkt d) (w / 2), w) :: estimator_updates (trace st)) /\
  (forall r, step_distances_of G pkt t2 st = Ok (Crossed_at_once r) ->
     estimator_updates (trace st') = estimator_updates (trace st)).
Proof.
  intro H. split.
  - intros d Hd. unfold do_rpkt_step in H. rewrite Hd in H. cbn [bind] in H.
    destruct (boundary_cross G pkt) as [[pkt_b sdist0] snext0] eqn:Hbc.
    destruct (step_distances_of_fields G pkt t2 st d pkt_b sdist0 snext0 Hbc Hd)
      as (_ & _ & Hclamp & _ & _ & _ & _ & _ & _ & _ & _ & Hu0 & _).
    assert (Hmax : (sd_sdist d <= max_path_step G)%Q).
    { destruct (Qgtb sdist0 (max_path_step G)) eqn:E; injection Hclamp as -> _.
      - apply Qle_refl.
      - apply Qltb_ge in E. exact E. }
    apply step_dispatch_cases in H as [(H1 & H2 & H) | [(H1 & H2 & H) | (H1 & H2 & H)]].
    + apply step_boundary_fields in H. cbn zeta in H.
      destruct H as (_ & _ & _ & _ & _ & Hu & _).
      exists (sd_sdist d). split; [auto|]. repeat split; try lra. congruence.
    + apply step_event_fields in H as (_ & _ & _ & _ & Hu & _).
      exists (sd_edist d). split; [auto|]. repeat split; try lra. congruence.
    + apply step_time_fields in H as (_ & _ & _ & _ & _ & _ & _ & _ & _ & Hu & _).
      exists (sd_tdist d). split; [auto|]. repeat split; try lra. congruence.
  - intros r Hr. unfold do_rpkt_step in H. rewrite Hr in H. cbn [bind] in H.
    injection H as ->. unfold step_distances_of in Hr.
    destruct (boundary_cross G pkt) as [[pkt_b sdist0] snext0].
    destruct (Qeq_bool sdist0 0); [|destruct (Qgtb _ _) in Hr; [discriminate|];
      destruct (_ || _) in Hr; [discriminate|];
      destruct (if Qgtb sdist0 (max_path_step G) then _ else _);
      bind_inv Hr; bind_inv Hr; destruct a0 as [[[[? ?] ?] ?] ?]; bind_inv Hr; discriminate].
    injection Hr as _ _ <-. reflexivity.
Qed.

Lemma estimators_updated_at_midpoint_witness :
  exists pkt' st' p,
    do_rpkt_step (demo_globals (fun _ => 1 # 2)) (demo_packet 0 10 0) 100 demo_state
    = Ok (false, pkt', st') /\
    estimator_updates (trace st') = [(p, (1 # 10)%Q)] /\
    prop_time p = (10 + (1 # 10) / 2 / 1)%Q.
Proof.
  destruct (step_distances_of (demo_globals (fun _ => 1 # 2)) (demo_packet 0 10 0) 100
              demo_state) as [[r|d]| | |] eqn:Ed; try (vm_compute in Ed; discriminate).
  destruct (do_rpkt_step (demo_globals (fun _ => 1 # 2)) (demo_packet 0 10 0) 100
              demo_state) as [[[b pkt'] st']| | |] eqn:Es;
    try (vm_compute in Es; discriminate).
  destruct (estimators_updated_at_midpoint (demo_globals (fun _ => 1 # 2))
              (demo_packet 0 10 0) 100 demo_state b pkt' st' Es) as [Hmid _].
  destruct (Hmid d Ed) as (w & _ & _ & _ & _ & _ & Hu).
  vm_compute in Es. injection Es as <- <- <-.
  eexists. eexists. eexists. split; [reflexivity|]. split; reflexivity.
Defined.

(** X17. A boundary further away than [max_path_step] is not reached: the
    sub-step is cut to [max_path_step] with the packet's own cell as next
    cell, so when the boundary branch then runs the packet moves by
    [max_path_step], stays in its cell with its type, and [change_cell] is
    not called, although [last_cross] keeps what [boundary_cross] stored. *)
Theorem step_truncated_at_max_path_step G pkt t2 st pkt_b sdist0 snext0 d :
  boundary_cross G pkt = (pkt_b, sdist0, snext0) ->
  (max_path_step G < sdist0)%Q ->
  step_distances_of G pkt t2 st = Ok (Distances d) ->
  sd_sdist d = max_path_step G /\ sd_snext d = where_ pkt_b /\
  forall b pkt' st',
    (sd_sdist d < sd_tdist d)%Q -> (sd_sdist d < sd_edist d)%Q ->
    do_rpkt_step G pkt t2 st = Ok (b, pkt', st') ->
    where_ pkt' = where_ pkt_b /\ type pkt' = type pkt_b /\
    prop_time pkt'
    = (prop_time pkt_b + max_path_step G / 2 / CLIGHT_PROP G
       + max_path_step G / 2 / CLIGHT_PROP G)%Q /\
    filter is_change_cell (trace st') = filter is_change_cell (trace st).
Proof.
  intros Hbc Hfar Hd.
  destruct (step_distances_of_fields G pkt t2 st d pkt_b sdist0 snext0 Hbc Hd)
    as (_ & _ & Hclamp & _ & _ & _ & _ & _ & Hshape & _ & _ & _ & _ & Hc0).
  replace (Qgtb sdist0 (max_path_step G)) with true in Hclamp
    by (symmetry; apply Qltb_lt; exact Hfar).
  injection Hclamp as Hs Hn. split; [exact Hs|]. split; [exact Hn|].
  intros b pkt' st' Hst Hse H.
  unfold do_rpkt_step in H. rewrite Hd in H. cbn [bind] in H.
  rewrite (step_dispatch_boundary G d Hst Hse) in H.
  assert (Hwd : where_ (sd_pkt d) = where_ pkt_b) by (rewrite Hshape; reflexivity).
  assert (Htd : type (sd_pkt d) = type pkt_b) by (rewrite Hshape; reflexivity).
  assert (Hpd : prop_time (sd_pkt d) = prop_time pkt_b) by (rewrite Hshape; reflexivity).
  apply step_boundary_fields in H. cbn zeta in H.
  rewrite Hn, Hwd, Z.eqb_refl in H. cbn [negb andb app] in H.
  destruct H as (_ & Hpt & _ & _ & (Hty & Hwh & _) & _ & _ & Hc).
  rewrite Hs, Hpd in Hpt. repeat split; congruence.
Qed.

Lemma step_truncated_at_max_path_step_witness :
  let G := set_boundary_cross (fun p => (p, 2000%Q, where_ p - 1))
             (demo_globals (fun _ => 1 # 2)) in
  exists d,
    step_distances_of G (demo_packet 3 10 0) 5000 demo_state = Ok (Distances d) /\
    sd_sdist d = 1000%Q /\ sd_snext d = 3.
Proof.
  intro G.
  destruct (step_distances_of G (demo_packet 3 10 0) 5000 demo_state)
    as [[r|d]| | |] eqn:Ed; try (vm_compute in Ed; discriminate).
  exists d. split; [reflexivity|].
  destruct (step_truncated_at_max_path_step G (demo_packet 3 10 0) 5000 demo_state
              (demo_packet 3 10 0) 2000%Q 2 d eq_refl) as (Hs & Hn & _);
    [reflexivity|exact Ed|].
  split; [exact Hs|exact Hn].
Defined.

(** ** Assertions that cannot fail *)

Section DeadAssertions.

Variable G : globals.

Lemma rpkt_event_continuum_allcontindex pkt c mgi st :
  rpkt_event_continuum G pkt c mgi st <> Fatal Assert_allcontindex.
Proof.
  unfold rpkt_event_continuum, draw_uniform. intro H.
  destruct (Qltb _ _) in H.
  - assert (Hf : Assert_allcontindex = Assert_unit_vector); [|discriminate].
    destruct (VPKT_ON G);
      (apply bind_Fatal in H; destruct H as [H | ([p1 st1] & _ & H)]; [|discriminate]);
      eapply emitt_rpkt_Q_Fatal; eauto.
  - destruct (Qltb _ _) in H; [discriminate|].
    destruct (Qltb _ _) in H; [|discriminate].
    apply bind_Fatal in H. destruct H as [H | (last & Hlast & H)].
    { exact (defined_not_Fatal _ _ H). }
    apply defined_Ok in Hlast. cbn [kappa_bf_sum set_rng] in Hlast.
    apply idx_Some_range in Hlast.
    apply bind_Fatal in H. destruct H as [H | (u & _ & H)].
    { apply assert_always_Fatal in H as [H _]. discriminate. }
    apply bind_Fatal in H. destruct H as [H | (a & Ha & H)].
    { exact (defined_not_Fatal _ _ H). }
    apply defined_Ok in Ha. unfold lower_bound in Ha.
    apply lower_bound_loop_range in Ha as [_ Ha].
    apply bind_Fatal in H. destruct H as [H | (u' & _ & H)].
    { apply assert_always_Fatal in H as [_ H]. apply Z.ltb_ge in H. lia. }
    fatal_step H. destruct (Qltb _ _) in H; discriminate.
Qed.

Lemma step_event_Fatal_cases d f :
  step_event G d = Fatal f ->
  (f = Assert_eventtype /\ thick G (sd_mgi d) <> 1 /\
   sd_eventtype d <> RPKT_EVENTTYPE_BB /\ sd_eventtype d <> RPKT_EVENTTYPE_CONT) \/
  (f <> Assert_eventtype /\ f <> Assert_allcontindex).
Proof.
  unfold step_event. intro H.
  apply bind_Fatal in H. destruct H as [H | ([p5 st5] & _ & H)]; [|discriminate].
  destruct (Z.eqb_spec (thick G (sd_mgi d)) 1) as [Ht|Ht].
  - apply rpkt_event_thickcell_Fatal in H. subst f. right. split; discriminate.
  - destruct (Z.eqb_spec (sd_eventtype d) RPKT_EVENTTYPE_BB) as [Eb|Eb]; [discriminate|].
    destruct (Z.eqb_spec (sd_eventtype d) RPKT_EVENTTYPE_CONT) as [Ec|Ec].
    + right. split.
      * apply rpkt_event_continuum_Fatal in H as [Hin _]. simpl in Hin.
        intro Hf. subst f. intuition discriminate.
      * intro Hf. subst f. exact (rpkt_event_continuum_allcontindex _ _ _ _ H).
    + injection H as <-. left. auto.
Qed.

Lemma step_dispatch_Fatal d f :
  step_dispatch G d = Fatal f ->
  ((sd_edist d < sd_sdist d)%Q /\ (sd_edist d < sd_tdist d)%Q /\ step_event G d = Fatal f) \/
  f = Abort_event_unidentified.
Proof.
  unfold step_dispatch. intro H.
  destruct (_ && _) in H; [exfalso; exact (step_boundary_not_Fatal G d _ H)|].
  destruct (Qltb (sd_edist d) (sd_sdist d)) eqn:E1;
    destruct (Qltb (sd_edist d) (sd_tdist d)) eqn:E2; cbn [andb] in H;
    try (left; apply Qltb_lt in E1, E2; auto; fail);
    (destruct (_ && _) in H; [exfalso; exact (step_time_not_Fatal G d _ H)|]);
    injection H as <-; auto.
Qed.

Lemma step_distances_of_max pkt t2 st d :
  step_distances_of G pkt t2 st = Ok (Distances d) ->
  (sd_sdist d <= max_path_step G)%Q.
Proof.
  intro Hd. destruct (boundary_cross G pkt) as [[pkt_b sdist0] snext0] eqn:Hbc.
  destruct (step_distances_of_fields G pkt t2 st d pkt_b sdist0 snext0 Hbc Hd)
    as (_ & _ & Hclamp & _).
  destruct (Qgtb sdist0 (max_path_step G)) eqn:E; injection Hclamp as -> _.
  - apply Qle_refl.
  - apply Qltb_ge in E. exact E.
Qed.

Lemma step_distances_of_untyped pkt t2 st d :
  step_distances_of G pkt t2 st = Ok (Distances d) ->
  (sd_mgi d = get_npts_model G \/
   (thick G (sd_mgi d) <> 1 /\ sd_eventtype d <> RPKT_EVENTTYPE_BB /\
    sd_eventtype d <> RPKT_EVENTTYPE_CONT)) ->
  sd_edist d = DBL_MAX.
Proof.
  intros Hd Hcase. destruct (boundary_cross G pkt) as [[pkt_b sdist0] snext0] eqn:Hbc.
  destruct (step_distances_of_fields G pkt t2 st d pkt_b sdist0 snext0 Hbc Hd)
    as (_ & _ & _ & _ & _ & _ & _ & _ & _ & Hty & Hempty & _).
  destruct Hcase as [He|(Ht & Hb & Hc)]; [exact (Hempty He)|].
  destruct Hty as [Hy|[Hy|[_ [Hy|Hy]]]]; try contradiction. exact Hy.
Qed.

End DeadAssertions.

(** X18. The assertion [allcontindex < nbfcontinua] of
    [rpkt_event_continuum] cannot fail: the search for the continuum ends at
    [nbfcontinua - 1] at the latest.  Neither the handler nor a sub-step as
    a whole ever stops on it. *)
Theorem allcontindex_assertion_holds G pkt c mgi t2 st :
  rpkt_event_continuum G pkt c mgi st <> Fatal Assert_allcontindex /\
  do_rpkt_step G pkt t2 st <> Fatal Assert_allcontindex.
Proof.
  split; [apply rpkt_event_continuum_allcontindex|].
  intro H. unfold do_rpkt_step in H.
  apply bind_Fatal in H. destruct H as [H | (p & Hp & H)].
  - apply step_distances_of_Fatal in H. unfold kappa_fatals in H. simpl in H.
    intuition discriminate.
  - destruct p as [r|d]; [discriminate|].
    apply step_dispatch_Fatal in H as [(_ & _ & H) | H]; [|discriminate].
    apply step_event_Fatal_cases in H as [(H & _) | (_ & H)]; [discriminate|].
    apply H. reflexivity.
Qed.

(** X19. With [max_path_step] no larger than the largest double, an event
    never comes without its type, and an empty cell has no events.  A
    sub-step never stops on the [assert_always(false)] for an unknown event
    type, and for a packet in an empty cell it calls no event handler. *)
Theorem eventtype_assertion_holds G pkt t2 st :
  (max_path_step G <= DBL_MAX)%Q ->
  do_rpkt_step G pkt t2 st <> Fatal Assert_eventtype /\
  (get_cell_modelgridindex G (where_ pkt) = get_npts_model G ->
   forall b pkt' st', do_rpkt_step G pkt t2 st = Ok (b, pkt', st') ->
     filter is_event_handler (trace st') = filter is_event_handler (trace st)).
Proof.
  intro Hmax. split.
  - intro H. unfold do_rpkt_step in H.
    apply bind_Fatal in H. destruct H as [H | (p & Hp & H)].
    + apply step_distances_of_Fatal in H. unfold kappa_fatals in H. simpl in H.
      intuition discriminate.
    + destruct p as [r|d]; [discriminate|].
      apply step_dispatch_Fatal in H as [(Hes & _ & H) | H]; [|discriminate].
      apply step_event_Fatal_cases in H as [(_ & Hcase) | (H & _)]; [|apply H; reflexivity].
      pose proof (step_distances_of_max G pkt t2 st d Hp) as Hs.
      rewrite (step_distances_of_untyped G pkt t2 st d Hp (or_intror Hcase)) in Hes. lra.
  - intros Hempty b pkt' st' H. unfold do_rpkt_step in H. bind_inv_as H p Hp.
    destruct p as [r|d].
    + injection H as ->. unfold step_distances_of in Hp.
      destruct (boundary_cross G pkt) as [[pkt_b sdist0] snext0].
      destruct (Qeq_bool sdist0 0); [|destruct (Qgtb _ _) in Hp; [discriminate|];
        destruct (_ || _) in Hp; [discriminate|];
        destruct (if Qgtb sdist0 (max_path_step G) then _ else _);
        bind_inv Hp; bind_inv Hp; destruct a0 as [[[[? ?] ?] ?] ?]; bind_inv Hp;
        discriminate].
      injection Hp as _ _ <-. reflexivity.
    + pose proof (step_distances_of_Ok G pkt t2 st _ Hp) as (Hold & Hmgi & _).
      pose proof (step_distances_of_max G pkt t2 st d Hp) as Hs.
      assert (He : sd_edist d = DBL_MAX).
      { apply (step_distances_of_untyped G pkt t2 st d Hp). left. congruence. }
      destruct (boundary_cross G pkt) as [[pkt_b sdist0] snext0] eqn:Hbc.
      destruct (step_distances_of_fields G pkt t2 st d pkt_b sdist0 snext0 Hbc Hp)
        as (_ & _ & _ & _ & _ & _ & _ & _ & _ & _ & _ & _ & Hh0 & _).
      apply step_dispatch_cases in H as [(_ & _ & H) | [(Hes & _ & H) | (_ & _ & H)]].
      * apply step_boundary_fields in H. cbn zeta in H.
        destruct H as (_ & _ & _ & _ & _ & _ & Hh & _). congruence.
      * rewrite He in Hes. lra.
      * apply step_time_fields in H as (_ & _ & _ & _ & _ & _ & _ & _ & _ & _ & Hh & _).
        congruence.
Qed.

Lemma eventtype_assertion_holds_witness :
  exists b pkt' st',
    do_rpkt_step (demo_globals (fun _ => 1 # 2)) (demo_packet 3 10 0) 100 demo_state
    = Ok (b, pkt', st') /\
    filter is_event_handler (trace st') = [].
Proof.
  destruct (do_rpkt_step (demo_globals (fun _ => 1 # 2)) (demo_packet 3 10 0) 100
              demo_state) as [[[b pkt'] st']| | |] eqn:Es;
    try (vm_compute in Es; discriminate).
  exists b, pkt', st'. split; [reflexivity|].
  destruct (eventtype_assertion_holds (demo_globals (fun _ => 1 # 2)) (demo_packet 3 10 0)
              100 demo_state) as [_ Hempty].
  - vm_compute. discriminate.
  - apply (Hempty eq_refl b pkt' st' Es).
Defined.

(** ** Sampling a continuum *)

(** X20. The continuum of a bound-free absorption is drawn by inversion of
    the cumulative sums.  After [calculate_kappa_bf_gammacontr] (with
    cross-sections and probabilities that are not negative, and a scratch
    array of [nbfcontinua] entries), the search of [rpkt_event_continuum]
    for a threshold [x] not above the total finds the first continuum whose
    cumulative sum reaches [x]: every earlier sum is below [x]. *)
Theorem bound_free_sampling G mgi nu st kappa_bf st' x :
  nonnegative_phixs G nu ->
  len (kappa_bf_sum st) = nbfcontinua G ->
  0 < nbfcontinua G ->
  calculate_kappa_bf_gammacontr G mgi nu st = Ok (kappa_bf, st') ->
  (x <= kappa_bf)%Q ->
  exists i s,
    lower_bound (kappa_bf_sum st') double_lt 0 (nbfcontinua G - 1) x = Some i /\
    0 <= i < nbfcontinua G /\
    idx (kappa_bf_sum st') i = Some s /\ (x <= s)%Q /\
    (forall j sj, 0 <= j < i -> idx (kappa_bf_sum st') j = Some sj -> (sj < x)%Q).
Proof.
  intros Hnn Hlen Hn H Hx.
  assert (Hsz : len (kappa_bf_sum st') = nbfcontinua G).
  { unfold calculate_kappa_bf_gammacontr in H.
    bind_inv_as H st0 Hst0. bind_inv_as H r Hloop. destruct r as [[i s] st1].
    bind_inv_as H st2 Hfill. injection H as _ <-.
    assert (H0 : kappa_bf_sum st0 = kappa_bf_sum st).
    { destruct (negb _ || negb _) in Hst0; [bind_inv Hst0|]; injection Hst0 as <-;
        reflexivity. }
    assert (Hgen1 : forall rest i0 s0 sta i1 s1 stb,
              kappa_bf_loop G mgi nu rest i0 s0 sta = Ok (i1, s1, stb) ->
              len (kappa_bf_sum stb) = len (kappa_bf_sum sta)).
    { induction rest as [|c rest IH]; intros i0 s0 sta i1 s1 stb Hl.
      - simpl in Hl. injection Hl as _ _ <-. reflexivity.
      - assert (Hskip : forall r,
                  (st2' <- store_kappa_bf_sum G i0 s0 sta ;;
                   kappa_bf_loop G mgi nu rest (i0 + 1) s0 st2') = Ok r ->
                  r = (i1, s1, stb) -> len (kappa_bf_sum stb) = len (kappa_bf_sum sta)).
        { intros r Hr ->. bind_inv_as Hr stc Hstc. apply IH in Hr.
          apply store_kappa_bf_sum_spec in Hstc as (Hu & _).
          apply upd_len in Hu. congruence. }
        cbn [kappa_bf_loop] in Hl.
        match type of Hl with (if ?b then _ else _) = _ => destruct b end;
          [|eapply Hskip; eauto].
        destruct (Qltb nu (phixs.nu_edge c)) in Hl.
        { injection Hl as _ _ <-. reflexivity. }
        match type of Hl with (if ?b then _ else _) = _ => destruct b end;
          [|eapply Hskip; eauto].
        bind_inv_as Hl cf Hcf. destruct cf as [corrfactor stc].
        apply bf_corrfactor_spec in Hcf as (_ & Hk & _).
        bind_inv_as Hl std Hstd. bind_inv_as Hl ste Hste.
        assert (Hd : kappa_bf_sum std = kappa_bf_sum stc).
        { destruct (negb _ || negb _) in Hstd; [|injection Hstd as <-; reflexivity].
          destruct (_ =? 0) in Hstd; [|injection Hstd as <-; reflexivity].
          bind_inv Hstd. bind_inv Hstd. injection Hstd as <-. reflexivity. }
        assert (He : kappa_bf_sum ste = kappa_bf_sum std).
        { destruct (DETAILED_BF_ESTIMATORS_ON G) in Hste; [bind_inv Hste|];
            injection Hste as <-; reflexivity. }
        destruct (negb (isfinite _)) in Hl; [discriminate|].
        bind_inv_as Hl a' Ha'. apply defined_Ok in Ha'. apply upd_len in Ha'.
        apply IH in Hl. cbn in Hl. congruence. }
    assert (Hgen2 : forall n i0 s0 sta stb,
              kappa_bf_fill G n i0 s0 sta = Ok stb ->
              len (kappa_bf_sum stb) = len (kappa_bf_sum sta)).
    { induction n as [|n IH]; intros i0 s0 sta stb Hf; simpl in Hf.
      - injection Hf as <-. reflexivity.
      - bind_inv_as Hf stc Hstc. apply IH in Hf.
        apply store_kappa_bf_sum_spec in Hstc as (Hu & _). apply upd_len in Hu. congruence. }
    apply Hgen1 in Hloop. apply Hgen2 in Hfill. congruence. }
  pose proof (calculate_kappa_bf_gammacontr_cumulative G true mgi nu st kappa_bf st'
                (fun _ => Hnn) H) as ((_ & Hlast & Hmono) & _).
  destruct (Hmono eq_refl) as [Hsorted Hbound]. specialize (Hlast Hn).
  assert (Hpart : partitioned (kappa_bf_sum st') double_lt x).
  { intros i j a b Hij Ha Hb Hc. unfold double_lt in *. apply Qltb_lt in Hc. apply Qltb_lt.
    apply idx_Some_range in Ha as Hi. apply idx_Some_range in Hb as Hj.
    eapply Qle_lt_trans; [|exact Hc]. apply (Hsorted i j a b); auto; lia. }
  destruct (lower_bound_loop_spec (kappa_bf_sum st') double_lt x Hpart
              (Z.to_nat (nbfcontinua G - 1 - 0)) 0 (nbfcontinua G - 1 - 0))
    as (r & Hr & Hrange & Hlo & Hhi); try lia.
  destruct (idx_in_range (kappa_bf_sum st') r) as [s Hs]; [lia|].
  exists r, s. split; [exact Hr|]. split; [lia|]. split; [exact Hs|]. split.
  - destruct (Z.eq_dec r (nbfcontinua G - 1)) as [->|Hne].
    + rewrite Hlast in Hs. injection Hs as <-. exact Hx.
    + assert (Hc : double_lt s x = false) by (apply (Hhi r s); [lia|exact Hs]).
      unfold double_lt in Hc. apply Qltb_ge in Hc. exact Hc.
  - intros j sj Hj Hsj.
    assert (Hc : double_lt sj x = true) by (apply (Hlo j sj); [lia|exact Hsj]).
    unfold double_lt in Hc. apply Qltb_lt in Hc. exact Hc.
Qed.

Lemma bound_free_sampling_witness :
  exists kappa_bf st' i s,
    calculate_kappa_bf_gammacontr (demo_globals (fun _ => 1 # 2)) 0 9 demo_state
    = Ok (kappa_bf, st') /\
    lower_bound (kappa_bf_sum st') double_lt 0 1 (1 # 10) = Some i /\
    idx (kappa_bf_sum st') i = Some s /\ (1 # 10 <= s)%Q.
Proof.
  destruct (calculate_kappa_bf_gammacontr (demo_globals (fun _ => 1 # 2)) 0 9 demo_state)
    as [[kappa_bf st']| | |] eqn:E; try (vm_compute in E; discriminate).
  destruct (bound_free_sampling (demo_globals (fun _ => 1 # 2)) 0 9 demo_state kappa_bf st'
              (1 # 10) demo_nonnegative_phixs eq_refl eq_refl E)
    as (i & s & Hlb & _ & Hs & Hx & _).
  - vm_compute in E. injection E as <- _. vm_compute. discriminate.
  - exists kappa_bf, st', i, s. repeat split; assumption.
Defined.

(** ** The loop of sub-steps ([do_rpkt]) *)

Section Clock.

Variable G : globals.

Hypothesis Hkeeps : boundary_cross_keeps_packet G.
Hypothesis Hc : (0 < CLIGHT_PROP G)%Q.



End Clock.



(** ** The boundary solver ([boundary_cross]) *)

Module BoundaryFacts.
Import Boundary.

Section Selection.

Variable G : globals.
Variable g : grid.
Variables (tmax tmin_ : Z -> Q) (lc : cell_boundary).
Variable pkt : packet Q.

Let step (s : selection) (d : Z) : selection :=
  select_min g tmin_ lc d (select_max g tmax lc d s).

(** The packet of a selection is the caller's packet but for [last_cross]. *)
Let shaped (s : selection) : Prop := exists l, sel_pkt s = set_last_cross l pkt.

Lemma shaped_where s : shaped s -> where_ (sel_pkt s) = where_ pkt.
Proof. intros [l ->]. reflexivity. Qed.

Lemma set_last_cross_twice l l' (p : packet Q) :
  set_last_cross l (set_last_cross l' p) = set_last_cross l p.
Proof. reflexivity. Qed.

Lemma select_max_spec d s :
  shaped s ->
  let s' := select_max g tmax lc d s in
  shaped s' /\ (time s' <= time s)%Q /\
  ((0 < tmax d)%Q -> lc <> negdirections d -> (time s' <= tmax d)%Q) /\
  (s' = s \/
   (choice s' = Some (posdirections d) /\ (time s' = tmax d /\ lc <> negdirections d) /\
    (0 < time s')%Q /\ (time s' < time s)%Q /\
    (sel_snext s' = -99 /\ get_cellcoordpointnum g (where_ pkt) d = ncoordgrid g d - 1 \/
     sel_snext s' = where_ pkt + get_coordcellindexincrement g d))).
Proof.
  intros Hs s'. subst s'. unfold select_max.
  pose proof (shaped_where s Hs) as Hw.
  destruct (Qgtb (tmax d) 0) eqn:E1; cbn [andb].
  2:{ split; [exact Hs|]. split; [apply Qle_refl|]. split; [|left; reflexivity].
      intros Hpos _. apply Qltb_ge in E1. lra. }
  destruct (Qltb (tmax d) (time s)) eqn:E2; cbn [andb].
  2:{ split; [exact Hs|]. split; [apply Qle_refl|]. split; [|left; reflexivity].
      intros _ _. apply Qltb_ge in E2. exact E2. }
  destruct (cell_boundary_eqb lc (negdirections d)) eqn:E3; cbn [negb].
  { split; [exact Hs|]. split; [apply Qle_refl|]. split; [|left; reflexivity].
    intros _ Hne. exfalso. apply Hne.
    destruct lc, (negdirections d); try discriminate; reflexivity. }
  apply Qltb_lt in E1, E2. cbn [time choice sel_snext sel_pkt].
  split.
  { destruct Hs as [l Hl]. destruct (_ =? _)%Z; cbn; [exists l; exact Hl|].
    rewrite Hl. eexists. reflexivity. }
  split; [lra|]. split; [intros; apply Qle_refl|].
  right. split; [reflexivity|]. split.
  { split; [reflexivity|]. intros ->. destruct (negdirections d); discriminate. }
  split; [exact E1|].
  split; [exact E2|]. rewrite Hw.
  destruct (Z.eqb_spec (get_cellcoordpointnum g (where_ pkt) d) (ncoordgrid g d - 1));
    [left; auto|right; reflexivity].
Qed.

Lemma select_min_spec d s :
  shaped s ->
  let s' := select_min g tmin_ lc d s in
  shaped s' /\ (time s' <= time s)%Q /\
  ((0 < tmin_ d)%Q -> lc <> posdirections d -> (time s' <= tmin_ d)%Q) /\
  (s' = s \/
   (choice s' = Some (negdirections d) /\ (time s' = tmin_ d /\ lc <> posdirections d) /\
    (0 < time s')%Q /\ (time s' < time s)%Q /\
    (sel_snext s' = -99 /\ get_cellcoordpointnum g (where_ pkt) d = 0 \/
     sel_snext s' = where_ pkt - get_coordcellindexincrement g d))).
Proof.
  intros Hs s'. subst s'. unfold select_min.
  pose proof (shaped_where s Hs) as Hw.
  destruct (Qgtb (tmin_ d) 0) eqn:E1; cbn [andb].
  2:{ split; [exact Hs|]. split; [apply Qle_refl|]. split; [|left; reflexivity].
      intros Hpos _. apply Qltb_ge in E1. lra. }
  destruct (Qltb (tmin_ d) (time s)) eqn:E2; cbn [andb].
  2:{ split; [exact Hs|]. split; [apply Qle_refl|]. split; [|left; reflexivity].
      intros _ _. apply Qltb_ge in E2. exact E2. }
  destruct (cell_boundary_eqb lc (posdirections d)) eqn:E3; cbn [negb].
  { split; [exact Hs|]. split; [apply Qle_refl|]. split; [|left; reflexivity].
    intros _ Hne. exfalso. apply Hne.
    destruct lc, (posdirections d); try discriminate; reflexivity. }
  apply Qltb_lt in E1, E2. cbn [time choice sel_snext sel_pkt].
  split.
  { destruct Hs as [l Hl]. destruct (_ =? _)%Z; cbn; [exists l; exact Hl|].
    rewrite Hl. eexists. reflexivity. }
  split; [lra|]. split; [intros; apply Qle_refl|].
  right. split; [reflexivity|]. split.
  { split; [reflexivity|]. intros ->. destruct (posdirections d); discriminate. }
  split; [exact E1|].
  split; [exact E2|]. rewrite Hw.
  destruct (Z.eqb_spec (get_cellcoordpointnum g (where_ pkt) d) 0);
    [left; auto|right; reflexivity].
Qed.

(** What a selection that has found a face says. *)
Let found (ds : list Z) (s0 s : selection) : Prop :=
  exists d, In d ds /\ (0 < time s)%Q /\ (time s < time s0)%Q /\
    ((choice s = Some (posdirections d) /\ (time s = tmax d /\ lc <> negdirections d) /\
      (sel_snext s = -99 /\ get_cellcoordpointnum g (where_ pkt) d = ncoordgrid g d - 1 \/
       sel_snext s = where_ pkt + get_coordcellindexincrement g d)) \/
     (choice s = Some (negdirections d) /\ (time s = tmin_ d /\ lc <> posdirections d) /\
      (sel_snext s = -99 /\ get_cellcoordpointnum g (where_ pkt) d = 0 \/
       sel_snext s = where_ pkt - get_coordcellindexincrement g d))).

Lemma select_spec ds0 s0 : shaped s0 ->
  forall ds s, (forall d, In d ds -> In d ds0) ->
  shaped s -> (s = s0 \/ found ds0 s0 s) ->
  let s' := fold_left step ds s in
  shaped s' /\ (time s' <= time s)%Q /\
  (s' = s0 \/ found ds0 s0 s') /\
  (forall d, In d ds ->
     ((0 < tmax d)%Q -> lc <> negdirections d -> (time s' <= tmax d)%Q) /\
     ((0 < tmin_ d)%Q -> lc <> posdirections d -> (time s' <= tmin_ d)%Q)).
Proof.
  intros Hs0 ds. induction ds as [|d ds IH]; intros s Hsub Hs Hinv; cbn [fold_left].
  - split; [exact Hs|]. split; [apply Qle_refl|]. split; [exact Hinv|]. intros d [].
  - destruct (select_max_spec d s Hs) as (Hs1 & Ht1 & Hm1 & Hc1).
    set (s1 := select_max g tmax lc d s) in *.
    destruct (select_min_spec d s1 Hs1) as (Hs2 & Ht2 & Hm2 & Hc2).
    assert (Hle0 : (time s <= time s0)%Q).
    { destruct Hinv as [->|(d0 & _ & _ & Hlt & _)]; [apply Qle_refl|lra]. }
    assert (Hin : In d ds0) by (apply Hsub; left; reflexivity).
    assert (Hinv1 : s1 = s0 \/ found ds0 s0 s1).
    { destruct Hc1 as [->|(Hch & Htm & Hpos & Hlt & Hsn)]; [exact Hinv|].
      right. exists d. split; [exact Hin|]. split; [exact Hpos|]. split; [lra|].
      left. auto. }
    assert (Hinv2 : select_min g tmin_ lc d s1 = s0 \/
                    found ds0 s0 (select_min g tmin_ lc d s1)).
    { destruct Hc2 as [->|(Hch & Htm & Hpos & Hlt & Hsn)]; [exact Hinv1|].
      right. exists d. split; [exact Hin|]. split; [exact Hpos|]. split; [lra|].
      right. auto. }
    destruct (IH (select_min g tmin_ lc d s1)) as (Hs' & Ht' & Hinv' & Hmin');
      [intros d' Hd'; apply Hsub; right; exact Hd'|exact Hs2|exact Hinv2|].
    change (step s d) with (select_min g tmin_ lc d s1).
    split; [exact Hs'|]. split; [lra|]. split; [exact Hinv'|].
    intros d' [<-|Hd'].
    + split.
      * intros Hp Hn. specialize (Hm1 Hp Hn). lra.
      * intros Hp Hn. specialize (Hm2 Hp Hn). lra.
    + apply Hmin'. exact Hd'.
Qed.

End Selection.

Section Sides.

Variable G : globals.
Variable g : grid.
Variable pkt : packet Q.
Variables (initpos cellcoordmax vel : Z -> Q).

Lemma check_sides_Crossing ds : forall lc x s p,
  check_sides G g pkt initpos cellcoordmax vel ds lc = Crossing (x, s, p) ->
  x = 0%Q /\ (exists l, p = set_last_cross l pkt) /\
  exists d, In d ds /\
    ((s = -99 /\
      (get_cellcoordpointnum g (where_ pkt) d = ncoordgrid g d - 1 \/
       get_cellcoordpointnum g (where_ pkt) d = 0)) \/
     s = where_ pkt + get_coordcellindexincrement g d \/
     s = where_ pkt - get_coordcellindexincrement g d).
Proof.
  assert (Hside : forall d flip lc x s p,
            check_side G g pkt initpos cellcoordmax vel d flip lc = Crossing (x, s, p) ->
            x = 0%Q /\ (exists l, p = set_last_cross l pkt) /\
            ((s = -99 /\
              (get_cellcoordpointnum g (where_ pkt) d = ncoordgrid g d - 1 \/
               get_cellcoordpointnum g (where_ pkt) d = 0)) \/
             s = where_ pkt + get_coordcellindexincrement g d \/
             s = where_ pkt - get_coordcellindexincrement g d)).
  { intros d flip lc x s p H. unfold check_side in H.
    destruct (_ && negb _) in H; [|discriminate].
    destruct (Qgtb _ _) in H; [|discriminate].
    destruct (_ || _) eqn:Eedge in H; injection H as <- <- <-.
    - split; [reflexivity|]. split; [exists (last_cross pkt); destruct pkt; reflexivity|].
      left. split; [reflexivity|].
      apply orb_true_iff in Eedge as [E|E]; apply andb_true_iff in E as [E _];
        apply Z.eqb_eq in E; auto.
    - split; [reflexivity|]. split; [eexists; reflexivity|].
      right. destruct flip; [right; lia|left; reflexivity]. }
  induction ds as [|d ds IH]; intros lc x s p H; cbn [check_sides] in H; [discriminate|].
  destruct (check_side G g pkt initpos cellcoordmax vel d false lc) as [r|lc1] eqn:E1.
  - injection H as ->. apply Hside in E1 as (Hx & Hp & Hs).
    split; [exact Hx|]. split; [exact Hp|]. exists d. split; [left; reflexivity|exact Hs].
  - destruct (check_side G g pkt initpos cellcoordmax vel d true lc1) as [r|lc2] eqn:E2.
    + injection H as ->. apply Hside in E2 as (Hx & Hp & Hs).
      split; [exact Hx|]. split; [exact Hp|]. exists d. split; [left; reflexivity|exact Hs].
    + apply IH in H as (Hx & Hp & d' & Hd' & Hs).
      split; [exact Hx|]. split; [exact Hp|]. exists d'. split; [right; exact Hd'|exact Hs].
Qed.

End Sides.

Lemma In_zrange n d : In d (zrange n) -> 0 <= d < n.
Proof.
  unfold zrange. intros H. apply in_map_iff in H as (k & <- & Hk).
  apply in_seq in Hk. lia.
Qed.

Lemma zrange_In n d : 0 <= d < n -> In d (zrange n).
Proof.
  intros H. unfold zrange. apply in_map_iff. exists (Z.to_nat d).
  split; [lia|]. apply in_seq. lia.
Qed.

Section Cases.

Variable G : globals.
Variable g : grid.
Variable pkt : packet Q.
Variable snext : Z.

Lemma nothing_found_shaped :
  exists l, sel_pkt (nothing_found pkt snext) = set_last_cross l pkt.
Proof. exists (last_cross pkt). destruct pkt; reflexivity. Qed.

(** The last loop: either nothing is found, or a face with the least
    positive time among those allowed. *)
Lemma select_from_nothing tmax tmin_ lc :
  let s := select g tmax tmin_ lc (zrange (get_ngriddimensions g))
             (nothing_found pkt snext) in
  (exists l, sel_pkt s = set_last_cross l pkt) /\
  (s = nothing_found pkt snext \/
   ((0 < time s)%Q /\ (time s < inject_Z (10 ^ 99))%Q /\ beyond_a_face g pkt (sel_snext s) /\
    exists d, 0 <= d < get_ngriddimensions g /\
      (time s = tmax d /\ lc <> negdirections d \/
       time s = tmin_ d /\ lc <> posdirections d))) /\
  (forall d, 0 <= d < get_ngriddimensions g ->
     ((0 < tmax d)%Q -> lc <> negdirections d -> (time s <= tmax d)%Q) /\
     ((0 < tmin_ d)%Q -> lc <> posdirections d -> (time s <= tmin_ d)%Q)).
Proof.
  intros s. subst s. unfold select.
  destruct (select_spec g tmax tmin_ lc pkt
              (zrange (get_ngriddimensions g)) (nothing_found pkt snext)
              nothing_found_shaped (zrange (get_ngriddimensions g))
              (nothing_found pkt snext))
    as (Hs & _ & Hinv & Hmin); [auto|exact nothing_found_shaped|left; reflexivity|].
  split; [exact Hs|]. split.
  - destruct Hinv as [->|(d & Hd & Hpos & Hlt & Hc)]; [left; reflexivity|right].
    apply In_zrange in Hd. split; [exact Hpos|]. split; [exact Hlt|]. split.
    + exists d. split; [exact Hd|].
      destruct Hc as [(_ & _ & [[? ?]|?])|(_ & _ & [[? ?]|?])]; auto.
    + exists d. split; [exact Hd|]. destruct Hc as [(_ & ? & _)|(_ & ? & _)]; auto.
  - intros d Hd. apply Hmin. apply zrange_In. exact Hd.
Qed.

(** The two ways in which [boundary_cross] returns. *)
Lemma boundary_cross_cases dist snext' pkt' :
  boundary_cross G g pkt snext = Done (dist, snext', pkt') ->
  (dist = 0%Q /\ (exists l, pkt' = set_last_cross l pkt) /\ beyond_a_face g pkt snext') \/
  (exists tmax tmin_ lc,
     let s := select g tmax tmin_ lc (zrange (get_ngriddimensions g))
                (nothing_found pkt snext) in
     dist = (CLIGHT_PROP G * time s)%Q /\ snext' = sel_snext s /\ pkt' = sel_pkt s).
Proof.
  assert (Hcross : forall ip cm vel,
            check_sides G g pkt ip cm vel (zrange (get_ngriddimensions g)) (last_cross pkt)
            = Crossing (dist, snext', pkt') ->
            dist = 0%Q /\ (exists l, pkt' = set_last_cross l pkt) /\ beyond_a_face g pkt snext').
  { intros ip cm vel H. apply check_sides_Crossing in H as (Hx & Hp & d & Hd & Hs).
    split; [exact Hx|]. split; [exact Hp|]. exists d. split; [apply In_zrange; exact Hd|exact Hs]. }
  unfold boundary_cross. intros H.
  destruct (GRID_TYPE g); [| |discriminate].
  - destruct (get_ngriddimensions g >? 3); [discriminate|].
    destruct (check_sides _ _ _ _ _ _ _ _) as [r|lc] eqn:E.
    + injection H as ->. left. exact (Hcross _ _ _ E).
    + injection H as <- <- <-. right. eexists _, _, lc. cbv zeta. auto.
  - destruct (get_ngriddimensions g >? 3); [discriminate|].
    destruct (check_sides _ _ _ _ _ _ _ _) as [r|lc] eqn:E.
    + injection H as ->. left. exact (Hcross _ _ _ E).
    + destruct (spherical_d_inner G g pkt) as [d_inner|]; [|discriminate].
      destruct (spherical_d_outer G g pkt) as [d_outer|]; [|discriminate].
      destruct (get_ngriddimensions g >? 1); [discriminate|].
      injection H as <- <- <-. right. eexists _, _, NONE. cbv zeta. auto.
Qed.

End Cases.


End BoundaryFacts.

(** X22. When [boundary_cross] returns, the packet is the one it was given
    but for [last_cross], and [*snext] is either left as it was, or the
    index of the cell beyond a face of the packet's cell ([where] plus or
    minus the index increment of a coordinate of the grid), or -99, which it
    is only if the cell lies at the edge of the grid in that coordinate. *)
Theorem boundary_cross_frame (G : globals) (g : Boundary.grid) (pkt : packet Q) (snext : Z)
    (dist : Q) (snext' : Z) (pkt' : packet Q) :
  Boundary.boundary_cross G g pkt snext = Boundary.Done (dist, snext', pkt') ->
  (exists l, pkt' = set_last_cross l pkt) /\
  (snext' = snext /\ pkt' = pkt \/
   exists d, 0 <= d < Boundary.get_ngriddimensions g /\
     ((snext' = -99 /\
       (Boundary.get_cellcoordpointnum g (where_ pkt) d = Boundary.ncoordgrid g d - 1 \/
        Boundary.get_cellcoordpointnum g (where_ pkt) d = 0)) \/
      snext' = where_ pkt + Boundary.get_coordcellindexincrement g d \/
      snext' = where_ pkt - Boundary.get_coordcellindexincrement g d)).
Proof.
  intros H. apply BoundaryFacts.boundary_cross_cases in H as [(_ & Hp & Hs)|(tmax & tmin_ & lc & H)].
  - split; [exact Hp|]. right. exact Hs.
  - cbv zeta in H. destruct H as (_ & -> & ->).
    destruct (BoundaryFacts.select_from_nothing g pkt snext tmax tmin_ lc) as (Hp & Hc & _).
    cbv zeta in Hp, Hc. split; [exact Hp|].
    destruct Hc as [->|(_ & _ & Hs & _)]; [left; split; reflexivity|right; exact Hs].
Qed.

Lemma boundary_cross_frame_witness :
  exists dist pkt',
    Boundary.boundary_cross (demo_globals (fun _ => 0%Q)) demo_grid (demo_packet 13 10 0) 0
    = Boundary.Done (dist, 14, pkt') /\
    exists l, pkt' = set_last_cross l (demo_packet 13 10 0).
Proof.
  destruct (Boundary.boundary_cross (demo_globals (fun _ => 0%Q)) demo_grid (demo_packet 13 10 0) 0)
    as [[[dist s] p]|] eqn:E; [|vm_compute in E; discriminate].
  assert (Hs : s = 14) by (vm_compute in E; congruence). subst s.
  exists dist, p. split; [reflexivity|].
  exact (proj1 (boundary_cross_frame _ _ _ _ _ _ _ E)).
Defined.

(** X23. With a positive speed of light, the distance that [boundary_cross]
    returns is never negative and never more than [CLIGHT_PROP * 1e99]; it is
    that large only when no face was found, and then [*snext] and the packet
    are left as they were. *)
Theorem boundary_cross_distance (G : globals) (g : Boundary.grid) (pkt : packet Q) (snext : Z)
    (dist : Q) (snext' : Z) (pkt' : packet Q) :
  (0 < CLIGHT_PROP G)%Q ->
  Boundary.boundary_cross G g pkt snext = Boundary.Done (dist, snext', pkt') ->
  (0 <= dist)%Q /\ (dist <= CLIGHT_PROP G * inject_Z (10 ^ 99))%Q /\
  ((dist == CLIGHT_PROP G * inject_Z (10 ^ 99))%Q -> snext' = snext /\ pkt' = pkt).
Proof.
  intros Hc H.
  assert (Hbig : (0 < inject_Z (10 ^ 99))%Q) by reflexivity.
  apply BoundaryFacts.boundary_cross_cases in H as [(-> & _ & _)|(tmax & tmin_ & lc & H)].
  - split; [apply Qle_refl|]. split; [nra|]. intros Heq. exfalso. nra.
  - cbv zeta in H. destruct H as (-> & -> & ->).
    destruct (BoundaryFacts.select_from_nothing g pkt snext tmax tmin_ lc) as (_ & Hs & _).
    cbv zeta in Hs. destruct Hs as [->|(Hpos & Hlt & _)].
    + cbn [Boundary.time Boundary.sel_snext Boundary.sel_pkt Boundary.nothing_found].
      split; [nra|]. split; [apply Qle_refl|]. auto.
    + split; [nra|]. split; [nra|]. intros Heq. exfalso. nra.
Qed.

Lemma boundary_cross_distance_witness :
  exists dist snext' pkt',
    Boundary.boundary_cross (demo_globals (fun _ => 0%Q)) demo_grid (demo_packet 12 10 0) 5
    = Boundary.Done (dist, snext', pkt') /\
    (dist == inject_Z (10 ^ 99))%Q /\ snext' = 5 /\ pkt' = demo_packet 12 10 0.
Proof.
  destruct (Boundary.boundary_cross (demo_globals (fun _ => 0%Q)) demo_grid (demo_packet 12 10 0) 5)
    as [[[dist s] p]|] eqn:E; [|vm_compute in E; discriminate].
  exists dist, s, p. split; [reflexivity|].
  assert (Hd : (dist == inject_Z (10 ^ 99))%Q) by (vm_compute in E; injection E as <- _ _; reflexivity).
  split; [exact Hd|].
  apply (boundary_cross_distance (demo_globals (fun _ => 0%Q)) demo_grid _ _ _ _ _
           ltac:(reflexivity) E).
  rewrite Hd. vm_compute. reflexivity.
Defined.

(** X24. On a uniform grid and with a positive speed of light, when the
    packet is found inside its cell, the distance that [boundary_cross]
    returns is the least of the positive distances to the faces that the
    packet did not just enter through: it is [CLIGHT_PROP] times the time to
    one of them (or [CLIGHT_PROP * 1e99], when none was found), and it does
    not exceed the distance to any of them. *)
Theorem boundary_cross_uniform_nearest (G : globals) (g : Boundary.grid) (pkt : packet Q)
    (snext : Z) (lc : cell_boundary) (dist : Q) (snext' : Z) (pkt' : packet Q) :
  Boundary.GRID_TYPE g = Boundary.GRID_UNIFORM ->
  (0 < CLIGHT_PROP G)%Q ->
  Boundary.check_sides G g pkt (Boundary.uniform_initpos g pkt)
    (Boundary.uniform_cellcoordmax g pkt) (Boundary.uniform_vel G g pkt)
    (zrange (Boundary.get_ngriddimensions g)) (last_cross pkt) = Boundary.Inside lc ->
  Boundary.boundary_cross G g pkt snext = Boundary.Done (dist, snext', pkt') ->
  let tmax := Boundary.uniform_t_coordmaxboundary G g pkt in
  let tmin_ := Boundary.uniform_t_coordminboundary G g pkt in
  (dist = (CLIGHT_PROP G * inject_Z (10 ^ 99))%Q \/
   exists d, 0 <= d < Boundary.get_ngriddimensions g /\
     (dist = (CLIGHT_PROP G * tmax d)%Q /\ (0 < tmax d)%Q /\ lc <> Boundary.negdirections d \/
      dist = (CLIGHT_PROP G * tmin_ d)%Q /\ (0 < tmin_ d)%Q /\ lc <> Boundary.posdirections d))
  /\
  (forall d, 0 <= d < Boundary.get_ngriddimensions g ->
     ((0 < tmax d)%Q -> lc <> Boundary.negdirections d -> (dist <= CLIGHT_PROP G * tmax d)%Q) /\
     ((0 < tmin_ d)%Q -> lc <> Boundary.posdirections d -> (dist <= CLIGHT_PROP G * tmin_ d)%Q)).
Proof.
  intros Hg Hc Hin H tmax tmin_. subst tmax tmin_. unfold Boundary.boundary_cross in H.
  rewrite Hg in H.
  destruct (Boundary.get_ngriddimensions g >? 3); [discriminate|].
  rewrite Hin in H. injection H as <- _ _.
  destruct (BoundaryFacts.select_from_nothing g pkt snext
              (Boundary.uniform_t_coordmaxboundary G g pkt)
              (Boundary.uniform_t_coordminboundary G g pkt) lc) as (_ & Hs & Hmin).
  cbv zeta in Hs, Hmin. split.
  - destruct Hs as [->|(Hpos & _ & _ & d & Hd & Hs)]; [left; reflexivity|right].
    exists d. split; [exact Hd|].
    destruct Hs as [[Ht Hl]|[Ht Hl]]; [left|right]; rewrite Ht in *; auto.
  - intros d Hd. destruct (Hmin d Hd) as [H1 H2]. split; intros Hp Hl.
    + specialize (H1 Hp Hl). nra.
    + specialize (H2 Hp Hl). nra.
Qed.

Lemma boundary_cross_uniform_nearest_witness :
  exists pkt',
    Boundary.boundary_cross (demo_globals (fun _ => 0%Q)) demo_grid (demo_packet 13 10 0) 0
    = Boundary.Done (8%Q, 14, pkt') /\
    (8 <= CLIGHT_PROP (demo_globals (fun _ => 0%Q))
          * Boundary.uniform_t_coordmaxboundary (demo_globals (fun _ => 0%Q)) demo_grid
              (demo_packet 13 10 0) 0)%Q.
Proof.
  destruct (Boundary.boundary_cross (demo_globals (fun _ => 0%Q)) demo_grid (demo_packet 13 10 0) 0)
    as [[[dist s] p]|] eqn:E; [|vm_compute in E; discriminate].
  assert (Hs : s = 14) by (vm_compute in E; congruence). subst s.
  assert (Hd : dist = 8%Q) by (vm_compute in E; congruence). subst dist.
  exists p. split; [reflexivity|].
  refine (proj1 (proj2 (boundary_cross_uniform_nearest (demo_globals (fun _ => 0%Q)) demo_grid
                          (demo_packet 13 10 0) 0 NONE _ _ _
                          eq_refl eq_refl _ E) 0 _) _ _).
  - vm_compute. reflexivity.
  - cbn. lia.
  - vm_compute. reflexivity.
  - discriminate.
Defined.

(** X25. [get_shellcrossdist] returns -1 or a distance that is not negative:
    a solution behind the packet or on the wrong side of the shell is never
    handed back. *)
Theorem get_shellcrossdist_forward (G : globals) (pos_ dir_ : vec Q) (shellradius : Q)
    (isinnerboundary : bool) (tstart x : Q) :
  Boundary.get_shellcrossdist G pos_ dir_ shellradius isinnerboundary tstart
  = Boundary.Done x ->
  x = (-1)%Q \/ (0 <= x)%Q.
Proof.
  unfold Boundary.get_shellcrossdist. intros H.
  destruct (negb _) in H; [discriminate|].
  destruct (Qltb _ 0) in H.
  { destruct (Qltb _ _) in H; [|discriminate]. left. congruence. }
  destruct (Qgtb _ 0) in H.
  2:{ destruct (Qle_bool _ _) in H; [|discriminate]. left. congruence. }
  destruct pos_ as [[p0 p1] p2], dir_ as [[u0 u1] u2].
  destruct (negb _) in H; [discriminate|].
  destruct (negb _) in H; [discriminate|].
  match type of H with
  | (if Qltb ?a 0 && Qltb ?b 0 then _ else _) = _ =>
      set (d1 := a) in *; set (d2 := b) in *
  end.
  destruct (Qltb d1 0) eqn:E1, (Qltb d2 0) eqn:E2; cbn [andb] in H;
    try apply Qltb_ge in E1; try apply Qltb_ge in E2.
  - left. congruence.
  - right. injection H as <-. exact E2.
  - right. injection H as <-. exact E1.
  - right. injection H as <-. destruct (Qltb d1 d2); assumption.
Qed.

Lemma get_shellcrossdist_forward_witness :
  exists x,
    Boundary.get_shellcrossdist (demo_globals (fun _ => 0%Q)) (1, 0, 0)%Q (1, 0, 0)%Q 5 false 10
    = Boundary.Done x /\ (0 <= x)%Q.
Proof.
  destruct (Boundary.get_shellcrossdist (demo_globals (fun _ => 0%Q)) (1, 0, 0)%Q (1, 0, 0)%Q
              5 false 10) as [x|] eqn:E; [|vm_compute in E; discriminate].
  exists x. split; [reflexivity|].
  destruct (get_shellcrossdist_forward _ _ _ _ _ _ _ E) as [->|Hx]; [|exact Hx].
  exfalso. vm_compute in E. discriminate.
Defined.

(** X26. On a spherical grid of one coordinate and with a positive speed of
    light, the distance that [boundary_cross] returns does not exceed a
    positive distance to the inner or to the outer shell of the cell, as
    [get_shellcrossdist] gives them, and it is one of: 0 (the packet was
    found outside its cell), the distance to the outer shell, the distance
    to the inner shell, [CLIGHT_PROP * 1e99]. *)
Theorem boundary_cross_spherical_nearest (G : globals) (g : Boundary.grid) (pkt : packet Q)
    (snext : Z) (d_inner d_outer dist : Q) (snext' : Z) (pkt' : packet Q) :
  Boundary.GRID_TYPE g = Boundary.GRID_SPHERICAL1D ->
  Boundary.get_ngriddimensions g = 1 ->
  (0 < CLIGHT_PROP G)%Q ->
  Boundary.spherical_d_inner G g pkt = Boundary.Done d_inner ->
  Boundary.spherical_d_outer G g pkt = Boundary.Done d_outer ->
  Boundary.boundary_cross G g pkt snext = Boundary.Done (dist, snext', pkt') ->
  ((0 < d_outer)%Q -> (dist <= d_outer)%Q) /\
  ((0 < d_inner)%Q -> (dist <= d_inner)%Q) /\
  ((dist == 0)%Q \/ (dist == d_outer)%Q \/ (dist == d_inner)%Q \/
   (dist == CLIGHT_PROP G * inject_Z (10 ^ 99))%Q).
Proof.
  intros Hg Hn Hc Hin Hout H.
  assert (Hdiv : forall x, (CLIGHT_PROP G * (x / CLIGHT_PROP G) == x)%Q).
  { intros x. apply Qmult_div_r. intros E. rewrite E in Hc. discriminate. }
  assert (Hdivpos : forall x, (0 < x)%Q -> (0 < x / CLIGHT_PROP G)%Q).
  { intros x Hx. apply Qlt_shift_div_l; [exact Hc|]. lra. }
  unfold Boundary.boundary_cross in H. rewrite Hg in H.
  destruct (Boundary.get_ngriddimensions g >? 3); [discriminate|].
  destruct (Boundary.check_sides _ _ _ _ _ _ _ _) as [r|lc] eqn:E.
  - injection H as ->.
    apply BoundaryFacts.check_sides_Crossing in E as (-> & _ & _).
    split; [intros; lra|]. split; [intros; lra|]. left. reflexivity.
  - rewrite Hin, Hout in H.
    destruct (Boundary.get_ngriddimensions g >? 1) eqn:En; [discriminate|].
    injection H as <- _ _.
    destruct (BoundaryFacts.select_from_nothing g pkt snext
                (fun _ : Z => (d_outer / CLIGHT_PROP G)%Q)
                (fun _ : Z => (d_inner / CLIGHT_PROP G)%Q) NONE) as (_ & Hs & Hmin).
    cbv zeta in Hs, Hmin. cbv beta in Hs, Hmin.
    destruct (Hmin 0 ltac:(lia)) as [H1 H2].
    split; [|split].
    + intros Hp. specialize (H1 (Hdivpos _ Hp) ltac:(discriminate)).
      rewrite <- (Hdiv d_outer). nra.
    + intros Hp. specialize (H2 (Hdivpos _ Hp) ltac:(discriminate)).
      rewrite <- (Hdiv d_inner). nra.
    + destruct Hs as [->|(_ & _ & _ & d & _ & [[-> _]|[-> _]])].
      * right. right. right. reflexivity.
      * right. left. apply Hdiv.
      * right. right. left. apply Hdiv.
Qed.

Lemma boundary_cross_spherical_nearest_witness :
  exists dist snext' pkt' d_outer,
    Boundary.boundary_cross (demo_globals (fun _ => 0%Q)) demo_shells (demo_packet 0 10 0) 0
    = Boundary.Done (dist, snext', pkt') /\
    Boundary.spherical_d_outer (demo_globals (fun _ => 0%Q)) demo_shells (demo_packet 0 10 0)
    = Boundary.Done d_outer /\
    (d_outer == 8)%Q /\ (dist <= d_outer)%Q.
Proof.
  destruct (Boundary.boundary_cross (demo_globals (fun _ => 0%Q)) demo_shells
              (demo_packet 0 10 0) 0) as [[[dist s] p]|] eqn:E; [|vm_compute in E; discriminate].
  destruct (Boundary.spherical_d_outer (demo_globals (fun _ => 0%Q)) demo_shells
              (demo_packet 0 10 0)) as [d_outer|] eqn:Hout; [|vm_compute in Hout; discriminate].
  assert (Hd : (d_outer == 8)%Q) by (vm_compute in Hout; injection Hout as <-; reflexivity).
  exists dist, s, p, d_outer. split; [reflexivity|]. split; [reflexivity|]. split; [exact Hd|].
  refine (proj1 (boundary_cross_spherical_nearest (demo_globals (fun _ => 0%Q)) demo_shells
                   (demo_packet 0 10 0) 0 (-1) d_outer dist s p eq_refl eq_refl eq_refl
                   _ Hout E) _).
  - vm_compute. reflexivity.
  - rewrite Hd. reflexivity.
Defined.

(** ** The order of the line list ([compare_linelistentry]) *)

(** X27. [compare_linelistentry] returns -1, 0 or 1 and changes nothing of
    the second entry but its frequency.  When it does not put the first
    entry after the second (a value that is not positive), the frequency of
    the first is at least the frequency the second is left with, which is
    the descending order of the line list.  It returns 0 only for two
    entries that it leaves with the same frequency and that have the same
    level indices. *)
Theorem compare_linelistentry_order (a1 a2 a2' : linelist_entry) (r : Z) :
  compare_linelistentry a1 a2 = (r, a2') ->
  (r = -1 \/ r = 0 \/ r = 1) /\
  elementindex a2' = elementindex a2 /\ ionindex a2' = ionindex a2 /\
  lowerlevelindex a2' = lowerlevelindex a2 /\ upperlevelindex a2' = upperlevelindex a2 /\
  (r <= 0 -> (nu a2' <= nu a1)%Q) /\
  (r = 0 -> nu a2' = nu a1 /\ lowerlevelindex a1 = lowerlevelindex a2 /\
            upperlevelindex a1 = upperlevelindex a2).
Proof.
  unfold compare_linelistentry. intros H.
  destruct (Qltb (Qabs _) _).
  - cbn [lowerlevelindex upperlevelindex] in H.
    destruct (Z.gtb_spec (lowerlevelindex a1) (lowerlevelindex a2)) as [Hl|Hl];
      [injection H as <- <-; cbn; repeat split; auto; try lia; intros; apply Qle_refl|].
    destruct (Z.ltb_spec (lowerlevelindex a1) (lowerlevelindex a2)) as [Hl'|Hl'];
      [injection H as <- <-; cbn; repeat split; auto; lia|].
    destruct (Z.gtb_spec (upperlevelindex a1) (upperlevelindex a2)) as [Hu|Hu];
      [injection H as <- <-; cbn; repeat split; auto; try lia; intros; apply Qle_refl|].
    destruct (Z.ltb_spec (upperlevelindex a1) (upperlevelindex a2)) as [Hu'|Hu'];
      [injection H as <- <-; cbn; repeat split; auto; lia|].
    injection H as <- <-. cbn. repeat split; auto; try lia. intros; apply Qle_refl.
  - destruct (Qltb (nu a1) (nu a2) || Qeq_bool (nu a1) (nu a2)) eqn:E.
    + injection H as <- <-. repeat split; auto; lia.
    + apply orb_false_iff in E as [E1 E2]. apply Qltb_ge in E1.
      assert (Hne : ~ (nu a1 == nu a2)%Q).
      { intros Heq. apply Qeq_bool_iff in Heq. congruence. }
      assert (Hgt : Qgtb (nu a1) (nu a2) = true).
      { apply Qltb_lt. apply Qle_lt_or_eq in E1 as [Hlt|Heq]; [exact Hlt|].
        exfalso. apply Hne. symmetry. exact Heq. }
      rewrite Hgt in H. injection H as <- <-. repeat split; auto; try lia.
Qed.

Lemma compare_linelistentry_order_witness :
  exists a2',
    compare_linelistentry (mk_line 10 0 0 1 0) (mk_line 8 0 0 2 0) = (-1, a2') /\
    (nu a2' <= 10)%Q.
Proof.
  destruct (compare_linelistentry (mk_line 10 0 0 1 0) (mk_line 8 0 0 2 0)) as [r a2'] eqn:E.
  assert (Hr : r = -1) by (vm_compute in E; congruence). subst r.
  exists a2'. split; [reflexivity|].
  exact (proj1 (proj2 (proj2 (proj2 (proj2 (proj2
           (compare_linelistentry_order _ _ _ _ E)))))) ltac:(lia)).
Defined.

(** X28. The tolerance of [compare_linelistentry] is taken from its first
    argument, so the comparison is not consistent: for two lines of which
    the first has the higher frequency, closer than [1e-10] times that
    frequency but not closer than [1e-10] times the lower one, and the lower
    index of the lower level, each call puts its first argument after its
    second. *)
Theorem compare_linelistentry_asymmetric (a b : linelist_entry) :
  (nu b < nu a)%Q ->
  (nu a - nu b < (1 # 10000000000) * nu a)%Q ->
  ((1 # 10000000000) * nu b <= nu a - nu b)%Q ->
  lowerlevelindex a < lowerlevelindex b ->
  fst (compare_linelistentry a b) = 1 /\ fst (compare_linelistentry b a) = 1.
Proof.
  intros Hlt Hin Hout Hl. unfold compare_linelistentry. split.
  - assert (E : Qltb (Qabs (nu b - nu a)) ((1 # 10000000000) * nu a) = true).
    { apply Qltb_lt. rewrite Qabs_neg by lra. lra. }
    rewrite E. cbn [lowerlevelindex].
    destruct (Z.gtb_spec (lowerlevelindex a) (lowerlevelindex b)); [lia|].
    destruct (Z.ltb_spec (lowerlevelindex a) (lowerlevelindex b)); [reflexivity|lia].
  - assert (E : Qltb (Qabs (nu a - nu b)) ((1 # 10000000000) * nu b) = false).
    { apply Qltb_ge. rewrite Qabs_pos by lra. exact Hout. }
    rewrite E.
    assert (E' : Qltb (nu b) (nu a) = true) by (apply Qltb_lt; exact Hlt).
    rewrite E'. reflexivity.
Qed.

Lemma compare_linelistentry_asymmetric_witness :
  fst (compare_linelistentry (mk_line 10000000001 0 0 1 0) (mk_line 10000000000 0 0 2 1)) = 1 /\
  fst (compare_linelistentry (mk_line 10000000000 0 0 2 1) (mk_line 10000000001 0 0 1 0)) = 1.
Proof.
  apply compare_linelistentry_asymmetric;
    first [vm_compute; reflexivity | vm_compute; discriminate].
Defined.
